(** * MeowScript: the compiler front-end, embedded and verified

    The four phases of the MeowScript compiler (lexer.py, parser.py,
    semantic.py, codegen.py) and its driver (main.py) are embedded as
    Rocq functions, one module per source file.  Python objects that are
    mutated in place (the parser, the analyzer, the generator) become
    records threaded through the functions; Python exceptions become the
    [Raises] outcome. *)

From Stdlib Require Import ZArith String Ascii List.
From Stdlib Require Import DecimalString DecimalNat DecimalZ.
From Stdlib Require Import Floats.SpecFloat.
From stdpp Require Import gmap strings list.

#[local] Set Warnings "-register-all".
Local Open Scope string_scope.

(** ** Python builtins used by the sources *)

(** [str(n)] on an [int]. *)
Definition str_int (z : Z) : string := NilZero.string_of_int (Z.to_int z).

(** [str(n)] on a non-negative [int] held as a counter or a length. *)
Definition str_nat (n : nat) : string := NilEmpty.string_of_uint (Nat.to_uint n).

(** What a call returns: a value, or an exception that unwinds. *)
Inductive outcome (E A : Type) : Type :=
| Returns (a : A)
| Raises (e : E).
Arguments Returns {E A} a.
Arguments Raises {E A} e.

(** ** lexer.py *)

Module lexer.

Inductive TokenType : Type :=
| WAKE | SLEEP | HUNT | BOX | PAWS | PURR | HISS | CHASE | BRING | MEOW
| INTEGER | FLOAT | STRING
| IDENTIFIER
| PLUS | MINUS | MULTIPLY | DIVIDE | MODULO
| EQUAL | NOT_EQUAL | LESS | GREATER | LESS_EQUAL | GREATER_EQUAL
| AND | OR | NOT
| LPAREN | RPAREN | LBRACE | RBRACE | COMMA | SEMICOLON
| EOF | NEWLINE.

#[global] Instance TokenType_eq_dec : EqDecision TokenType.
Proof. solve_decision. Defined.

(** [TokenType.X.name] *)
Definition TokenType_name (t : TokenType) : string :=
  match t with
  | WAKE => "WAKE" | SLEEP => "SLEEP" | HUNT => "HUNT" | BOX => "BOX"
  | PAWS => "PAWS" | PURR => "PURR" | HISS => "HISS" | CHASE => "CHASE"
  | BRING => "BRING" | MEOW => "MEOW"
  | INTEGER => "INTEGER" | FLOAT => "FLOAT" | STRING => "STRING"
  | IDENTIFIER => "IDENTIFIER"
  | PLUS => "PLUS" | MINUS => "MINUS" | MULTIPLY => "MULTIPLY"
  | DIVIDE => "DIVIDE" | MODULO => "MODULO"
  | EQUAL => "EQUAL" | NOT_EQUAL => "NOT_EQUAL" | LESS => "LESS"
  | GREATER => "GREATER" | LESS_EQUAL => "LESS_EQUAL"
  | GREATER_EQUAL => "GREATER_EQUAL"
  | AND => "AND" | OR => "OR" | NOT => "NOT"
  | LPAREN => "LPAREN" | RPAREN => "RPAREN" | LBRACE => "LBRACE"
  | RBRACE => "RBRACE" | COMMA => "COMMA" | SEMICOLON => "SEMICOLON"
  | EOF => "EOF" | NEWLINE => "NEWLINE"
  end.

(** [Token.value]: an [int], a [float], a [str] or [None]. *)
Inductive TokenValue : Type :=
| VInt (z : Z)
| VFloat (f : spec_float)
| VStr (s : string)
| VNone.

Record Token : Type := mkToken {
  type : TokenType;
  value : TokenValue;
  line : Z;
  column : Z
}.

(** What unwinds out of the lexer: [LexerError(message, line, column)],
    the [ValueError] of [int()], which refuses a numeral of too many
    digits, and the model's own signal that a loop was cut off by its
    fuel. *)
Inductive exn : Type :=
| LexerError (message : string) (ln col : Z)
| ValueError
| OutOfFuel.

Record Lexer : Type := mkLexer {
  source : string;
  pos : nat;
  cur_line : Z;
  cur_column : Z;
  tokens : list Token
}.

(** [Lexer.__init__].  The source is read as ASCII text, one character
    per byte. *)
Definition Lexer_init (source_code : string) : Lexer :=
  {| source := source_code; pos := 0; cur_line := 1; cur_column := 1; tokens := [] |}.

Definition L (A : Type) : Type := Lexer → outcome exn (A * Lexer).

Definition ret {A} (x : A) : L A := fun lx => Returns (x, lx).

Definition bind {A B} (m : L A) (k : A → L B) : L B :=
  fun lx => match m lx with
            | Returns (x, lx') => k x lx'
            | Raises e => Raises e
            end.

Definition raise {A} (e : exn) : L A := fun _ => Raises e.

Declare Scope lexer_scope.
Delimit Scope lexer_scope with lexer.
Notation "'let*' x ':=' m 'in' k" := (bind m (fun x => k))
  (at level 10, x name, m at level 100, k at level 200) : lexer_scope.
Notation "m '>>' k" := (bind m (fun _ => k))
  (at level 100, k at level 200, right associativity) : lexer_scope.
Local Open Scope lexer_scope.

Definition newline : ascii := "010"%char.
Definition tab : ascii := "009"%char.
Definition carriage_return : ascii := "013"%char.
Definition double_quote : ascii := "034"%char.
Definition backslash : ascii := "092"%char.

Definition char_in (c : ascii) (s : string) : bool :=
  existsb (Ascii.eqb c) (list_ascii_of_string s).

(** [' \t\n\r'] *)
Definition whitespace : string :=
  String " " (String tab (String newline (String carriage_return EmptyString))).

(** [str.isdigit], [str.isalpha] and [str.isalnum] on an ASCII character. *)
Definition isdigit (c : ascii) : bool :=
  (48 <=? nat_of_ascii c)%nat && (nat_of_ascii c <=? 57)%nat.

Definition isalpha (c : ascii) : bool :=
  ((65 <=? nat_of_ascii c)%nat && (nat_of_ascii c <=? 90)%nat)
  || ((97 <=? nat_of_ascii c)%nat && (nat_of_ascii c <=? 122)%nat).

Definition isalnum (c : ascii) : bool := isalpha c || isdigit c.

(** [s += c] *)
Definition snoc_char (s : string) (c : ascii) : string :=
  s ++ String c EmptyString.

Definition current_char : L (option ascii) := fun lx =>
  Returns (String.get (pos lx) (source lx), lx).

Definition peek_char : L (option ascii) := fun lx =>
  Returns (String.get (pos lx + 1) (source lx), lx).

Definition position : L (Z * Z) := fun lx =>
  Returns ((cur_line lx, cur_column lx), lx).

Definition advance : L (option ascii) := fun lx =>
  match String.get (pos lx) (source lx) with
  | None => Returns (None, lx)
  | Some char =>
      Returns (Some char,
        if Ascii.eqb char newline then
          {| source := source lx; pos := pos lx + 1; cur_line := cur_line lx + 1;
             cur_column := 1; tokens := tokens lx |}
        else
          {| source := source lx; pos := pos lx + 1; cur_line := cur_line lx;
             cur_column := cur_column lx + 1; tokens := tokens lx |})
  end.

(** [self.tokens.append(token)] *)
Definition append_token (t : Token) : L unit := fun lx =>
  Returns (tt, {| source := source lx; pos := pos lx; cur_line := cur_line lx;
                  cur_column := cur_column lx; tokens := tokens lx ++ [t] |}).

Fixpoint skip_whitespace (fuel : nat) : L unit :=
  match fuel with
  | O => raise OutOfFuel
  | S fuel =>
      let* c := current_char in
      match c with
      | Some c => if char_in c whitespace then advance >> skip_whitespace fuel else ret tt
      | None => ret tt
      end
  end.

Fixpoint skip_to_end_of_line (fuel : nat) : L unit :=
  match fuel with
  | O => raise OutOfFuel
  | S fuel =>
      let* c := current_char in
      match c with
      | Some c => if Ascii.eqb c newline then ret tt else advance >> skip_to_end_of_line fuel
      | None => ret tt
      end
  end.

Definition skip_single_line_comment (fuel : nat) : L unit :=
  advance >> advance >> skip_to_end_of_line fuel.

Fixpoint skip_to_comment_end (fuel : nat) : L unit :=
  match fuel with
  | O => raise OutOfFuel
  | S fuel =>
      let* c := current_char in
      match c with
      | Some c =>
          let* n := peek_char in
          if Ascii.eqb c "*" && bool_decide (n = Some "/"%char)
          then advance >> advance >> ret tt
          else advance >> skip_to_comment_end fuel
      | None =>
          let* p := position in
          raise (LexerError "Unterminated multi-line comment" (fst p) (snd p))
      end
  end.

Definition skip_multi_line_comment (fuel : nat) : L unit :=
  advance >> advance >> skip_to_comment_end fuel.

(** [sys.get_int_max_str_digits()]: the number of digits beyond which
    [int()] refuses a decimal text, 4300 unless the interpreter is told
    otherwise. *)
Definition int_max_str_digits : nat := 4300.

(** [int(s)] on a text of decimal digits: [None] stands for its
    [ValueError], raised on more than [int_max_str_digits] digits.  The
    lexer passes it digits only, and at least one. *)
Definition int_of_string (s : string) : option Z :=
  if (int_max_str_digits <? String.length s)%nat then None
  else match NilEmpty.uint_of_string s with
       | Some d => Some (Z.of_uint d)
       | None => None
       end.

Section tokenizer.
(** [float(s)], Python's conversion of a decimal text to the nearest
    double.  It is not part of the repository and is taken as given. *)
Variable float_of_string : string → spec_float.

(** The loop of [read_number]; it returns [num_str] and [is_float]. *)
Fixpoint read_number_loop (fuel : nat) (num_str : string) (is_float : bool)
  : L (string * bool) :=
  match fuel with
  | O => raise OutOfFuel
  | S fuel =>
      let* c := current_char in
      match c with
      | Some c =>
          if isdigit c || Ascii.eqb c "." then
            let* is_float :=
              if Ascii.eqb c "." then
                if is_float then
                  let* p := position in
                  raise (LexerError "Invalid number format: multiple decimal points"
                           (fst p) (snd p))
                else ret true
              else ret is_float in
            advance >> read_number_loop fuel (snoc_char num_str c) is_float
          else ret (num_str, is_float)
      | None => ret (num_str, is_float)
      end
  end.

(** [s.endswith('.')] *)
Definition ends_with_dot (s : string) : bool :=
  match rev (list_ascii_of_string s) with
  | c :: _ => Ascii.eqb c "."
  | [] => false
  end.

Definition read_number (fuel : nat) : L Token :=
  let* start := position in
  let* r := read_number_loop fuel "" false in
  let num_str := fst r in
  let is_float := snd r in
  (if is_float && ends_with_dot num_str then
     let* c := current_char in
     match c with
     | Some c =>
         if isdigit c then ret tt
         else raise (LexerError
                "Invalid number format: decimal point must be followed by digits"
                (fst start) (snd start))
     | None =>
         raise (LexerError
           "Invalid number format: decimal point must be followed by digits"
           (fst start) (snd start))
     end
   else ret tt) >>
  if is_float then
    ret (mkToken FLOAT (VFloat (float_of_string num_str)) (fst start) (snd start))
  else
    match int_of_string num_str with
    | Some v => ret (mkToken INTEGER (VInt v) (fst start) (snd start))
    | None => raise ValueError
    end.

(** The loop of [read_string]; it returns [string_value]. *)
Fixpoint read_string_loop (fuel : nat) (start : Z * Z) (string_value : string)
  : L string :=
  match fuel with
  | O => raise OutOfFuel
  | S fuel =>
      let* c := current_char in
      match c with
      | Some c =>
          if Ascii.eqb c double_quote then ret string_value
          else if Ascii.eqb c backslash then
            advance >>
            let* next_char := current_char in
            match next_char with
            | None =>
                raise (LexerError "Unterminated string literal" (fst start) (snd start))
            | Some n =>
                let escaped :=
                  if Ascii.eqb n "n" then newline
                  else if Ascii.eqb n "t" then tab
                  else if Ascii.eqb n double_quote then double_quote
                  else if Ascii.eqb n backslash then backslash
                  else n in
                advance >> read_string_loop fuel start (snoc_char string_value escaped)
            end
          else if Ascii.eqb c newline then
            raise (LexerError "Unterminated string literal (newline in string)"
                     (fst start) (snd start))
          else advance >> read_string_loop fuel start (snoc_char string_value c)
      | None => ret string_value
      end
  end.

Definition read_string (fuel : nat) : L Token :=
  let* start := position in
  advance >>
  let* string_value := read_string_loop fuel start "" in
  let* c := current_char in
  if bool_decide (c = Some double_quote) then
    advance >> ret (mkToken STRING (VStr string_value) (fst start) (snd start))
  else raise (LexerError "Unterminated string literal" (fst start) (snd start)).

(** [Lexer.KEYWORDS.get(identifier, TokenType.IDENTIFIER)] *)
Definition KEYWORDS : list (string * TokenType) :=
  [ ("Wake", WAKE); ("Sleep", SLEEP); ("Hunt", HUNT); ("Box", BOX);
    ("paws", PAWS); ("Purr", PURR); ("Hiss", HISS); ("Chase", CHASE);
    ("Bring", BRING); ("Meow", MEOW) ].

Definition keyword_or_identifier (identifier : string) : TokenType :=
  match List.find (λ kw, String.eqb (fst kw) identifier) KEYWORDS with
  | Some kw => snd kw
  | None => IDENTIFIER
  end.

Fixpoint read_identifier_loop (fuel : nat) (identifier : string) : L string :=
  match fuel with
  | O => raise OutOfFuel
  | S fuel =>
      let* c := current_char in
      match c with
      | Some c =>
          if isalnum c || Ascii.eqb c "_"
          then advance >> read_identifier_loop fuel (snoc_char identifier c)
          else ret identifier
      | None => ret identifier
      end
  end.

Definition read_identifier_or_keyword (fuel : nat) : L Token :=
  let* start := position in
  let* identifier := read_identifier_loop fuel "" in
  ret (mkToken (keyword_or_identifier identifier) (VStr identifier) (fst start) (snd start)).

(** The two-character operators, tried in the order of [tokenize]. *)
Definition two_char_tokens : list (ascii * ascii * (TokenType * string)) :=
  [ ("="%char, "="%char, (EQUAL, "=="));
    ("!"%char, "="%char, (NOT_EQUAL, "!="));
    ("<"%char, "="%char, (LESS_EQUAL, "<="));
    (">"%char, "="%char, (GREATER_EQUAL, ">="));
    ("&"%char, "&"%char, (AND, "&&"));
    ("|"%char, "|"%char, (OR, "||")) ].

Definition single_char_tokens : list (ascii * TokenType) :=
  [ ("+"%char, PLUS); ("-"%char, MINUS); ("*"%char, MULTIPLY); ("/"%char, DIVIDE);
    ("%"%char, MODULO); ("<"%char, LESS); (">"%char, GREATER); ("!"%char, NOT);
    ("("%char, LPAREN); (")"%char, RPAREN); ("{"%char, LBRACE); ("}"%char, RBRACE);
    (","%char, COMMA); (";"%char, SEMICOLON) ].

(** The part of the loop of [tokenize] after identifiers: operators and
    delimiters, or the error for an unknown character. *)
Definition read_operator (char : ascii) : L unit :=
  let* start := position in
  let* n := peek_char in
  match List.find (λ t, Ascii.eqb (fst (fst t)) char
                        && bool_decide (n = Some (snd (fst t)))) two_char_tokens with
  | Some (_, (ty, text)) =>
      advance >> advance >>
      append_token (mkToken ty (VStr text) (fst start) (snd start))
  | None =>
      match List.find (λ t, Ascii.eqb (fst t) char) single_char_tokens with
      | Some (_, ty) =>
          advance >>
          append_token (mkToken ty (VStr (String char EmptyString)) (fst start) (snd start))
      | None =>
          raise (LexerError
            ("Unexpected character: '" ++ String char EmptyString ++ "'")
            (fst start) (snd start))
      end
  end.

(** The loop of [tokenize]. *)
Fixpoint tokenize_loop (fuel : nat) : L unit :=
  match fuel with
  | O => raise OutOfFuel
  | S fuel =>
      let* c := current_char in
      match c with
      | None => ret tt
      | Some c =>
          let* n := peek_char in
          (if char_in c whitespace then skip_whitespace (S fuel)
           else if Ascii.eqb c "/" && bool_decide (n = Some "/"%char)
           then skip_single_line_comment (S fuel)
           else if Ascii.eqb c "/" && bool_decide (n = Some "*"%char)
           then skip_multi_line_comment (S fuel)
           else if isdigit c then
             let* t := read_number (S fuel) in append_token t
           else if Ascii.eqb c double_quote then
             let* t := read_string (S fuel) in append_token t
           else if isalpha c || Ascii.eqb c "_" then
             let* t := read_identifier_or_keyword (S fuel) in append_token t
           else read_operator c) >>
          tokenize_loop fuel
      end
  end.

(** [Lexer(source_code).tokenize()].  Every iteration of every loop
    consumes a character, so the length of the source is fuel enough. *)
Definition tokenize (source_code : string) : outcome exn (list Token) :=
  match (tokenize_loop (S (String.length source_code)) >>
         let* p := position in
         append_token (mkToken EOF VNone (fst p) (snd p)))
        (Lexer_init source_code) with
  | Returns (_, lx) => Returns (tokens lx)
  | Raises e => Raises e
  end.

End tokenizer.

(** *** Vocabulary of the properties *)

(** The text [tokenize] attaches to a token of an operator type. *)
Definition operator_text (ty : TokenType) : option string :=
  match ty with
  | PLUS => Some "+" | MINUS => Some "-" | MULTIPLY => Some "*" | DIVIDE => Some "/"
  | MODULO => Some "%" | EQUAL => Some "==" | NOT_EQUAL => Some "!=" | LESS => Some "<"
  | GREATER => Some ">" | LESS_EQUAL => Some "<=" | GREATER_EQUAL => Some ">="
  | AND => Some "&&" | OR => Some "||" | NOT => Some "!"
  | _ => None
  end.

(** A token of an operator type carries the text of its operator;
    the parser copies that text into the tree. *)
Definition token_ok (t : Token) : bool :=
  match operator_text (type t), value t with
  | Some text, VStr s => String.eqb text s
  | Some _, _ => false
  | None, _ => true
  end.

Definition tokens_ok (ts : list Token) : Prop := Forall (λ t, token_ok t = true) ts.

(** The lexeme of a keyword, an operator or a delimiter. *)
Definition lexeme_of (ty : TokenType) : option string :=
  match ty with
  | WAKE => Some "Wake" | SLEEP => Some "Sleep" | HUNT => Some "Hunt" | BOX => Some "Box"
  | PAWS => Some "paws" | PURR => Some "Purr" | HISS => Some "Hiss" | CHASE => Some "Chase"
  | BRING => Some "Bring" | MEOW => Some "Meow"
  | LPAREN => Some "(" | RPAREN => Some ")" | LBRACE => Some "{" | RBRACE => Some "}"
  | COMMA => Some "," | SEMICOLON => Some ";"
  | INTEGER | FLOAT | STRING | IDENTIFIER | EOF | NEWLINE => None
  | ty => operator_text ty
  end.

(** The characters of an identifier, and the texts that are one. *)
Definition identifier_char (c : ascii) : bool := isalnum c || Ascii.eqb c "_".

Definition identifier_text (s : string) : bool :=
  match s with
  | String c r =>
      (isalpha c || Ascii.eqb c "_") && forallb identifier_char (list_ascii_of_string r)
  | EmptyString => false
  end.

(** What [tokenize] puts into a token of each type: a non-negative [int]
    into [INTEGER], a [float] into [FLOAT], text into [STRING], the text
    of an identifier that is no keyword into [IDENTIFIER], [None] into
    [EOF], and their lexeme into keywords, operators and delimiters.  It
    makes no [NEWLINE] token. *)
Definition token_typed (t : Token) : bool :=
  match type t with
  | INTEGER => match value t with VInt z => (0 <=? z)%Z | _ => false end
  | FLOAT => match value t with VFloat _ => true | _ => false end
  | STRING => match value t with VStr _ => true | _ => false end
  | IDENTIFIER =>
      match value t with
      | VStr s => identifier_text s && bool_decide (keyword_or_identifier s = IDENTIFIER)
      | _ => false
      end
  | EOF => match value t with VNone => true | _ => false end
  | NEWLINE => false
  | ty =>
      match lexeme_of ty, value t with
      | Some s, VStr s' => String.eqb s s'
      | _, _ => false
      end
  end.

(** Positions in the source, in reading order. *)
Definition before (p q : Z * Z) : Prop :=
  (fst p < fst q)%Z ∨ (fst p = fst q ∧ (snd p < snd q)%Z).

Definition token_position (t : Token) : Z * Z := (line t, column t).

(** Every token stands before the tokens that follow it. *)
Definition in_reading_order (ts : list Token) : Prop :=
  ∀ i j t u, (i < j)%nat → ts !! i = Some t → ts !! j = Some u →
             before (token_position t) (token_position u).

(** The characters that stand for themselves in a string literal. *)
Definition plain_char (c : ascii) : bool :=
  negb (Ascii.eqb c double_quote) && negb (Ascii.eqb c backslash)
  && negb (Ascii.eqb c newline).

(** [str(n)], the decimal numeral of a natural number. *)
Definition numeral (n : N) : string := NilEmpty.string_of_uint (N.to_uint n).

(** What [tokenize] returns: the tokens of the text, then [EOF]. *)
Definition token_stream (toks : list Token) : Prop :=
  ∃ front eof,
    toks = (front ++ [eof])%list
    ∧ type eof = EOF ∧ value eof = VNone
    ∧ Forall (λ t, type t ≠ EOF) front
    ∧ Forall (λ t, token_typed t = true ∧ (1 ≤ line t)%Z ∧ (1 ≤ column t)%Z) toks
    ∧ in_reading_order toks.

(** Text of ASCII characters: the text the model reads as the lexer does
    (beyond ASCII, [str.isdigit] and [str.isalpha] accept more). *)
Definition ascii_text (s : string) : bool :=
  forallb (λ c, (nat_of_ascii c <? 128)%nat) (list_ascii_of_string s).

(** The number of digits a text starts with, and the length of the
    longest run of digits in it. *)
Fixpoint leading_digits (s : string) : nat :=
  match s with
  | String c r => if isdigit c then S (leading_digits r) else 0
  | EmptyString => 0
  end.

Fixpoint longest_digits (s : string) : nat :=
  match s with
  | String _ r => Nat.max (leading_digits s) (longest_digits r)
  | EmptyString => 0
  end.

End lexer.

(** ** parser.py: the AST node classes *)

Module ast.

(** [ExpressionNode] and its subclasses.  Every node carries [line] and
    [column]; [OtherExpression] is an instance of the base class itself,
    which the visitors handle in their final [else]. *)
Inductive ExpressionNode : Type :=
| BinaryOpNode (line column : Z) (operator : string) (left right : ExpressionNode)
| UnaryOpNode (line column : Z) (operator : string) (operand : ExpressionNode)
| IntegerNode (line column : Z) (value : Z)
| FloatNode (line column : Z) (value : spec_float)
| StringNode (line column : Z) (value : string)
| IdentifierNode (line column : Z) (name : string)
| FunctionCallNode (line column : Z) (name : string) (arguments : list ExpressionNode)
| OtherExpression (line column : Z).

(** [StatementNode] and its subclasses.  [FunctionCallStatementNode]
    holds a [FunctionCallNode]; its four fields are [call_line],
    [call_column], [call_name], [call_arguments]. *)
Inductive StatementNode : Type :=
| VarDeclarationNode (line column : Z) (identifier : string) (value : ExpressionNode)
| AssignmentNode (line column : Z) (identifier : string) (value : ExpressionNode)
| FunctionDefNode (line column : Z) (name : string) (parameters : list string)
    (body : list StatementNode)
| IfStatementNode (line column : Z) (condition : ExpressionNode)
    (then_block : list StatementNode) (else_block : option (list StatementNode))
| WhileLoopNode (line column : Z) (condition : ExpressionNode) (body : list StatementNode)
| ReturnStatementNode (line column : Z) (value : ExpressionNode)
| PrintStatementNode (line column : Z) (value : ExpressionNode)
| FunctionCallStatementNode (line column : Z)
    (call_line call_column : Z) (call_name : string) (call_arguments : list ExpressionNode)
| OtherStatement (line column : Z).

Record ProgramNode : Type := mkProgramNode {
  program_line : Z;
  program_column : Z;
  statements : list StatementNode
}.

(** The operators of the language (spec section 3): the parser builds
    no other. *)
Definition binary_operators : list string :=
  ["+"; "-"; "*"; "/"; "%"; "=="; "!="; "<"; ">"; "<="; ">="; "&&"; "||"].
Definition unary_operators : list string := ["!"; "-"].

(** An AST whose operators are operators of the language. *)
Fixpoint well_formed_expression (e : ExpressionNode) : bool :=
  match e with
  | BinaryOpNode _ _ op l r =>
      bool_decide (op ∈ binary_operators)
      && well_formed_expression l && well_formed_expression r
  | UnaryOpNode _ _ op e => bool_decide (op ∈ unary_operators) && well_formed_expression e
  | FunctionCallNode _ _ _ args => forallb well_formed_expression args
  | _ => true
  end.

Fixpoint well_formed_statement (s : StatementNode) : bool :=
  match s with
  | VarDeclarationNode _ _ _ v | AssignmentNode _ _ _ v
  | ReturnStatementNode _ _ v | PrintStatementNode _ _ v => well_formed_expression v
  | FunctionDefNode _ _ _ _ body => forallb well_formed_statement body
  | IfStatementNode _ _ c th el =>
      well_formed_expression c && forallb well_formed_statement th
      && match el with
         | Some el => forallb well_formed_statement el
         | None => true
         end
  | WhileLoopNode _ _ c body =>
      well_formed_expression c && forallb well_formed_statement body
  | FunctionCallStatementNode _ _ _ _ _ args => forallb well_formed_expression args
  | OtherStatement _ _ => true
  end.

Definition well_formed (p : ProgramNode) : bool :=
  forallb well_formed_statement (statements p).

End ast.

(** ** parser.py: the parser *)

Module parser.
Import lexer ast.

(** What unwinds out of the parser: [ParserError(message, token)]; the
    [AttributeError] of reading [.type] of a [current_token] that is
    [None]; and two signals of the model itself: a token whose [value] is
    not of the kind the lexer attaches to its type (an [int] to
    [INTEGER], a [float] to [FLOAT], text to the others), and a loop cut
    off by its fuel. *)
Inductive exn : Type :=
| ParserError (message : string) (token : Token)
| AttributeError
| ValueOutsideModel
| OutOfFuel.

(** [str(e)] of a [ParserError] *)
Definition ParserError_str (message : string) (token : Token) : string :=
  "Syntax Error at line " ++ str_int (line token) ++ ", column "
  ++ str_int (column token) ++ ": " ++ message.

(** The parser object; [output] collects what it prints, one entry per
    call of [print]. *)
Record Parser : Type := mkParser {
  tokens : list Token;
  pos : nat;
  current_token : option Token;
  output : list string
}.

(** [Parser.__init__] *)
Definition Parser_init (toks : list Token) : Parser :=
  {| tokens := toks; pos := 0; current_token := head toks; output := [] |}.

(** A method of the parser.  The state survives an exception: a handler
    goes on from where the parser stood when it was raised. *)
Definition P (A : Type) : Type := Parser → outcome exn A * Parser.

Definition ret {A} (x : A) : P A := fun p => (Returns x, p).

Definition bind {A B} (m : P A) (k : A → P B) : P B :=
  fun p => match m p with
           | (Returns x, p') => k x p'
           | (Raises e, p') => (Raises e, p')
           end.

Definition raise {A} (e : exn) : P A := fun p => (Raises e, p).

(** [try: m except ParserError as e: handler(e)] *)
Definition try_except {A} (m : P A) (handler : string → Token → P A) : P A :=
  fun p => match m p with
           | (Raises (ParserError message token), p') => handler message token p'
           | r => r
           end.

Declare Scope parser_scope.
Delimit Scope parser_scope with parser.
Notation "'let*' x ':=' m 'in' k" := (bind m (fun x => k))
  (at level 10, x name, m at level 100, k at level 200) : parser_scope.
Notation "m '>>' k" := (bind m (fun _ => k))
  (at level 100, k at level 200, right associativity) : parser_scope.
Local Open Scope parser_scope.

Definition print (text : string) : P unit := fun p =>
  (Returns tt, {| tokens := tokens p; pos := pos p;
                  current_token := current_token p;
                  output := output p ++ [text] |}).

Definition advance : P unit := fun p =>
  (Returns tt,
   match tokens p !! (pos p + 1) with
   | Some t => {| tokens := tokens p; pos := pos p + 1; current_token := Some t;
                  output := output p |}
   | None => p
   end).

Definition peek : P (option Token) := fun p =>
  (Returns (tokens p !! (pos p + 1)), p).

(** [self.current_token], about to be read through [.type] or [.value] *)
Definition current : P Token := fun p =>
  match current_token p with
  | Some t => (Returns t, p)
  | None => (Raises AttributeError, p)
  end.

Definition expect (token_type : TokenType) : P Token :=
  let* token := current in
  if bool_decide (type token ≠ token_type) then
    raise (ParserError ("Expected " ++ TokenType_name token_type ++ ", got "
                        ++ TokenType_name (type token)) token)
  else advance >> ret token.

(** [self.match] on the given token types *)
Definition matches (token_types : list TokenType) : P bool :=
  let* token := current in
  ret (bool_decide (type token ∈ token_types)).

(** [self.peek() and self.peek().type == token_type] *)
Definition peek_is (token_type : TokenType) : P bool :=
  let* t := peek in
  ret (match t with
       | Some t => bool_decide (type t = token_type)
       | None => false
       end).

(** The text, the [int] and the [float] a token carries. *)
Definition text_value (t : Token) : P string :=
  match value t with
  | VStr s => ret s
  | _ => raise ValueOutsideModel
  end.

Definition int_value (t : Token) : P Z :=
  match value t with
  | VInt z => ret z
  | _ => raise ValueOutsideModel
  end.

Definition float_value (t : Token) : P spec_float :=
  match value t with
  | VFloat f => ret f
  | _ => raise ValueOutsideModel
  end.

(** *** Expressions *)

(** The loop of the six binary levels:
    [while self.match(types): op_token = ...; left = BinaryOpNode(...)].
    [fixed_operator] is the operator the level writes down itself
    (['||'], ['&&']); the other levels take [op_token.value]. *)
Fixpoint binary_loop (fuel : nat) (token_types : list TokenType)
  (fixed_operator : option string) (parse_operand : P ExpressionNode)
  (left : ExpressionNode) : P ExpressionNode :=
  match fuel with
  | O => raise OutOfFuel
  | S fuel =>
      let* m := matches token_types in
      if m then
        let* op_token := current in
        let* op := match fixed_operator with
                   | Some op => ret op
                   | None => text_value op_token
                   end in
        advance >>
        let* right := parse_operand in
        binary_loop fuel token_types fixed_operator parse_operand
          (BinaryOpNode (line op_token) (column op_token) op left right)
      else ret left
  end.

Section expression_grammar.
(** The recursive call of [parse_expression]. *)
Variable parse_expression : P ExpressionNode.

(** The loop of [parse_arg_list]. *)
Fixpoint arg_list_loop (fuel : nat) (args : list ExpressionNode)
  : P (list ExpressionNode) :=
  match fuel with
  | O => raise OutOfFuel
  | S fuel =>
      let* m := matches [COMMA] in
      if m then
        advance >>
        let* arg := parse_expression in
        arg_list_loop fuel (args ++ [arg])%list
      else ret args
  end.

Definition parse_arg_list (fuel : nat) : P (list ExpressionNode) :=
  let* m := matches [RPAREN] in
  if m then ret []
  else
    let* arg := parse_expression in
    arg_list_loop fuel [arg].

(** [parse_function_call] returns the fields of the [FunctionCallNode]. *)
Definition parse_function_call (fuel : nat)
  : P (Z * Z * string * list ExpressionNode) :=
  let* name_token := expect IDENTIFIER in
  expect LPAREN >>
  let* arguments := parse_arg_list fuel in
  expect RPAREN >>
  let* nm := text_value name_token in
  ret (line name_token, column name_token, nm, arguments).

Definition parse_primary (fuel : nat) : P ExpressionNode :=
  let* is_integer := matches [INTEGER] in
  if is_integer then
    let* token := current in
    advance >>
    let* v := int_value token in
    ret (IntegerNode (line token) (column token) v)
  else
  let* is_float := matches [FLOAT] in
  if is_float then
    let* token := current in
    advance >>
    let* v := float_value token in
    ret (FloatNode (line token) (column token) v)
  else
  let* is_string := matches [STRING] in
  if is_string then
    let* token := current in
    advance >>
    let* v := text_value token in
    ret (StringNode (line token) (column token) v)
  else
  let* is_identifier := matches [IDENTIFIER] in
  if is_identifier then
    let* is_call := peek_is LPAREN in
    if is_call then
      let* call := parse_function_call fuel in
      let '(ln, col, nm, arguments) := call in
      ret (FunctionCallNode ln col nm arguments)
    else
      let* token := current in
      advance >>
      let* nm := text_value token in
      ret (IdentifierNode (line token) (column token) nm)
  else
  let* is_paren := matches [LPAREN] in
  if is_paren then
    advance >>
    let* expr := parse_expression in
    expect RPAREN >>
    ret expr
  else
    let* token := current in
    raise (ParserError ("Unexpected token in expression: "
                        ++ TokenType_name (type token)) token).

Fixpoint parse_unary (fuel : nat) : P ExpressionNode :=
  match fuel with
  | O => raise OutOfFuel
  | S fuel =>
      let* m := matches [NOT; MINUS] in
      if m then
        let* op_token := current in
        let* op := text_value op_token in
        advance >>
        let* operand := parse_unary fuel in
        ret (UnaryOpNode (line op_token) (column op_token) op operand)
      else parse_primary fuel
  end.

Definition parse_multiplication (fuel : nat) : P ExpressionNode :=
  let* left := parse_unary fuel in
  binary_loop fuel [MULTIPLY; DIVIDE; MODULO] None (parse_unary fuel) left.

Definition parse_addition (fuel : nat) : P ExpressionNode :=
  let* left := parse_multiplication fuel in
  binary_loop fuel [PLUS; MINUS] None (parse_multiplication fuel) left.

Definition parse_comparison (fuel : nat) : P ExpressionNode :=
  let* left := parse_addition fuel in
  binary_loop fuel [LESS; GREATER; LESS_EQUAL; GREATER_EQUAL] None
    (parse_addition fuel) left.

Definition parse_equality (fuel : nat) : P ExpressionNode :=
  let* left := parse_comparison fuel in
  binary_loop fuel [EQUAL; NOT_EQUAL] None (parse_comparison fuel) left.

Definition parse_logical_and (fuel : nat) : P ExpressionNode :=
  let* left := parse_equality fuel in
  binary_loop fuel [AND] (Some "&&") (parse_equality fuel) left.

Definition parse_logical_or (fuel : nat) : P ExpressionNode :=
  let* left := parse_logical_and fuel in
  binary_loop fuel [OR] (Some "||") (parse_logical_and fuel) left.
End expression_grammar.

Fixpoint parse_expression (fuel : nat) : P ExpressionNode :=
  match fuel with
  | O => raise OutOfFuel
  | S fuel => parse_logical_or (parse_expression fuel) fuel
  end.

(** *** Statements *)

(** The loop of [parse_param_list]. *)
Fixpoint param_list_loop (fuel : nat) (params : list string) : P (list string) :=
  match fuel with
  | O => raise OutOfFuel
  | S fuel =>
      let* m := matches [COMMA] in
      if m then
        advance >>
        let* param_token := expect IDENTIFIER in
        let* param := text_value param_token in
        param_list_loop fuel (params ++ [param])%list
      else ret params
  end.

Definition parse_param_list (fuel : nat) : P (list string) :=
  let* m := matches [IDENTIFIER] in
  if m then
    let* token := current in
    let* param := text_value token in
    advance >>
    param_list_loop fuel [param]
  else ret [].

(** The loop of [recover_from_error]: it stops at a token of the
    synchronization set; at the last token [advance] does nothing, and
    the loop goes on for ever if that token is not one of the set. *)
Definition sync_tokens : list TokenType :=
  [BOX; HUNT; PURR; CHASE; BRING; MEOW; RBRACE; SLEEP; EOF].

Fixpoint recover_from_error (fuel : nat) : P unit :=
  match fuel with
  | O => raise OutOfFuel
  | S fuel =>
      let* m := matches sync_tokens in
      if m then ret tt else advance >> recover_from_error fuel
  end.

Section statement_grammar.
Variable fuel : nat.
(** The recursive call of [parse_statement_list], for a nested block. *)
Variable parse_statement_list : P (list StatementNode).

Definition parse_var_declaration : P StatementNode :=
  let* box_token := expect BOX in
  let* identifier_token := expect IDENTIFIER in
  expect PAWS >>
  let* v := parse_expression fuel in
  let* identifier := text_value identifier_token in
  ret (VarDeclarationNode (line box_token) (column box_token) identifier v).

Definition parse_assignment : P StatementNode :=
  let* identifier_token := expect IDENTIFIER in
  expect PAWS >>
  let* v := parse_expression fuel in
  let* identifier := text_value identifier_token in
  ret (AssignmentNode (line identifier_token) (column identifier_token) identifier v).

Definition parse_function_def : P StatementNode :=
  let* hunt_token := expect HUNT in
  let* name_token := expect IDENTIFIER in
  expect LPAREN >>
  let* parameters := parse_param_list fuel in
  expect RPAREN >>
  expect LBRACE >>
  let* body := parse_statement_list in
  expect RBRACE >>
  let* nm := text_value name_token in
  ret (FunctionDefNode (line hunt_token) (column hunt_token) nm parameters body).

Definition parse_if_statement : P StatementNode :=
  let* purr_token := expect PURR in
  expect LPAREN >>
  let* condition := parse_expression fuel in
  expect RPAREN >>
  expect LBRACE >>
  let* then_block := parse_statement_list in
  expect RBRACE >>
  let* has_else := matches [HISS] in
  let* else_block :=
    if has_else then
      advance >>
      expect LBRACE >>
      let* block := parse_statement_list in
      expect RBRACE >>
      ret (Some block)
    else ret None in
  ret (IfStatementNode (line purr_token) (column purr_token) condition
         then_block else_block).

Definition parse_while_loop : P StatementNode :=
  let* chase_token := expect CHASE in
  expect LPAREN >>
  let* condition := parse_expression fuel in
  expect RPAREN >>
  expect LBRACE >>
  let* body := parse_statement_list in
  expect RBRACE >>
  ret (WhileLoopNode (line chase_token) (column chase_token) condition body).

Definition parse_return_statement : P StatementNode :=
  let* bring_token := expect BRING in
  let* v := parse_expression fuel in
  ret (ReturnStatementNode (line bring_token) (column bring_token) v).

Definition parse_print_statement : P StatementNode :=
  let* meow_token := expect MEOW in
  expect LPAREN >>
  let* v := parse_expression fuel in
  expect RPAREN >>
  ret (PrintStatementNode (line meow_token) (column meow_token) v).

Definition parse_statement : P (option StatementNode) :=
  let* is_box := matches [BOX] in
  if is_box then let* s := parse_var_declaration in ret (Some s) else
  let* is_hunt := matches [HUNT] in
  if is_hunt then let* s := parse_function_def in ret (Some s) else
  let* is_purr := matches [PURR] in
  if is_purr then let* s := parse_if_statement in ret (Some s) else
  let* is_chase := matches [CHASE] in
  if is_chase then let* s := parse_while_loop in ret (Some s) else
  let* is_bring := matches [BRING] in
  if is_bring then let* s := parse_return_statement in ret (Some s) else
  let* is_meow := matches [MEOW] in
  if is_meow then let* s := parse_print_statement in ret (Some s) else
  let* is_identifier := matches [IDENTIFIER] in
  let* token := current in
  if is_identifier then
    let* is_assignment := peek_is PAWS in
    if is_assignment then let* s := parse_assignment in ret (Some s)
    else
      let* is_call := peek_is LPAREN in
      if is_call then
        let* call := parse_function_call (parse_expression fuel) fuel in
        let '(ln, col, nm, arguments) := call in
        ret (Some (FunctionCallStatementNode ln col ln col nm arguments))
      else
        let* identifier := text_value token in
        raise (ParserError ("Unexpected identifier '" ++ identifier
                            ++ "'. Expected 'paws' or '('") token)
  else
  let* is_eof := matches [EOF] in
  if is_eof then ret None
  else
    raise (ParserError ("Unexpected token: " ++ TokenType_name (type token)) token).
End statement_grammar.

(** [parse_statement_list] and its loop.  A [ParserError] raised by a
    statement is printed, the parser skips to a synchronization token,
    and the loop goes on; nothing else keeps the error. *)
Fixpoint parse_statement_list (fuel : nat) : P (list StatementNode) :=
  match fuel with
  | O => raise OutOfFuel
  | S fuel => statement_list_loop fuel []
  end
with statement_list_loop (fuel : nat) (statements : list StatementNode)
  : P (list StatementNode) :=
  match fuel with
  | O => raise OutOfFuel
  | S fuel =>
      let* at_end := matches [SLEEP; RBRACE; EOF] in
      if at_end then ret statements
      else
        let* statements :=
          try_except
            (let* stmt := parse_statement fuel (parse_statement_list fuel) in
             ret (match stmt with
                  | Some stmt => (statements ++ [stmt])%list
                  | None => statements
                  end))
            (fun message token =>
               print ("Error: " ++ ParserError_str message token) >>
               print "Attempting to recover..." >>
               recover_from_error fuel >>
               ret statements) in
        statement_list_loop fuel statements
  end.

Definition parse_program (fuel : nat) : P ProgramNode :=
  let* wake_token := expect WAKE in
  let* stmts := parse_statement_list fuel in
  expect SLEEP >>
  expect EOF >>
  ret (mkProgramNode (line wake_token) (column wake_token) stmts).

(** ['=' * 60] *)
Definition rule : string :=
  "============================================================".

(** [Parser.parse]: a [ParserError] that reaches it is printed in a
    banner and raised again. *)
Definition parse_method (fuel : nat) : P ProgramNode :=
  try_except (parse_program fuel)
    (fun message token =>
       print (String newline rule) >>
       print "SYNTAX ERROR" >>
       print rule >>
       print (ParserError_str message token) >>
       print (rule ++ String newline EmptyString) >>
       raise (ParserError message token)).

(** [Parser(tokens).parse()]: what it returns or raises, and what it
    printed.  [fuel] bounds the depth of the recursion, in the place of
    the recursion limit of the interpreter; a run that it cuts off
    raises [OutOfFuel], where Python raises [RecursionError]. *)
Definition parse (fuel : nat) (toks : list Token)
  : outcome exn ProgramNode * list string :=
  let r := parse_method fuel (Parser_init toks) in
  (fst r, output (snd r)).

End parser.

(** ** semantic.py *)

Module semantic.
Import ast.

Inductive DataType : Type := TREATS | WHISKERS | YARN | VOID | UNKNOWN.

#[global] Instance DataType_eq_dec : EqDecision DataType.
Proof. solve_decision. Defined.

(** [DataType.X.name] *)
Definition type_name (t : DataType) : string :=
  match t with
  | TREATS => "TREATS"
  | WHISKERS => "WHISKERS"
  | YARN => "YARN"
  | VOID => "VOID"
  | UNKNOWN => "UNKNOWN"
  end.

Record Symbol : Type := mkSymbol {
  name : string;
  data_type : DataType;
  scope_level : nat;
  is_function : bool;
  parameters : option (list string);
  line : Z;
  column : Z
}.

Record SemanticError : Type := mkSemanticError {
  message : string;
  err_line : Z;
  err_column : Z
}.

(** The exceptions that can unwind out of a symbol-table method:
    [SemanticError], and the [IndexError] of a list access out of range. *)
Inductive exn : Type :=
| SemanticError_exn (e : SemanticError)
| IndexError.

(** *** class SymbolTable *)

Record SymbolTable : Type := mkSymbolTable {
  scopes : list (gmap string Symbol);
  current_scope : nat
}.

(** [SymbolTable.__init__] *)
Definition SymbolTable_init : SymbolTable :=
  {| scopes := [∅]; current_scope := 0 |}.

Definition enter_scope (t : SymbolTable) : SymbolTable :=
  {| scopes := scopes t ++ [∅]; current_scope := current_scope t + 1 |}.

(** [self.scopes.pop()]: drops the last frame, [IndexError] on an empty list. *)
Definition exit_scope (t : SymbolTable) : outcome exn SymbolTable :=
  if decide (0 < current_scope t) then
    match scopes t with
    | [] => Raises IndexError
    | _ :: _ =>
        Returns {| scopes := removelast (scopes t);
                   current_scope := current_scope t - 1 |}
    end
  else Returns t.

Definition declare (symbol : Symbol) (t : SymbolTable) : outcome exn SymbolTable :=
  match scopes t !! current_scope t with
  | None => Raises IndexError
  | Some frame =>
      match frame !! name symbol with
      | Some existing =>
          Raises (SemanticError_exn
            {| message := "Variable '" ++ name symbol
                 ++ "' already declared in current scope at line "
                 ++ str_int (line existing);
               err_line := line symbol;
               err_column := column symbol |})
      | None =>
          Returns {| scopes := <[current_scope t := <[name symbol := symbol]> frame]> (scopes t);
                     current_scope := current_scope t |}
      end
  end.

(** The loop of [lookup]: [for scope_level in range(start, -1, -1)].
    A hit is returned with the level of the frame that holds it: the
    [Symbol] object is shared with that frame, and the level is what
    identifies it when it is written to. *)
Fixpoint lookup_from (scope_level : nat) (nm : string) (sc : list (gmap string Symbol))
  : outcome exn (option (nat * Symbol)) :=
  match sc !! scope_level with
  | None => Raises IndexError
  | Some frame =>
      match frame !! nm with
      | Some symbol => Returns (Some (scope_level, symbol))
      | None =>
          match scope_level with
          | O => Returns None
          | S below => lookup_from below nm sc
          end
      end
  end.

Definition lookup (nm : string) (t : SymbolTable) : outcome exn (option (nat * Symbol)) :=
  lookup_from (current_scope t) nm (scopes t).

Definition set_data_type (ty : DataType) (s : Symbol) : Symbol :=
  {| name := name s; data_type := ty; scope_level := scope_level s;
     is_function := is_function s; parameters := parameters s;
     line := line s; column := column s |}.

(** [symbol.data_type = ty] on the object found at [level]: the frame at
    that level sees the write. *)
Definition write_data_type (level : nat) (symbol : Symbol) (ty : DataType)
  (t : SymbolTable) : SymbolTable :=
  {| scopes := alter (<[name symbol := set_data_type ty symbol]>) level (scopes t);
     current_scope := current_scope t |}.

Definition update_type (nm : string) (ty : DataType) (t : SymbolTable)
  : outcome exn SymbolTable :=
  match lookup nm t with
  | Raises e => Raises e
  | Returns None => Returns t
  | Returns (Some (level, symbol)) => Returns (write_data_type level symbol ty t)
  end.

(** *** class SemanticAnalyzer *)

Record SemanticAnalyzer : Type := mkSemanticAnalyzer {
  symbol_table : SymbolTable;
  errors : list SemanticError;
  current_function : option string;
  in_function : bool
}.

(** [SemanticAnalyzer.__init__] *)
Definition SemanticAnalyzer_init : SemanticAnalyzer :=
  {| symbol_table := SymbolTable_init; errors := [];
     current_function := None; in_function := false |}.

(** A method of the analyzer: it runs on the analyzer's state and either
    returns a value with the new state or raises. *)
Definition M (A : Type) : Type := SemanticAnalyzer → outcome exn (A * SemanticAnalyzer).

Definition ret {A} (x : A) : M A := fun a => Returns (x, a).

Definition bind {A B} (m : M A) (k : A → M B) : M B :=
  fun a => match m a with
           | Returns (x, a') => k x a'
           | Raises e => Raises e
           end.

Definition raise {A} (e : exn) : M A := fun _ => Raises e.

Declare Scope analyzer_scope.
Delimit Scope analyzer_scope with analyzer.
Notation "'let*' x ':=' m 'in' k" := (bind m (fun x => k))
  (at level 10, x name, m at level 100, k at level 200) : analyzer_scope.
Notation "m '>>' k" := (bind m (fun _ => k))
  (at level 100, k at level 200, right associativity) : analyzer_scope.
Local Open Scope analyzer_scope.

(** [for x in l: f(x)] *)
Definition for_each {A} (f : A → M unit) : list A → M unit :=
  fix go l :=
    match l with
    | [] => ret tt
    | x :: l' => f x >> go l'
    end.

Definition get_table : M SymbolTable := fun a => Returns (symbol_table a, a).

Definition set_table (t : SymbolTable) : M unit := fun a =>
  Returns (tt, {| symbol_table := t; errors := errors a;
                  current_function := current_function a;
                  in_function := in_function a |}).

Definition get_function : M (option string * bool) := fun a =>
  Returns ((current_function a, in_function a), a).

Definition set_function (f : option string) (inside : bool) : M unit := fun a =>
  Returns (tt, {| symbol_table := symbol_table a; errors := errors a;
                  current_function := f; in_function := inside |}).

Definition add_error (msg : string) (ln col : Z) : M unit := fun a =>
  Returns (tt, {| symbol_table := symbol_table a;
                  errors := errors a ++ [mkSemanticError msg ln col];
                  current_function := current_function a;
                  in_function := in_function a |}).

(** [self.symbol_table.lookup(name)] *)
Definition table_lookup (nm : string) : M (option (nat * Symbol)) := fun a =>
  match lookup nm (symbol_table a) with
  | Returns r => Returns (r, a)
  | Raises e => Raises e
  end.

(** [try: self.symbol_table.declare(symbol) except SemanticError as e: ...]:
    [true] when the declaration went through, [false] when the
    [SemanticError] was caught and recorded. *)
Definition try_declare (symbol : Symbol) : M bool :=
  let* t := get_table in
  match declare symbol t with
  | Returns t' => set_table t' >> ret true
  | Raises (SemanticError_exn e) =>
      add_error (message e) (err_line e) (err_column e) >> ret false
  | Raises IndexError => raise IndexError
  end.

Definition table_enter_scope : M unit :=
  let* t := get_table in set_table (enter_scope t).

Definition table_exit_scope : M unit :=
  let* t := get_table in
  match exit_scope t with
  | Returns t' => set_table t'
  | Raises e => raise e
  end.

Definition numeric (t : DataType) : bool :=
  bool_decide (t = TREATS) || bool_decide (t = WHISKERS).

Definition are_types_compatible (type1 type2 : DataType) : bool :=
  if decide (type1 = type2) then true
  else if numeric type1 && numeric type2 then true
  else false.

Definition is_arithmetic (op : string) : bool :=
  bool_decide (op ∈ ["+"; "-"; "*"; "/"; "%"]).

Definition is_comparison (op : string) : bool :=
  bool_decide (op ∈ ["=="; "!="; "<"; ">"; "<="; ">="]).

Definition is_logical (op : string) : bool :=
  bool_decide (op ∈ ["&&"; "||"]).

Section expression_visitors.
Variable visit_expression : ExpressionNode → M DataType.

Definition visit_binary_op (ln col : Z) (operator : string)
  (left right : ExpressionNode) : M DataType :=
  let* left_type := visit_expression left in
  let* right_type := visit_expression right in
  if is_arithmetic operator then
    if bool_decide (operator = "+")
       && (bool_decide (left_type = YARN) || bool_decide (right_type = YARN))
    then ret YARN
    else if numeric left_type && numeric right_type then
      if bool_decide (operator = "/") then ret WHISKERS
      else if bool_decide (left_type = WHISKERS) || bool_decide (right_type = WHISKERS)
      then ret WHISKERS
      else ret TREATS
    else
      (if bool_decide (left_type ≠ UNKNOWN) && bool_decide (right_type ≠ UNKNOWN)
       then add_error ("Type error: cannot apply operator '" ++ operator ++ "' to "
                       ++ type_name left_type ++ " and " ++ type_name right_type)
              ln col
       else ret tt) >>
      ret UNKNOWN
  else if is_comparison operator then
    if bool_decide (left_type = right_type) then ret TREATS
    else if numeric left_type && numeric right_type then ret TREATS
    else
      (if bool_decide (left_type ≠ UNKNOWN) && bool_decide (right_type ≠ UNKNOWN)
       then add_error ("Type error: cannot compare " ++ type_name left_type
                       ++ " and " ++ type_name right_type) ln col
       else ret tt) >>
      ret TREATS
  else if is_logical operator then ret TREATS
  else ret UNKNOWN.

Definition visit_unary_op (ln col : Z) (operator : string)
  (operand : ExpressionNode) : M DataType :=
  let* operand_type := visit_expression operand in
  if bool_decide (operator = "!") then ret TREATS
  else if bool_decide (operator = "-") then
    if numeric operand_type then ret operand_type
    else
      (if bool_decide (operand_type ≠ UNKNOWN)
       then add_error ("Type error: cannot apply unary '-' to "
                       ++ type_name operand_type) ln col
       else ret tt) >>
      ret UNKNOWN
  else ret UNKNOWN.

Definition visit_identifier (ln col : Z) (nm : string) : M DataType :=
  let* symbol := table_lookup nm in
  match symbol with
  | None =>
      add_error ("Undeclared variable '" ++ nm ++ "'") ln col >> ret UNKNOWN
  | Some (_, symbol) =>
      if is_function symbol then
        add_error ("Cannot use function '" ++ nm ++ "' as a variable") ln col >>
        ret UNKNOWN
      else ret (data_type symbol)
  end.

Definition visit_function_call (ln col : Z) (nm : string)
  (arguments : list ExpressionNode) : M DataType :=
  let* symbol := table_lookup nm in
  match symbol with
  | None =>
      add_error ("Undeclared function '" ++ nm ++ "'") ln col >> ret UNKNOWN
  | Some (_, symbol) =>
      if negb (is_function symbol) then
        add_error ("'" ++ nm ++ "' is not a function") ln col >> ret UNKNOWN
      else
        let expected_params :=
          match parameters symbol with
          | Some (p :: ps) => length (p :: ps)
          | _ => 0
          end in
        let actual_args := length arguments in
        (if bool_decide (expected_params ≠ actual_args)
         then add_error ("Function '" ++ nm ++ "' expects " ++ str_nat expected_params
                         ++ " arguments, got " ++ str_nat actual_args) ln col
         else ret tt) >>
        for_each (fun arg => visit_expression arg >> ret tt) arguments >>
        ret (data_type symbol)
  end.
End expression_visitors.

Fixpoint visit_expression (node : ExpressionNode) : M DataType :=
  match node with
  | BinaryOpNode ln col operator lhs rhs =>
      visit_binary_op visit_expression ln col operator lhs rhs
  | UnaryOpNode ln col operator operand =>
      visit_unary_op visit_expression ln col operator operand
  | IntegerNode _ _ _ => ret TREATS
  | FloatNode _ _ _ => ret WHISKERS
  | StringNode _ _ _ => ret YARN
  | IdentifierNode ln col nm => visit_identifier ln col nm
  | FunctionCallNode ln col nm arguments =>
      visit_function_call visit_expression ln col nm arguments
  | OtherExpression _ _ => ret UNKNOWN
  end.

Section statement_visitors.
Variable visit_statement : StatementNode → M unit.

Definition visit_var_declaration (ln col : Z) (identifier : string)
  (value : ExpressionNode) : M unit :=
  let* value_type := visit_expression value in
  let* t := get_table in
  let symbol :=
    {| name := identifier; data_type := value_type;
       scope_level := current_scope t; is_function := false;
       parameters := None; line := ln; column := col |} in
  try_declare symbol >> ret tt.

Definition visit_assignment (ln col : Z) (identifier : string)
  (value : ExpressionNode) : M unit :=
  let* symbol := table_lookup identifier in
  match symbol with
  | None => add_error ("Undeclared variable '" ++ identifier ++ "'") ln col
  | Some (_, symbol) =>
      if is_function symbol then
        add_error ("Cannot assign to function '" ++ identifier ++ "'") ln col
      else
        let* value_type := visit_expression value in
        if bool_decide (data_type symbol ≠ UNKNOWN) && bool_decide (value_type ≠ UNKNOWN)
        then
          if negb (are_types_compatible (data_type symbol) value_type) then
            add_error ("Type mismatch: cannot assign " ++ type_name value_type
                       ++ " to " ++ type_name (data_type symbol)) ln col
          else ret tt
        else ret tt
  end.

Definition visit_function_def (ln col : Z) (nm : string) (params : list string)
  (body : list StatementNode) : M unit :=
  let* t := get_table in
  let symbol :=
    {| name := nm; data_type := UNKNOWN; scope_level := current_scope t;
       is_function := true; parameters := Some params;
       line := ln; column := col |} in
  let* declared := try_declare symbol in
  if negb declared then ret tt
  else
    table_enter_scope >>
    let* old := get_function in
    set_function (Some nm) true >>
    for_each (fun param =>
      let* t := get_table in
      let param_symbol :=
        {| name := param; data_type := UNKNOWN; scope_level := current_scope t;
           is_function := false; parameters := None;
           line := ln; column := col |} in
      try_declare param_symbol >> ret tt) params >>
    for_each visit_statement body >>
    table_exit_scope >>
    set_function (fst old) (snd old).

Definition visit_if_statement (ln col : Z) (condition : ExpressionNode)
  (then_block : list StatementNode) (else_block : option (list StatementNode))
  : M unit :=
  let* condition_type := visit_expression condition in
  table_enter_scope >>
  for_each visit_statement then_block >>
  table_exit_scope >>
  (* [if node.else_block:] is false for [None] and for an empty list *)
  match else_block with
  | Some ((_ :: _) as block) =>
      table_enter_scope >>
      for_each visit_statement block >>
      table_exit_scope
  | _ => ret tt
  end.

Definition visit_while_loop (ln col : Z) (condition : ExpressionNode)
  (body : list StatementNode) : M unit :=
  let* condition_type := visit_expression condition in
  table_enter_scope >>
  for_each visit_statement body >>
  table_exit_scope.

(** [symbol.data_type = return_type] writes to the object that the
    frame at the level of the hit holds. *)
Definition visit_return_statement (ln col : Z) (value : ExpressionNode) : M unit :=
  let* f := get_function in
  if negb (snd f) then
    add_error "Return statement outside of function" ln col
  else
    let* return_type := visit_expression value in
    match fst f with
    | Some fname =>
        if bool_decide (fname = "") then ret tt
        else
          let* symbol := table_lookup fname in
          match symbol with
          | None => ret tt
          | Some (level, symbol) =>
              if bool_decide (data_type symbol = UNKNOWN) then
                let* t := get_table in
                set_table (write_data_type level symbol return_type t)
              else if bool_decide (data_type symbol ≠ return_type) then
                if negb (are_types_compatible (data_type symbol) return_type) then
                  add_error ("Inconsistent return type: expected "
                             ++ type_name (data_type symbol) ++ ", got "
                             ++ type_name return_type) ln col
                else ret tt
              else ret tt
          end
    | None => ret tt
    end.

Definition visit_print_statement (ln col : Z) (value : ExpressionNode) : M unit :=
  visit_expression value >> ret tt.

Definition visit_function_call_statement (ln col : Z)
  (call_line call_column : Z) (call_name : string)
  (call_arguments : list ExpressionNode) : M unit :=
  visit_function_call visit_expression call_line call_column call_name call_arguments
  >> ret tt.
End statement_visitors.

(** [visit_statement] follows the tree.  The recursion limit of the
    interpreter is not modelled: Python raises [RecursionError] on a
    tree nested deeper than it allows. *)
Fixpoint visit_statement (node : StatementNode) : M unit :=
  match node with
  | VarDeclarationNode ln col identifier value =>
      visit_var_declaration ln col identifier value
  | AssignmentNode ln col identifier value =>
      visit_assignment ln col identifier value
  | FunctionDefNode ln col nm params body =>
      visit_function_def visit_statement ln col nm params body
  | IfStatementNode ln col condition then_block else_block =>
      visit_if_statement visit_statement ln col condition then_block else_block
  | WhileLoopNode ln col condition body =>
      visit_while_loop visit_statement ln col condition body
  | ReturnStatementNode ln col value => visit_return_statement ln col value
  | PrintStatementNode ln col value => visit_print_statement ln col value
  | FunctionCallStatementNode ln col cl cc cn ca =>
      visit_function_call_statement ln col cl cc cn ca
  | OtherStatement _ _ => ret tt
  end.

Definition visit_program (node : ProgramNode) : M unit :=
  for_each visit_statement (statements node).

(** [analyze]: walks the program, then raises the first recorded error. *)
Definition analyze (node : ProgramNode) : M unit :=
  visit_program node >>
  fun a => match errors a with
           | [] => Returns (tt, a)
           | e :: _ => Raises (SemanticError_exn e)
           end.

(** *** Vocabulary of the properties *)

(** The frame stack and [current_scope] agree: [current_scope] indexes
    the last frame.  [__init__] establishes this. *)
Definition wf_table (t : SymbolTable) : Prop :=
  length (scopes t) = S (current_scope t).

(** The analyzer with its list of diagnostics replaced. *)
Definition with_errors (a : SemanticAnalyzer) (es : list SemanticError) : SemanticAnalyzer :=
  {| symbol_table := symbol_table a; errors := es;
     current_function := current_function a; in_function := in_function a |}.

(** The analyzer after [self.symbol_table.enter_scope()]. *)
Definition entered (a : SemanticAnalyzer) : SemanticAnalyzer :=
  {| symbol_table := enter_scope (symbol_table a); errors := errors a;
     current_function := current_function a; in_function := in_function a |}.

(** What a visit may change: the table stays well formed at the same
    depth, the enclosing function is the same, diagnostics are only added. *)
Record extends (a a' : SemanticAnalyzer) : Prop := {
  ext_wf : wf_table (symbol_table a');
  ext_depth : current_scope (symbol_table a') = current_scope (symbol_table a);
  ext_function : current_function a' = current_function a;
  ext_in_function : in_function a' = in_function a;
  ext_errors : ∃ es, errors a' = (errors a ++ es)%list
}.

Definition expr_total (e : ExpressionNode) : Prop :=
  ∀ a, wf_table (symbol_table a) →
    ∃ ty es, visit_expression e a = Returns (ty, with_errors a (errors a ++ es)).

Definition stmt_total (s : StatementNode) : Prop :=
  ∀ a, wf_table (symbol_table a) →
    ∃ a', visit_statement s a = Returns (tt, a') ∧ extends a a'.

(** The diagnostic of a second declaration of a name in one scope: it
    cites the line of the first. *)
Definition redeclaration (first second : Symbol) : SemanticError :=
  {| message := "Variable '" ++ name second
       ++ "' already declared in current scope at line " ++ str_int (line first);
     err_line := line second; err_column := column second |}.

(** Every frame holds a symbol under its own name, as [declare] puts it. *)
Definition keys_named (t : SymbolTable) : Prop :=
  ∀ lvl fr k s, scopes t !! lvl = Some fr → fr !! k = Some s → name s = k.

(** [s'] is the declaration [s], but for the type inferred since. *)
Definition same_declaration (s s' : Symbol) : Prop := s' = set_data_type (data_type s') s.

(** Every declaration of [t] is still in its frame in [t']. *)
Definition persists (t t' : SymbolTable) : Prop :=
  ∀ lvl fr k s, scopes t !! lvl = Some fr → fr !! k = Some s →
    ∃ fr' s', scopes t' !! lvl = Some fr' ∧ fr' !! k = Some s' ∧ same_declaration s s'.

(** *** States and programs the properties are tried on *)

Definition undeclared_or_function (x : string) (a : SemanticAnalyzer) : Prop :=
  lookup x (symbol_table a) = Returns None
  ∨ ∃ lvl sym, lookup x (symbol_table a) = Returns (Some (lvl, sym))
               ∧ is_function sym = true.

Definition f_symbol : Symbol :=
  {| name := "f"; data_type := TREATS; scope_level := 0; is_function := false;
     parameters := None; line := 1; column := 6 |}.

Definition f_declared : SemanticAnalyzer :=
  {| symbol_table := {| scopes := [ {[ "f" := f_symbol ]} ]; current_scope := 0 |};
     errors := []; current_function := None; in_function := false |}.

(** the analyzer after [Hunt f() { }] *)
Definition after_hunt_f : SemanticAnalyzer :=
  match visit_statement (FunctionDefNode 1 1 "f" [] []) SemanticAnalyzer_init with
  | Returns (_, a) => a
  | Raises _ => SemanticAnalyzer_init
  end.

(** An expression visit that returns has only added diagnostics. *)
Definition expr_frame (e : ExpressionNode) : Prop :=
  ∀ a ty a', visit_expression e a = Returns (ty, a') →
    ∃ es, a' = with_errors a (errors a ++ es).

(** The diagnostic of an assignment of a [V] to a variable of type [T]. *)
Definition mismatch (ln col : Z) (T V : DataType) : SemanticError :=
  {| message := "Type mismatch: cannot assign " ++ type_name V ++ " to " ++ type_name T;
     err_line := ln; err_column := col |}.

Definition assignable (T V : DataType) : Prop :=
  T = V ∨ (numeric T = true ∧ numeric V = true) ∨ T = UNKNOWN ∨ V = UNKNOWN.

(** [Hunt f() { }  Box p paws f()  Box x paws 1] *)
Definition unknown_p_int_x : list StatementNode :=
  [ FunctionDefNode 1 1 "f" [] [];
    VarDeclarationNode 2 1 "p" (FunctionCallNode 2 12 "f" []);
    VarDeclarationNode 3 1 "x" (IntegerNode 3 12 1) ].

Definition after_unknown_p_int_x : SemanticAnalyzer :=
  match for_each visit_statement unknown_p_int_x SemanticAnalyzer_init with
  | Returns (_, a) => a
  | Raises _ => SemanticAnalyzer_init
  end.

Definition x_symbol : Symbol :=
  {| name := "x"; data_type := TREATS; scope_level := 0; is_function := false;
     parameters := None; line := 3; column := 1 |}.

Definition g_symbol : Symbol :=
  {| name := "g"; data_type := YARN; scope_level := 0; is_function := false;
     parameters := None; line := 2; column := 1 |}.

Definition hunt_f_symbol : Symbol :=
  {| name := "f"; data_type := UNKNOWN; scope_level := 0; is_function := true;
     parameters := Some []; line := 1; column := 1 |}.

(** the analyzer in the body of [Hunt f() { ... }] *)
Definition inside_f : SemanticAnalyzer :=
  {| symbol_table := {| scopes := [ {[ "f" := hunt_f_symbol ]}; ∅ ]; current_scope := 1 |};
     errors := []; current_function := Some "f"; in_function := true |}.

(** the analyzer after [Box g paws "s"], with [f] declared before *)
Definition after_box_g : SemanticAnalyzer :=
  match visit_statement (VarDeclarationNode 2 1 "g" (StringNode 2 12 "s")) f_declared with
  | Returns (_, a) => a
  | Raises _ => f_declared
  end.

End semantic.

(** ** codegen.py *)

Module codegen.
Import ast.

Record TACInstruction : Type := mkTAC {
  operation : string;
  arg1 : option string;
  arg2 : option string;
  result : option string
}.

#[global] Instance TACInstruction_eq_dec : EqDecision TACInstruction.
Proof. solve_decision. Defined.

(** The double-quote character. *)
Definition quote : string := String "034"%char EmptyString.

(** Python truthiness of an [Optional[str]]: [None] and the empty string
    are both false. *)
Definition truthy (s : option string) : bool :=
  match s with
  | Some (String _ _) => true
  | _ => false
  end.

(** What an f-string prints for an [Optional[str]] field. *)
Definition fmt (s : option string) : string :=
  match s with
  | Some x => x
  | None => "None"
  end.

(** [TACInstruction.__str__] *)
Definition TACInstruction_str (i : TACInstruction) : string :=
  let op := operation i in
  if bool_decide (op = "label") then fmt (result i) ++ ":"
  else if bool_decide (op = "goto") then "    goto " ++ fmt (result i)
  else if bool_decide (op = "if_false") then
    "    if_false " ++ fmt (arg1 i) ++ " goto " ++ fmt (result i)
  else if bool_decide (op = "if_true") then
    "    if_true " ++ fmt (arg1 i) ++ " goto " ++ fmt (result i)
  else if bool_decide (op = "param") then "    param " ++ fmt (arg1 i)
  else if bool_decide (op = "call") then
    if truthy (result i)
    then "    " ++ fmt (result i) ++ " = call " ++ fmt (arg1 i) ++ ", " ++ fmt (arg2 i)
    else "    call " ++ fmt (arg1 i) ++ ", " ++ fmt (arg2 i)
  else if bool_decide (op = "return") then "    return " ++ fmt (arg1 i)
  else if bool_decide (op = "print") then "    print " ++ fmt (arg1 i)
  else if bool_decide (op = "begin_func") then
    String "010"%char (fmt (arg1 i) ++ ":")
  else if bool_decide (op = "end_func") then "    end_func " ++ fmt (arg1 i)
  else if bool_decide (op = "=") then "    " ++ fmt (result i) ++ " = " ++ fmt (arg1 i)
  else if truthy (arg2 i) then
    "    " ++ fmt (result i) ++ " = " ++ fmt (arg1 i) ++ " " ++ op ++ " " ++ fmt (arg2 i)
  else "    " ++ fmt (result i) ++ " = " ++ op ++ " " ++ fmt (arg1 i).

(** *** class CodeGenerator *)

Record CodeGenerator : Type := mkCodeGenerator {
  instructions : list TACInstruction;
  temp_counter : nat;
  label_counter : nat;
  current_function : option string
}.

(** [CodeGenerator.__init__] *)
Definition CodeGenerator_init : CodeGenerator :=
  {| instructions := []; temp_counter := 0; label_counter := 0;
     current_function := None |}.

(** A method of the generator: it runs on the generator's state and
    returns a value with the new state.  No method raises. *)
Definition G (A : Type) : Type := CodeGenerator → A * CodeGenerator.

Definition ret {A} (x : A) : G A := fun g => (x, g).

Definition bind {A B} (m : G A) (k : A → G B) : G B :=
  fun g => let (x, g') := m g in k x g'.

Declare Scope codegen_scope.
Delimit Scope codegen_scope with codegen.
Notation "'let*' x ':=' m 'in' k" := (bind m (fun x => k))
  (at level 10, x name, m at level 100, k at level 200) : codegen_scope.
Notation "m '>>' k" := (bind m (fun _ => k))
  (at level 100, k at level 200, right associativity) : codegen_scope.
Local Open Scope codegen_scope.

(** [for x in l: f(x)] *)
Definition for_each {A} (f : A → G unit) : list A → G unit :=
  fix go l :=
    match l with
    | [] => ret tt
    | x :: l' => f x >> go l'
    end.

(** The name [f"t{n}"]. *)
Definition temp_name (n : nat) : string := "t" ++ str_nat n.

(** The name [f"L{n}"]. *)
Definition label_name (n : nat) : string := "L" ++ str_nat n.

Definition new_temp : G string := fun g =>
  (temp_name (temp_counter g),
   {| instructions := instructions g; temp_counter := temp_counter g + 1;
      label_counter := label_counter g; current_function := current_function g |}).

Definition new_label : G string := fun g =>
  (label_name (label_counter g),
   {| instructions := instructions g; temp_counter := temp_counter g;
      label_counter := label_counter g + 1; current_function := current_function g |}).

Definition emit (op : string) (a1 a2 res : option string) : G unit := fun g =>
  (tt, {| instructions := instructions g ++ [mkTAC op a1 a2 res];
          temp_counter := temp_counter g; label_counter := label_counter g;
          current_function := current_function g |}).

Definition get_current_function : G (option string) := fun g => (current_function g, g).

Definition set_current_function (f : option string) : G unit := fun g =>
  (tt, {| instructions := instructions g; temp_counter := temp_counter g;
          label_counter := label_counter g; current_function := f |}).

Section generator.
(** [str(x)] on a [float]: Python's shortest round-trip rendering, which
    the generator uses for float literals.  It is not part of the
    repository and is taken as given. *)
Variable str_float : spec_float → string.

Section expression_visitors.
Variable visit_expression : ExpressionNode → G string.

Definition visit_binary_op (operator : string) (left right : ExpressionNode) : G string :=
  let* left_temp := visit_expression left in
  let* right_temp := visit_expression right in
  let* result_temp := new_temp in
  emit operator (Some left_temp) (Some right_temp) (Some result_temp) >>
  ret result_temp.

Definition visit_unary_op (operator : string) (operand : ExpressionNode) : G string :=
  let* operand_temp := visit_expression operand in
  let* result_temp := new_temp in
  emit operator (Some operand_temp) None (Some result_temp) >>
  ret result_temp.

Definition visit_function_call (nm : string) (arguments : list ExpressionNode) : G string :=
  for_each (fun arg =>
    let* arg_temp := visit_expression arg in
    emit "param" (Some arg_temp) None None) arguments >>
  let* result_temp := new_temp in
  let num_args := str_nat (length arguments) in
  emit "call" (Some nm) (Some num_args) (Some result_temp) >>
  ret result_temp.
End expression_visitors.

Fixpoint visit_expression (node : ExpressionNode) : G string :=
  match node with
  | BinaryOpNode _ _ operator lhs rhs =>
      visit_binary_op visit_expression operator lhs rhs
  | UnaryOpNode _ _ operator operand =>
      visit_unary_op visit_expression operator operand
  | IntegerNode _ _ value => ret (str_int value)
  | FloatNode _ _ value => ret (str_float value)
  | StringNode _ _ value => ret (quote ++ value ++ quote)
  | IdentifierNode _ _ nm => ret nm
  | FunctionCallNode _ _ nm arguments =>
      visit_function_call visit_expression nm arguments
  | OtherExpression _ _ =>
      let* temp := new_temp in
      emit "=" (Some "0") None (Some temp) >>
      ret temp
  end.

Section statement_visitors.
Variable visit_statement : StatementNode → G unit.

Definition visit_var_declaration (identifier : string) (value : ExpressionNode) : G unit :=
  let* value_temp := visit_expression value in
  emit "=" (Some value_temp) None (Some identifier).

Definition visit_assignment (identifier : string) (value : ExpressionNode) : G unit :=
  let* value_temp := visit_expression value in
  emit "=" (Some value_temp) None (Some identifier).

Definition visit_function_def (nm : string) (body : list StatementNode) : G unit :=
  let* old_function := get_current_function in
  set_current_function (Some nm) >>
  emit "begin_func" (Some nm) None None >>
  for_each visit_statement body >>
  emit "end_func" (Some nm) None None >>
  set_current_function old_function.

Definition visit_if_statement (condition : ExpressionNode)
  (then_block : list StatementNode) (else_block : option (list StatementNode))
  : G unit :=
  let* condition_temp := visit_expression condition in
  (* [if node.else_block:] is false for [None] and for an empty list *)
  match else_block with
  | Some ((_ :: _) as block) =>
      let* else_label := new_label in
      let* end_label := new_label in
      emit "if_false" (Some condition_temp) None (Some else_label) >>
      for_each visit_statement then_block >>
      emit "goto" None None (Some end_label) >>
      emit "label" None None (Some else_label) >>
      for_each visit_statement block >>
      emit "label" None None (Some end_label)
  | _ =>
      let* end_label := new_label in
      emit "if_false" (Some condition_temp) None (Some end_label) >>
      for_each visit_statement then_block >>
      emit "label" None None (Some end_label)
  end.

Definition visit_while_loop (condition : ExpressionNode) (body : list StatementNode)
  : G unit :=
  let* start_label := new_label in
  let* end_label := new_label in
  emit "label" None None (Some start_label) >>
  let* condition_temp := visit_expression condition in
  emit "if_false" (Some condition_temp) None (Some end_label) >>
  for_each visit_statement body >>
  emit "goto" None None (Some start_label) >>
  emit "label" None None (Some end_label).

Definition visit_return_statement (value : ExpressionNode) : G unit :=
  let* value_temp := visit_expression value in
  emit "return" (Some value_temp) None None.

Definition visit_print_statement (value : ExpressionNode) : G unit :=
  let* value_temp := visit_expression value in
  emit "print" (Some value_temp) None None.

Definition visit_function_call_statement (call_name : string)
  (call_arguments : list ExpressionNode) : G unit :=
  visit_function_call visit_expression call_name call_arguments >> ret tt.
End statement_visitors.

Fixpoint visit_statement (node : StatementNode) : G unit :=
  match node with
  | VarDeclarationNode _ _ identifier value => visit_var_declaration identifier value
  | AssignmentNode _ _ identifier value => visit_assignment identifier value
  | FunctionDefNode _ _ nm _ body => visit_function_def visit_statement nm body
  | IfStatementNode _ _ condition then_block else_block =>
      visit_if_statement visit_statement condition then_block else_block
  | WhileLoopNode _ _ condition body => visit_while_loop visit_statement condition body
  | ReturnStatementNode _ _ value => visit_return_statement value
  | PrintStatementNode _ _ value => visit_print_statement value
  | FunctionCallStatementNode _ _ _ _ cn ca => visit_function_call_statement cn ca
  | OtherStatement _ _ => ret tt
  end.

Definition visit_program (node : ProgramNode) : G unit :=
  for_each visit_statement (statements node).

(** [CodeGenerator().generate(ast)] *)
Definition generate (node : ProgramNode) : list TACInstruction :=
  instructions (snd (visit_program node CodeGenerator_init)).

(** [get_code_string]: ['\n'.join(str(instr) for instr in self.instructions)] *)
Definition code_lines (code : list TACInstruction) : list string :=
  map TACInstruction_str code.

End generator.

(** *** Vocabulary of the properties *)

(** The code that [m] appends when run from [g]. *)
Definition emitted {A} (m : G A) (g : CodeGenerator) : list TACInstruction :=
  drop (length (instructions g)) (instructions (snd (m g))).

(** From [g] to [g']: code is only appended, counters only go up. *)
Record grows (g g' : CodeGenerator) : Prop := {
  grows_code : ∃ code, instructions g' = (instructions g ++ code)%list;
  grows_temps : (temp_counter g ≤ temp_counter g')%nat;
  grows_labels : (label_counter g ≤ label_counter g')%nat
}.

Definition label_defs (code : list TACInstruction) : list (option string) :=
  result <$> filter (λ i, operation i = "label") code.

Definition jump_targets (code : list TACInstruction) : list (option string) :=
  result <$> filter (λ i, operation i = "goto" ∨ operation i = "if_false") code.

(** The labels [L lo], ..., [L (hi - 1)]. *)
Definition labels_between (lo hi : nat) : list (option string) :=
  (λ n, Some (label_name n)) <$> seq lo (hi - lo).

(** A piece of code that uses the labels allocated from [lo] up to [hi]:
    each is defined by one [label] and is the target of one jump. *)
Record labels_balanced (lo hi : nat) (code : list TACInstruction) : Prop := {
  balanced_range : (lo ≤ hi)%nat;
  balanced_defs : label_defs code ≡ₚ labels_between lo hi;
  balanced_targets : jump_targets code ≡ₚ labels_between lo hi
}.

(** How many [label] instructions of [code] define [name]. *)
Definition count_labels (name : string) (code : list TACInstruction) : nat :=
  length (filter (λ r, r = Some name) (label_defs code)).

(** The labels of [code] agree with its jumps: there are as many [label]
    instructions as distinct targets of [goto] and [if_false], and every
    label name that is defined or jumped to is defined by exactly one
    [label] instruction. *)
Definition labels_consistent (code : list TACInstruction) : Prop :=
  length (filter (λ i, operation i = "label") code)
  = length (remove_dups (jump_targets code))
  ∧ ∀ name, Some name ∈ label_defs code ∨ Some name ∈ jump_targets code →
            count_labels name code = 1%nat.

(** The code of a conditional with an else block, after the code of
    its condition: the jump over the then-block, the then-block, the jump
    over the else-block, and the two labels around the else-block. *)
Definition if_else_code (C L_else L_end : string)
  (then_code else_code : list TACInstruction) : list TACInstruction :=
  ([mkTAC "if_false" (Some C) None (Some L_else)]
   ++ then_code
   ++ [mkTAC "goto" None None (Some L_end); mkTAC "label" None None (Some L_else)]
   ++ else_code
   ++ [mkTAC "label" None None (Some L_end)])%list.

(** [true] exactly on the names ["t0"], ["t1"], ... of temporaries. *)
Definition is_temp_name (s : string) : bool :=
  match s with
  | String c r =>
      if Ascii.eqb c "t" then
        match NilEmpty.uint_of_string r with
        | Some d => bool_decide (str_nat (Nat.of_uint d) = r)
        | None => false
        end
      else false
  | EmptyString => false
  end.

Section operand_names.
Variable str_float : spec_float → string.

(** The identifiers, function names and float renderings of an
    expression: the texts that lowering copies into operands, apart from
    integer and string literals. *)
Fixpoint expression_names (e : ExpressionNode) : list string :=
  match e with
  | BinaryOpNode _ _ _ l r => expression_names l ++ expression_names r
  | UnaryOpNode _ _ _ e => expression_names e
  | FloatNode _ _ v => [str_float v]
  | IdentifierNode _ _ nm => [nm]
  | FunctionCallNode _ _ nm args => nm :: flat_map expression_names args
  | _ => []
  end%list.

Fixpoint statement_names (s : StatementNode) : list string :=
  match s with
  | VarDeclarationNode _ _ x v | AssignmentNode _ _ x v => x :: expression_names v
  | FunctionDefNode _ _ nm _ body => nm :: flat_map statement_names body
  | IfStatementNode _ _ c th el =>
      expression_names c ++ flat_map statement_names th
      ++ match el with
         | Some el => flat_map statement_names el
         | None => []
         end
  | WhileLoopNode _ _ c body => expression_names c ++ flat_map statement_names body
  | ReturnStatementNode _ _ v | PrintStatementNode _ _ v => expression_names v
  | FunctionCallStatementNode _ _ _ _ nm args => nm :: flat_map expression_names args
  | OtherStatement _ _ => []
  end%list.

(** No name of the program is the name of a temporary. *)
Definition temp_free (p : ProgramNode) : bool :=
  forallb (λ s, negb (is_temp_name s)) (flat_map statement_names (statements p)).
End operand_names.

(** [s] is an argument of [i] / the result of [i]. *)
Definition uses (i : TACInstruction) (s : string) : Prop :=
  arg1 i = Some s ∨ arg2 i = Some s.

Definition defines (i : TACInstruction) (s : string) : Prop :=
  result i = Some s.

(** The temporaries of the code generated so far: all below the counter,
    each defined by one instruction, and defined before it is used. *)
Record temps_ok (g : CodeGenerator) : Prop := {
  temps_bounded : ∀ i n, i ∈ instructions g →
    uses i (temp_name n) ∨ defines i (temp_name n) → (n < temp_counter g)%nat;
  temps_single : ∀ j k i i' n,
    instructions g !! j = Some i → instructions g !! k = Some i' →
    defines i (temp_name n) → defines i' (temp_name n) → j = k;
  temps_ordered : ∀ j i n,
    instructions g !! j = Some i → uses i (temp_name n) →
    ∃ k i', (k < j)%nat ∧ instructions g !! k = Some i' ∧ defines i' (temp_name n)
}.

(** An operand that the code generated so far may use: if it is a
    temporary, an instruction defines it. *)
Definition operand_ok (g : CodeGenerator) (s : string) : Prop :=
  ∀ n, s = temp_name n → ∃ i, i ∈ instructions g ∧ defines i (temp_name n).

Definition arg_ok (g : CodeGenerator) (a : option string) : Prop :=
  ∀ s, a = Some s → operand_ok g s.

Definition not_temp (s : string) : Prop := ∀ n, s ≠ temp_name n.

(** What lowering costs: the temporaries an expression allocates (one
    for each operation, call and unknown node) and the instructions it
    emits (one for each temporary, and one [param] for each argument of a
    call). *)
Fixpoint expression_temps (e : ExpressionNode) : nat :=
  match e with
  | BinaryOpNode _ _ _ l r => expression_temps l + expression_temps r + 1
  | UnaryOpNode _ _ _ e => expression_temps e + 1
  | FunctionCallNode _ _ _ args => list_sum (map expression_temps args) + 1
  | OtherExpression _ _ => 1
  | _ => 0
  end.

Fixpoint expression_size (e : ExpressionNode) : nat :=
  match e with
  | BinaryOpNode _ _ _ l r => expression_size l + expression_size r + 1
  | UnaryOpNode _ _ _ e => expression_size e + 1
  | FunctionCallNode _ _ _ args => list_sum (map (λ a, expression_size a + 1) args) + 1
  | OtherExpression _ _ => 1
  | _ => 0
  end.

(** The temporaries and labels a statement allocates and the
    instructions it emits.  An else block counts when it holds a
    statement. *)
Fixpoint statement_temps (s : StatementNode) : nat :=
  match s with
  | VarDeclarationNode _ _ _ v | AssignmentNode _ _ _ v
  | ReturnStatementNode _ _ v | PrintStatementNode _ _ v => expression_temps v
  | FunctionDefNode _ _ _ _ body => list_sum (map statement_temps body)
  | IfStatementNode _ _ c th el =>
      expression_temps c + list_sum (map statement_temps th)
      + match el with
        | Some el => list_sum (map statement_temps el)
        | None => 0
        end
  | WhileLoopNode _ _ c body => expression_temps c + list_sum (map statement_temps body)
  | FunctionCallStatementNode _ _ _ _ _ args => list_sum (map expression_temps args) + 1
  | OtherStatement _ _ => 0
  end.

Fixpoint statement_labels (s : StatementNode) : nat :=
  match s with
  | FunctionDefNode _ _ _ _ body => list_sum (map statement_labels body)
  | IfStatementNode _ _ _ th el =>
      match el with
      | Some (s :: el) =>
          2 + list_sum (map statement_labels th)
          + list_sum (map statement_labels (s :: el))
      | _ => 1 + list_sum (map statement_labels th)
      end
  | WhileLoopNode _ _ _ body => 2 + list_sum (map statement_labels body)
  | _ => 0
  end.

Fixpoint statement_size (s : StatementNode) : nat :=
  match s with
  | VarDeclarationNode _ _ _ v | AssignmentNode _ _ _ v
  | ReturnStatementNode _ _ v | PrintStatementNode _ _ v => expression_size v + 1
  | FunctionDefNode _ _ _ _ body => 2 + list_sum (map statement_size body)
  | IfStatementNode _ _ c th el =>
      match el with
      | Some (s :: el) =>
          expression_size c + 4 + list_sum (map statement_size th)
          + list_sum (map statement_size (s :: el))
      | _ => expression_size c + 2 + list_sum (map statement_size th)
      end
  | WhileLoopNode _ _ c body => expression_size c + 4 + list_sum (map statement_size body)
  | FunctionCallStatementNode _ _ _ _ _ args =>
      list_sum (map (λ a, expression_size a + 1) args) + 1
  | OtherStatement _ _ => 0
  end.

(** The code of a loop: the label of its head, the code of its
    condition, the jump out, the body, the jump back and the label of its
    end. *)
Definition while_code (L_start L_end C : string)
  (condition_code body_code : list TACInstruction) : list TACInstruction :=
  ([mkTAC "label" None None (Some L_start)]
   ++ condition_code
   ++ [mkTAC "if_false" (Some C) None (Some L_end)]
   ++ body_code
   ++ [mkTAC "goto" None None (Some L_start); mkTAC "label" None None (Some L_end)])%list.

(** The code of a conditional without else block, after the code of its
    condition. *)
Definition if_code (C L_end : string) (then_code : list TACInstruction)
  : list TACInstruction :=
  ([mkTAC "if_false" (Some C) None (Some L_end)]
   ++ then_code
   ++ [mkTAC "label" None None (Some L_end)])%list.

(** The code of a function definition. *)
Definition function_code (nm : string) (body_code : list TACInstruction)
  : list TACInstruction :=
  ([mkTAC "begin_func" (Some nm) None None]
   ++ body_code
   ++ [mkTAC "end_func" (Some nm) None None])%list.

(** The code of the arguments of a call lowered from [g] by [lower]:
    the code of each argument in source order, each followed by the
    [param] of its operand. *)
Fixpoint params_code (lower : ExpressionNode → G string) (args : list ExpressionNode)
  (g : CodeGenerator) : list TACInstruction :=
  match args with
  | [] => []
  | a :: rest =>
      emitted (lower a) g
      ++ [mkTAC "param" (Some (fst (lower a g))) None None]
      ++ params_code lower rest
           (snd (emit "param" (Some (fst (lower a g))) None None (snd (lower a g))))
  end%list.

(** The begin and end markers of functions nest like brackets: [stack]
    holds the names of the functions that are open, innermost first. *)
Fixpoint function_markers (stack : list string) (code : list TACInstruction)
  : option (list string) :=
  match code with
  | [] => Some stack
  | i :: code =>
      if bool_decide (operation i = "begin_func") then
        match arg1 i with
        | Some nm => function_markers (nm :: stack) code
        | None => None
        end
      else if bool_decide (operation i = "end_func") then
        match stack with
        | nm :: stack => if bool_decide (arg1 i = Some nm) then function_markers stack code
                         else None
        | [] => None
        end
      else function_markers stack code
  end.

End codegen.

(** ** main.py *)

Module main.
Import ast.

(** The phase in which [MeowScriptCompiler.compile] gave up;
    [Unexpected] is its catch-all [except Exception]. *)
Inductive Phase : Type :=
| Lexical | Syntax | Semantic | CodeGeneration | Unexpected.

(** What [compile] comes to: [True] with the artefacts it leaves in the
    compiler object and what the parser printed on the way, or [False].
    [Unmodelled] is the model's own: a loop cut off by its fuel. *)
Inductive Compilation : Type :=
| Compiled (tokens : list lexer.Token) (tree : ProgramNode)
    (tac : list codegen.TACInstruction) (parser_output : list string)
| Failed (phase : Phase)
| Unmodelled.

Section driver.
Variable float_of_string : string → spec_float.
Variable str_float : spec_float → string.

(** [MeowScriptCompiler(source_code).compile()]: the four phases in
    order, each stopping the pipeline when it raises. *)
Definition compile (fuel : nat) (source_code : string) : Compilation :=
  match lexer.tokenize float_of_string source_code with
  | Raises (lexer.LexerError _ _ _) => Failed Lexical
  | Raises lexer.ValueError => Failed Unexpected
  | Raises lexer.OutOfFuel => Unmodelled
  | Returns tokens =>
      match parser.parse fuel tokens with
      | (Raises (parser.ParserError _ _), _) => Failed Syntax
      | (Raises parser.AttributeError, _) => Failed Unexpected
      | (Raises parser.ValueOutsideModel, _) => Unmodelled
      | (Raises parser.OutOfFuel, _) => Unmodelled
      | (Returns tree, printed) =>
          match semantic.analyze tree semantic.SemanticAnalyzer_init with
          | Raises (semantic.SemanticError_exn _) => Failed Semantic
          | Raises semantic.IndexError => Failed Unexpected
          | Returns _ =>
              Compiled tokens tree (codegen.generate str_float tree) printed
          end
      end
  end.

(** The status [main()] exits with: [sys.exit(1)] when [compile]
    returned [False], [sys.exit(0)] at the end otherwise. *)
Definition exit_status (c : Compilation) : option Z :=
  match c with
  | Compiled _ _ _ _ => Some 0%Z
  | Failed _ => Some 1%Z
  | Unmodelled => None
  end.
End driver.

(** *** Sources the properties are tried on *)

(** The sources below hold no float literal; these two stand for
    Python's [float()] and [str()] there. *)
Definition no_float_of_string (_ : string) : spec_float := S754_zero false.
Definition no_str_float (_ : spec_float) : string := "0.0".

Definition if_else_source : string :=
  "Wake Purr (1) { Meow(1) } Hiss { Meow(2) } Sleep".

Definition if_else_program : ProgramNode :=
  mkProgramNode 1 1
    [ IfStatementNode 1 6 (IntegerNode 1 12 1)
        [PrintStatementNode 1 17 (IntegerNode 1 22 1)]
        (Some [PrintStatementNode 1 34 (IntegerNode 1 39 2)]) ].

Definition empty_else_source : string :=
  "Wake Purr (1) { Meow(1) } Hiss { } Sleep".

Definition empty_else_program : ProgramNode :=
  mkProgramNode 1 1
    [ IfStatementNode 1 6 (IntegerNode 1 12 1)
        [PrintStatementNode 1 17 (IntegerNode 1 22 1)]
        (Some []) ].

Definition stray_plus_source : string := "Wake + Sleep".

Definition stray_identifier_source : string := "Wake x Box y paws 1 Sleep".

Definition user_t0_source : string := "Wake Box t0 paws 5 Box x paws 1 + 2 Sleep".

Definition user_t0_program : ProgramNode :=
  mkProgramNode 1 1
    [ VarDeclarationNode 1 6 "t0" (IntegerNode 1 18 5);
      VarDeclarationNode 1 20 "x"
        (BinaryOpNode 1 33 "+" (IntegerNode 1 31 1) (IntegerNode 1 35 2)) ].

Definition loop_source : string :=
  "Wake Hunt add(x,y){ Bring x+y } Box r paws add(5,3) Box i paws 0 Chase (i < 3) { i paws i + 1 } Sleep".

Definition loop_program : ProgramNode :=
  mkProgramNode 1 1
    [ FunctionDefNode 1 6 "add" ["x"; "y"]
        [ReturnStatementNode 1 21
           (BinaryOpNode 1 28 "+" (IdentifierNode 1 27 "x") (IdentifierNode 1 29 "y"))];
      VarDeclarationNode 1 33 "r"
        (FunctionCallNode 1 44 "add" [IntegerNode 1 48 5; IntegerNode 1 50 3]);
      VarDeclarationNode 1 53 "i" (IntegerNode 1 64 0);
      WhileLoopNode 1 66
        (BinaryOpNode 1 75 "<" (IdentifierNode 1 73 "i") (IntegerNode 1 77 3))
        [AssignmentNode 1 82 "i"
           (BinaryOpNode 1 91 "+" (IdentifierNode 1 89 "i") (IntegerNode 1 93 1))] ].

(** The tree of a compilation that went through. *)
Definition tree_of (c : Compilation) : option ProgramNode :=
  match c with
  | Compiled _ tree _ _ => Some tree
  | _ => None
  end.

(** Its code, as [get_intermediate_code] joins it: one line per instruction. *)
Definition code_of (c : Compilation) : option (list string) :=
  match c with
  | Compiled _ _ tac _ => Some (codegen.code_lines tac)
  | _ => None
  end.

Definition printed_by_parser (c : Compilation) : option (list string) :=
  match c with
  | Compiled _ _ _ printed => Some printed
  | _ => None
  end.

End main.

(** * Properties *)

(** Nothing is asked of a result. *)
Definition anything {A} : A → Prop := λ _, True.

(** ** The lexer *)

Module lexer_facts.
Import lexer.
Local Open Scope lexer_scope.

Definition keeps {A} (m : L A) (Q : A → Prop) : Prop :=
  ∀ lx x lx', m lx = Returns (x, lx') →
    tokens_ok (tokens lx) → tokens_ok (tokens lx') ∧ Q x.

Lemma keeps_ret {A} (x : A) (Q : A → Prop) : Q x → keeps (ret x) Q.
Proof. intros HQ lx y lx' [= <- <-] Hok. auto. Qed.

Lemma keeps_raise {A} e (Q : A → Prop) : keeps (raise e) Q.
Proof. intros lx y lx' H. discriminate H. Qed.

Lemma keeps_bind {A B} (m : L A) (k : A → L B) (Q : A → Prop) (R : B → Prop) :
  keeps m Q → (∀ x, Q x → keeps (k x) R) → keeps (bind m k) R.
Proof.
  intros Hm Hk lx y lx' H Hok. unfold bind in H.
  destruct (m lx) as [[x lx1]|] eqn:E; [|discriminate H].
  destruct (Hm _ _ _ E Hok) as [Hok1 HQ]. exact (Hk x HQ _ _ _ H Hok1).
Qed.

Lemma keeps_weaken {A} (m : L A) (Q R : A → Prop) :
  keeps m Q → (∀ x, Q x → R x) → keeps m R.
Proof. intros Hm HQR lx y lx' H Hok. destruct (Hm _ _ _ H Hok). auto. Qed.

Definition plain (t : Token) : Prop := token_ok t = true.


Lemma keeps_current_char : keeps current_char anything.
Proof. intros lx y lx' [= <- <-] Hok. done. Qed.
Lemma keeps_peek_char : keeps peek_char anything.
Proof. intros lx y lx' [= <- <-] Hok. done. Qed.
Lemma keeps_position : keeps position anything.
Proof. intros lx y lx' [= <- <-] Hok. done. Qed.
Lemma keeps_advance : keeps advance anything.
Proof.
  intros lx y lx' H Hok. unfold advance in H.
  destruct (String.get _ _); [destruct (Ascii.eqb _ _)|]; injection H as <- <-; done.
Qed.
Lemma keeps_append_token t : token_ok t = true → keeps (append_token t) anything.
Proof.
  intros Ht lx y lx' [= <- <-] Hok. split; [|done]. simpl.
  apply Forall_app. split; [exact Hok|]. by constructor.
Qed.

Lemma keeps_bind_any {A B} (m : L A) (k : A → L B) (R : B → Prop) :
  keeps m anything → (∀ x, keeps (k x) R) → keeps (bind m k) R.
Proof. intros Hm Hk. eapply keeps_bind; [exact Hm|]. intros x _. apply Hk. Qed.

Create HintDb lexer_keeps.
#[local] Hint Resolve keeps_current_char keeps_peek_char keeps_position keeps_advance
  keeps_raise : lexer_keeps.
#[local] Hint Extern 1 (anything _) => exact I : lexer_keeps.
#[local] Hint Extern 1 (plain _) => reflexivity : lexer_keeps.

Ltac keeps_step :=
  lazymatch goal with
  | |- keeps (bind _ _) _ =>
      first [ eapply keeps_bind; [solve [eauto with lexer_keeps]|intros ? ?]
            | eapply keeps_bind_any; [|intros ?] ]
  | |- keeps (ret _) _ => apply keeps_ret
  | |- keeps (raise _) _ => apply keeps_raise
  | |- keeps (match ?c with Some _ => _ | None => _ end) _ => destruct c
  | |- keeps (if ?b then _ else _) _ => destruct b eqn:?
  | |- keeps (match ?c with _ => _ end) _ => destruct c eqn:?
  end.

Ltac keeps_auto := repeat first [keeps_step | solve [eauto with lexer_keeps]].

Lemma keeps_skip_whitespace fuel : keeps (skip_whitespace fuel) anything.
Proof. induction fuel; simpl; keeps_auto. Qed.

Lemma keeps_skip_to_end_of_line fuel : keeps (skip_to_end_of_line fuel) anything.
Proof. induction fuel; simpl; keeps_auto. Qed.

Lemma keeps_skip_to_comment_end fuel : keeps (skip_to_comment_end fuel) anything.
Proof. induction fuel; simpl; keeps_auto. Qed.

#[local] Hint Resolve keeps_skip_whitespace keeps_skip_to_end_of_line
  keeps_skip_to_comment_end : lexer_keeps.

Lemma keeps_skip_single_line_comment fuel : keeps (skip_single_line_comment fuel) anything.
Proof. unfold skip_single_line_comment. keeps_auto. Qed.

Lemma keeps_skip_multi_line_comment fuel : keeps (skip_multi_line_comment fuel) anything.
Proof. unfold skip_multi_line_comment. keeps_auto. Qed.

#[local] Hint Resolve keeps_skip_single_line_comment keeps_skip_multi_line_comment
  : lexer_keeps.

Section tokenizer.
Variable float_of_string : string → spec_float.

Lemma keeps_read_number_loop fuel s b : keeps (read_number_loop fuel s b) anything.
Proof. revert s b. induction fuel; intros s b; simpl; keeps_auto. Qed.
#[local] Hint Resolve keeps_read_number_loop : lexer_keeps.

Lemma keeps_read_number fuel : keeps (read_number float_of_string fuel) plain.
Proof. unfold read_number. keeps_auto. Qed.

Lemma keeps_read_string_loop fuel st s : keeps (read_string_loop fuel st s) anything.
Proof. revert s. induction fuel; intros s; simpl; keeps_auto. Qed.
#[local] Hint Resolve keeps_read_string_loop : lexer_keeps.

Lemma keeps_read_string fuel : keeps (read_string fuel) plain.
Proof. unfold read_string. keeps_auto. Qed.

Lemma keeps_read_identifier_loop fuel s : keeps (read_identifier_loop fuel s) anything.
Proof. revert s. induction fuel; intros s; simpl; keeps_auto. Qed.
#[local] Hint Resolve keeps_read_identifier_loop : lexer_keeps.

Lemma keyword_or_identifier_plain s : operator_text (keyword_or_identifier s) = None.
Proof.
  unfold keyword_or_identifier.
  destruct (List.find _ KEYWORDS) as [kw|] eqn:E; [|reflexivity].
  apply find_some in E as [Hin _]. unfold KEYWORDS in Hin. simpl in Hin.
  repeat destruct Hin as [<-|Hin]; try reflexivity. destruct Hin.
Qed.

Lemma keeps_read_identifier_or_keyword fuel :
  keeps (read_identifier_or_keyword fuel) plain.
Proof.
  unfold read_identifier_or_keyword. keeps_auto.
  unfold plain, token_ok. simpl. by rewrite keyword_or_identifier_plain.
Qed.

Lemma keeps_read_operator c : keeps (read_operator c) anything.
Proof.
  unfold read_operator.
  eapply keeps_bind_any; [eauto with lexer_keeps|intros start].
  eapply keeps_bind_any; [eauto with lexer_keeps|intros n].
  destruct (List.find _ two_char_tokens) as [[[c1 c2] [ty text]]|] eqn:E2.
  - apply find_some in E2 as [Hin _]. keeps_auto. apply keeps_append_token.
    unfold two_char_tokens in Hin. simpl in Hin.
    repeat destruct Hin as [Hin|Hin]; try (injection Hin as <- <- <- <-; reflexivity).
    destruct Hin.
  - destruct (List.find _ single_char_tokens) as [[c1 ty]|] eqn:E1; keeps_auto.
    apply find_some in E1 as [Hin Hc]. simpl in Hc. apply Ascii.eqb_eq in Hc as ->.
    apply keeps_append_token.
    unfold single_char_tokens in Hin. simpl in Hin.
    repeat destruct Hin as [Hin|Hin]; try (injection Hin as <- <-; reflexivity).
    destruct Hin.
Qed.
#[local] Hint Resolve keeps_read_number keeps_read_string keeps_read_identifier_or_keyword
  keeps_read_operator : lexer_keeps.
#[local] Hint Extern 1 (keeps (append_token _) _) => apply keeps_append_token : lexer_keeps.

Lemma keeps_tokenize_loop fuel : keeps (tokenize_loop float_of_string fuel) anything.
Proof. induction fuel; simpl; keeps_auto. Qed.

Lemma tokenize_tokens_ok source_code toks :
  tokenize float_of_string source_code = Returns toks → tokens_ok toks.
Proof.
  unfold tokenize.
  match goal with
  | |- context [bind ?m ?k ?lx] =>
      assert (Hk : keeps (bind m k) anything)
        by (pose proof keeps_tokenize_loop; keeps_auto);
      destruct (bind m k lx) as [[u lx']|] eqn:E; [|discriminate]
  end.
  intros [= <-]. apply (Hk _ _ _ E). constructor.
Qed.


End tokenizer.
(** *** What the lexer reads and what it raises *)

Local Open Scope nat_scope.

Definition position_of (lx : Lexer) : Z * Z := (cur_line lx, cur_column lx).

(** The characters still to be read. *)
Definition remaining (lx : Lexer) : nat := String.length (source lx) - pos lx.

Definition wf (lx : Lexer) : Prop :=
  pos lx ≤ String.length (source lx) ∧ (1 ≤ cur_line lx)%Z ∧ (1 ≤ cur_column lx)%Z.

(** From [lx] to [lx']: the lexer has read on, and has appended no token. *)
Record reads (lx lx' : Lexer) : Prop := {
  reads_wf : wf lx';
  reads_source : source lx' = source lx;
  reads_tokens : tokens lx' = tokens lx;
  reads_on : (pos lx' = pos lx ∧ position_of lx' = position_of lx)
             ∨ (pos lx < pos lx' ∧ before (position_of lx) (position_of lx'))
}.

Definition reads_some (lx lx' : Lexer) : Prop :=
  reads lx lx' ∧ pos lx < pos lx'.

Section raising.
(** What is known of the text when [int()] raises [ValueError]. *)
Variable overlong : Prop.

(** [m], run from [lx], returns a result that satisfies [Q], or raises
    [LexerError], or raises [ValueError] where [overlong] holds; it
    raises nothing else. *)
Definition runs {A} (m : L A) (lx : Lexer) (Q : A → Lexer → Prop) : Prop :=
  match m lx with
  | Returns (x, lx') => Q x lx'
  | Raises (LexerError _ _ _) => True
  | Raises ValueError => overlong
  | Raises OutOfFuel => False
  end.

Lemma runs_ret {A} (x : A) lx (Q : A → Lexer → Prop) : Q x lx → runs (ret x) lx Q.
Proof. done. Qed.

Lemma runs_bind {A B} (m : L A) (k : A → L B) lx (Q : B → Lexer → Prop) :
  runs m lx (λ x lx', runs (k x) lx' Q) → runs (bind m k) lx Q.
Proof. unfold runs, bind. destruct (m lx) as [[x lx']|e]; done. Qed.

Lemma runs_weaken {A} (m : L A) lx (Q Q' : A → Lexer → Prop) :
  runs m lx Q → (∀ x lx', Q x lx' → Q' x lx') → runs m lx Q'.
Proof. unfold runs. destruct (m lx) as [[x lx']|[]]; auto. Qed.

Lemma runs_LexerError {A} msg ln col lx (Q : A → Lexer → Prop) :
  runs (raise (LexerError msg ln col)) lx Q.
Proof. done. Qed.

Lemma before_trans p q r : before p q → before q r → before p r.
Proof. unfold before. lia. Qed.

Lemma reads_refl lx : wf lx → reads lx lx.
Proof. intros H. split; auto. Qed.

Lemma reads_trans lx1 lx2 lx3 : reads lx1 lx2 → reads lx2 lx3 → reads lx1 lx3.
Proof.
  intros [_ S1 T1 O1] [W2 S2 T2 O2]. split; [done|congruence|congruence|].
  destruct O1 as [[P1 Q1]|[P1 Q1]], O2 as [[P2 Q2]|[P2 Q2]].
  - left. split; congruence.
  - right. rewrite <- P1, <- Q1. done.
  - right. rewrite P2, Q2. done.
  - right. split; [lia|by eapply before_trans].
Qed.

Lemma reads_pos lx lx' : reads lx lx' → pos lx ≤ pos lx'.
Proof. intros [_ _ _ [[-> _]|[? _]]]; lia. Qed.

Lemma reads_some_trans_l lx1 lx2 lx3 :
  reads_some lx1 lx2 → reads lx2 lx3 → reads_some lx1 lx3.
Proof.
  intros [H1 P1] H2. split; [by eapply reads_trans|]. apply reads_pos in H2. lia.
Qed.

Lemma reads_some_trans_r lx1 lx2 lx3 :
  reads lx1 lx2 → reads_some lx2 lx3 → reads_some lx1 lx3.
Proof.
  intros H1 [H2 P2]. split; [by eapply reads_trans|]. apply reads_pos in H1. lia.
Qed.

Lemma get_Some_lt n s c : String.get n s = Some c → n < String.length s.
Proof.
  revert n. induction s as [|a s IH]; intros [|n]; simpl; try done; [lia|].
  intros H. apply IH in H. lia.
Qed.

Lemma get_None_ge n s : String.get n s = None → String.length s ≤ n.
Proof.
  revert n. induction s as [|a s IH]; intros [|n]; simpl; try done; [lia|].
  intros H. apply IH in H. lia.
Qed.

(** [advance] at a character reads it. *)
Lemma advance_Some lx c :
  wf lx → String.get (pos lx) (source lx) = Some c →
  ∃ lx', advance lx = Returns (Some c, lx') ∧ reads_some lx lx'
         ∧ pos lx' = S (pos lx).
Proof.
  intros (Hp & Hl & Hc) Hget. unfold advance. rewrite Hget.
  pose proof (get_Some_lt _ _ _ Hget).
  eexists. split; [reflexivity|].
  destruct (Ascii.eqb c newline); (split; [split; [split|]|]); simpl; try lia; try done.
  all: try (right; split; [lia|unfold before, position_of; simpl; lia]).
  all: unfold wf; simpl; lia.
Qed.

Lemma advance_None lx :
  String.get (pos lx) (source lx) = None → advance lx = Returns (None, lx).
Proof. intros Hget. unfold advance. by rewrite Hget. Qed.

(** [advance], wherever it stands. *)
Lemma runs_advance lx (Q : option ascii → Lexer → Prop) :
  wf lx → (∀ c lx', reads lx lx' → Q c lx') → runs advance lx Q.
Proof.
  intros Hwf HQ. unfold runs. destruct (String.get (pos lx) (source lx)) as [c|] eqn:E.
  - destruct (advance_Some lx c Hwf E) as (lx' & -> & [Hr _] & _). by apply HQ.
  - rewrite (advance_None lx E). apply HQ. by apply reads_refl.
Qed.


Lemma runs_current_char {A} (k : option ascii → L A) lx Q :
  runs (bind current_char k) lx Q = runs (k (String.get (pos lx) (source lx))) lx Q.
Proof. reflexivity. Qed.

Lemma runs_peek_char {A} (k : option ascii → L A) lx Q :
  runs (bind peek_char k) lx Q = runs (k (String.get (pos lx + 1) (source lx))) lx Q.
Proof. reflexivity. Qed.

Lemma runs_position {A} (k : Z * Z → L A) lx Q :
  runs (bind position k) lx Q = runs (k (position_of lx)) lx Q.
Proof. reflexivity. Qed.

Lemma runs_bind_advance_Some {A} (k : option ascii → L A) lx c Q :
  wf lx → String.get (pos lx) (source lx) = Some c →
  (∀ lx', reads_some lx lx' → pos lx' = S (pos lx) → runs (k (Some c)) lx' Q) →
  runs (bind advance k) lx Q.
Proof.
  intros Hwf Hget Hk. destruct (advance_Some lx c Hwf Hget) as (lx' & Hadv & Hr & Hp).
  unfold runs, bind. rewrite Hadv. by apply Hk.
Qed.

Lemma runs_bind_advance {A} (k : option ascii → L A) lx Q :
  wf lx → (∀ c lx', reads lx lx' → runs (k c) lx' Q) → runs (bind advance k) lx Q.
Proof. intros Hwf Hk. apply runs_bind. by apply runs_advance. Qed.

Lemma reads_remaining lx lx' : reads lx lx' → remaining lx' ≤ remaining lx.
Proof. intros H. pose proof (reads_pos _ _ H). unfold remaining. rewrite (reads_source _ _ H). lia. Qed.

Lemma reads_some_remaining lx lx' : reads_some lx lx' → remaining lx' < remaining lx.
Proof.
  intros [H Hp]. destruct (reads_wf _ _ H) as [Hle _].
  unfold remaining. rewrite (reads_source _ _ H) in *. lia.
Qed.

Lemma runs_skip_whitespace fuel lx :
  wf lx → remaining lx < fuel →
  runs (skip_whitespace fuel) lx (λ _ lx',
    reads lx lx'
    ∧ ∀ c, String.get (pos lx) (source lx) = Some c → char_in c whitespace = true →
           pos lx < pos lx').
Proof.
  revert lx. induction fuel as [|fuel IH]; intros lx Hwf Hfuel; [lia|].
  cbn [skip_whitespace]. rewrite runs_current_char.
  destruct (String.get (pos lx) (source lx)) as [c|] eqn:Hget.
  - destruct (char_in c whitespace) eqn:Hc.
    + apply (runs_bind_advance_Some _ lx c); [done..|]. intros lx' Hr Hp.
      pose proof (reads_some_remaining _ _ Hr).
      eapply runs_weaken; [apply IH; [apply Hr|lia]|].
      intros u lx'' [Hr' _]. split; [eapply reads_trans; [apply Hr|done]|].
      intros c' Hc' Hw'. apply reads_pos in Hr'. lia.
    + apply runs_ret. split; [by apply reads_refl|]. intros c' [= <-]. congruence.
  - apply runs_ret. split; [by apply reads_refl|]. done.
Qed.

Lemma runs_skip_to_end_of_line fuel lx :
  wf lx → remaining lx < fuel →
  runs (skip_to_end_of_line fuel) lx (λ _ lx', reads lx lx').
Proof.
  revert lx. induction fuel as [|fuel IH]; intros lx Hwf Hfuel; [lia|].
  cbn [skip_to_end_of_line]. rewrite runs_current_char.
  destruct (String.get (pos lx) (source lx)) as [c|] eqn:Hget.
  - destruct (Ascii.eqb c newline) eqn:Hc; [by apply runs_ret, reads_refl|].
    apply (runs_bind_advance_Some _ lx c); [done..|]. intros lx' Hr Hp.
    pose proof (reads_some_remaining _ _ Hr).
    eapply runs_weaken; [apply IH; [apply Hr|lia]|].
    intros u lx'' Hr'. eapply reads_trans; [apply Hr|done].
  - by apply runs_ret, reads_refl.
Qed.

Lemma runs_skip_to_comment_end fuel lx :
  wf lx → remaining lx < fuel →
  runs (skip_to_comment_end fuel) lx (λ _ lx', reads lx lx').
Proof.
  revert lx. induction fuel as [|fuel IH]; intros lx Hwf Hfuel; [lia|].
  cbn [skip_to_comment_end]. rewrite runs_current_char.
  destruct (String.get (pos lx) (source lx)) as [c|] eqn:Hget.
  - rewrite runs_peek_char.
    destruct (Ascii.eqb c "*" && bool_decide (_ = Some "/"%char)).
    + apply (runs_bind_advance_Some _ lx c); [done..|]. intros lx' Hr Hp.
      apply runs_bind_advance; [apply Hr|]. intros c' lx'' Hr'.
      apply runs_ret. eapply reads_trans; [apply Hr|done].
    + apply (runs_bind_advance_Some _ lx c); [done..|]. intros lx' Hr Hp.
      pose proof (reads_some_remaining _ _ Hr).
      eapply runs_weaken; [apply IH; [apply Hr|lia]|].
      intros u lx'' Hr'. eapply reads_trans; [apply Hr|done].
  - rewrite runs_position. apply runs_LexerError.
Qed.

(** A comment starts with two characters, which [advance] reads. *)
Lemma runs_two_then {A} (m : L A) lx c n (Q : A → Lexer → Prop) :
  wf lx → String.get (pos lx) (source lx) = Some c →
  String.get (pos lx + 1) (source lx) = Some n →
  (∀ lx', reads_some lx lx' → pos lx' = pos lx + 2 → runs m lx' Q) →
  runs (advance >> advance >> m) lx Q.
Proof.
  intros Hwf Hc Hn Hm.
  apply (runs_bind_advance_Some _ lx c); [done..|]. intros lx1 Hr1 Hp1.
  apply (runs_bind_advance_Some _ lx1 n); [apply Hr1| |].
  { destruct Hr1 as [Hr1 _]. rewrite (reads_source _ _ Hr1), Hp1.
    by replace (S (pos lx)) with (pos lx + 1) by lia. }
  intros lx2 Hr2 Hp2. apply Hm; [|lia].
  eapply reads_some_trans_l; [exact Hr1|apply Hr2].
Qed.

Lemma runs_skip_single_line_comment fuel lx c n :
  wf lx → remaining lx < fuel →
  String.get (pos lx) (source lx) = Some c →
  String.get (pos lx + 1) (source lx) = Some n →
  runs (skip_single_line_comment fuel) lx (λ _ lx', reads_some lx lx').
Proof.
  intros Hwf Hfuel Hc Hn. unfold skip_single_line_comment.
  apply (runs_two_then _ lx c n); [done..|]. intros lx' Hr Hp.
  pose proof (reads_some_remaining _ _ Hr).
  eapply runs_weaken; [apply runs_skip_to_end_of_line; [apply Hr|lia]|].
  intros u lx'' Hr'. by eapply reads_some_trans_l.
Qed.

Lemma runs_skip_multi_line_comment fuel lx c n :
  wf lx → remaining lx < fuel →
  String.get (pos lx) (source lx) = Some c →
  String.get (pos lx + 1) (source lx) = Some n →
  runs (skip_multi_line_comment fuel) lx (λ _ lx', reads_some lx lx').
Proof.
  intros Hwf Hfuel Hc Hn. unfold skip_multi_line_comment.
  apply (runs_two_then _ lx c n); [done..|]. intros lx' Hr Hp.
  pose proof (reads_some_remaining _ _ Hr).
  eapply runs_weaken; [apply runs_skip_to_comment_end; [apply Hr|lia]|].
  intros u lx'' Hr'. by eapply reads_some_trans_l.
Qed.


Lemma append_String c s t : (String c s ++ t)%string = String c (s ++ t).
Proof. reflexivity. Qed.

Lemma append_empty s : (s ++ "")%string = s.
Proof. induction s as [|c s IH]; [done|]. by rewrite append_String, IH. Qed.

Lemma append_append s t u : ((s ++ t) ++ u)%string = (s ++ t ++ u)%string.
Proof. induction s as [|c s IH]; [done|]. by rewrite !append_String, IH. Qed.

(** *** Numbers *)

Definition digits (s : string) : bool := forallb isdigit (list_ascii_of_string s).

Lemma list_ascii_of_string_app s1 s2 :
  list_ascii_of_string (s1 ++ s2) = (list_ascii_of_string s1 ++ list_ascii_of_string s2)%list.
Proof. induction s1 as [|c s1 IH]; simpl; [done|]. by rewrite IH. Qed.

Lemma digits_snoc s c : digits (snoc_char s c) = digits s && isdigit c.
Proof.
  unfold digits, snoc_char. rewrite list_ascii_of_string_app, forallb_app. simpl.
  by rewrite andb_true_r.
Qed.

Lemma uint_of_char_digit c d :
  isdigit c = true → ∃ d', NilEmpty.uint_of_string (String c EmptyString) = Some d' ∧
    ∃ d'', uint_of_char c (Some d) = Some d''.
Proof.
  destruct c as [[] [] [] [] [] [] [] []]; intros H; try discriminate H; simpl; eauto.
Qed.

Lemma uint_of_string_digits s :
  digits s = true → ∃ d, NilEmpty.uint_of_string s = Some d.
Proof.
  induction s as [|c s IH]; simpl; [eauto|].
  unfold digits. simpl. intros [Hc Hs]%andb_true_iff.
  destruct (IH Hs) as [d ->]. destruct (uint_of_char_digit c d Hc) as (_ & _ & d'' & ->). eauto.
Qed.

Lemma of_uint_nonneg d : (0 ≤ Z.of_uint d)%Z.
Proof. unfold Z.of_uint. apply N2Z.is_nonneg. Qed.

Lemma isdigit_not_dot c : isdigit c = true → Ascii.eqb c "." = false.
Proof. destruct c as [[] [] [] [] [] [] [] []]; intros H; try discriminate H; reflexivity. Qed.

Lemma length_snoc_char s c : String.length (snoc_char s c) = S (String.length s).
Proof. induction s as [|a s IH]; [done|]. unfold snoc_char in *. simpl. by rewrite IH. Qed.

(** The text from character [n] on. *)
Fixpoint string_skip (n : nat) (s : string) : string :=
  match n, s with
  | S n, String _ r => string_skip n r
  | _, _ => s
  end.

Lemma string_skip_get n s c :
  String.get n s = Some c → string_skip n s = String c (string_skip (S n) s).
Proof.
  revert n. induction s as [|a s IH]; intros [|n]; simpl; try done.
  - intros [= ->]. by destruct s.
  - intros H. rewrite (IH n H). by destruct (string_skip n s).
Qed.

Lemma leading_digits_longest n s : leading_digits (string_skip n s) ≤ longest_digits s.
Proof.
  revert n. induction s as [|a s IH]; intros [|n]; cbn [string_skip longest_digits];
    try (simpl; lia).
  specialize (IH n). lia.
Qed.

Section lexing.
Variable float_of_string : string → spec_float.

Lemma runs_read_number_loop fuel num_str is_float lx :
  wf lx → remaining lx < fuel →
  runs (read_number_loop fuel num_str is_float) lx (λ r lx',
    reads lx lx'
    ∧ (snd r = false →
         is_float = false ∧ (digits num_str = true → digits (fst r) = true)
         ∧ String.length (fst r)
           ≤ String.length num_str + leading_digits (string_skip (pos lx) (source lx)))
    ∧ ∀ c, String.get (pos lx) (source lx) = Some c → isdigit c = true → pos lx < pos lx').
Proof.
  revert lx num_str is_float.
  induction fuel as [|fuel IH]; intros lx num_str is_float Hwf Hfuel; [lia|].
  cbn [read_number_loop]. rewrite runs_current_char.
  assert (Hstop : ∀ n,
    snd (num_str, is_float) = false →
      is_float = false ∧ (digits num_str = true → digits (fst (num_str, is_float)) = true)
      ∧ String.length (fst (num_str, is_float)) ≤ String.length num_str + n).
  { intros n. cbn [fst snd]. intros ->. split; [done|]. split; [done|lia]. }
  destruct (String.get (pos lx) (source lx)) as [c|] eqn:Hget;
    [|apply runs_ret; split; [by apply reads_refl|]; split; [apply Hstop|done]].
  destruct (isdigit c || Ascii.eqb c ".") eqn:Hc; cycle 1.
  { apply runs_ret. split; [by apply reads_refl|]. split; [apply Hstop|].
    intros c' [= <-] Hd. by rewrite Hd in Hc. }
  assert (Hstep : ∀ b,
    (b = false → is_float = false ∧ isdigit c = true) →
    runs (advance >> read_number_loop fuel (snoc_char num_str c) b) lx (λ r lx',
      reads lx lx'
      ∧ (snd r = false →
           is_float = false ∧ (digits num_str = true → digits (fst r) = true)
           ∧ String.length (fst r)
             ≤ String.length num_str + leading_digits (string_skip (pos lx) (source lx)))
      ∧ ∀ c0, Some c = Some c0 → isdigit c0 = true → pos lx < pos lx')).
  { intros b Hb. apply (runs_bind_advance_Some _ lx c); [done..|]. intros lx' Hr Hp.
    pose proof (reads_some_remaining _ _ Hr).
    eapply runs_weaken; [apply IH; [apply Hr|lia]|].
    intros r lx'' (Hr' & Hd & _). split; [eapply reads_trans; [apply Hr|done]|]. split.
    - intros Hr0. destruct (Hd Hr0) as (-> & Hds & Hlen). destruct (Hb eq_refl) as [-> Hdc].
      split; [done|]. split.
      + intros Hn. apply Hds. by rewrite digits_snoc, Hn, Hdc.
      + destruct Hr as [Hr _]. rewrite (reads_source _ _ Hr), Hp in Hlen.
        rewrite (string_skip_get _ _ _ Hget). cbn [leading_digits]. rewrite Hdc.
        rewrite length_snoc_char in Hlen. lia.
    - intros c0 _ _. apply reads_pos in Hr'. lia. }
  apply runs_bind. destruct (Ascii.eqb c ".") eqn:Hdot.
  - destruct is_float; [done|]. apply Hstep. done.
  - rewrite orb_false_r in Hc. apply Hstep. auto.
Qed.

Lemma runs_read_number fuel lx c :
  (int_max_str_digits < longest_digits (source lx) → overlong) →
  wf lx → remaining lx < fuel →
  String.get (pos lx) (source lx) = Some c → isdigit c = true →
  runs (read_number float_of_string fuel) lx (λ t lx',
    reads_some lx lx' ∧ token_typed t = true ∧ type t ≠ EOF
    ∧ token_position t = position_of lx).
Proof.
  intros Hover Hwf Hfuel Hget Hc. unfold read_number. rewrite runs_position.
  apply runs_bind. eapply runs_weaken; [by apply runs_read_number_loop|].
  intros [num_str is_float] lx' (Hr & Hd & Hp). cbn [fst snd] in *.
  specialize (Hp c Hget Hc).
  assert (Hcheck : ∀ {A} (k : L A) (Q : A → Lexer → Prop), runs k lx' Q →
    runs ((if is_float && ends_with_dot num_str then
             let* c := current_char in
             match c with
             | Some c =>
                 if isdigit c then ret tt
                 else raise (LexerError
                   "Invalid number format: decimal point must be followed by digits"
                   (fst (position_of lx)) (snd (position_of lx)))
             | None =>
                 raise (LexerError
                   "Invalid number format: decimal point must be followed by digits"
                   (fst (position_of lx)) (snd (position_of lx)))
             end
           else ret tt) >> k) lx' Q).
  { intros A k Q Hk. apply runs_bind.
    destruct (is_float && ends_with_dot num_str); [|exact Hk].
    rewrite runs_current_char.
    destruct (String.get (pos lx') (source lx')) as [c'|]; [|done].
    destruct (isdigit c'); [exact Hk|done]. }
  apply Hcheck. destruct is_float.
  - apply runs_ret. done.
  - destruct (Hd eq_refl) as (_ & Hds & Hlen). cbn [String.length] in Hlen.
    unfold int_of_string. destruct (int_max_str_digits <? String.length num_str) eqn:Hlong.
    + apply Nat.ltb_lt in Hlong. apply Hover.
      pose proof (leading_digits_longest (pos lx) (source lx)). lia.
    + destruct (uint_of_string_digits num_str (Hds eq_refl)) as [d ->].
      apply runs_ret. split; [by split|]. split; [|by split].
      unfold token_typed. cbn [type value]. apply Z.leb_le, of_uint_nonneg.
Qed.


(** *** Strings *)

Lemma runs_read_string_loop fuel start string_value lx :
  wf lx → remaining lx < fuel →
  runs (read_string_loop fuel start string_value) lx (λ _ lx', reads lx lx').
Proof.
  revert lx string_value.
  induction fuel as [|fuel IH]; intros lx string_value Hwf Hfuel; [lia|].
  cbn [read_string_loop]. rewrite runs_current_char.
  destruct (String.get (pos lx) (source lx)) as [c|] eqn:Hget;
    [|by apply runs_ret, reads_refl].
  destruct (Ascii.eqb c double_quote); [by apply runs_ret, reads_refl|].
  destruct (Ascii.eqb c backslash).
  - apply (runs_bind_advance_Some _ lx c); [done..|]. intros lx1 Hr1 Hp1.
    rewrite runs_current_char.
    destruct (String.get (pos lx1) (source lx1)) as [n|] eqn:Hn; [|done].
    apply (runs_bind_advance_Some _ lx1 n); [apply Hr1|done|]. intros lx2 Hr2 Hp2.
    pose proof (reads_some_remaining _ _ Hr1). pose proof (reads_some_remaining _ _ Hr2).
    eapply runs_weaken; [apply IH; [apply Hr2|lia]|].
    intros u lx3 Hr3. eapply reads_trans; [apply Hr1|]. eapply reads_trans; [apply Hr2|done].
  - destruct (Ascii.eqb c newline); [done|].
    apply (runs_bind_advance_Some _ lx c); [done..|]. intros lx1 Hr1 Hp1.
    pose proof (reads_some_remaining _ _ Hr1).
    eapply runs_weaken; [apply IH; [apply Hr1|lia]|].
    intros u lx2 Hr2. eapply reads_trans; [apply Hr1|done].
Qed.

Lemma runs_read_string fuel lx c :
  wf lx → remaining lx < fuel →
  String.get (pos lx) (source lx) = Some c →
  runs (read_string fuel) lx (λ t lx',
    reads_some lx lx' ∧ token_typed t = true ∧ type t ≠ EOF
    ∧ token_position t = position_of lx).
Proof.
  intros Hwf Hfuel Hget. unfold read_string. rewrite runs_position.
  apply (runs_bind_advance_Some _ lx c); [done..|]. intros lx1 Hr1 Hp1.
  pose proof (reads_some_remaining _ _ Hr1).
  apply runs_bind. eapply runs_weaken; [apply runs_read_string_loop; [apply Hr1|lia]|].
  intros string_value lx2 Hr2. rewrite runs_current_char.
  case_bool_decide; [|done].
  apply runs_bind_advance; [apply Hr2|]. intros c' lx3 Hr3. apply runs_ret.
  split; [|by split].
  eapply reads_some_trans_l; [exact Hr1|]. exact (reads_trans _ _ _ Hr2 Hr3).
Qed.

(** *** Identifiers and keywords *)

Lemma runs_read_identifier_loop fuel identifier lx :
  wf lx → remaining lx < fuel →
  runs (read_identifier_loop fuel identifier) lx (λ r lx',
    reads lx lx'
    ∧ ∃ read, r = (identifier ++ read)%string
        ∧ forallb identifier_char (list_ascii_of_string read) = true
        ∧ ∀ c, String.get (pos lx) (source lx) = Some c → identifier_char c = true →
               pos lx < pos lx' ∧ ∃ more, read = String c more).
Proof.
  revert lx identifier.
  induction fuel as [|fuel IH]; intros lx identifier Hwf Hfuel; [lia|].
  cbn [read_identifier_loop]. rewrite runs_current_char.
  destruct (String.get (pos lx) (source lx)) as [c|] eqn:Hget.
  - fold (identifier_char c). destruct (identifier_char c) eqn:Hc.
    + apply (runs_bind_advance_Some _ lx c); [done..|]. intros lx1 Hr1 Hp1.
      pose proof (reads_some_remaining _ _ Hr1).
      eapply runs_weaken; [apply IH; [apply Hr1|lia]|].
      intros r lx2 (Hr2 & read & -> & Hread & _).
      split; [eapply reads_trans; [apply Hr1|done]|].
      exists (String c read). split; [|split].
      * unfold snoc_char. by rewrite append_append.
      * simpl. by rewrite Hc, Hread.
      * intros c' [= <-] _. apply reads_pos in Hr2. split; [lia|eauto].
    + apply runs_ret. split; [by apply reads_refl|]. exists "".
      split; [by rewrite append_empty|]. split; [done|].
      intros c' [= <-] Hc'. congruence.
  - apply runs_ret. split; [by apply reads_refl|]. exists "".
    split; [by rewrite append_empty|]. split; [done|]. done.
Qed.

Lemma word_token_typed s ln col :
  identifier_text s = true →
  token_typed (mkToken (keyword_or_identifier s) (VStr s) ln col) = true
  ∧ keyword_or_identifier s ≠ EOF.
Proof.
  intros Hs.
  assert (H : keyword_or_identifier s = IDENTIFIER
              ∨ ∃ kw, In kw KEYWORDS ∧ fst kw = s ∧ keyword_or_identifier s = snd kw).
  { unfold keyword_or_identifier.
    destruct (List.find _ KEYWORDS) as [kw|] eqn:E; [right|by left].
    apply find_some in E as [Hin Heq]. apply String.eqb_eq in Heq. eauto. }
  destruct H as [H|(kw & Hin & <- & H)].
  - unfold token_typed. cbn [type value]. rewrite H, Hs.
    split; [|done]. by rewrite bool_decide_eq_true_2.
  - rewrite H. clear H Hs. unfold KEYWORDS in Hin. simpl in Hin.
    repeat destruct Hin as [<-|Hin]; try (split; [reflexivity|done]). destruct Hin.
Qed.

Lemma runs_read_identifier_or_keyword fuel lx c :
  wf lx → remaining lx < fuel →
  String.get (pos lx) (source lx) = Some c → isalpha c || Ascii.eqb c "_" = true →
  runs (read_identifier_or_keyword fuel) lx (λ t lx',
    reads_some lx lx' ∧ token_typed t = true ∧ type t ≠ EOF
    ∧ token_position t = position_of lx).
Proof.
  intros Hwf Hfuel Hget Hc. unfold read_identifier_or_keyword. rewrite runs_position.
  apply runs_bind. eapply runs_weaken; [by apply runs_read_identifier_loop|].
  intros r lx' (Hr & read & -> & Hread & Hfirst).
  assert (Hic : identifier_char c = true).
  { unfold identifier_char, isalnum. destruct (isalpha c); [done|].
    destruct (Ascii.eqb c "_"); [|done]. by rewrite orb_true_r. }
  destruct (Hfirst c Hget Hic) as (Hp & more & ->).
  apply runs_ret. split; [by split|].
  destruct (word_token_typed (String c more) (fst (position_of lx)) (snd (position_of lx)))
    as [Ht Hne].
  { cbn [identifier_text]. rewrite Hc. simpl in Hread.
    by apply andb_true_iff in Hread as [_ ->]. }
  done.
Qed.

(** *** Operators and delimiters *)

(** From [lx] to [lx']: the lexer has read on and has appended one token,
    which stands where [lx] stood. *)
Definition appends (lx lx' : Lexer) : Prop :=
  ∃ t lx1, reads_some lx lx1 ∧ append_token t lx1 = Returns (tt, lx')
           ∧ token_typed t = true ∧ type t ≠ EOF ∧ token_position t = position_of lx.

Lemma runs_then_append (m : L Token) lx :
  runs m lx (λ t lx', reads_some lx lx' ∧ token_typed t = true ∧ type t ≠ EOF
                      ∧ token_position t = position_of lx) →
  runs (let* t := m in append_token t) lx (λ _ lx', appends lx lx').
Proof.
  intros Hm. apply runs_bind. eapply runs_weaken; [exact Hm|].
  intros t lx1 (Hr & Ht & Hne & Hp). unfold runs. cbn. exists t, lx1. done.
Qed.

Lemma runs_read_operator lx c :
  wf lx → String.get (pos lx) (source lx) = Some c →
  runs (read_operator c) lx (λ _ lx', appends lx lx').
Proof.
  intros Hwf Hget. unfold read_operator. rewrite runs_position, runs_peek_char.
  destruct (List.find _ two_char_tokens) as [[[c1 c2] [ty text]]|] eqn:E2.
  - apply find_some in E2 as [Hin Hc]. cbn [fst snd] in Hc.
    apply andb_true_iff in Hc as [_ Hn]. apply bool_decide_eq_true in Hn.
    apply (runs_two_then _ lx c c2); [done..|]. intros lx1 Hr1 _.
    unfold runs. cbn. exists (mkToken ty (VStr text) (cur_line lx) (cur_column lx)), lx1.
    split; [done|]. split; [done|].
    unfold two_char_tokens in Hin. simpl in Hin.
    repeat destruct Hin as [Hin|Hin];
      try (injection Hin as <- <- <- <-; split; [reflexivity|]; split; [discriminate|reflexivity]).
    destruct Hin.
  - destruct (List.find _ single_char_tokens) as [[c1 ty]|] eqn:E1; [|by rewrite ?runs_position].
    apply find_some in E1 as [Hin Hc]. cbn [fst] in Hc. apply Ascii.eqb_eq in Hc as ->.
    apply (runs_bind_advance_Some _ lx c); [done..|]. intros lx1 Hr1 _.
    unfold runs. cbn.
    exists (mkToken ty (VStr (String c EmptyString)) (cur_line lx) (cur_column lx)), lx1.
    split; [done|]. split; [done|].
    unfold single_char_tokens in Hin. simpl in Hin.
    repeat destruct Hin as [Hin|Hin];
      try (injection Hin as <- <-; split; [reflexivity|]; split; [discriminate|reflexivity]).
    destruct Hin.
Qed.

(** *** The loop of [tokenize] *)

(** A token made before the lexer came to [q]. *)
Definition placed (q : Z * Z) (t : Token) : Prop :=
  token_typed t = true ∧ type t ≠ EOF ∧ (1 ≤ line t)%Z ∧ (1 ≤ column t)%Z
  ∧ before (token_position t) q.

Record lexed (lx : Lexer) : Prop := {
  lexed_wf : wf lx;
  lexed_placed : Forall (placed (position_of lx)) (tokens lx);
  lexed_order : in_reading_order (tokens lx);
  lexed_count : length (tokens lx) ≤ pos lx
}.

Lemma reads_position lx lx' q :
  reads lx lx' → before q (position_of lx) → before q (position_of lx').
Proof.
  intros [_ _ _ [[_ ->]|[_ H]]] Hq; [done|]. by eapply before_trans.
Qed.

Lemma lexed_reads lx lx' : lexed lx → reads lx lx' → lexed lx'.
Proof.
  intros [Hwf Hpl Hord Hcount] Hr. split; [apply Hr| | |].
  - rewrite (reads_tokens _ _ Hr). eapply Forall_impl; [exact Hpl|].
    intros t (? & ? & ? & ? & Hb). repeat split; try done.
    by eapply reads_position.
  - by rewrite (reads_tokens _ _ Hr).
  - rewrite (reads_tokens _ _ Hr). apply reads_pos in Hr. lia.
Qed.

Lemma in_reading_order_snoc ts t :
  in_reading_order ts →
  Forall (λ u, before (token_position u) (token_position t)) ts →
  in_reading_order (ts ++ [t]).
Proof.
  intros Hord Hall i j u v Hij Hi Hj.
  apply lookup_app_Some in Hj as [Hj|[Hlen Hj]].
  - apply lookup_app_Some in Hi as [Hi|[Hlen' _]]; [by eapply Hord|].
    apply lookup_lt_Some in Hj. lia.
  - apply list_lookup_singleton_Some in Hj as [Hj <-].
    apply lookup_app_Some in Hi as [Hi|[Hlen' _]]; [|lia].
    rewrite Forall_forall in Hall. apply Hall. by eapply list_elem_of_lookup_2.
Qed.

Lemma lexed_appends lx lx' :
  lexed lx → appends lx lx' → lexed lx' ∧ source lx' = source lx ∧ pos lx < pos lx'.
Proof.
  intros Hlx (t & lx1 & [Hr Hp] & Happ & Ht & Hne & Hpos).
  injection Happ as <-. cbn [source pos].
  split; [|split; [apply Hr|done]].
  pose proof (lexed_reads _ _ Hlx Hr) as [Hwf1 Hpl1 Hord1 Hcount1].
  assert (Hb : before (position_of lx) (position_of lx1)).
  { destruct (reads_on _ _ Hr) as [[E _]|[_ Hb]]; [lia|done]. }
  split; [exact Hwf1| | |]; cbn [tokens pos].
  - change (position_of (mkLexer _ _ _ _ _)) with (position_of lx1).
    apply Forall_app. split; [exact Hpl1|]. constructor; [|constructor].
    destruct Hlx as [(_ & Hl & Hc) _ _].
    unfold token_position, position_of in Hpos. injection Hpos as Hln Hcol.
    repeat split; try done; try lia.
    unfold token_position. by rewrite Hln, Hcol.
  - rewrite (reads_tokens _ _ Hr). apply in_reading_order_snoc; [apply Hlx|].
    rewrite Hpos. eapply Forall_impl; [apply Hlx|]. by intros u (_ & _ & _ & _ & Hu).
  - rewrite (reads_tokens _ _ Hr), length_app. pose proof (lexed_count _ Hlx). simpl. lia.
Qed.

Lemma get_next lx n :
  bool_decide (String.get (pos lx + 1) (source lx) = Some n) = true →
  String.get (pos lx + 1) (source lx) = Some n.
Proof. by intros H%bool_decide_eq_true. Qed.

Lemma runs_tokenize_loop fuel lx :
  (int_max_str_digits < longest_digits (source lx) → overlong) →
  lexed lx → remaining lx < fuel →
  runs (tokenize_loop float_of_string fuel) lx (λ _ lx',
    lexed lx' ∧ source lx' = source lx ∧ String.get (pos lx') (source lx') = None).
Proof.
  intros Hover. revert lx Hover.
  induction fuel as [|fuel IH]; intros lx Hover Hlx Hfuel; [lia|].
  pose proof (lexed_wf _ Hlx) as Hwf.
  cbn [tokenize_loop]. rewrite runs_current_char.
  destruct (String.get (pos lx) (source lx)) as [c|] eqn:Hget; [|by apply runs_ret].
  rewrite runs_peek_char. apply runs_bind.
  eapply runs_weaken with
    (Q := λ _ lx', lexed lx' ∧ source lx' = source lx ∧ pos lx < pos lx').
  2: { intros u lx' (Hlx' & Hs & Hp).
       eapply runs_weaken; [apply IH; [by rewrite Hs|done|]|].
       - destruct (lexed_wf _ Hlx') as [Hle _]. unfold remaining in *.
         rewrite Hs in *. lia.
       - intros u' lx'' (? & Hs' & ?). split; [done|]. split; [congruence|done]. }
  assert (Hskip : ∀ (m : L unit), runs m lx (λ _ lx', reads_some lx lx') →
    runs m lx (λ _ lx', lexed lx' ∧ source lx' = source lx ∧ pos lx < pos lx')).
  { intros m Hm. eapply runs_weaken; [exact Hm|]. intros u lx' [Hr Hp].
    split; [by eapply lexed_reads|]. split; [apply Hr|done]. }
  assert (Htoken : ∀ (m : L unit), runs m lx (λ _ lx', appends lx lx') →
    runs m lx (λ _ lx', lexed lx' ∧ source lx' = source lx ∧ pos lx < pos lx')).
  { intros m Hm. eapply runs_weaken; [exact Hm|]. intros u lx' Ha.
    by apply lexed_appends. }
  destruct (char_in c whitespace) eqn:Hws.
  { apply Hskip. eapply runs_weaken; [by apply runs_skip_whitespace|].
    intros u lx' [Hr Hp]. split; [done|]. by eapply Hp. }
  destruct (Ascii.eqb c "/" && bool_decide (_ = Some "/"%char)) eqn:Hc1.
  { apply andb_true_iff in Hc1 as [_ Hn%get_next].
    apply Hskip. by eapply runs_skip_single_line_comment. }
  destruct (Ascii.eqb c "/" && bool_decide (_ = Some "*"%char)) eqn:Hc2.
  { apply andb_true_iff in Hc2 as [_ Hn%get_next].
    apply Hskip. by eapply runs_skip_multi_line_comment. }
  destruct (isdigit c) eqn:Hd.
  { apply Htoken, runs_then_append. by eapply runs_read_number. }
  destruct (Ascii.eqb c double_quote) eqn:Hq.
  { apply Htoken, runs_then_append. by eapply runs_read_string. }
  destruct (isalpha c || Ascii.eqb c "_") eqn:Ha.
  { apply Htoken, runs_then_append. by eapply runs_read_identifier_or_keyword. }
  apply Htoken. by apply runs_read_operator.
Qed.

Lemma tokenize_runs source_code :
  (int_max_str_digits < longest_digits source_code → overlong) →
  match tokenize float_of_string source_code with
  | Returns toks => token_stream toks ∧ length toks ≤ S (String.length source_code)
  | Raises (LexerError _ _ _) => True
  | Raises ValueError => overlong
  | Raises OutOfFuel => False
  end.
Proof.
  intros Hover. unfold tokenize.
  match goal with
  | |- context [bind ?m ?k ?lx] =>
      assert (H : runs (bind m k) lx (λ _ lx',
                    token_stream (tokens lx')
                    ∧ length (tokens lx') ≤ S (String.length source_code)));
      [|unfold runs in H; destruct (bind m k lx) as [[u lx']|[]]; done]
  end.
  apply runs_bind.
  assert (H0 : lexed (Lexer_init source_code)).
  { split; [unfold wf; simpl; lia|constructor| |simpl; lia]. by intros i j t u _ Hi. }
  eapply runs_weaken; [apply runs_tokenize_loop; [exact Hover|exact H0|]|].
  { unfold remaining. simpl. lia. }
  intros u lx ([Hwf Hpl Hord Hcount] & Hsource & _). rewrite runs_position.
  unfold runs. cbn. split.
  2: { rewrite length_app. destruct Hwf as (Hle & _). rewrite Hsource in Hle.
       simpl in *. lia. }
  exists (tokens lx), (mkToken EOF VNone (cur_line lx) (cur_column lx)).
  split; [done|]. split; [done|]. split; [done|]. split; [|split].
  - eapply Forall_impl; [exact Hpl|]. by intros t (_ & ? & _).
  - apply Forall_app. split.
    + eapply Forall_impl; [exact Hpl|]. by intros t (? & _ & ? & ? & _).
    + constructor; [|constructor]. destruct Hwf as (_ & ? & ?). done.
  - apply in_reading_order_snoc; [done|].
    eapply Forall_impl; [exact Hpl|]. by intros t (_ & _ & _ & _ & ?).
Qed.

End lexing.
End raising.

(** *** Reading a lexeme of one line *)

Section lexemes.
Variable float_of_string : string → spec_float.

(** The lexer that has read [read] and has [rest] before it. *)
Definition reading (read rest : string) (ln col : Z) (toks : list Token) : Lexer :=
  mkLexer (read ++ rest) (String.length read) ln col toks.

Lemma current_char_reading read rest ln col toks :
  String.get (pos (reading read rest ln col toks)) (source (reading read rest ln col toks))
  = String.get 0 rest.
Proof. unfold reading. cbn [pos source]. exact (eq_sym (append_correct2 read rest 0)). Qed.

Lemma reading_snoc read c rest ln col toks :
  reading (snoc_char read c) rest ln col toks
  = mkLexer (read ++ String c rest) (String.length read + 1) ln col toks.
Proof.
  unfold reading. rewrite length_snoc_char. unfold snoc_char. rewrite append_append.
  f_equal. lia.
Qed.

Lemma advance_reading read c rest ln col toks :
  Ascii.eqb c newline = false →
  advance (reading read (String c rest) ln col toks)
  = Returns (Some c, reading (snoc_char read c) rest ln (col + 1) toks).
Proof.
  intros Hc. unfold advance. rewrite current_char_reading. cbn [String.get].
  rewrite Hc, reading_snoc. reflexivity.
Qed.

Lemma reading_end read s c ln col toks :
  reading (snoc_char read c) s ln (col + 1 + Z.of_nat (String.length s)) toks
  = reading (snoc_char read c) s ln (col + Z.of_nat (String.length (String c s))) toks.
Proof. f_equal. cbn [String.length]. lia. Qed.

Lemma identifier_char_line c : identifier_char c = true → Ascii.eqb c newline = false.
Proof. destruct c as [[] [] [] [] [] [] [] []]; intros H; try discriminate H; reflexivity. Qed.

Lemma read_identifier_loop_reading s : ∀ fuel identifier read ln col toks,
  String.length s < fuel →
  forallb identifier_char (list_ascii_of_string s) = true →
  read_identifier_loop fuel identifier (reading read s ln col toks)
  = Returns ((identifier ++ s)%string,
             reading (read ++ s) "" ln (col + Z.of_nat (String.length s)) toks).
Proof.
  induction s as [|c s IH]; intros [|fuel] identifier read ln col toks Hfuel Hs;
    try (simpl in Hfuel; lia).
  - cbn [read_identifier_loop]. unfold bind, current_char.
    rewrite current_char_reading. cbn [String.get String.length]. unfold ret.
    by rewrite !append_empty, Z.add_0_r.
  - simpl in Hs. apply andb_true_iff in Hs as [Hc Hs].
    cbn [read_identifier_loop]. unfold bind at 1. unfold current_char.
    rewrite current_char_reading. cbn [String.get].
    fold (identifier_char c). rewrite Hc. unfold bind at 1.
    rewrite (advance_reading _ _ _ _ _ _ (identifier_char_line c Hc)).
    rewrite IH; [|simpl in Hfuel; lia|done].
    unfold snoc_char. rewrite !append_append. cbn [String.length].
    do 3 f_equal. lia.
Qed.

Lemma isdigit_line c : isdigit c = true → Ascii.eqb c newline = false.
Proof. destruct c as [[] [] [] [] [] [] [] []]; intros H; try discriminate H; reflexivity. Qed.

Lemma read_number_loop_reading s : ∀ fuel num_str read ln col toks,
  String.length s < fuel → digits s = true →
  read_number_loop fuel num_str false (reading read s ln col toks)
  = Returns (((num_str ++ s)%string, false),
             reading (read ++ s) "" ln (col + Z.of_nat (String.length s)) toks).
Proof.
  induction s as [|c s IH]; intros [|fuel] num_str read ln col toks Hfuel Hs;
    try (simpl in Hfuel; lia).
  - cbn [read_number_loop]. unfold bind, current_char.
    rewrite current_char_reading. cbn [String.get String.length]. unfold ret.
    by rewrite !append_empty, Z.add_0_r.
  - unfold digits in Hs. simpl in Hs. apply andb_true_iff in Hs as [Hc Hs].
    cbn [read_number_loop]. unfold bind at 1. unfold current_char.
    rewrite current_char_reading. cbn [String.get].
    rewrite Hc, (isdigit_not_dot c Hc). cbn [orb]. unfold bind at 1, ret at 1.
    unfold bind at 1.
    rewrite (advance_reading _ _ _ _ _ _ (isdigit_line c Hc)).
    rewrite IH; [|simpl in Hfuel; lia|done].
    unfold snoc_char. rewrite !append_append. cbn [String.length].
    do 3 f_equal. lia.
Qed.

Lemma plain_char_spec c :
  plain_char c = true →
  Ascii.eqb c double_quote = false ∧ Ascii.eqb c backslash = false
  ∧ Ascii.eqb c newline = false.
Proof.
  unfold plain_char. intros [[H1 H2]%andb_true_iff H3]%andb_true_iff.
  by rewrite !negb_true_iff in *.
Qed.

Lemma read_string_loop_reading s : ∀ fuel start string_value read rest ln col toks,
  String.length s < fuel →
  forallb plain_char (list_ascii_of_string s) = true →
  read_string_loop fuel start string_value
    (reading read (s ++ String double_quote rest) ln col toks)
  = Returns ((string_value ++ s)%string,
             reading (read ++ s) (String double_quote rest) ln
               (col + Z.of_nat (String.length s)) toks).
Proof.
  induction s as [|c s IH]; intros [|fuel] start string_value read rest ln col toks Hfuel Hs;
    try (simpl in Hfuel; lia).
  - change ("" ++ String double_quote rest)%string with (String double_quote rest).
    cbn [read_string_loop]. unfold bind, current_char.
    rewrite current_char_reading. cbn [String.get String.length]. unfold ret.
    rewrite Ascii.eqb_refl. by rewrite !append_empty, Z.add_0_r.
  - simpl in Hs. apply andb_true_iff in Hs as [Hc Hs].
    destruct (plain_char_spec c Hc) as (Hq & Hb & Hn).
    cbn [read_string_loop]. unfold bind at 1. unfold current_char.
    rewrite current_char_reading, append_String. cbn [String.get].
    rewrite Hq, Hb, Hn. unfold bind at 1.
    rewrite (advance_reading _ _ _ _ _ _ Hn).
    rewrite IH; [|simpl in Hfuel; lia|done].
    unfold snoc_char. rewrite !append_append. cbn [String.length].
    do 3 f_equal. lia.
Qed.

Lemma tokenize_loop_end fuel read ln col toks :
  tokenize_loop float_of_string (S fuel) (reading read "" ln col toks)
  = Returns (tt, reading read "" ln col toks).
Proof.
  cbn [tokenize_loop]. unfold bind, current_char. by rewrite current_char_reading.
Qed.

Lemma bind_Returns {A B} (m : L A) (k : A → L B) lx x lx' :
  m lx = Returns (x, lx') → bind m k lx = k x lx'.
Proof. intros H. unfold bind. by rewrite H. Qed.

(** A source that is one lexeme: the loop of [tokenize] reads it with
    [reader], appends its token, and stops at the end of the text. *)
Lemma tokenize_one (reader : nat → L Token) source_code t col :
  source_code ≠ "" →
  (∀ fuel, tokenize_loop float_of_string (S fuel) (Lexer_init source_code)
           = ((let* t := reader (S fuel) in append_token t) >>
              tokenize_loop float_of_string fuel) (Lexer_init source_code)) →
  reader (S (String.length source_code)) (Lexer_init source_code)
  = Returns (t, reading source_code "" 1 col []) →
  tokenize float_of_string source_code = Returns [t; mkToken EOF VNone 1 col].
Proof.
  intros Hne Hloop Hreader. unfold tokenize.
  assert (Hrun : tokenize_loop float_of_string (S (String.length source_code))
                   (Lexer_init source_code)
                 = Returns (tt, reading source_code "" 1 col [t])).
  { rewrite Hloop. rewrite (bind_Returns _ _ _ tt (reading source_code "" 1 col [t])).
    - destruct source_code; [done|]. apply tokenize_loop_end.
    - by rewrite (bind_Returns _ _ _ _ _ Hreader). }
  by rewrite (bind_Returns _ _ _ _ _ Hrun).
Qed.

Lemma word_start c :
  isalpha c || Ascii.eqb c "_" = true →
  char_in c whitespace = false ∧ Ascii.eqb c "/" = false ∧ isdigit c = false
  ∧ Ascii.eqb c double_quote = false ∧ identifier_char c = true.
Proof. destruct c as [[] [] [] [] [] [] [] []]; intros H; try discriminate H; done. Qed.

Lemma digit_start c :
  isdigit c = true → char_in c whitespace = false ∧ Ascii.eqb c "/" = false.
Proof. destruct c as [[] [] [] [] [] [] [] []]; intros H; try discriminate H; done. Qed.

Lemma tokenize_loop_word fuel c r :
  isalpha c || Ascii.eqb c "_" = true →
  tokenize_loop float_of_string (S fuel) (Lexer_init (String c r))
  = ((let* t := read_identifier_or_keyword (S fuel) in append_token t) >>
     tokenize_loop float_of_string fuel) (Lexer_init (String c r)).
Proof.
  intros Hc. destruct (word_start c Hc) as (Hw & Hs & Hd & Hq & _).
  cbn [tokenize_loop]. unfold bind at 1. unfold current_char.
  cbn [Lexer_init pos source String.get]. unfold bind at 1. unfold peek_char.
  cbn [pos source]. by rewrite Hw, Hs, Hd, Hq, Hc.
Qed.


Lemma tokenize_loop_number fuel c r :
  isdigit c = true →
  tokenize_loop float_of_string (S fuel) (Lexer_init (String c r))
  = ((let* t := read_number float_of_string (S fuel) in append_token t) >>
     tokenize_loop float_of_string fuel) (Lexer_init (String c r)).
Proof.
  intros Hc. destruct (digit_start c Hc) as (Hw & Hs).
  cbn [tokenize_loop]. unfold bind at 1. unfold current_char.
  cbn [Lexer_init pos source String.get]. unfold bind at 1. unfold peek_char.
  cbn [pos source]. by rewrite Hw, Hs, Hc.
Qed.

Lemma tokenize_digits s d :
  s ≠ "" → digits s = true → NilEmpty.uint_of_string s = Some d →
  String.length s ≤ int_max_str_digits →
  tokenize float_of_string s
  = Returns [mkToken INTEGER (VInt (Z.of_uint d)) 1 1;
             mkToken EOF VNone 1 (1 + Z.of_nat (String.length s))].
Proof.
  intros Hne Hs Hd Hlen. destruct s as [|c r]; [done|].
  assert (Hc : isdigit c = true).
  { unfold digits in Hs. simpl in Hs. by apply andb_true_iff in Hs as [-> _]. }
  apply (tokenize_one (read_number float_of_string)); [done| |].
  - intros fuel. by apply tokenize_loop_number.
  - unfold read_number. unfold bind at 1. unfold position.
    cbn [cur_line cur_column Lexer_init fst snd].
    change (mkLexer (String c r) 0 1 1 []) with (reading "" (String c r) 1 1 []).
    rewrite (bind_Returns _ _ _ _ _
      (read_number_loop_reading (String c r) _ "" "" 1 1 [] (Nat.lt_succ_diag_r _) Hs)).
    cbn [fst snd andb]. unfold bind at 1, ret at 1.
    change ("" ++ String c r)%string with (String c r). unfold int_of_string.
    rewrite (proj2 (Nat.ltb_ge _ _) Hlen), Hd. reflexivity.
Qed.

Lemma bind_Raises {A B} (m : L A) (k : A → L B) lx e :
  m lx = Raises e → bind m k lx = Raises e.
Proof. intros H. unfold bind. by rewrite H. Qed.

Lemma digits_string_of_uint d : digits (NilEmpty.string_of_uint d) = true.
Proof. unfold digits. induction d; simpl; done. Qed.

Lemma numeral_not_empty n : numeral n ≠ "".
Proof.
  unfold numeral. destruct n as [|p]; [done|]. simpl.
  pose proof (DecimalPos.Unsigned.to_uint_nonnil p) as H.
  by destruct (Pos.to_uint p).
Qed.

Lemma tokenize_loop_string fuel r :
  tokenize_loop float_of_string (S fuel) (Lexer_init (String double_quote r))
  = ((let* t := read_string (S fuel) in append_token t) >>
     tokenize_loop float_of_string fuel) (Lexer_init (String double_quote r)).
Proof. reflexivity. Qed.

Lemma length_append s t : String.length (s ++ t) = String.length s + String.length t.
Proof. induction s as [|c s IH]; [done|]. rewrite append_String. simpl. by rewrite IH. Qed.


(** X15: on ASCII text with no more than [int_max_str_digits] (4300)
    digits in a row, [tokenize] returns its tokens or raises
    [LexerError].  It raises nothing else: [int] is given digits only,
    and no more of them than it converts, and every loop of the lexer
    ends before the characters of the source are used up. *)
Theorem tokenize_raises_only_LexerError source_code :
  ascii_text source_code = true →
  longest_digits source_code ≤ int_max_str_digits →
  (∃ toks, tokenize float_of_string source_code = Returns toks)
  ∨ (∃ message ln col,
       tokenize float_of_string source_code = Raises (LexerError message ln col)).
Proof.
  intros _ Hshort.
  pose proof (tokenize_runs False float_of_string source_code ltac:(lia)) as H.
  destruct (tokenize float_of_string source_code) as [toks|[message ln col| |]];
    [left; eauto|right; eauto|done|done].
Qed.

(** X16: the list [tokenize] returns for an ASCII text ends with the one
    [EOF] token, whose value is [None]; every token carries the value
    of its type and a line and column from 1 on, and each token stands
    before the next one in the text.  There is at most one token for
    each character, and [EOF]. *)
Theorem tokenize_token_stream source_code toks :
  ascii_text source_code = true →
  tokenize float_of_string source_code = Returns toks →
  token_stream toks ∧ length toks ≤ S (String.length source_code).
Proof.
  intros _ H. pose proof (tokenize_runs True float_of_string source_code (λ _, I)) as Hr.
  by rewrite H in Hr.
Qed.

(** X17: a source that is one word, a letter or underscore followed by
    letters, digits and underscores, gives one token with the word as
    its value, of the type of the keyword if it is one and [IDENTIFIER]
    otherwise, and [EOF] in the column after the word. *)
Theorem tokenize_word s :
  identifier_text s = true →
  tokenize float_of_string s
  = Returns [mkToken (keyword_or_identifier s) (VStr s) 1 1;
             mkToken EOF VNone 1 (1 + Z.of_nat (String.length s))].
Proof.
  intros Hs. destruct s as [|c r]; [done|]. cbn [identifier_text] in Hs.
  apply andb_true_iff in Hs as [Hc Hr].
  apply (tokenize_one read_identifier_or_keyword); [done| |].
  - intros fuel. by apply tokenize_loop_word.
  - unfold read_identifier_or_keyword. unfold bind at 1. unfold position.
    cbn [cur_line cur_column Lexer_init fst snd].
    change (mkLexer (String c r) 0 1 1 []) with (reading "" (String c r) 1 1 []).
    rewrite (bind_Returns _ _ _ _ _
      (read_identifier_loop_reading (String c r) _ "" "" 1 1 [] (Nat.lt_succ_diag_r _)
         ltac:(simpl; destruct (word_start c Hc) as (_ & _ & _ & _ & ->); exact Hr))).
    reflexivity.
Qed.

(** X18: the decimal numeral of a natural number, when it has no more
    than [int_max_str_digits] (4300) digits, gives the [INTEGER] token
    of that number, and [EOF] in the column after the numeral. *)
Theorem tokenize_numeral n :
  String.length (numeral n) ≤ int_max_str_digits →
  tokenize float_of_string (numeral n)
  = Returns [mkToken INTEGER (VInt (Z.of_N n)) 1 1;
             mkToken EOF VNone 1 (1 + Z.of_nat (String.length (numeral n)))].
Proof.
  intros Hlen. rewrite (tokenize_digits (numeral n) (N.to_uint n)).
  - replace (Z.of_uint (N.to_uint n)) with (Z.of_N n); [done|].
    unfold Z.of_uint. f_equal. symmetry. apply DecimalN.Unsigned.of_to.
  - apply numeral_not_empty.
  - apply digits_string_of_uint.
  - apply NilEmpty.usu.
  - exact Hlen.
Qed.

(** X30: a numeral of more than [int_max_str_digits] (4300) digits, as
    the whole source, makes [tokenize] raise the [ValueError] of
    [int()]: it is no [LexerError], and carries no line or column. *)
Theorem tokenize_overlong_numeral s :
  digits s = true → int_max_str_digits < String.length s →
  tokenize float_of_string s = Raises ValueError.
Proof.
  intros Hs Hlen. destruct s as [|c r]; [simpl in Hlen; lia|].
  assert (Hc : isdigit c = true).
  { unfold digits in Hs. simpl in Hs. by apply andb_true_iff in Hs as [-> _]. }
  unfold tokenize. rewrite (bind_Raises _ _ _ ValueError); [done|].
  rewrite tokenize_loop_number by done.
  apply bind_Raises, bind_Raises.
  unfold read_number. unfold bind at 1. unfold position.
  cbn [cur_line cur_column Lexer_init fst snd].
  change (mkLexer (String c r) 0 1 1 []) with (reading "" (String c r) 1 1 []).
  rewrite (bind_Returns _ _ _ _ _
    (read_number_loop_reading (String c r) _ "" "" 1 1 [] (Nat.lt_succ_diag_r _) Hs)).
  cbn [fst snd andb]. unfold bind at 1, ret at 1.
  change ("" ++ String c r)%string with (String c r). unfold int_of_string.
  by rewrite (proj2 (Nat.ltb_lt _ _) Hlen).
Qed.

(** X19: a text between double quotes, without double quote, backslash
    or newline, gives the [STRING] token of that text, and [EOF] in the
    column after the closing quote. *)
Theorem tokenize_string_literal s :
  forallb plain_char (list_ascii_of_string s) = true →
  tokenize float_of_string (String double_quote (s ++ String double_quote ""))
  = Returns [mkToken STRING (VStr s) 1 1;
             mkToken EOF VNone 1 (3 + Z.of_nat (String.length s))].
Proof.
  intros Hs.
  apply (tokenize_one read_string); [done|intros fuel; apply tokenize_loop_string|].
  unfold read_string. unfold bind at 1. unfold position.
  cbn [cur_line cur_column Lexer_init fst snd].
  change (Lexer_init (String double_quote ?r))
    with (reading "" (String double_quote r) 1 1 []).
  rewrite (bind_Returns _ _ _ _ _ (advance_reading "" double_quote _ 1 1 [] eq_refl)).
  change (snoc_char "" double_quote) with (String double_quote "").
  assert (Hfuel : String.length s
                  < S (String.length (String double_quote (s ++ String double_quote "")))).
  { cbn [String.length]. rewrite length_append. lia. }
  rewrite (bind_Returns _ _ _ _ _
    (read_string_loop_reading s _ (1, 1)%Z "" (String double_quote "") "" 1 (1 + 1) []
       Hfuel Hs)).
  unfold bind at 1. unfold current_char. rewrite current_char_reading.
  cbn [String.get]. rewrite bool_decide_eq_true_2 by done.
  rewrite (bind_Returns _ _ _ _ _ (advance_reading _ double_quote "" 1 _ [] eq_refl)).
  unfold ret. do 2 f_equal.
  unfold reading, snoc_char. rewrite !append_append, !append_empty. f_equal.
  all: try lia.
  all: rewrite ?append_String, ?length_append; simpl; lia.
Qed.

End lexemes.

Lemma tokenize_raises_only_LexerError_witness :
  ascii_text "Box x paws 10 +" = true
  ∧ longest_digits "Box x paws 10 +" ≤ int_max_str_digits
  ∧ ((∃ toks, tokenize main.no_float_of_string "Box x paws 10 +" = Returns toks)
     ∨ (∃ message ln col,
          tokenize main.no_float_of_string "Box x paws 10 +"
          = Raises (LexerError message ln col))).
Proof.
  split; [reflexivity|]. split; [apply Nat.leb_le; reflexivity|].
  apply (tokenize_raises_only_LexerError main.no_float_of_string "Box x paws 10 +");
    [reflexivity|apply Nat.leb_le; reflexivity].
Defined.

Lemma tokenize_token_stream_witness :
  token_stream
    [mkToken BOX (VStr "Box") 1 1; mkToken IDENTIFIER (VStr "x") 1 5;
     mkToken PAWS (VStr "paws") 1 7; mkToken INTEGER (VInt 10) 1 12;
     mkToken EOF VNone 1 14]
  ∧ 5 ≤ S (String.length "Box x paws 10").
Proof.
  apply (tokenize_token_stream main.no_float_of_string "Box x paws 10");
    vm_compute; reflexivity.
Defined.

Lemma tokenize_numeral_witness :
  tokenize main.no_float_of_string "2026"
  = Returns [mkToken INTEGER (VInt 2026) 1 1; mkToken EOF VNone 1 5].
Proof.
  apply (tokenize_numeral main.no_float_of_string 2026). apply Nat.leb_le. reflexivity.
Defined.

Lemma tokenize_overlong_numeral_witness :
  tokenize main.no_float_of_string (string_of_list_ascii (List.repeat "9"%char 4301))
  = Raises ValueError.
Proof.
  apply (tokenize_overlong_numeral main.no_float_of_string);
    [vm_compute; reflexivity|apply Nat.ltb_lt; vm_compute; reflexivity].
Defined.

Lemma tokenize_word_witness :
  tokenize main.no_float_of_string "Purr"
  = Returns [mkToken PURR (VStr "Purr") 1 1; mkToken EOF VNone 1 5].
Proof. apply (tokenize_word main.no_float_of_string "Purr"). reflexivity. Defined.

Lemma tokenize_string_literal_witness :
  tokenize main.no_float_of_string (String double_quote ("meow" ++ String double_quote ""))
  = Returns [mkToken STRING (VStr "meow") 1 1; mkToken EOF VNone 1 7].
Proof.
  apply (tokenize_string_literal main.no_float_of_string "meow"). reflexivity.
Defined.

End lexer_facts.

(** ** Induction over the AST *)

Module ast_facts.
Import ast.

(** Induction on expressions, with the hypothesis available for every
    argument of a call. *)
Lemma ExpressionNode_induction (P : ExpressionNode → Prop) :
  (∀ ln col op l r, P l → P r → P (BinaryOpNode ln col op l r)) →
  (∀ ln col op e, P e → P (UnaryOpNode ln col op e)) →
  (∀ ln col v, P (IntegerNode ln col v)) →
  (∀ ln col v, P (FloatNode ln col v)) →
  (∀ ln col v, P (StringNode ln col v)) →
  (∀ ln col nm, P (IdentifierNode ln col nm)) →
  (∀ ln col nm args, Forall P args → P (FunctionCallNode ln col nm args)) →
  (∀ ln col, P (OtherExpression ln col)) →
  ∀ e, P e.
Proof.
  intros Hbin Hun Hint Hfloat Hstr Hid Hcall Hother.
  fix IH 1. intros [ln col op l r|ln col op e|ln col v|ln col v|ln col v
                   |ln col nm|ln col nm args|ln col].
  - apply Hbin; apply IH.
  - apply Hun; apply IH.
  - apply Hint.
  - apply Hfloat.
  - apply Hstr.
  - apply Hid.
  - apply Hcall. induction args as [|a args IHargs]; constructor; [apply IH|exact IHargs].
  - apply Hother.
Qed.

(** Induction on statements, with the hypothesis available for every
    statement of a nested block. *)
Lemma StatementNode_induction (P : StatementNode → Prop) :
  (∀ ln col x v, P (VarDeclarationNode ln col x v)) →
  (∀ ln col x v, P (AssignmentNode ln col x v)) →
  (∀ ln col nm ps body, Forall P body → P (FunctionDefNode ln col nm ps body)) →
  (∀ ln col c th, Forall P th → P (IfStatementNode ln col c th None)) →
  (∀ ln col c th el, Forall P th → Forall P el →
     P (IfStatementNode ln col c th (Some el))) →
  (∀ ln col c body, Forall P body → P (WhileLoopNode ln col c body)) →
  (∀ ln col v, P (ReturnStatementNode ln col v)) →
  (∀ ln col v, P (PrintStatementNode ln col v)) →
  (∀ ln col cl cc cn ca, P (FunctionCallStatementNode ln col cl cc cn ca)) →
  (∀ ln col, P (OtherStatement ln col)) →
  ∀ s, P s.
Proof.
  intros Hdecl Hassign Hdef Hif Hifelse Hwhile Hret Hprint Hcall Hother.
  fix IH 1.
  assert (Hall : ∀ l : list StatementNode, Forall P l).
  { fix IHl 1. intros [|s l]; constructor; [apply IH|apply IHl]. }
  intros [ln col x v|ln col x v|ln col nm ps body|ln col c th [el|]
         |ln col c body|ln col v|ln col v|ln col cl cc cn ca|ln col].
  - apply Hdecl.
  - apply Hassign.
  - apply Hdef, Hall.
  - apply Hifelse; apply Hall.
  - apply Hif, Hall.
  - apply Hwhile, Hall.
  - apply Hret.
  - apply Hprint.
  - apply Hcall.
  - apply Hother.
Qed.

End ast_facts.

(** ** The semantic analyzer *)

Module semantic_facts.
Import ast semantic ast_facts.
Local Open Scope analyzer_scope.

Lemma with_errors_nil a : with_errors a (errors a ++ []) = a.
Proof. destruct a; unfold with_errors; simpl. by rewrite app_nil_r. Qed.

Lemma with_errors_app a es es' :
  with_errors (with_errors a (errors a ++ es)) (errors (with_errors a (errors a ++ es)) ++ es')
  = with_errors a (errors a ++ (es ++ es')).
Proof. unfold with_errors; simpl. by rewrite app_assoc. Qed.

Lemma lookup_from_returns lvl nm sc :
  lvl < length sc → ∃ r, lookup_from lvl nm sc = Returns r.
Proof.
  induction lvl as [|lvl IH]; intros Hlt; simpl.
  - destruct (sc !! 0) as [frame|] eqn:Hf.
    + destruct (frame !! nm); eauto.
    + apply lookup_ge_None in Hf. lia.
  - destruct (sc !! S lvl) as [frame|] eqn:Hf.
    + destruct (frame !! nm); eauto. apply IH. lia.
    + apply lookup_ge_None in Hf. lia.
Qed.

Lemma lookup_returns nm t : wf_table t → ∃ r, lookup nm t = Returns r.
Proof. intros Hwf. apply lookup_from_returns. unfold wf_table in Hwf. lia. Qed.

Lemma add_error_eq msg ln col a :
  add_error msg ln col a = Returns (tt, with_errors a (errors a ++ [mkSemanticError msg ln col])).
Proof. reflexivity. Qed.

Lemma bind_eq {A B} (m : M A) (k : A → M B) a :
  bind m k a = match m a with Returns (x, a') => k x a' | Raises e => Raises e end.
Proof. reflexivity. Qed.

Lemma ret_eq {A} (x : A) a : ret x a = Returns (x, a).
Proof. reflexivity. Qed.

Lemma table_lookup_eq nm a :
  table_lookup nm a = match lookup nm (symbol_table a) with
                      | Returns r => Returns (r, a)
                      | Raises e => Raises e
                      end.
Proof. reflexivity. Qed.

Ltac case_if :=
  match goal with
  | |- context [if ?b then _ else _] => destruct b eqn:?
  end.

Ltac analyzer_simpl :=
  repeat first [rewrite bind_eq | rewrite ret_eq | rewrite add_error_eq
               | rewrite with_errors_app].

Lemma for_each_expr_total args :
  Forall expr_total args →
  ∀ a, wf_table (symbol_table a) →
    ∃ es, for_each (fun arg => visit_expression arg >> ret tt) args a
          = Returns (tt, with_errors a (errors a ++ es)).
Proof.
  induction 1 as [|e args He _ IH]; intros a Hwf; simpl.
  - exists []. by rewrite ret_eq, with_errors_nil.
  - rewrite !bind_eq. destruct (He a Hwf) as (ty & es & ->).
    rewrite ret_eq. destruct (IH (with_errors a (errors a ++ es)) Hwf) as (es' & ->).
    exists (es ++ es')%list. by rewrite with_errors_app.
Qed.

Lemma returns_nil {A} (x : A) a :
  ∃ es, @Returns exn _ (x, a) = Returns (x, with_errors a (errors a ++ es)).
Proof. exists []. by rewrite with_errors_nil. Qed.

Lemma visit_expression_total e : expr_total e.
Proof.
  induction e as [ln col op l r IHl IHr|ln col op e IHe|ln col v|ln col v|ln col v
                 |ln col nm|ln col nm args IHargs|ln col]
    using ExpressionNode_induction; intros a Hwf; simpl.
  - unfold visit_binary_op. rewrite bind_eq.
    destruct (IHl a Hwf) as (lt & es1 & ->). rewrite bind_eq.
    destruct (IHr (with_errors a (errors a ++ es1)) Hwf) as (rt & es2 & ->).
    rewrite with_errors_app.
    repeat case_if; analyzer_simpl; eauto.
  - unfold visit_unary_op. rewrite bind_eq.
    destruct (IHe a Hwf) as (ot & es1 & ->).
    repeat case_if; analyzer_simpl; eauto.
  - eexists. apply returns_nil.
  - eexists. apply returns_nil.
  - eexists. apply returns_nil.
  - unfold visit_identifier. rewrite bind_eq, table_lookup_eq.
    destruct (lookup_returns nm _ Hwf) as ([[lvl sym]|] & ->).
    + case_if; analyzer_simpl; eauto. eexists. apply returns_nil.
    + analyzer_simpl; eauto.
  - unfold visit_function_call. rewrite bind_eq, table_lookup_eq.
    destruct (lookup_returns nm _ Hwf) as ([[lvl sym]|] & ->).
    + case_if; analyzer_simpl; eauto.
      case_if; analyzer_simpl.
      * match goal with
        | |- context [for_each _ args ?a'] =>
            destruct (for_each_expr_total args IHargs a' Hwf) as (es & ->)
        end.
        analyzer_simpl. eauto.
      * destruct (for_each_expr_total args IHargs a Hwf) as (es & ->).
        analyzer_simpl. eauto.
    + analyzer_simpl; eauto.
  - eexists. apply returns_nil.
Qed.

Lemma extends_refl a : wf_table (symbol_table a) → extends a a.
Proof. intros Hwf. split; auto. exists []. by rewrite app_nil_r. Qed.

Lemma extends_trans a b c : extends a b → extends b c → extends a c.
Proof.
  intros [? ? ? ? [es1 ?]] [? ? ? ? [es2 ?]]. split; try congruence.
  exists (es1 ++ es2)%list. rewrite app_assoc. congruence.
Qed.

Lemma extends_with_errors a es :
  wf_table (symbol_table a) → extends a (with_errors a (errors a ++ es)).
Proof. intros Hwf. split; simpl; eauto. Qed.

Lemma declare_wf sym t :
  wf_table t →
  (∃ t', declare sym t = Returns t' ∧ wf_table t' ∧ current_scope t' = current_scope t)
  ∨ (∃ e, declare sym t = Raises (SemanticError_exn e)).
Proof.
  intros Hwf. unfold declare.
  destruct (scopes t !! current_scope t) as [frame|] eqn:Hf.
  - destruct (frame !! name sym); [right; eauto|left].
    eexists; split; [reflexivity|]. split; [|reflexivity].
    unfold wf_table in *; simpl. by rewrite length_insert.
  - apply lookup_ge_None in Hf. unfold wf_table in Hwf. lia.
Qed.

Lemma try_declare_extends sym a :
  wf_table (symbol_table a) →
  ∃ b a', try_declare sym a = Returns (b, a') ∧ extends a a'.
Proof.
  intros Hwf. unfold try_declare. rewrite bind_eq. unfold get_table.
  destruct (declare_wf sym _ Hwf) as [(t' & -> & Hwf' & Hd)|(e & ->)].
  - rewrite bind_eq. unfold set_table. rewrite ret_eq.
    do 2 eexists; split; [reflexivity|]. split; simpl; auto.
    exists []. by rewrite app_nil_r.
  - analyzer_simpl. do 2 eexists; split; [reflexivity|].
    by apply extends_with_errors.
Qed.

Lemma table_enter_scope_eq a :
  table_enter_scope a
  = Returns (tt, {| symbol_table := enter_scope (symbol_table a); errors := errors a;
                    current_function := current_function a;
                    in_function := in_function a |}).
Proof. reflexivity. Qed.

Lemma enter_scope_wf t : wf_table t → wf_table (enter_scope t).
Proof. unfold wf_table, enter_scope. simpl. rewrite length_app. simpl. lia. Qed.

Lemma exit_scope_wf t d :
  wf_table t → current_scope t = S d →
  ∃ t', exit_scope t = Returns t' ∧ wf_table t' ∧ current_scope t' = d.
Proof.
  unfold wf_table, exit_scope. intros Hwf Hd. rewrite Hd.
  destruct (decide (0 < S d)) as [_|]; [|lia].
  destruct (scopes t) as [|f fs] eqn:Hs; [simpl in Hwf; lia|].
  eexists; split; [reflexivity|]. simpl. split; [|lia].
  assert (Hne : f :: fs ≠ []) by done.
  pose proof (app_removelast_last ∅ Hne) as Heq.
  apply (f_equal length) in Heq. rewrite length_app in Heq. simpl in *. lia.
Qed.

Lemma table_exit_scope_spec a d :
  wf_table (symbol_table a) → current_scope (symbol_table a) = S d →
  ∃ a', table_exit_scope a = Returns (tt, a') ∧ wf_table (symbol_table a')
        ∧ current_scope (symbol_table a') = d ∧ errors a' = errors a
        ∧ current_function a' = current_function a ∧ in_function a' = in_function a.
Proof.
  intros Hwf Hd. unfold table_exit_scope. rewrite bind_eq. unfold get_table.
  destruct (exit_scope_wf _ _ Hwf Hd) as (t' & -> & Hwf' & Hd').
  unfold set_table. eexists; split; [reflexivity|]. simpl. auto.
Qed.

Lemma for_each_extends {A} (f : A → M unit) l :
  Forall (λ x, ∀ a, wf_table (symbol_table a) →
             ∃ a', f x a = Returns (tt, a') ∧ extends a a') l →
  ∀ a, wf_table (symbol_table a) →
    ∃ a', for_each f l a = Returns (tt, a') ∧ extends a a'.
Proof.
  induction 1 as [|x l' Hx _ IH]; intros a Hwf; simpl.
  - rewrite ret_eq. eauto using extends_refl.
  - rewrite bind_eq. destruct (Hx a Hwf) as (a1 & -> & H1).
    destruct (IH a1 (ext_wf _ _ H1)) as (a2 & -> & H2).
    eauto using extends_trans.
Qed.

(** A block visited in a scope of its own: the scope is entered, every
    statement returns, and the exit brings the table back to its depth. *)
Lemma scoped_block_extends body a :
  Forall stmt_total body → wf_table (symbol_table a) →
  ∃ a1 a', for_each visit_statement body (entered a) = Returns (tt, a1)
           ∧ table_exit_scope a1 = Returns (tt, a')
           ∧ extends a a'.
Proof.
  intros Hbody Hwf.
  assert (Hwf1 : wf_table (symbol_table (entered a))) by by apply enter_scope_wf.
  destruct (for_each_extends visit_statement body Hbody _ Hwf1) as (a2 & Hfor & H2).
  destruct (table_exit_scope_spec a2 (current_scope (symbol_table a))) as
    (a3 & Hexit & Hwf3 & Hd3 & He3 & Hf3 & Hi3).
  { apply H2. } { rewrite (ext_depth _ _ H2). simpl. lia. }
  exists a2, a3. split; [done|]. split; [done|]. split; auto.
  - rewrite Hf3. apply H2.
  - rewrite Hi3. apply H2.
  - rewrite He3. apply H2.
Qed.

Ltac block_step body a IH Hwf :=
  let a1 := fresh "a" in let a2 := fresh "a" in
  let H1 := fresh "Hfor" in let H2 := fresh "Hexit" in let Hx := fresh "Hext" in
  destruct (scoped_block_extends body a IH Hwf) as (a1 & a2 & H1 & H2 & Hx);
  rewrite bind_eq, table_enter_scope_eq; fold (entered a);
  rewrite bind_eq, H1; try rewrite bind_eq; rewrite H2.

Lemma visit_expression_extends e a :
  wf_table (symbol_table a) →
  ∃ ty a', visit_expression e a = Returns (ty, a') ∧ extends a a'.
Proof.
  intros Hwf. destruct (visit_expression_total e a Hwf) as (ty & es & ->).
  eauto using extends_with_errors.
Qed.

Lemma write_data_type_wf lvl sym ty t :
  wf_table t → wf_table (write_data_type lvl sym ty t).
Proof. unfold wf_table, write_data_type. simpl. by rewrite length_alter. Qed.

Ltac expr_step e a Hwf :=
  let ty := fresh "ty" in let a' := fresh "a" in let H := fresh "Hext" in
  rewrite bind_eq;
  destruct (visit_expression_extends e a Hwf) as (ty & a' & -> & H).

Lemma visit_statement_total s : stmt_total s.
Proof.
  induction s as [ln col x v|ln col x v|ln col nm ps body IH|ln col c th IHth
                 |ln col c th el IHth IHel|ln col c body IH|ln col v|ln col v
                 |ln col cl cc cn ca|ln col]
    using StatementNode_induction; intros a Hwf; simpl.
  - (* VarDecl *)
    unfold visit_var_declaration. expr_step v a Hwf.
    rewrite bind_eq. unfold get_table. rewrite bind_eq.
    destruct (try_declare_extends
      {| name := x; data_type := ty; scope_level := current_scope (symbol_table a0);
         is_function := false; parameters := None; line := ln; column := col |}
      a0 (ext_wf _ _ Hext)) as (b & a1 & -> & H1).
    rewrite ret_eq. eauto using extends_trans.
  - (* Assign *)
    unfold visit_assignment. rewrite bind_eq, table_lookup_eq.
    destruct (lookup_returns x _ Hwf) as ([[lvl sym]|] & ->).
    + case_if; analyzer_simpl; eauto using extends_with_errors.
      destruct (visit_expression_extends v a Hwf) as (ty & a' & -> & H).
      repeat case_if; analyzer_simpl; eauto.
      eexists; split; [reflexivity|].
      eapply extends_trans; [exact H|]. apply extends_with_errors, H.
    + analyzer_simpl; eauto using extends_with_errors.
  - (* FunctionDef *)
    unfold visit_function_def. rewrite bind_eq. unfold get_table. rewrite bind_eq.
    match goal with
    | |- context [try_declare ?s a] =>
        destruct (try_declare_extends s a Hwf) as (b & a1 & -> & H1)
    end.
    destruct b; simpl; [|rewrite ret_eq; eauto].
    rewrite bind_eq, table_enter_scope_eq, bind_eq. unfold get_function.
    rewrite bind_eq. unfold set_function at 1. simpl. rewrite bind_eq.
    match goal with
    | |- context [for_each _ ps ?a'] => set (a2 := a')
    end.
    assert (Hwf2 : wf_table (symbol_table a2)).
    { apply enter_scope_wf, H1. }
    match goal with
    | |- context [for_each ?f ps a2] =>
        destruct (for_each_extends f ps) with (a := a2) as (a3 & -> & H3); [|exact Hwf2|]
    end.
    { apply Forall_forall. intros p _ a' Hwf'. rewrite bind_eq. unfold get_table.
      rewrite bind_eq.
      match goal with
      | |- context [try_declare ?s a'] =>
          destruct (try_declare_extends s a' Hwf') as (b & a'' & -> & H'')
      end.
      rewrite ret_eq. eauto. }
    rewrite bind_eq.
    destruct (for_each_extends visit_statement body IH a3 (ext_wf _ _ H3))
      as (a4 & -> & H4).
    rewrite bind_eq.
    pose proof (extends_trans _ _ _ H3 H4) as H24.
    destruct (table_exit_scope_spec a4 (current_scope (symbol_table a1))) as
      (a5 & -> & Hwf5 & Hd5 & He5 & Hf5 & Hi5).
    { apply H24. } { rewrite (ext_depth _ _ H24). simpl. lia. }
    unfold set_function. eexists; split; [reflexivity|].
    split; simpl; auto.
    + rewrite Hd5. apply H1.
    + apply H1.
    + apply H1.
    + rewrite He5. destruct (ext_errors _ _ H24) as [es2 ->].
      destruct (ext_errors _ _ H1) as [es1 Hes1]. simpl. rewrite Hes1.
      exists (es1 ++ es2)%list. by rewrite app_assoc.
  - (* If without else *)
    unfold visit_if_statement. expr_step c a Hwf.
    block_step th a0 IHth (ext_wf _ _ Hext).
    rewrite ret_eq. eauto using extends_trans.
  - (* If with else *)
    unfold visit_if_statement. expr_step c a Hwf.
    block_step th a0 IHth (ext_wf _ _ Hext).
    destruct el as [|s el]; [rewrite ret_eq; eauto using extends_trans|].
    cbv beta iota. block_step (s :: el) a2 IHel (ext_wf _ _ Hext0).
    eauto using extends_trans.
  - (* While *)
    unfold visit_while_loop. expr_step c a Hwf.
    block_step body a0 IH (ext_wf _ _ Hext).
    eauto using extends_trans.
  - (* Return *)
    unfold visit_return_statement. rewrite bind_eq. unfold get_function. simpl.
    case_if; analyzer_simpl; eauto using extends_with_errors.
    destruct (visit_expression_extends v a Hwf) as (ty & a' & -> & H).
    destruct (current_function a) as [fname|]; [|rewrite ret_eq; eauto].
    case_if; [rewrite ret_eq; eauto|].
    rewrite bind_eq, table_lookup_eq.
    destruct (lookup_returns fname _ (ext_wf _ _ H)) as ([[lvl sym]|] & ->);
      [|rewrite ret_eq; eauto].
    repeat case_if; analyzer_simpl; eauto.
    + unfold get_table, set_table. eexists; split; [reflexivity|].
      eapply extends_trans; [exact H|]. split; simpl; auto.
      * apply write_data_type_wf, H.
      * exists []. by rewrite app_nil_r.
    + eexists; split; [reflexivity|].
      eapply extends_trans; [exact H|]. apply extends_with_errors, H.
  - (* Print *)
    unfold visit_print_statement. expr_step v a Hwf. rewrite ret_eq. eauto.
  - (* Call statement *)
    unfold visit_function_call_statement. rewrite bind_eq.
    destruct (visit_expression_extends (FunctionCallNode cl cc cn ca) a Hwf)
      as (ty & a' & He & H).
    simpl in He. rewrite He, ret_eq. eauto.
  - rewrite ret_eq. eauto using extends_refl.
Qed.

(** C2, as stated, fails: on the symbol table as [__init__] leaves it
    (one frame, [current_scope] 0), [exit_scope] returns normally and the
    table is unchanged; it raises nothing. *)
Lemma exit_scope_program_frame_returns :
  current_scope SymbolTable_init = 0%nat
  ∧ length (scopes SymbolTable_init) = 1%nat
  ∧ exit_scope SymbolTable_init = Returns SymbolTable_init
  ∧ ¬ (∃ e, exit_scope SymbolTable_init = Raises e).
Proof.
  repeat split. intros [e He]. discriminate He.
Qed.

(** C2, amended: when [current_scope] is 0, [exit_scope] returns normally
    with the table unchanged, and so does the analyzer's call of it: the
    guard [if self.current_scope > 0] skips the pop. *)
Theorem exit_scope_at_depth_0 (a : SemanticAnalyzer) :
  current_scope (symbol_table a) = 0%nat →
  exit_scope (symbol_table a) = Returns (symbol_table a)
  ∧ table_exit_scope a = Returns (tt, a).
Proof.
  intros H0. assert (He : exit_scope (symbol_table a) = Returns (symbol_table a)).
  { unfold exit_scope. rewrite H0. by destruct (decide (0 < 0)%nat); [lia|]. }
  split; [exact He|].
  unfold table_exit_scope. rewrite bind_eq. unfold get_table. rewrite He.
  by destruct a.
Qed.

(** C2, amended, on the analyzer as [__init__] leaves it. *)
Lemma exit_scope_at_depth_0_witness :
  exit_scope (symbol_table SemanticAnalyzer_init)
  = Returns (symbol_table SemanticAnalyzer_init)
  ∧ table_exit_scope SemanticAnalyzer_init = Returns (tt, SemanticAnalyzer_init).
Proof. apply (exit_scope_at_depth_0 SemanticAnalyzer_init). reflexivity. Defined.

(** C9: an assignment whose target is undeclared, or is a function, adds
    exactly one diagnostic and changes nothing else; the outcome is the
    same whatever the right-hand side is, which is never visited. *)
Theorem assignment_to_bad_target (ln col : Z) (x : string) (a : SemanticAnalyzer) :
  undeclared_or_function x a →
  ∃ e, ∀ v, visit_statement (AssignmentNode ln col x v) a
            = Returns (tt, with_errors a (errors a ++ [e])).
Proof.
  intros [Hl|(lvl & sym & Hl & Hf)]; eexists; intros v; simpl;
    unfold visit_assignment; rewrite bind_eq, table_lookup_eq, Hl.
  - by rewrite add_error_eq.
  - rewrite Hf. by rewrite add_error_eq.
Qed.

(** C9 on the initial analyzer, where [x] is undeclared. *)
Lemma assignment_to_bad_target_witness :
  ∃ e, ∀ v, visit_statement (AssignmentNode 1 1 "x" v) SemanticAnalyzer_init
            = Returns (tt, with_errors SemanticAnalyzer_init
                             (errors SemanticAnalyzer_init ++ [e])).
Proof.
  apply (assignment_to_bad_target 1 1 "x" SemanticAnalyzer_init).
  left. reflexivity.
Defined.

(** C10: a function definition whose name is already declared in the
    current scope adds the redeclaration diagnostic and returns: the
    symbol table is as before (no scope entered, no parameter declared)
    and the outcome does not depend on the parameters or the body. *)
Theorem function_redeclaration_returns (ln col : Z) (nm : string) (ps : list string)
  (body : list StatementNode) (a : SemanticAnalyzer)
  (frame : gmap string Symbol) (existing : Symbol) :
  scopes (symbol_table a) !! current_scope (symbol_table a) = Some frame →
  frame !! nm = Some existing →
  visit_statement (FunctionDefNode ln col nm ps body) a
  = Returns (tt, with_errors a
      (errors a ++ [ {| message := "Variable '" ++ nm
                          ++ "' already declared in current scope at line "
                          ++ str_int (line existing);
                        err_line := ln; err_column := col |} ])).
Proof.
  intros Hframe Hnm. simpl. unfold visit_function_def.
  rewrite bind_eq. unfold get_table. rewrite bind_eq.
  unfold try_declare. rewrite bind_eq. unfold get_table, declare. simpl.
  rewrite Hframe, Hnm. rewrite bind_eq, add_error_eq, ret_eq. simpl.
  by rewrite ret_eq.
Qed.

(** C10 where [f] is a variable of the program scope and the body of the
    second [f] uses an undeclared name. *)
Lemma function_redeclaration_returns_witness :
  visit_statement
    (FunctionDefNode 2 1 "f" ["a"]
       [PrintStatementNode 3 3 (IdentifierNode 3 8 "undeclared")]) f_declared
  = Returns (tt, with_errors f_declared
      [ {| message := "Variable 'f' already declared in current scope at line 1";
           err_line := 2; err_column := 1 |} ]).
Proof.
  apply (function_redeclaration_returns 2 1 "f" ["a"] _ f_declared
           {[ "f" := f_symbol ]} f_symbol); reflexivity.
Defined.

(** C8: the walk over any program returns, and leaves the scope stack
    with the one frame it started with, diagnostics or not.  Each
    statement on the way leaves the depth as it found it
    ([visit_statement_total]), each block exits the scope it entered
    ([scoped_block_extends]). *)
Theorem scope_balance (p : ProgramNode) :
  ∃ a, visit_program p SemanticAnalyzer_init = Returns (tt, a)
       ∧ length (scopes (symbol_table a)) = 1%nat
       ∧ current_scope (symbol_table a) = 0%nat.
Proof.
  assert (Hwf : wf_table (symbol_table SemanticAnalyzer_init)) by reflexivity.
  destruct (for_each_extends visit_statement (statements p)) with (a := SemanticAnalyzer_init)
    as (a & Hrun & Hext); [|exact Hwf|].
  { apply Forall_forall. intros s _. apply visit_statement_total. }
  exists a. split; [exact Hrun|].
  pose proof (ext_wf _ _ Hext) as Hwf'. pose proof (ext_depth _ _ Hext) as Hd.
  unfold wf_table in Hwf'. simpl in Hd. rewrite Hd in Hwf'. auto.
Qed.

(** C4, amended: a division whose operands both infer a numeric type
    infers [WHISKERS], and adds no diagnostic of its own; when an operand
    is not numeric it infers [UNKNOWN]. *)
Theorem division_of_numerics_is_float (ln col : Z) (l r : ExpressionNode)
  (a a1 a2 : SemanticAnalyzer) (lt rt : DataType) :
  visit_expression l a = Returns (lt, a1) →
  visit_expression r a1 = Returns (rt, a2) →
  (numeric lt = true → numeric rt = true →
     visit_expression (BinaryOpNode ln col "/" l r) a = Returns (WHISKERS, a2))
  ∧ (numeric lt && numeric rt = false →
     ∃ a3, visit_expression (BinaryOpNode ln col "/" l r) a = Returns (UNKNOWN, a3)).
Proof.
  intros Hl Hr. simpl. unfold visit_binary_op. rewrite bind_eq, Hl, bind_eq, Hr.
  change (is_arithmetic "/") with true. change (bool_decide ("/" = "+")) with false.
  change (bool_decide ("/" = "/")) with true. cbn [andb].
  split.
  - intros -> ->. reflexivity.
  - intros ->. repeat case_if; analyzer_simpl; eauto.
Qed.

(** C4, amended, on [7 / 2]: both operands are [TREATS], the division is
    [WHISKERS]. *)
Lemma division_of_numerics_is_float_witness :
  visit_expression (BinaryOpNode 1 3 "/" (IntegerNode 1 1 7) (IntegerNode 1 5 2))
    SemanticAnalyzer_init = Returns (WHISKERS, SemanticAnalyzer_init).
Proof.
  apply (proj1 (division_of_numerics_is_float 1 3 (IntegerNode 1 1 7) (IntegerNode 1 5 2)
                  SemanticAnalyzer_init SemanticAnalyzer_init SemanticAnalyzer_init
                  TREATS TREATS eq_refl eq_refl)); reflexivity.
Defined.

(** C4, as stated, fails: a string divided by an integer infers [UNKNOWN]
    (with a diagnostic), and so does [f() / 2] where [f] has no inferred
    return type (with no diagnostic at all). *)
Lemma division_not_always_float :
  visit_expression
    (BinaryOpNode 1 3 "/" (StringNode 1 1 "a") (IntegerNode 1 5 2)) SemanticAnalyzer_init
  = Returns (UNKNOWN, with_errors SemanticAnalyzer_init
       [ {| message := "Type error: cannot apply operator '/' to YARN and TREATS";
            err_line := 1; err_column := 3 |} ])
  ∧ visit_expression
      (BinaryOpNode 2 9 "/" (FunctionCallNode 2 5 "f" []) (IntegerNode 2 11 2)) after_hunt_f
    = Returns (UNKNOWN, after_hunt_f)
  ∧ UNKNOWN ≠ WHISKERS.
Proof. split; [|split]; [vm_compute; reflexivity..|discriminate]. Qed.

Lemma frame_nil a : ∃ es, a = with_errors a (errors a ++ es).
Proof. exists []. by rewrite with_errors_nil. Qed.

Lemma frame_trans a es a' :
  (∃ es', a' = with_errors (with_errors a (errors a ++ es))
                  (errors (with_errors a (errors a ++ es)) ++ es')) →
  ∃ es', a' = with_errors a (errors a ++ es').
Proof. intros [es' ->]. rewrite with_errors_app. eauto. Qed.

Lemma for_each_expr_frame args :
  Forall expr_frame args →
  ∀ a u a', for_each (fun arg => visit_expression arg >> ret tt) args a = Returns (u, a') →
    ∃ es, a' = with_errors a (errors a ++ es).
Proof.
  induction 1 as [|e args He _ IH]; intros a u a'; simpl.
  - rewrite ret_eq. intros [= _ <-]. apply frame_nil.
  - rewrite !bind_eq. destruct (visit_expression e a) as [[ty a1]|] eqn:H1; [|done].
    destruct (He _ _ _ H1) as [es ->]. rewrite ret_eq. intros H2.
    apply frame_trans with es. eauto.
Qed.

Lemma visit_expression_frame e : expr_frame e.
Proof.
  induction e as [ln col op l r IHl IHr|ln col op e IHe|ln col v|ln col v|ln col v
                 |ln col nm|ln col nm args IHargs|ln col]
    using ExpressionNode_induction; intros a ty a'; simpl.
  - unfold visit_binary_op. rewrite bind_eq.
    destruct (visit_expression l a) as [[lt a1]|] eqn:H1; [|done].
    destruct (IHl _ _ _ H1) as [es1 ->]. rewrite bind_eq.
    destruct (visit_expression r _) as [[rt a2]|] eqn:H2; [|done].
    destruct (IHr _ _ _ H2) as [es2 ->]. rewrite with_errors_app.
    repeat case_if; analyzer_simpl; intros [= _ <-]; eauto.
  - unfold visit_unary_op. rewrite bind_eq.
    destruct (visit_expression e a) as [[ot a1]|] eqn:H1; [|done].
    destruct (IHe _ _ _ H1) as [es1 ->].
    repeat case_if; analyzer_simpl; intros [= _ <-]; eauto.
  - rewrite ret_eq. intros [= _ <-]. apply frame_nil.
  - rewrite ret_eq. intros [= _ <-]. apply frame_nil.
  - rewrite ret_eq. intros [= _ <-]. apply frame_nil.
  - unfold visit_identifier. rewrite bind_eq, table_lookup_eq.
    destruct (lookup nm _) as [[[lvl sym]|]|]; [| |done].
    + case_if; analyzer_simpl; intros [= _ <-]; eauto using frame_nil.
    + analyzer_simpl. intros [= _ <-]; eauto.
  - unfold visit_function_call. rewrite bind_eq, table_lookup_eq.
    destruct (lookup nm _) as [[[lvl sym]|]|]; [| |done].
    + case_if; analyzer_simpl; [intros [= _ <-]; eauto|].
      case_if; analyzer_simpl.
      * destruct (for_each _ args _) as [[u a1]|] eqn:H1; [|done].
        apply (for_each_expr_frame args IHargs) in H1. rewrite ret_eq.
        intros [= _ <-]. by apply frame_trans in H1.
      * destruct (for_each _ args _) as [[u a1]|] eqn:H1; [|done].
        apply (for_each_expr_frame args IHargs) in H1. rewrite ret_eq.
        by intros [= _ <-].
    + analyzer_simpl. intros [= _ <-]; eauto.
  - rewrite ret_eq. intros [= _ <-]. apply frame_nil.
Qed.

Lemma are_types_compatible_spec T V :
  are_types_compatible T V = true ↔ T = V ∨ (numeric T = true ∧ numeric V = true).
Proof. destruct T, V; vm_compute; intuition congruence. Qed.

(** C3, amended: an assignment to a declared variable of type [T] whose
    right-hand side infers [V] adds no diagnostic of its own exactly when
    [T = V], or both are numeric, or [T] is [UNKNOWN], or [V] is
    [UNKNOWN]; otherwise it adds the type-mismatch diagnostic.  The visit
    of the right-hand side leaves the symbol as it was. *)
Theorem assignment_accepted_iff (ln col : Z) (x : string) (v : ExpressionNode)
  (a a1 : SemanticAnalyzer) (lvl : nat) (sym : Symbol) (V : DataType) :
  lookup x (symbol_table a) = Returns (Some (lvl, sym)) →
  is_function sym = false →
  visit_expression v a = Returns (V, a1) →
  lookup x (symbol_table a1) = Returns (Some (lvl, sym))
  ∧ ∃ a2, visit_statement (AssignmentNode ln col x v) a = Returns (tt, a2)
      ∧ (errors a2 = errors a1 ↔ assignable (data_type sym) V)
      ∧ (¬ assignable (data_type sym) V →
           a2 = with_errors a1 (errors a1 ++ [mismatch ln col (data_type sym) V])).
Proof.
  intros Hl Hf Hv. destruct (visit_expression_frame v _ _ _ Hv) as [es ->].
  split; [exact Hl|].
  simpl. unfold visit_assignment. rewrite bind_eq, table_lookup_eq, Hl, Hf, bind_eq, Hv.
  set (a1 := with_errors a _). unfold assignable.
  destruct (decide (data_type sym = UNKNOWN)) as [HT|HT].
  { rewrite bool_decide_eq_false_2 by (intros ?; done). simpl. rewrite ret_eq.
    exists a1. intuition. }
  destruct (decide (V = UNKNOWN)) as [HV|HV].
  { rewrite (bool_decide_eq_false_2 (V ≠ UNKNOWN)) by (intros ?; done).
    rewrite andb_false_r. rewrite ret_eq. exists a1. intuition. }
  rewrite !bool_decide_eq_true_2 by done. simpl.
  destruct (are_types_compatible (data_type sym) V) eqn:Hc; simpl.
  - apply are_types_compatible_spec in Hc. rewrite ret_eq. exists a1. intuition.
  - rewrite add_error_eq. eexists; split; [reflexivity|].
    assert (Hn : ¬ (data_type sym = V ∨ numeric (data_type sym) = true ∧ numeric V = true)).
    { rewrite <- are_types_compatible_spec. congruence. }
    split; [|done]. split.
    + simpl. intros He. apply (f_equal length) in He. rewrite length_app in He.
      simpl in He. lia.
    + intuition.
Qed.

(** C3, as stated, fails: with [x] of type [TREATS] and [p] of type
    [UNKNOWN], [x paws p] is accepted without a diagnostic, though the
    types differ, are not both numeric, and the target is not [UNKNOWN]. *)
Lemma assignment_of_unknown_accepted :
  lookup "x" (symbol_table after_unknown_p_int_x) = Returns (Some (0%nat, x_symbol))
  ∧ visit_expression (IdentifierNode 4 8 "p") after_unknown_p_int_x
    = Returns (UNKNOWN, after_unknown_p_int_x)
  ∧ visit_statement (AssignmentNode 4 1 "x" (IdentifierNode 4 8 "p")) after_unknown_p_int_x
    = Returns (tt, after_unknown_p_int_x)
  ∧ errors after_unknown_p_int_x = []
  ∧ ¬ (let T := data_type x_symbol in
       let V := UNKNOWN in
       T = V ∨ (numeric T = true ∧ numeric V = true) ∨ T = UNKNOWN).
Proof.
  repeat split; try (vm_compute; reflexivity).
  cbv zeta. intros [H|[[_ H]|H]]; discriminate H.
Qed.

(** C3, amended, on [x paws "s"] with [x] of type [TREATS]. *)
Lemma assignment_accepted_iff_witness :
  lookup "x" (symbol_table after_unknown_p_int_x) = Returns (Some (0%nat, x_symbol))
  ∧ ∃ a2, visit_statement (AssignmentNode 4 1 "x" (StringNode 4 8 "s")) after_unknown_p_int_x
          = Returns (tt, a2)
      ∧ (errors a2 = errors after_unknown_p_int_x ↔ assignable (data_type x_symbol) YARN)
      ∧ (¬ assignable (data_type x_symbol) YARN →
           a2 = with_errors after_unknown_p_int_x
                  (errors after_unknown_p_int_x ++ [mismatch 4 1 (data_type x_symbol) YARN])).
Proof.
  apply (assignment_accepted_iff 4 1 "x" (StringNode 4 8 "s")
           after_unknown_p_int_x after_unknown_p_int_x 0 x_symbol YARN);
    vm_compute; reflexivity.
Defined.


(** *** The symbol table: declarations and scopes *)

Lemma lookup_from_insert_other lvl cur nm sym fr sc :
  sc !! cur = Some fr → nm ≠ name sym →
  lookup_from lvl nm (<[cur := <[name sym := sym]> fr]> sc) = lookup_from lvl nm sc.
Proof.
  intros Hfr Hne. induction lvl as [|lvl IH]; simpl.
  - destruct (decide (cur = 0%nat)) as [->|Hc].
    + rewrite list_lookup_insert_eq by (by eapply lookup_lt_Some).
      rewrite Hfr. by rewrite lookup_insert_ne.
    + by rewrite list_lookup_insert_ne.
  - destruct (decide (cur = S lvl)) as [->|Hc].
    + rewrite list_lookup_insert_eq by (by eapply lookup_lt_Some).
      rewrite Hfr. rewrite lookup_insert_ne by done. by rewrite IH.
    + rewrite list_lookup_insert_ne by done. by rewrite IH.
Qed.

(** X1: a declaration that goes through can be looked up: the name
    resolves to the symbol just declared, at the current scope; the depth
    and the number of frames are as before, and every other name
    resolves as it did. *)
Theorem declare_then_lookup (sym : Symbol) (t t' : SymbolTable) :
  declare sym t = Returns t' →
  current_scope t' = current_scope t
  ∧ length (scopes t') = length (scopes t)
  ∧ lookup (name sym) t' = Returns (Some (current_scope t, sym))
  ∧ ∀ nm, nm ≠ name sym → lookup nm t' = lookup nm t.
Proof.
  unfold declare. destruct (scopes t !! current_scope t) as [fr|] eqn:Hfr; [|done].
  destruct (fr !! name sym) as [existing|] eqn:Hnm; [done|].
  intros [= <-]. simpl. split; [done|]. split; [by rewrite length_insert|]. split.
  - unfold lookup. simpl. destruct (current_scope t) as [|lvl] eqn:Hc; simpl;
      rewrite list_lookup_insert_eq by (by eapply lookup_lt_Some);
      by rewrite lookup_insert_eq.
  - intros nm Hne. unfold lookup. simpl. by apply lookup_from_insert_other.
Qed.

(** X1 on the empty table and the symbol [f]. *)
Lemma declare_then_lookup_witness :
  lookup "f" (symbol_table f_declared) = Returns (Some (0%nat, f_symbol))
  ∧ lookup "g" (symbol_table f_declared) = lookup "g" SymbolTable_init.
Proof.
  destruct (declare_then_lookup f_symbol SymbolTable_init (symbol_table f_declared) eq_refl)
    as (_ & _ & Hl & Ho).
  split; [exact Hl|]. apply (Ho "g"). discriminate.
Defined.

(** X2: once a name is declared in the current scope, declaring it again
    there raises [SemanticError]; the message cites the line of the first
    declaration, the position is that of the second. *)
Theorem declare_twice (first second : Symbol) (t t' : SymbolTable) :
  declare first t = Returns t' → name second = name first →
  declare second t' = Raises (SemanticError_exn (redeclaration first second)).
Proof.
  unfold declare. destruct (scopes t !! current_scope t) as [fr|] eqn:Hfr; [|done].
  destruct (fr !! name first) as [existing|] eqn:Hnm; [done|].
  intros [= <-] Hname. simpl.
  rewrite list_lookup_insert_eq by (by eapply lookup_lt_Some).
  rewrite Hname, lookup_insert_eq. unfold redeclaration. by rewrite Hname.
Qed.

(** X2 on a second declaration of [f]. *)
Lemma declare_twice_witness :
  declare (set_data_type YARN f_symbol) (symbol_table f_declared)
  = Raises (SemanticError_exn (redeclaration f_symbol (set_data_type YARN f_symbol))).
Proof.
  apply (declare_twice f_symbol (set_data_type YARN f_symbol) SymbolTable_init); reflexivity.
Defined.

Lemma exit_scope_enter_scope (t : SymbolTable) :
  exit_scope (enter_scope t) = Returns t.
Proof.
  unfold exit_scope, enter_scope. simpl.
  destruct (decide (0 < current_scope t + 1)%nat) as [_|H]; [|lia].
  destruct (scopes t ++ [∅])%list as [|fr sc] eqn:E.
  { by apply app_eq_nil in E as [_ ?]. }
  rewrite <- E, removelast_last. destruct t as [sc' cur]. simpl. f_equal. f_equal. lia.
Qed.

(** X3: [exit_scope] undoes [enter_scope].  In the scope just entered any
    symbol can be declared, whatever the enclosing scopes declare
    (shadowing is accepted); it resolves to the new symbol there, and
    leaving the scope gives back the table as it was. *)
Theorem inner_scope_declaration (sym : Symbol) (t : SymbolTable) :
  wf_table t →
  exit_scope (enter_scope t) = Returns t
  ∧ ∃ t1, declare sym (enter_scope t) = Returns t1
      ∧ lookup (name sym) t1 = Returns (Some (S (current_scope t), sym))
      ∧ exit_scope t1 = Returns t.
Proof.
  intros Hwf. split; [apply exit_scope_enter_scope|]. unfold wf_table in Hwf.
  assert (Hfr : scopes (enter_scope t) !! current_scope (enter_scope t) = Some ∅).
  { simpl. rewrite lookup_app_r by lia.
    replace (current_scope t + 1 - length (scopes t))%nat with 0%nat by lia. done. }
  unfold declare. rewrite Hfr, lookup_empty. eexists. split; [reflexivity|].
  split.
  - unfold lookup. simpl. replace (current_scope t + 1)%nat with (S (current_scope t)) by lia.
    simpl. rewrite list_lookup_insert_eq by (rewrite length_app; simpl; lia).
    by rewrite lookup_insert_eq.
  - unfold exit_scope. simpl.
    destruct (decide (0 < current_scope t + 1)%nat) as [_|H]; [|lia].
    replace (current_scope t + 1)%nat with (length (scopes t) + 0)%nat by lia.
    rewrite insert_app_r. simpl.
    destruct (scopes t ++ _)%list as [|fr sc] eqn:E.
    { by apply app_eq_nil in E as [_ ?]. }
    rewrite <- E, removelast_last. destruct t as [sc' cur]. simpl in *. f_equal. f_equal. lia.
Qed.

(** X3 on the table that declares [f], and the symbol [g]. *)
Lemma inner_scope_declaration_witness :
  exit_scope (enter_scope (symbol_table f_declared)) = Returns (symbol_table f_declared)
  ∧ ∃ t1, declare g_symbol (enter_scope (symbol_table f_declared)) = Returns t1
      ∧ lookup "g" t1 = Returns (Some (1%nat, g_symbol))
      ∧ exit_scope t1 = Returns (symbol_table f_declared).
Proof. apply (inner_scope_declaration g_symbol (symbol_table f_declared)). reflexivity. Defined.


(** *** Expressions *)

(** X4: visiting an expression declares nothing and infers no function
    type: the symbol table and the enclosing function are as before, and
    diagnostics are only added at the end of the list. *)
Theorem expression_visit_keeps_table (e : ExpressionNode) (a a' : SemanticAnalyzer)
  (ty : DataType) :
  visit_expression e a = Returns (ty, a') →
  symbol_table a' = symbol_table a
  ∧ current_function a' = current_function a
  ∧ in_function a' = in_function a
  ∧ ∃ es, errors a' = (errors a ++ es)%list.
Proof.
  intros [es ->]%visit_expression_frame. simpl. eauto.
Qed.

(** X4 on [f + x], where [x] is undeclared. *)
Lemma expression_visit_keeps_table_witness :
  ∃ es, errors (with_errors f_declared
                  [ {| message := "Undeclared variable 'x'"; err_line := 1; err_column := 5 |} ])
        = (errors f_declared ++ es)%list.
Proof.
  apply (expression_visit_keeps_table
           (BinaryOpNode 1 3 "+" (IdentifierNode 1 1 "f") (IdentifierNode 1 5 "x"))
           f_declared _ UNKNOWN).
  reflexivity.
Defined.

(** X5: a comparison or a logical operation always infers [TREATS],
    whatever its operands are and infer, type errors included; the visit
    returns and only adds diagnostics. *)
Theorem comparison_and_logic_infer_int (ln col : Z) (op : string)
  (l r : ExpressionNode) (a : SemanticAnalyzer) :
  wf_table (symbol_table a) →
  is_comparison op = true ∨ is_logical op = true →
  ∃ es, visit_expression (BinaryOpNode ln col op l r) a
        = Returns (TREATS, with_errors a (errors a ++ es)).
Proof.
  intros Hwf Hop.
  destruct (visit_expression_total l a Hwf) as (lt & es1 & Hl).
  destruct (visit_expression_total r (with_errors a (errors a ++ es1)) Hwf) as (rt & es2 & Hr).
  simpl in Hr. rewrite with_errors_app in Hr.
  cbn [visit_expression]. unfold visit_binary_op. rewrite bind_eq, Hl, bind_eq, Hr.
  assert (Ha : is_arithmetic op = false).
  { unfold is_arithmetic, is_comparison, is_logical in *.
    apply bool_decide_eq_false. intros Hin.
    destruct Hop as [Hc|Hc]; apply bool_decide_eq_true in Hc;
      apply list_elem_of_In in Hin, Hc; simpl in Hin, Hc;
      intuition (subst; discriminate). }
  rewrite Ha.
  destruct (is_comparison op) eqn:Hc.
  - repeat case_if; analyzer_simpl; eauto.
    all: try (exists (es1 ++ es2)%list; by rewrite ?app_assoc).
  - destruct Hop as [Hop|Hop]; [done|]. rewrite Hop, ret_eq. eauto.
Qed.

(** X5 on ["a" < 2], which is a type error. *)
Lemma comparison_and_logic_infer_int_witness :
  ∃ es, visit_expression
          (BinaryOpNode 1 3 "<" (StringNode 1 1 "a") (IntegerNode 1 5 2)) SemanticAnalyzer_init
        = Returns (TREATS, with_errors SemanticAnalyzer_init
                             (errors SemanticAnalyzer_init ++ es)).
Proof.
  apply (comparison_and_logic_infer_int 1 3 "<" (StringNode 1 1 "a") (IntegerNode 1 5 2)
           SemanticAnalyzer_init); [reflexivity|left; reflexivity].
Defined.


(** *** Declarations persist *)

(** The invariant of the table and what a method may do to it. *)
Definition sound_table (t : SymbolTable) : Prop := wf_table t ∧ keys_named t.

Definition preserves {A} (m : M A) : Prop :=
  ∀ a x a', m a = Returns (x, a') → sound_table (symbol_table a) →
    sound_table (symbol_table a')
    ∧ current_scope (symbol_table a') = current_scope (symbol_table a)
    ∧ persists (symbol_table a) (symbol_table a').

Lemma same_declaration_refl s : same_declaration s s.
Proof. by destruct s. Qed.

Lemma same_declaration_trans s1 s2 s3 :
  same_declaration s1 s2 → same_declaration s2 s3 → same_declaration s1 s3.
Proof. unfold same_declaration. intros -> ->. by destruct s1. Qed.

Lemma persists_refl t : persists t t.
Proof. intros lvl fr k s ? ?. eauto using same_declaration_refl. Qed.

Lemma persists_trans t1 t2 t3 : persists t1 t2 → persists t2 t3 → persists t1 t3.
Proof.
  intros H12 H23 lvl fr k s Hfr Hk.
  destruct (H12 _ _ _ _ Hfr Hk) as (fr2 & s2 & Hfr2 & Hk2 & Hs2).
  destruct (H23 _ _ _ _ Hfr2 Hk2) as (fr3 & s3 & Hfr3 & Hk3 & Hs3).
  eauto 6 using same_declaration_trans.
Qed.

Lemma preserves_ret {A} (x : A) : preserves (ret x).
Proof. intros a y a' [= <- <-] Hg. eauto using persists_refl. Qed.

Lemma preserves_bind {A B} (m : M A) (k : A → M B) :
  preserves m → (∀ x, preserves (k x)) → preserves (bind m k).
Proof.
  intros Hm Hk a y a' H Hg. rewrite bind_eq in H.
  destruct (m a) as [[x a1]|] eqn:E; [|done].
  destruct (Hm _ _ _ E Hg) as (Hg1 & Hd1 & Hp1).
  destruct (Hk x _ _ _ H Hg1) as (Hg2 & Hd2 & Hp2).
  split; [done|]. split; [congruence|]. by eapply persists_trans.
Qed.

Lemma preserves_same_table {A} (m : M A) :
  (∀ a x a', m a = Returns (x, a') → symbol_table a' = symbol_table a) → preserves m.
Proof. intros H a x a' E Hg. rewrite (H _ _ _ E). eauto using persists_refl. Qed.

Lemma preserves_add_error msg ln col : preserves (add_error msg ln col).
Proof. apply preserves_same_table. by intros a x a' [= <- <-]. Qed.

Lemma preserves_table_lookup nm : preserves (table_lookup nm).
Proof.
  apply preserves_same_table. intros a x a'. rewrite table_lookup_eq.
  destruct (lookup nm _); [|done]. by intros [= _ <-].
Qed.

Lemma preserves_get_table : preserves get_table.
Proof. apply preserves_same_table. by intros a x a' [= _ <-]. Qed.

Lemma preserves_get_function : preserves get_function.
Proof. apply preserves_same_table. by intros a x a' [= _ <-]. Qed.

Lemma preserves_set_function f b : preserves (set_function f b).
Proof. apply preserves_same_table. by intros a x a' [= _ <-]. Qed.

Lemma preserves_visit_expression e : preserves (visit_expression e).
Proof. apply preserves_same_table. by intros a x a' [es ->]%visit_expression_frame. Qed.

Lemma declare_good sym t t' :
  sound_table t → declare sym t = Returns t' →
  sound_table t' ∧ current_scope t' = current_scope t ∧ persists t t'.
Proof.
  intros [Hwf Hn]. unfold declare.
  destruct (scopes t !! current_scope t) as [fr|] eqn:Hfr; [|done].
  destruct (fr !! name sym) as [existing|] eqn:Hnm; [done|].
  intros [= <-]. simpl. split; [split|split; [done|]].
  - unfold wf_table in *. simpl. by rewrite length_insert.
  - intros lvl fr' k s. simpl. destruct (decide (lvl = current_scope t)) as [->|Hne].
    + rewrite list_lookup_insert_eq by (by eapply lookup_lt_Some). intros [= <-].
      destruct (decide (k = name sym)) as [->|Hk].
      * rewrite lookup_insert_eq. by intros [= <-].
      * rewrite lookup_insert_ne by done. by apply Hn with (current_scope t).
    + rewrite list_lookup_insert_ne by done. apply Hn.
  - intros lvl fr' k s Hl Hk. simpl. destruct (decide (lvl = current_scope t)) as [->|Hne].
    + rewrite list_lookup_insert_eq by (by eapply lookup_lt_Some).
      rewrite Hfr in Hl. injection Hl as <-. eexists _, s. split; [done|].
      split; [|apply same_declaration_refl].
      rewrite lookup_insert_ne; [done|]. intros <-. congruence.
    + rewrite list_lookup_insert_ne by done. eauto using same_declaration_refl.
Qed.

Lemma preserves_try_declare sym : preserves (try_declare sym).
Proof.
  intros a x a' H Hg. unfold try_declare in H. rewrite bind_eq in H. unfold get_table in H.
  destruct (declare sym (symbol_table a)) as [t'|[e|]] eqn:E.
  - injection H as <- <-. simpl. by apply (declare_good sym).
  - injection H as <- <-. simpl. eauto using persists_refl.
  - done.
Qed.

Lemma preserves_for_each {A} (f : A → M unit) l :
  Forall (λ x, preserves (f x)) l → preserves (for_each f l).
Proof.
  induction 1 as [|x l' Hx _ IH]; simpl; [apply preserves_ret|].
  apply preserves_bind; [done|]. intros _. apply IH.
Qed.

Lemma enter_scope_good t :
  sound_table t → sound_table (enter_scope t) ∧ persists t (enter_scope t).
Proof.
  intros [Hwf Hn]. split; [split|].
  - by apply enter_scope_wf.
  - intros lvl fr k s. simpl. intros [Hl|[_ Hl]]%lookup_app_Some; [by apply Hn with lvl|].
    destruct (lvl - length (scopes t))%nat; [|done]. injection Hl as <-.
    by rewrite lookup_empty.
  - intros lvl fr k s Hl Hk. exists fr, s. simpl.
    rewrite lookup_app_l by (by eapply lookup_lt_Some). eauto using same_declaration_refl.
Qed.

Lemma exit_scope_good t0 t t' :
  sound_table t → current_scope t = S (current_scope t0) → wf_table t0 →
  exit_scope t = Returns t' → persists t0 t →
  sound_table t' ∧ current_scope t' = current_scope t0 ∧ persists t0 t'.
Proof.
  intros [Hwf Hn] Hd Hwf0 Hexit Hp. unfold exit_scope in Hexit. rewrite Hd in Hexit.
  destruct (decide (0 < S (current_scope t0))%nat) as [_|]; [|lia].
  assert (Hne : scopes t ≠ []).
  { intros E. unfold wf_table in Hwf. rewrite E in Hwf. done. }
  destruct (scopes t) as [|f fs] eqn:Hs; [done|]. rewrite <- Hs in *.
  injection Hexit as <-.
  pose proof (app_removelast_last ∅ Hne) as Heq.
  assert (Hlen : length (removelast (scopes t)) = S (current_scope t0)).
  { unfold wf_table in Hwf. rewrite Hd in Hwf.
    apply (f_equal length) in Heq. rewrite length_app in Heq. simpl in Heq. lia. }
  assert (Hsub : ∀ lvl fr, removelast (scopes t) !! lvl = Some fr → scopes t !! lvl = Some fr).
  { intros lvl fr Hl. rewrite Heq. by apply lookup_app_l_Some. }
  split; [split|split; [cbn [current_scope]; lia|]].
  - unfold wf_table. cbn [scopes current_scope]. lia.
  - intros lvl fr k s Hl. cbn [scopes] in Hl. apply Hn with lvl. by apply Hsub.
  - intros lvl fr k s Hl Hk. destruct (Hp _ _ _ _ Hl Hk) as (fr' & s' & Hl' & Hk' & Hs').
    exists fr', s'. split; [|done]. cbn [scopes].
    assert (Hlt : (lvl < S (current_scope t0))%nat).
    { unfold wf_table in Hwf0. rewrite <- Hwf0. by eapply lookup_lt_Some. }
    rewrite Heq in Hl'. rewrite lookup_app_l in Hl' by lia. exact Hl'.
Qed.


Lemma lookup_from_hit lvl0 nm sc lvl sym :
  lookup_from lvl0 nm sc = Returns (Some (lvl, sym)) →
  ∃ fr, sc !! lvl = Some fr ∧ fr !! nm = Some sym.
Proof.
  induction lvl0 as [|lvl0 IH]; simpl.
  - destruct (sc !! 0%nat) as [fr|] eqn:Hfr; [|done].
    destruct (fr !! nm) as [s|] eqn:Hs; [|done]. intros [= <- <-]. eauto.
  - destruct (sc !! S lvl0) as [fr|] eqn:Hfr; [|done].
    destruct (fr !! nm) as [s|] eqn:Hs; [|by apply IH]. intros [= <- <-]. eauto.
Qed.

Lemma write_data_type_good lvl nm sym ty t fr :
  sound_table t → scopes t !! lvl = Some fr → fr !! nm = Some sym →
  sound_table (write_data_type lvl sym ty t)
  ∧ current_scope (write_data_type lvl sym ty t) = current_scope t
  ∧ persists t (write_data_type lvl sym ty t).
Proof.
  intros [Hwf Hn] Hfr Hsym. pose proof (Hn _ _ _ _ Hfr Hsym) as Hname.
  split; [split|split; [done|]].
  - by apply write_data_type_wf.
  - intros l fr' k s. unfold write_data_type. cbn [scopes].
    destruct (decide (l = lvl)) as [->|Hne].
    + rewrite list_lookup_alter_eq, Hfr. simpl. intros [= <-].
      destruct (decide (k = name sym)) as [->|Hk].
      * rewrite lookup_insert_eq. by intros [= <-].
      * rewrite lookup_insert_ne by done. by apply Hn with lvl.
    + rewrite list_lookup_alter_ne by done. apply Hn.
  - intros l fr' k s Hl Hk. unfold write_data_type. cbn [scopes].
    destruct (decide (l = lvl)) as [->|Hne].
    + rewrite list_lookup_alter_eq, Hfr. simpl. rewrite Hfr in Hl. injection Hl as <-.
      destruct (decide (k = name sym)) as [->|Hk'].
      * rewrite <- Hname in Hsym. rewrite Hsym in Hk. injection Hk as <-.
        eexists _, _. split; [done|]. rewrite lookup_insert_eq. split; [done|].
        by destruct sym.
      * eexists _, s. split; [done|]. rewrite lookup_insert_ne by done.
        eauto using same_declaration_refl.
    + rewrite list_lookup_alter_ne by done. eauto using same_declaration_refl.
Qed.

Lemma preserves_scoped_then (X rest : M unit) :
  preserves X → preserves rest →
  preserves (table_enter_scope >> X >> table_exit_scope >> rest).
Proof.
  intros HX Hrest a x a' H Hg.
  rewrite bind_eq, table_enter_scope_eq, bind_eq in H.
  destruct (enter_scope_good _ Hg) as [Hg1 Hp1].
  match type of H with
  | context [X ?a1] => destruct (X a1) as [[[] a2]|] eqn:E2; [|done];
      destruct (HX _ _ _ E2 Hg1) as (Hg2 & Hd2 & Hp2)
  end.
  rewrite bind_eq in H. unfold table_exit_scope in H. rewrite bind_eq in H.
  unfold get_table in H.
  destruct (exit_scope (symbol_table a2)) as [t3|] eqn:E3; [|done].
  destruct (exit_scope_good (symbol_table a) (symbol_table a2) t3 Hg2) as (Hg3 & Hd3 & Hp3);
    [rewrite Hd2; simpl; lia|apply Hg|done|by eapply persists_trans|].
  unfold set_table in H.
  match type of H with
  | rest ?a3 = _ => destruct (Hrest a3 _ _ H Hg3) as (Hg4 & Hd4 & Hp4)
  end.
  split; [done|]. split; [by rewrite Hd4|]. by eapply persists_trans.
Qed.

Lemma preserves_scoped (X : M unit) :
  preserves X → preserves (table_enter_scope >> X >> table_exit_scope).
Proof.
  intros HX a [] a' H Hg.
  apply (preserves_scoped_then X (ret tt) HX (preserves_ret tt) a tt a'); [|done].
  rewrite bind_eq, table_enter_scope_eq, bind_eq in H.
  rewrite bind_eq, table_enter_scope_eq, bind_eq.
  destruct (X _) as [[[] a2]|]; [|done].
  by rewrite bind_eq, H, ret_eq.
Qed.

Lemma preserves_visit_statement s : preserves (visit_statement s).
Proof.
  induction s as [ln col x v|ln col x v|ln col nm ps body IH|ln col c th IHth
                 |ln col c th el IHth IHel|ln col c body IH|ln col v|ln col v
                 |ln col cl cc cn ca|ln col]
    using StatementNode_induction; simpl.
  - unfold visit_var_declaration.
    apply preserves_bind; [apply preserves_visit_expression|intros ty].
    apply preserves_bind; [apply preserves_get_table|intros t].
    apply preserves_bind; [apply preserves_try_declare|intros _; apply preserves_ret].
  - unfold visit_assignment.
    apply preserves_bind; [apply preserves_table_lookup|intros [[lvl sym]|]];
      [|apply preserves_add_error].
    destruct (is_function sym); [apply preserves_add_error|].
    apply preserves_bind; [apply preserves_visit_expression|intros ty].
    repeat case_if; first [apply preserves_add_error|apply preserves_ret].
  - (* FunctionDef *)
    unfold visit_function_def.
    apply preserves_bind; [apply preserves_get_table|intros t].
    apply preserves_bind; [apply preserves_try_declare|intros declared].
    destruct declared; simpl; [|apply preserves_ret].
    intros a x a' H Hg.
    rewrite bind_eq, table_enter_scope_eq, bind_eq in H. unfold get_function in H.
    cbn [current_function in_function fst snd] in H.
    rewrite bind_eq in H. unfold set_function at 1 in H.
    cbn [current_function in_function symbol_table errors] in H.
    destruct (enter_scope_good _ Hg) as [Hg1 Hp1].
    rewrite bind_eq in H.
    match type of H with
    | context [for_each ?f ps ?a1] =>
        assert (Hps : preserves (for_each f ps));
        [|destruct (for_each f ps a1) as [[[] a2]|] eqn:E2; [|done];
          destruct (Hps _ _ _ E2 Hg1) as (Hg2 & Hd2 & Hp2)]
    end.
    { apply preserves_for_each, Forall_forall. intros p _.
      apply preserves_bind; [apply preserves_get_table|intros t'].
      apply preserves_bind; [apply preserves_try_declare|intros _; apply preserves_ret]. }
    rewrite bind_eq in H.
    destruct (for_each visit_statement body a2) as [[[] a3]|] eqn:E3; [|done].
    destruct (preserves_for_each visit_statement body IH _ _ _ E3 Hg2) as (Hg3 & Hd3 & Hp3).
    rewrite bind_eq in H. unfold table_exit_scope in H. rewrite bind_eq in H.
    unfold get_table in H.
    destruct (exit_scope (symbol_table a3)) as [t4|] eqn:E4; [|done].
    destruct (exit_scope_good (symbol_table a) (symbol_table a3) t4 Hg3)
      as (Hg4 & Hd4 & Hp4);
      [rewrite Hd3, Hd2; simpl; lia|apply Hg|done
      |eapply persists_trans; [exact Hp1|by eapply persists_trans]|].
    unfold set_table in H. injection H as _ <-. done.
  - unfold visit_if_statement.
    apply preserves_bind; [apply preserves_visit_expression|intros ty].
    apply (preserves_scoped_then (for_each visit_statement th) (ret tt));
      [by apply preserves_for_each|apply preserves_ret].
  - unfold visit_if_statement.
    apply preserves_bind; [apply preserves_visit_expression|intros ty].
    apply (preserves_scoped_then (for_each visit_statement th)); [by apply preserves_for_each|].
    destruct el as [|s el]; [apply preserves_ret|].
    apply preserves_scoped. by apply preserves_for_each.
  - unfold visit_while_loop.
    apply preserves_bind; [apply preserves_visit_expression|intros ty].
    apply preserves_scoped. by apply preserves_for_each.
  - unfold visit_return_statement.
    apply preserves_bind; [apply preserves_get_function|intros [f inside]]. simpl.
    destruct inside; simpl; [|apply preserves_add_error].
    apply preserves_bind; [apply preserves_visit_expression|intros ty].
    destruct f as [fname|]; [|apply preserves_ret].
    case_if; [apply preserves_ret|].
    intros a x a' H Hg. rewrite bind_eq, table_lookup_eq in H.
    destruct (lookup fname (symbol_table a)) as [[[lvl sym]|]|] eqn:El; [| |done].
    + apply lookup_from_hit in El as (fr & Hfr & Hsym).
      destruct (bool_decide (data_type sym = UNKNOWN)).
      * rewrite bind_eq in H. unfold get_table, set_table in H. injection H as _ <-.
        by eapply write_data_type_good.
      * revert H. repeat case_if; intros H;
          first [exact (preserves_add_error _ _ _ _ _ _ H Hg)|exact (preserves_ret _ _ _ _ H Hg)].
    + exact (preserves_ret _ _ _ _ H Hg).
  - unfold visit_print_statement.
    apply preserves_bind; [apply preserves_visit_expression|intros _; apply preserves_ret].
  - unfold visit_function_call_statement.
    apply preserves_bind; [|intros _; apply preserves_ret].
    apply (preserves_visit_expression (FunctionCallNode cl cc cn ca)).
  - apply preserves_ret.
Qed.


(** X6: analysing a statement never removes or replaces a declaration:
    every name declared in a frame before is declared in that frame
    afterwards, with the same kind, parameters and position; only the
    type inferred for it may have changed. *)
Theorem statement_keeps_declarations (s : StatementNode) (a a' : SemanticAnalyzer) :
  wf_table (symbol_table a) → keys_named (symbol_table a) →
  visit_statement s a = Returns (tt, a') →
  keys_named (symbol_table a')
  ∧ ∀ lvl fr x sym,
      scopes (symbol_table a) !! lvl = Some fr → fr !! x = Some sym →
      ∃ fr' sym', scopes (symbol_table a') !! lvl = Some fr' ∧ fr' !! x = Some sym'
                  ∧ sym' = set_data_type (data_type sym') sym.
Proof.
  intros Hwf Hn H. destruct (preserves_visit_statement s a tt a' H (conj Hwf Hn))
    as ([_ Hn'] & _ & Hp).
  split; [exact Hn'|exact Hp].
Qed.

(** X6 on [Box g paws "s"] after [f] is declared: [f] is still there. *)
Lemma statement_keeps_declarations_witness :
  ∃ fr' sym', scopes (symbol_table after_box_g) !! 0%nat = Some fr' ∧ fr' !! "f" = Some sym'
              ∧ sym' = set_data_type (data_type sym') f_symbol.
Proof.
  refine (proj2 (statement_keeps_declarations
            (VarDeclarationNode 2 1 "g" (StringNode 2 12 "s")) f_declared after_box_g _ _ _)
            0%nat {[ "f" := f_symbol ]} "f" f_symbol eq_refl eq_refl).
  - reflexivity.
  - intros lvl fr k s. destruct lvl as [|lvl]; [|done]. intros [= <-].
    intros [<- <-]%lookup_singleton_Some. reflexivity.
  - vm_compute. reflexivity.
Defined.

Lemma lookup_from_alter lvl0 nm sc lvl sym sym' :
  lookup_from lvl0 nm sc = Returns (Some (lvl, sym)) →
  lookup_from lvl0 nm (alter (<[nm := sym']>) lvl sc) = Returns (Some (lvl, sym')).
Proof.
  induction lvl0 as [|lvl0 IH]; simpl.
  - destruct (sc !! 0%nat) as [fr|] eqn:Hfr; [|done].
    destruct (fr !! nm) as [s|] eqn:Hs; [|done]. intros [= <- <-].
    by rewrite list_lookup_alter_eq, Hfr; simpl; rewrite lookup_insert_eq.
  - destruct (sc !! S lvl0) as [fr|] eqn:Hfr; [|done].
    destruct (fr !! nm) as [s|] eqn:Hs.
    + intros [= <- <-].
      by rewrite list_lookup_alter_eq, Hfr; simpl; rewrite lookup_insert_eq.
    + intros H. pose proof H as (fr' & Hfr' & _)%lookup_from_hit.
      assert (lvl ≠ S lvl0).
      { intros ->. apply lookup_from_hit in H as (fr2 & Hfr2 & Hs2). congruence. }
      rewrite list_lookup_alter_ne by done. rewrite Hfr, Hs. by apply IH.
Qed.

(** X7: in a function body, a [Bring] whose function name resolves to a
    symbol of type [UNKNOWN] sets the type of that symbol to the type of
    the returned expression, and adds no diagnostic of its own; the name
    then resolves to the symbol with the new type. *)
Theorem return_sets_function_type (ln col : Z) (v : ExpressionNode)
  (a a1 : SemanticAnalyzer) (f : string) (lvl : nat) (sym : Symbol) (ty : DataType) :
  in_function a = true → current_function a = Some f → f ≠ "" →
  lookup f (symbol_table a) = Returns (Some (lvl, sym)) →
  name sym = f → data_type sym = UNKNOWN →
  visit_expression v a = Returns (ty, a1) →
  ∃ a', visit_statement (ReturnStatementNode ln col v) a = Returns (tt, a')
    ∧ errors a' = errors a1
    ∧ lookup f (symbol_table a') = Returns (Some (lvl, set_data_type ty sym)).
Proof.
  intros Hin Hf Hne Hl Hname Hty Hv.
  destruct (visit_expression_frame v _ _ _ Hv) as [es ->].
  simpl. unfold visit_return_statement. rewrite bind_eq. unfold get_function.
  rewrite Hin, Hf. simpl. rewrite bind_eq, Hv.
  rewrite bool_decide_eq_false_2 by done.
  rewrite bind_eq, table_lookup_eq. cbn [with_errors symbol_table]. rewrite Hl.
  rewrite bool_decide_eq_true_2 by done. rewrite bind_eq. unfold get_table, set_table.
  eexists. split; [reflexivity|]. split; [done|].
  cbn [symbol_table with_errors]. unfold lookup, write_data_type. cbn [scopes current_scope].
  rewrite Hname. exact (lookup_from_alter _ _ _ _ _ _ Hl).
Qed.

(** X7 on [Bring 1] in the body of [f]. *)
Lemma return_sets_function_type_witness :
  ∃ a', visit_statement (ReturnStatementNode 2 3 (IntegerNode 2 9 1)) inside_f
        = Returns (tt, a')
    ∧ errors a' = errors inside_f
    ∧ lookup "f" (symbol_table a') = Returns (Some (0%nat, set_data_type TREATS hunt_f_symbol)).
Proof.
  apply (return_sets_function_type 2 3 (IntegerNode 2 9 1) inside_f inside_f "f" 0
           hunt_f_symbol TREATS); try reflexivity. discriminate.
Defined.

(** X25: the visit of a statement, from an analyzer whose scope stack
    and [current_scope] agree, returns; the visitors raise nothing of
    their own.  It leaves the scope depth, [current_function] and
    [in_function] as it found them, and only adds diagnostics.  This is
    the visit within the recursion limit of the interpreter, which the
    model does not have: a [RecursionError] on a tree nested deeper
    cuts the visit off where it stands. *)
Theorem statement_visit_restores_context (s : StatementNode) (a : SemanticAnalyzer) :
  wf_table (symbol_table a) →
  ∃ a', visit_statement s a = Returns (tt, a')
        ∧ wf_table (symbol_table a')
        ∧ current_scope (symbol_table a') = current_scope (symbol_table a)
        ∧ current_function a' = current_function a
        ∧ in_function a' = in_function a
        ∧ ∃ es, errors a' = (errors a ++ es)%list.
Proof.
  intros Hwf. destruct (visit_statement_total s a Hwf) as (a' & Hrun & [H1 H2 H3 H4 H5]).
  exists a'. done.
Qed.

Lemma analyze_outcome (tree : ProgramNode) :
  match analyze tree SemanticAnalyzer_init with
  | Returns _ | Raises (SemanticError_exn _) => True
  | Raises IndexError => False
  end.
Proof.
  unfold analyze, bind, visit_program.
  destruct (for_each_extends visit_statement (statements tree)) with (a := SemanticAnalyzer_init)
    as (a & -> & _); [|reflexivity|].
  { apply Forall_forall. intros s _. apply visit_statement_total. }
  by destruct (errors a).
Qed.

Lemma statement_visit_restores_context_witness :
  ∃ a', visit_statement
          (FunctionDefNode 1 1 "f" ["x"] [ReturnStatementNode 1 12 (IdentifierNode 1 18 "y")])
          SemanticAnalyzer_init = Returns (tt, a')
        ∧ wf_table (symbol_table a')
        ∧ current_scope (symbol_table a') = current_scope (symbol_table SemanticAnalyzer_init)
        ∧ current_function a' = current_function SemanticAnalyzer_init
        ∧ in_function a' = in_function SemanticAnalyzer_init
        ∧ ∃ es, errors a' = (errors SemanticAnalyzer_init ++ es)%list.
Proof.
  apply (statement_visit_restores_context
           (FunctionDefNode 1 1 "f" ["x"] [ReturnStatementNode 1 12 (IdentifierNode 1 18 "y")])
           SemanticAnalyzer_init).
  reflexivity.
Defined.

End semantic_facts.

(** ** The code generator *)

Module codegen_facts.
Import ast codegen ast_facts.
Local Open Scope codegen_scope.

Section codegen_facts.
Variable str_float : spec_float → string.
#[local] Abbreviation visit_expression := (visit_expression str_float).
#[local] Abbreviation visit_statement := (visit_statement str_float).

Lemma run_bind {A B} (m : G A) (k : A → G B) g :
  bind m k g = k (fst (m g)) (snd (m g)).
Proof. unfold bind. by destruct (m g). Qed.

Lemma run_ret {A} (x : A) g : ret x g = (x, g).
Proof. reflexivity. Qed.

Lemma grows_refl g : grows g g.
Proof. split; auto. exists []. by rewrite app_nil_r. Qed.

Lemma grows_trans g1 g2 g3 : grows g1 g2 → grows g2 g3 → grows g1 g3.
Proof.
  intros [[c1 H1] ? ?] [[c2 H2] ? ?]. split; [|lia..].
  exists (c1 ++ c2)%list. by rewrite H2, H1, app_assoc.
Qed.

Lemma grows_emit op a1 a2 r g : grows g (snd (emit op a1 a2 r g)).
Proof. split; simpl; eauto. Qed.

Lemma grows_new_temp g : grows g (snd (new_temp g)).
Proof. split; simpl; [exists []; by rewrite app_nil_r|lia..]. Qed.

Lemma grows_new_label g : grows g (snd (new_label g)).
Proof. split; simpl; [exists []; by rewrite app_nil_r|lia..]. Qed.

(** A computation that only appends code and only raises the counters. *)
Definition growing {A} (m : G A) : Prop := ∀ g, grows g (snd (m g)).

Lemma growing_ret {A} (x : A) : growing (ret x).
Proof. intros g. apply grows_refl. Qed.

Lemma growing_bind {A B} (m : G A) (k : A → G B) :
  growing m → (∀ x, growing (k x)) → growing (bind m k).
Proof.
  intros Hm Hk g. rewrite run_bind. eapply grows_trans; [apply Hm|apply Hk].
Qed.

Lemma growing_emit op a1 a2 r : growing (emit op a1 a2 r).
Proof. intros g. apply grows_emit. Qed.

Lemma growing_new_temp : growing new_temp.
Proof. intros g. apply grows_new_temp. Qed.

Lemma growing_new_label : growing new_label.
Proof. intros g. apply grows_new_label. Qed.

Lemma growing_get_current_function : growing get_current_function.
Proof. intros g. apply grows_refl. Qed.

Lemma growing_set_current_function f : growing (set_current_function f).
Proof. intros g. split; simpl; [exists []; by rewrite app_nil_r|lia..]. Qed.

Lemma growing_for_each {A} (f : A → G unit) l :
  Forall (λ x, growing (f x)) l → growing (for_each f l).
Proof.
  induction 1 as [|x l' Hx _ IH]; simpl.
  - apply growing_ret.
  - apply growing_bind; auto.
Qed.

Create HintDb growing.
#[local] Hint Resolve growing_ret growing_emit growing_new_temp growing_new_label
  growing_get_current_function growing_set_current_function : growing.
#[local] Hint Extern 2 (growing (bind _ _)) => apply growing_bind; [|intros ?] : growing.

Lemma growing_visit_expression e : growing (visit_expression e).
Proof.
  induction e as [ln col op l r IHl IHr|ln col op e IHe|ln col v|ln col v|ln col v
                 |ln col nm|ln col nm args IHargs|ln col]
    using ExpressionNode_induction; simpl.
  - unfold visit_binary_op. auto 10 with growing.
  - unfold visit_unary_op. auto 10 with growing.
  - auto with growing.
  - auto with growing.
  - auto with growing.
  - auto with growing.
  - unfold visit_function_call. apply growing_bind; [|auto 10 with growing].
    apply growing_for_each. eapply Forall_impl; [exact IHargs|].
    intros x Hx. simpl. auto with growing.
  - auto 10 with growing.
Qed.
#[local] Hint Resolve growing_visit_expression : growing.

Lemma growing_visit_function_call nm args :
  growing (visit_function_call visit_expression nm args).
Proof. apply (growing_visit_expression (FunctionCallNode 0 0 nm args)). Qed.
#[local] Hint Resolve growing_visit_function_call : growing.

Lemma growing_visit_statement s : growing (visit_statement s).
Proof.
  induction s as [ln col x v|ln col x v|ln col nm ps body IH|ln col c th IHth
                 |ln col c th el IHth IHel|ln col c body IH|ln col v|ln col v
                 |ln col cl cc cn ca|ln col]
    using StatementNode_induction; simpl.
  - unfold visit_var_declaration. auto with growing.
  - unfold visit_assignment. auto with growing.
  - unfold visit_function_def. pose proof (growing_for_each _ _ IH).
    auto 10 with growing.
  - unfold visit_if_statement. pose proof (growing_for_each _ _ IHth).
    auto 10 with growing.
  - unfold visit_if_statement. pose proof (growing_for_each _ _ IHth).
    pose proof (growing_for_each _ _ IHel).
    destruct el; auto 12 with growing.
  - unfold visit_while_loop. pose proof (growing_for_each _ _ IH).
    auto 12 with growing.
  - unfold visit_return_statement. auto with growing.
  - unfold visit_print_statement. auto with growing.
  - unfold visit_function_call_statement. auto with growing.
  - auto with growing.
Qed.
#[local] Hint Resolve growing_visit_statement : growing.

Lemma growing_block l : growing (for_each visit_statement l).
Proof. apply growing_for_each, Forall_forall. auto with growing. Qed.
#[local] Hint Resolve growing_block : growing.

(** *** The code a computation appends *)

Lemma emitted_spec {A} (m : G A) g :
  growing m → instructions (snd (m g)) = (instructions g ++ emitted m g)%list.
Proof.
  intros Hm. destruct (Hm g) as [[code H] _ _]. unfold emitted. rewrite H.
  by rewrite drop_app_length.
Qed.

Lemma emitted_ret {A} (x : A) g : emitted (ret x) g = [].
Proof. unfold emitted. simpl. by rewrite drop_all. Qed.

Lemma emitted_emit op a1 a2 r g : emitted (emit op a1 a2 r) g = [mkTAC op a1 a2 r].
Proof. unfold emitted. simpl. by rewrite drop_app_length. Qed.

Lemma emitted_new_temp g : emitted new_temp g = [].
Proof. unfold emitted. simpl. by rewrite drop_all. Qed.

Lemma emitted_new_label g : emitted new_label g = [].
Proof. unfold emitted. simpl. by rewrite drop_all. Qed.

Lemma emitted_get_current_function g : emitted get_current_function g = [].
Proof. unfold emitted. simpl. by rewrite drop_all. Qed.

Lemma emitted_set_current_function f g : emitted (set_current_function f) g = [].
Proof. unfold emitted. simpl. by rewrite drop_all. Qed.

Lemma emitted_bind {A B} (m : G A) (k : A → G B) g :
  growing m → (∀ x, growing (k x)) →
  emitted (bind m k) g
  = (emitted m g ++ emitted (k (fst (m g))) (snd (m g)))%list.
Proof.
  intros Hm Hk. unfold emitted at 1. rewrite run_bind.
  rewrite (emitted_spec (k _) _ (Hk _)), (emitted_spec m g Hm).
  by rewrite <- app_assoc, drop_app_length.
Qed.

(** *** Labels *)

Lemma label_defs_app c1 c2 : label_defs (c1 ++ c2) = (label_defs c1 ++ label_defs c2)%list.
Proof. unfold label_defs. by rewrite filter_app, fmap_app. Qed.

Lemma jump_targets_app c1 c2 :
  jump_targets (c1 ++ c2) = (jump_targets c1 ++ jump_targets c2)%list.
Proof. unfold jump_targets. by rewrite filter_app, fmap_app. Qed.

Lemma labels_between_split lo mid hi :
  (lo ≤ mid)%nat → (mid ≤ hi)%nat →
  labels_between lo hi = (labels_between lo mid ++ labels_between mid hi)%list.
Proof.
  intros H1 H2. unfold labels_between. rewrite <- fmap_app. f_equal.
  replace (hi - lo)%nat with ((mid - lo) + (hi - mid))%nat by lia.
  rewrite seq_app. do 2 f_equal. lia.
Qed.

Lemma labels_between_same lo : labels_between lo lo = [].
Proof. unfold labels_between. by rewrite Nat.sub_diag. Qed.

Lemma labels_between_S lo : labels_between lo (S lo) = [Some (label_name lo)].
Proof.
  unfold labels_between. replace (S lo - lo)%nat with 1%nat by lia. done.
Qed.

Lemma labels_balanced_app lo mid hi c1 c2 :
  labels_balanced lo mid c1 → labels_balanced mid hi c2 →
  labels_balanced lo hi (c1 ++ c2).
Proof.
  intros [H1 D1 T1] [H2 D2 T2]. split; [lia|..].
  - rewrite label_defs_app, D1, D2. by rewrite <- labels_between_split.
  - rewrite jump_targets_app, T1, T2. by rewrite <- labels_between_split.
Qed.

Lemma labels_balanced_nil lo : labels_balanced lo lo [].
Proof. split; [lia|..]; by rewrite labels_between_same. Qed.

(** Computations that touch no label: they allocate none and append
    neither a [label] nor a jump. *)
Definition quiet {A} (m : G A) : Prop :=
  ∀ g, label_counter (snd (m g)) = label_counter g
       ∧ label_defs (emitted m g) = [] ∧ jump_targets (emitted m g) = [].

Definition balanced {A} (m : G A) : Prop :=
  ∀ g, labels_balanced (label_counter g) (label_counter (snd (m g))) (emitted m g).

Lemma quiet_balanced {A} (m : G A) : quiet m → balanced m.
Proof.
  intros Hm g. destruct (Hm g) as (-> & Hd & Ht).
  split; [lia|..]; by rewrite ?Hd, ?Ht, labels_between_same.
Qed.

Lemma quiet_ret {A} (x : A) : quiet (ret x).
Proof. intros g. by rewrite emitted_ret. Qed.

Lemma quiet_bind {A B} (m : G A) (k : A → G B) :
  growing m → (∀ x, growing (k x)) → quiet m → (∀ x, quiet (k x)) → quiet (bind m k).
Proof.
  intros Gm Gk Hm Hk g. rewrite emitted_bind by done. rewrite run_bind.
  destruct (Hm g) as (Hl & Hd & Ht).
  destruct (Hk (fst (m g)) (snd (m g))) as (Hl' & Hd' & Ht').
  rewrite label_defs_app, jump_targets_app, Hd, Hd', Ht, Ht'. split; [congruence|done].
Qed.

Definition control_op (op : string) : Prop :=
  op = "label" ∨ op = "goto" ∨ op = "if_false".

Lemma quiet_emit op a1 a2 r : ¬ control_op op → quiet (emit op a1 a2 r).
Proof.
  intros Hop g. rewrite emitted_emit. split; [done|].
  unfold label_defs, jump_targets, control_op in *.
  rewrite !filter_cons, !filter_nil. simpl.
  split; case_decide; tauto.
Qed.

Lemma quiet_new_temp : quiet new_temp.
Proof. intros g. by rewrite emitted_new_temp. Qed.

Lemma quiet_get_current_function : quiet get_current_function.
Proof. intros g. by rewrite emitted_get_current_function. Qed.

Lemma quiet_set_current_function f : quiet (set_current_function f).
Proof. intros g. by rewrite emitted_set_current_function. Qed.

Lemma quiet_for_each {A} (f : A → G unit) l :
  Forall (λ x, growing (f x)) l → Forall (λ x, quiet (f x)) l → quiet (for_each f l).
Proof.
  intros Hg. induction 1 as [|x l' Hx Hq IH]; simpl.
  - apply quiet_ret.
  - inversion_clear Hg. apply quiet_bind; auto using growing_for_each.
Qed.

Lemma balanced_bind {A B} (m : G A) (k : A → G B) :
  growing m → (∀ x, growing (k x)) → balanced m → (∀ x, balanced (k x)) →
  balanced (bind m k).
Proof.
  intros Gm Gk Hm Hk g. rewrite emitted_bind by done. rewrite run_bind.
  eapply labels_balanced_app; [apply Hm|apply Hk].
Qed.

Lemma balanced_for_each {A} (f : A → G unit) l :
  Forall (λ x, growing (f x)) l → Forall (λ x, balanced (f x)) l →
  balanced (for_each f l).
Proof.
  intros Hg. induction 1 as [|x l' Hx Hq IH]; simpl.
  - apply quiet_balanced, quiet_ret.
  - inversion_clear Hg. apply balanced_bind; auto using growing_for_each.
Qed.

Ltac not_in_list :=
  match goal with
  | H : ?x ∈ ?l |- _ => exact (proj1 (bool_decide_eq_false (x ∈ l)) eq_refl H)
  end.

Lemma binary_not_control op : op ∈ binary_operators → ¬ control_op op.
Proof. intros H Hc. destruct Hc as [Hc|[Hc|Hc]]; rewrite Hc in H; not_in_list. Qed.

Lemma unary_not_control op : op ∈ unary_operators → ¬ control_op op.
Proof. intros H Hc. destruct Hc as [Hc|[Hc|Hc]]; rewrite Hc in H; not_in_list. Qed.

Lemma fixed_not_control op :
  op ∈ ["="; "param"; "call"; "return"; "print"; "begin_func"; "end_func"] →
  ¬ control_op op.
Proof. intros H Hc. destruct Hc as [Hc|[Hc|Hc]]; rewrite Hc in H; not_in_list. Qed.

Create HintDb quiet.
#[local] Hint Resolve quiet_ret quiet_new_temp quiet_get_current_function
  quiet_set_current_function : quiet.
#[local] Hint Extern 2 (quiet (bind _ _)) =>
  apply quiet_bind; [auto 12 with growing|intros ?; auto 12 with growing| |intros ?] : quiet.
#[local] Hint Extern 1 (quiet (emit _ _ _ _)) =>
  apply quiet_emit, fixed_not_control; set_solver : quiet.

Lemma quiet_visit_expression e :
  well_formed_expression e = true → quiet (visit_expression e).
Proof.
  induction e as [ln col op l r IHl IHr|ln col op e IHe|ln col v|ln col v|ln col v
                 |ln col nm|ln col nm args IHargs|ln col]
    using ExpressionNode_induction; simpl; intros Hwf.
  - apply andb_true_iff in Hwf as [Hwf Hr]. apply andb_true_iff in Hwf as [Hop Hl].
    apply bool_decide_eq_true in Hop. unfold visit_binary_op.
    pose proof (λ a1 a2 r, quiet_emit op a1 a2 r (binary_not_control _ Hop)).
    specialize (IHl Hl). specialize (IHr Hr).
    auto 12 with quiet.
  - apply andb_true_iff in Hwf as [Hop He]. apply bool_decide_eq_true in Hop.
    unfold visit_unary_op.
    pose proof (λ a1 a2 r, quiet_emit op a1 a2 r (unary_not_control _ Hop)).
    specialize (IHe He).
    auto 12 with quiet.
  - auto with quiet.
  - auto with quiet.
  - auto with quiet.
  - auto with quiet.
  - unfold visit_function_call.
    assert (Hargs : quiet (for_each (λ arg, let* arg_temp := visit_expression arg in
                     emit "param" (Some arg_temp) None None) args)).
    { rewrite forallb_forall in Hwf. apply quiet_for_each.
      - apply Forall_forall. intros x _. auto with growing.
      - rewrite Forall_forall in IHargs. apply Forall_forall. intros x Hx.
        pose proof (IHargs x Hx (Hwf x (proj1 (list_elem_of_In _ _) Hx))).
        auto with quiet. }
    apply quiet_bind; auto 12 with growing quiet.
    apply growing_for_each, Forall_forall. intros x _. auto with growing.
  - auto 12 with quiet.
Qed.

Create HintDb balanced.
#[local] Hint Extern 2 (balanced (bind _ _)) =>
  apply balanced_bind; [auto 12 with growing|intros ?; auto 12 with growing| |intros ?]
  : balanced.
#[local] Hint Extern 5 (balanced _) => apply quiet_balanced; auto 12 with quiet : balanced.

Lemma label_defs_singleton op a1 a2 r :
  label_defs [mkTAC op a1 a2 r] = if decide (op = "label") then [r] else [].
Proof. unfold label_defs. rewrite filter_cons, filter_nil. simpl. by case_decide. Qed.

Lemma jump_targets_singleton op a1 a2 r :
  jump_targets [mkTAC op a1 a2 r]
  = if decide (op = "goto" ∨ op = "if_false") then [r] else [].
Proof. unfold jump_targets. rewrite filter_cons, filter_nil. simpl. by case_decide. Qed.

Ltac emitted_steps :=
  repeat (rewrite emitted_bind; [|by auto 12 with growing|by intros ?; auto 12 with growing]);
  cbv beta;
  rewrite ?emitted_emit, ?emitted_ret, ?emitted_new_temp, ?emitted_new_label,
    ?emitted_get_current_function, ?emitted_set_current_function.

Lemma labels_between_cons lo hi :
  (lo < hi)%nat →
  labels_between lo hi = Some (label_name lo) :: labels_between (S lo) hi.
Proof.
  intros H. rewrite (labels_between_split lo (S lo) hi) by lia.
  by rewrite labels_between_S.
Qed.

Ltac decide_op :=
  match goal with
  | |- context [decide ?P] =>
      first [ rewrite (decide_True (P := P)) by (first [reflexivity | by left | by right])
            | rewrite (decide_False (P := P)) by (intros H; decompose [or] H; discriminate) ]
  end.

Ltac label_lists :=
  rewrite ?label_defs_app, ?jump_targets_app, ?label_defs_singleton,
    ?jump_targets_singleton;
  repeat decide_op;
  cbn [app].

Lemma balanced_if_no_else c th :
  quiet (visit_expression c) → balanced (for_each visit_statement th) →
  balanced (let* condition_temp := visit_expression c in
            let* end_label := new_label in
            emit "if_false" (Some condition_temp) None (Some end_label) >>
            for_each visit_statement th >>
            emit "label" None None (Some end_label)).
Proof.
  intros Hc Hth g. emitted_steps. rewrite !run_bind. cbn [fst snd].
  destruct (Hc g) as (HL & Hd & Ht).
  set (g1 := snd (visit_expression c g)) in *.
  set (g_then := snd (emit "if_false" _ _ _ _)).
  destruct (Hth g_then) as [Hr Hdt Htt].
  change (label_counter g_then) with (label_counter g1 + 1)%nat in *.
  change (fst (new_label g1)) with (label_name (label_counter g1)).
  cbn [emit snd label_counter]. rewrite HL in *.
  set (hi := label_counter (snd (for_each visit_statement th g_then))) in *.
  split; [lia|..]; label_lists; rewrite ?Hd, ?Ht, ?Hdt, ?Htt;
    rewrite (labels_between_cons (label_counter g) hi) by lia;
    rewrite Nat.add_1_r; solve_Permutation.
Qed.

Lemma balanced_if_else c th el :
  quiet (visit_expression c) → balanced (for_each visit_statement th) →
  balanced (for_each visit_statement el) →
  balanced (let* condition_temp := visit_expression c in
            let* else_label := new_label in
            let* end_label := new_label in
            emit "if_false" (Some condition_temp) None (Some else_label) >>
            for_each visit_statement th >>
            emit "goto" None None (Some end_label) >>
            emit "label" None None (Some else_label) >>
            for_each visit_statement el >>
            emit "label" None None (Some end_label)).
Proof.
  intros Hc Hth Hel g. emitted_steps. rewrite !run_bind. cbn [fst snd].
  destruct (Hc g) as (HL & Hd & Ht).
  set (g1 := snd (visit_expression c g)) in *.
  set (g_then := snd (emit "if_false" _ _ _ _)).
  destruct (Hth g_then) as [Hr Hdt Htt].
  set (g_else := snd (emit "label" _ _ _ (snd (emit "goto" _ _ _ _)))).
  destruct (Hel g_else) as [Hr' Hde Hte].
  change (label_counter g_else)
    with (label_counter (snd (for_each visit_statement th g_then))) in *.
  change (label_counter g_then) with (label_counter g1 + 1 + 1)%nat in *.
  change (fst (new_label g1)) with (label_name (label_counter g1)).
  change (fst (new_label (snd (new_label g1)))) with (label_name (label_counter g1 + 1)).
  cbn [emit snd label_counter]. rewrite HL in *.
  set (mid := label_counter (snd (for_each visit_statement th g_then))) in *.
  set (hi := label_counter (snd (for_each visit_statement el g_else))) in *.
  split; [lia|..]; label_lists; rewrite ?Hd, ?Ht, ?Hdt, ?Htt, ?Hde, ?Hte;
    rewrite (labels_between_cons (label_counter g) hi) by lia;
    rewrite (labels_between_cons (S (label_counter g)) hi) by lia;
    rewrite (labels_between_split (S (S (label_counter g))) mid hi) by lia;
    replace (label_counter g + 1 + 1)%nat with (S (S (label_counter g))) by lia;
    replace (label_counter g + 1)%nat with (S (label_counter g)) by lia;
    solve_Permutation.
Qed.

Lemma balanced_while c body :
  quiet (visit_expression c) → balanced (for_each visit_statement body) →
  balanced (visit_while_loop str_float visit_statement c body).
Proof.
  intros Hc Hb g. unfold visit_while_loop. emitted_steps. rewrite !run_bind. cbn [fst snd].
  set (g0 := snd (emit "label" None None _ (snd (new_label (snd (new_label g)))))).
  destruct (Hc g0) as (HL & Hd & Ht).
  set (g1 := snd (visit_expression c g0)) in *.
  set (g_body := snd (emit "if_false" _ _ _ _)).
  destruct (Hb g_body) as [Hr Hdb Htb].
  change (label_counter g_body) with (label_counter g1) in *.
  change (label_counter g0) with (label_counter g + 1 + 1)%nat in *.
  change (fst (new_label g)) with (label_name (label_counter g)).
  change (fst (new_label (snd (new_label g)))) with (label_name (label_counter g + 1)).
  cbn [emit snd label_counter]. rewrite HL in *.
  set (hi := label_counter (snd (for_each visit_statement body g_body))) in *.
  split; [lia|..]; label_lists; rewrite ?Hd, ?Ht, ?Hdb, ?Htb;
    rewrite (labels_between_cons (label_counter g) hi) by lia;
    rewrite (labels_between_cons (S (label_counter g)) hi) by lia;
    replace (label_counter g + 1 + 1)%nat with (S (S (label_counter g))) by lia;
    replace (label_counter g + 1)%nat with (S (label_counter g)) by lia;
    solve_Permutation.
Qed.

Lemma forallb_Forall {A} (f : A → bool) (P : A → Prop) l :
  Forall (λ x, f x = true → P x) l → forallb f l = true → Forall P l.
Proof.
  induction 1 as [|x l' Hx _ IH]; simpl; [done|].
  intros [H1 H2]%andb_true_iff. constructor; auto.
Qed.

Lemma quiet_visit_function_call nm args :
  forallb well_formed_expression args = true →
  quiet (visit_function_call visit_expression nm args).
Proof. apply (quiet_visit_expression (FunctionCallNode 0 0 nm args)). Qed.

Lemma balanced_block l :
  Forall (λ s, well_formed_statement s = true → balanced (visit_statement s)) l →
  forallb well_formed_statement l = true →
  balanced (for_each visit_statement l).
Proof.
  intros IH Hwf. apply balanced_for_each.
  - apply Forall_forall. auto with growing.
  - by apply (forallb_Forall well_formed_statement).
Qed.

Lemma balanced_visit_statement s :
  well_formed_statement s = true → balanced (visit_statement s).
Proof.
  induction s as [ln col x v|ln col x v|ln col nm ps body IH|ln col c th IHth
                 |ln col c th el IHth IHel|ln col c body IH|ln col v|ln col v
                 |ln col cl cc cn ca|ln col]
    using StatementNode_induction; simpl; intros Hwf.
  - apply quiet_balanced. pose proof (quiet_visit_expression v Hwf).
    unfold visit_var_declaration. auto with quiet.
  - apply quiet_balanced. pose proof (quiet_visit_expression v Hwf).
    unfold visit_assignment. auto with quiet.
  - pose proof (balanced_block body IH Hwf). unfold visit_function_def.
    auto 12 with balanced.
  - apply andb_true_iff in Hwf as [Hwf _]. apply andb_true_iff in Hwf as [Hc Hth].
    apply balanced_if_no_else; [by apply quiet_visit_expression|by apply balanced_block].
  - apply andb_true_iff in Hwf as [Hwf Hel]. apply andb_true_iff in Hwf as [Hc Hth].
    unfold visit_if_statement. destruct el as [|s el].
    + apply balanced_if_no_else; [by apply quiet_visit_expression|by apply balanced_block].
    + apply balanced_if_else;
        [by apply quiet_visit_expression|by apply balanced_block..].
  - apply andb_true_iff in Hwf as [Hc Hb].
    apply balanced_while; [by apply quiet_visit_expression|by apply balanced_block].
  - apply quiet_balanced. pose proof (quiet_visit_expression v Hwf).
    unfold visit_return_statement. auto with quiet.
  - apply quiet_balanced. pose proof (quiet_visit_expression v Hwf).
    unfold visit_print_statement. auto with quiet.
  - apply quiet_balanced. pose proof (quiet_visit_function_call cn ca Hwf).
    unfold visit_function_call_statement. auto with quiet.
  - apply quiet_balanced. auto with quiet.
Qed.

(** *** Names of temporaries and labels *)

Lemma str_nat_inj n m : str_nat n = str_nat m → n = m.
Proof.
  unfold str_nat. intros H. apply Unsigned.to_uint_inj.
  apply (f_equal NilEmpty.uint_of_string) in H. rewrite !NilEmpty.usu in H.
  by injection H.
Qed.

Lemma label_name_inj n m : label_name n = label_name m → n = m.
Proof. unfold label_name. simpl. intros [= H]. by apply str_nat_inj. Qed.

Lemma temp_name_inj n m : temp_name n = temp_name m → n = m.
Proof. unfold temp_name. simpl. intros [= H]. by apply str_nat_inj. Qed.

Lemma NoDup_labels_between lo hi : NoDup (labels_between lo hi).
Proof.
  unfold labels_between. apply NoDup_fmap_2; [|apply NoDup_seq].
  intros n m H. apply label_name_inj. congruence.
Qed.

Lemma remove_dups_NoDup {A} `{EqDecision A} (l : list A) :
  NoDup l → remove_dups l = l.
Proof.
  induction 1 as [|x l' Hx _ IH]; simpl; [done|].
  case_decide; [done|]. by rewrite IH.
Qed.

Lemma filter_eq_not_in {A} `{EqDecision A} (x : A) (l : list A) :
  x ∉ l → filter (λ y, y = x) l = [].
Proof.
  induction l as [|y l' IH]; [done|]. intros [Hne Hin]%not_elem_of_cons.
  rewrite filter_cons, decide_False by done. by apply IH.
Qed.

Lemma count_in_NoDup {A} `{EqDecision A} (x : A) (l : list A) :
  NoDup l → x ∈ l → length (filter (λ y, y = x) l) = 1%nat.
Proof.
  induction 1 as [|y l' Hy Hnd IH]; [by intros ?%elem_of_nil|].
  rewrite filter_cons. intros [->|Hin]%elem_of_cons.
  - rewrite decide_True by done. simpl. by rewrite filter_eq_not_in.
  - rewrite decide_False; [by apply IH|]. intros ->. done.
Qed.

Lemma balanced_visit_program p :
  well_formed p = true → balanced (visit_program str_float p).
Proof.
  intros Hwf. apply balanced_block; [|exact Hwf].
  apply Forall_forall. intros s _. apply balanced_visit_statement.
Qed.

Lemma generate_emitted p :
  generate str_float p = emitted (visit_program str_float p) CodeGenerator_init.
Proof. unfold generate, emitted. simpl. by rewrite drop_0. Qed.

(** In the code generated for an AST whose operators are operators of
    the language the labels agree with the jumps. *)
Lemma labels_consistent_generate (p : ProgramNode) :
  well_formed p = true → labels_consistent (generate str_float p).
Proof.
  intros Hwf. unfold labels_consistent. set (code := generate str_float p).
  destruct (balanced_visit_program p Hwf CodeGenerator_init) as [_ Hd Ht].
  rewrite <- generate_emitted in Hd, Ht. fold code in Hd, Ht.
  change (label_counter CodeGenerator_init) with 0%nat in Hd, Ht.
  set (hi := label_counter _) in *.
  pose proof (NoDup_labels_between 0 hi) as Hnd.
  split.
  - rewrite remove_dups_NoDup by (by rewrite Ht).
    rewrite Ht, <- Hd. unfold label_defs. by rewrite length_fmap.
  - intros name Hin. unfold count_labels. apply count_in_NoDup; [by rewrite Hd|].
    destruct Hin as [Hin|Hin]; [done|]. by rewrite Hd, <- Ht.
Qed.

(** *** The shape of a lowered conditional *)

(** Lowering an expression allocates no label, whatever its operators. *)
Lemma visit_expression_label_counter e g :
  label_counter (snd (visit_expression e g)) = label_counter g.
Proof.
  revert g.
  induction e as [ln col op l r IHl IHr|ln col op e IHe|ln col v|ln col v|ln col v
                 |ln col nm|ln col nm args IHargs|ln col]
    using ExpressionNode_induction; intros g; simpl; try done.
  - unfold visit_binary_op. rewrite !run_bind. simpl. by rewrite IHr, IHl.
  - unfold visit_unary_op. rewrite !run_bind. simpl. by rewrite IHe.
  - unfold visit_function_call. rewrite !run_bind. simpl.
    revert g. induction IHargs as [|a args Ha _ IH]; intros g; simpl; [done|].
    rewrite !run_bind. simpl. rewrite IH. simpl. apply Ha.
Qed.

Lemma if_else_shape (ln col : Z) (c : ExpressionNode)
  (th : list StatementNode) (s : StatementNode) (el : list StatementNode)
  (g : CodeGenerator) :
  let C := fst (visit_expression c g) in
  let g1 := snd (visit_expression c g) in
  let L_else := label_name (label_counter g) in
  let L_end := label_name (label_counter g + 1) in
  let g_then :=
    snd (emit "if_false" (Some C) None (Some L_else) (snd (new_label (snd (new_label g1))))) in
  let g_else :=
    snd (emit "label" None None (Some L_else)
           (snd (emit "goto" None None (Some L_end)
                   (snd (for_each visit_statement th g_then))))) in
  label_counter g_then = (label_counter g + 2)%nat
  ∧ temp_counter g_then = temp_counter g1
  ∧ instructions (snd (visit_statement (IfStatementNode ln col c th (Some (s :: el))) g))
    = (instructions g
       ++ emitted (visit_expression c) g
       ++ if_else_code C L_else L_end
            (emitted (for_each visit_statement th) g_then)
            (emitted (for_each visit_statement (s :: el)) g_else))%list.
Proof.
  intros C g1 L_else L_end g_then g_else.
  pose proof (visit_expression_label_counter c g) as HL.
  split; [|split].
  - unfold g_then, g1. simpl. lia.
  - reflexivity.
  - rewrite emitted_spec by apply growing_visit_statement. f_equal.
    cbn [codegen.visit_statement]. unfold visit_if_statement. cbv beta iota.
    emitted_steps. rewrite ?run_bind. cbn [fst snd].
    subst C g1 L_else L_end g_then g_else.
    change (fst (new_label ?x)) with (label_name (label_counter x)).
    cbn [new_label snd label_counter]. rewrite HL. reflexivity.
Qed.

(** *** Temporaries *)

Lemma is_temp_name_spec s : is_temp_name s = true ↔ ∃ n, s = temp_name n.
Proof.
  split.
  - destruct s as [|c r]; [done|]. simpl.
    destruct (Ascii.eqb_spec c "t") as [->|]; [|done].
    destruct (NilEmpty.uint_of_string r) as [d|]; [|done].
    intros H%bool_decide_eq_true. exists (Nat.of_uint d).
    unfold temp_name. simpl. by rewrite H.
  - intros [n ->]. change (temp_name n) with (String "t" (str_nat n)).
    unfold is_temp_name. rewrite Ascii.eqb_refl. unfold str_nat at 1.
    rewrite NilEmpty.usu, Unsigned.of_to. by apply bool_decide_eq_true.
Qed.

Lemma not_temp_name s : is_temp_name s = false → not_temp s.
Proof.
  intros H n ->. assert (is_temp_name (temp_name n) = true) by (apply is_temp_name_spec; eauto).
  congruence.
Qed.

Lemma string_of_uint_head d r : NilEmpty.string_of_uint d ≠ String "t" r.
Proof. by destruct d. Qed.

Lemma not_temp_str_nat n : not_temp (str_nat n).
Proof. intros m. unfold str_nat, temp_name. simpl. apply string_of_uint_head. Qed.

Lemma not_temp_str_int z : not_temp (str_int z).
Proof.
  intros m. unfold str_int, temp_name. simpl.
  destruct (Z.to_int z) as [d|d]; simpl; [|done].
  destruct d; try done; apply string_of_uint_head.
Qed.

Lemma not_temp_label n : not_temp (label_name n).
Proof. by intros m. Qed.

Lemma not_temp_quoted v : not_temp (quote ++ v ++ quote).
Proof. by intros m. Qed.

Lemma not_temp_zero : not_temp "0".
Proof. by intros m. Qed.

Lemma operand_ok_not_temp g s : not_temp s → operand_ok g s.
Proof. intros H n ->. by destruct (H n). Qed.

Lemma operand_ok_grows g g' s : grows g g' → operand_ok g s → operand_ok g' s.
Proof.
  intros [[code Hc] _ _] H n Hn. destruct (H n Hn) as (i & Hi & Hd).
  exists i. split; [|done]. rewrite Hc. apply elem_of_app. by left.
Qed.

Lemma arg_ok_None g : arg_ok g None.
Proof. by intros s. Qed.

Lemma arg_ok_Some g s : operand_ok g s → arg_ok g (Some s).
Proof. by intros H s' [= <-]. Qed.

Lemma temps_ok_init : temps_ok CodeGenerator_init.
Proof.
  split; simpl.
  - by intros i n ?%elem_of_nil.
  - by intros j k i i' n ?.
  - by intros j i n ?.
Qed.

(** Appending an instruction keeps the temporaries in order when its
    arguments are usable and its result, if a temporary, is below the
    counter and not defined yet. *)
Lemma temps_ok_snoc g g' ins :
  temps_ok g →
  instructions g' = (instructions g ++ [ins])%list →
  (temp_counter g ≤ temp_counter g')%nat →
  arg_ok g (arg1 ins) → arg_ok g (arg2 ins) →
  (∀ n, defines ins (temp_name n) → (temp_counter g ≤ n < temp_counter g')%nat) →
  temps_ok g'.
Proof.
  intros [Hb Hs Ho] Hins Hle Ha1 Ha2 Hr.
  assert (Huse : ∀ n, uses ins (temp_name n) →
            ∃ i, i ∈ instructions g ∧ defines i (temp_name n)).
  { intros n [H|H]; [apply (Ha1 _ H)|apply (Ha2 _ H)]; done. }
  split; rewrite Hins.
  - intros i n [Hi|Hi%list_elem_of_singleton]%elem_of_app [Hu|Hd].
    + specialize (Hb i n Hi (or_introl Hu)). lia.
    + specialize (Hb i n Hi (or_intror Hd)). lia.
    + subst i. destruct (Huse n Hu) as (i & Hi & Hd).
      specialize (Hb i n Hi (or_intror Hd)). lia.
    + subst i. specialize (Hr n Hd). lia.
  - intros j k i i' n Hj Hk Hdi Hdi'.
    apply lookup_snoc_Some in Hj as [[Hjl Hj]|[-> <-]];
      apply lookup_snoc_Some in Hk as [[Hkl Hk]|[-> <-]]; [eauto| | |done].
    + assert (Hi : i ∈ instructions g) by (apply list_elem_of_lookup; eauto).
      specialize (Hb i n Hi (or_intror Hdi)). specialize (Hr n Hdi'). lia.
    + assert (Hi : i' ∈ instructions g) by (apply list_elem_of_lookup; eauto).
      specialize (Hb i' n Hi (or_intror Hdi')). specialize (Hr n Hdi). lia.
  - intros j i n Hj Hu.
    apply lookup_snoc_Some in Hj as [[Hjl Hj]|[-> <-]].
    + destruct (Ho j i n Hj Hu) as (k & i' & Hk & Hl & Hd).
      exists k, i'. split; [done|]. split; [|done]. by apply lookup_app_l_Some.
    + destruct (Huse n Hu) as (i' & [k Hk]%list_elem_of_lookup & Hd).
      exists k, i'. split; [by apply lookup_lt_Some in Hk|].
      split; [|done]. by apply lookup_app_l_Some.
Qed.

Lemma temps_ok_emit g op a1 a2 r :
  temps_ok g → arg_ok g a1 → arg_ok g a2 → (∀ s, r = Some s → not_temp s) →
  temps_ok (snd (emit op a1 a2 r g)).
Proof.
  intros Hg H1 H2 Hr. apply (temps_ok_snoc g _ (mkTAC op a1 a2 r)); try done.
  intros n Hd. by destruct (Hr _ Hd n).
Qed.

Lemma temps_ok_emit_fresh g op a1 a2 :
  temps_ok g → arg_ok g a1 → arg_ok g a2 →
  let t := fst (new_temp g) in
  let g' := snd (emit op a1 a2 (Some t) (snd (new_temp g))) in
  temps_ok g' ∧ operand_ok g' t.
Proof.
  intros Hg H1 H2 t g'. split.
  - apply (temps_ok_snoc g _ (mkTAC op a1 a2 (Some t))); try done.
    + simpl. lia.
    + intros n Hn. apply (inj Some), temp_name_inj in Hn. simpl. lia.
  - intros n Hn. exists (mkTAC op a1 a2 (Some t)). split.
    + simpl. apply elem_of_app. right. by apply list_elem_of_singleton.
    + unfold defines. simpl. by rewrite <- Hn.
Qed.

Definition expr_temps (e : ExpressionNode) : Prop :=
  Forall not_temp (expression_names str_float e) →
  ∀ g, temps_ok g →
    temps_ok (snd (visit_expression e g))
    ∧ operand_ok (snd (visit_expression e g)) (fst (visit_expression e g)).

Lemma temps_params args :
  Forall expr_temps args →
  Forall not_temp (flat_map (expression_names str_float) args) →
  ∀ g, temps_ok g →
    temps_ok (snd (for_each (λ arg, let* arg_temp := visit_expression arg in
                              emit "param" (Some arg_temp) None None) args g)).
Proof.
  induction 1 as [|a args Ha _ IH]; simpl; intros Hn g Hg; [done|].
  apply Forall_app in Hn as [Hna Hn]. rewrite !run_bind. cbn [fst snd].
  apply IH; [done|]. destruct (Ha Hna g Hg) as [Hg1 Ho].
  apply temps_ok_emit; auto using arg_ok_None, arg_ok_Some. done.
Qed.

Lemma temps_visit_expression e : expr_temps e.
Proof.
  induction e as [ln col op l r IHl IHr|ln col op e IHe|ln col v|ln col v|ln col v
                 |ln col nm|ln col nm args IHargs|ln col]
    using ExpressionNode_induction; intros Hn g Hg; simpl in *.
  - apply Forall_app in Hn as [Hnl Hnr].
    unfold visit_binary_op. rewrite !run_bind. cbn [ret fst snd].
    destruct (IHl Hnl g Hg) as [Hg1 Hol].
    destruct (IHr Hnr _ Hg1) as [Hg2 Hor].
    apply temps_ok_emit_fresh; auto using arg_ok_Some.
    apply arg_ok_Some. eapply operand_ok_grows; [|exact Hol].
    apply growing_visit_expression.
  - unfold visit_unary_op. rewrite !run_bind. cbn [ret fst snd].
    destruct (IHe Hn g Hg) as [Hg1 Ho].
    apply temps_ok_emit_fresh; auto using arg_ok_Some, arg_ok_None.
  - split; [done|]. apply operand_ok_not_temp, not_temp_str_int.
  - split; [done|]. apply operand_ok_not_temp. by inversion_clear Hn.
  - split; [done|]. apply operand_ok_not_temp, not_temp_quoted.
  - split; [done|]. apply operand_ok_not_temp. by inversion_clear Hn.
  - inversion_clear Hn as [|? ? Hnm Hargs].
    unfold visit_function_call. rewrite !run_bind. cbn [ret fst snd].
    apply temps_ok_emit_fresh.
    + by apply temps_params.
    + apply arg_ok_Some, operand_ok_not_temp. done.
    + apply arg_ok_Some, operand_ok_not_temp, not_temp_str_nat.
  - apply (temps_ok_emit_fresh g "=" (Some "0") None); auto using arg_ok_None.
    apply arg_ok_Some, operand_ok_not_temp, not_temp_zero.
Qed.

Definition stmt_temps (s : StatementNode) : Prop :=
  Forall not_temp (statement_names str_float s) →
  ∀ g, temps_ok g → temps_ok (snd (visit_statement s g)).

Lemma temps_block l :
  Forall stmt_temps l →
  Forall not_temp (flat_map (statement_names str_float) l) →
  ∀ g, temps_ok g → temps_ok (snd (for_each visit_statement l g)).
Proof.
  induction 1 as [|s l' Hs _ IH]; simpl; intros Hn g Hg; [done|].
  apply Forall_app in Hn as [Hns Hn]. rewrite run_bind. auto.
Qed.

Lemma temps_ok_counters g g' :
  instructions g' = instructions g → temp_counter g' = temp_counter g →
  temps_ok g → temps_ok g'.
Proof. intros Hi Ht [Hb Hs Ho]. split; rewrite ?Hi, ?Ht; done. Qed.

Ltac temps_step :=
  match goal with
  | |- temps_ok (snd (set_current_function _ ?g0)) =>
      apply (temps_ok_counters g0); [reflexivity..|]
  | |- temps_ok (snd (new_label ?g0)) =>
      apply (temps_ok_counters g0); [reflexivity..|]
  | |- temps_ok (snd (get_current_function ?g0)) =>
      apply (temps_ok_counters g0); [reflexivity..|]
  | |- temps_ok (snd (emit _ _ _ _ _)) =>
      apply temps_ok_emit;
      [|auto using arg_ok_None, arg_ok_Some, operand_ok_not_temp..
       |intros ? [= <-]; auto using not_temp_label ]
  | |- temps_ok (snd (for_each visit_statement _ _)) =>
      apply temps_block; [assumption..|]
  end.

Lemma temps_visit_statement s : stmt_temps s.
Proof.
  induction s as [ln col x v|ln col x v|ln col nm ps body IH|ln col c th IHth
                 |ln col c th el IHth IHel|ln col c body IH|ln col v|ln col v
                 |ln col cl cc cn ca|ln col]
    using StatementNode_induction; intros Hn g Hg; simpl in *.
  - inversion_clear Hn as [|? ? Hx Hv].
    destruct (temps_visit_expression v Hv g Hg) as [Hg1 Ho].
    unfold visit_var_declaration. rewrite run_bind. by temps_step.
  - inversion_clear Hn as [|? ? Hx Hv].
    destruct (temps_visit_expression v Hv g Hg) as [Hg1 Ho].
    unfold visit_assignment. rewrite run_bind. by temps_step.
  - inversion_clear Hn as [|? ? Hnm Hbody].
    unfold visit_function_def. rewrite !run_bind. cbn [fst snd].
    by repeat temps_step.
  - apply Forall_app in Hn as [Hc Hn]. rewrite app_nil_r in Hn.
    destruct (temps_visit_expression c Hc g Hg) as [Hg1 Ho].
    unfold visit_if_statement. rewrite !run_bind. cbn [fst snd].
    by repeat temps_step.
  - apply Forall_app in Hn as [Hc Hn]. apply Forall_app in Hn as [Hth Hel].
    destruct (temps_visit_expression c Hc g Hg) as [Hg1 Ho].
    unfold visit_if_statement. destruct el as [|s el]; rewrite !run_bind; cbn [fst snd];
      by repeat temps_step.
  - apply Forall_app in Hn as [Hc Hb].
    unfold visit_while_loop. rewrite !run_bind. cbn [fst snd].
    do 3 temps_step.
    match goal with
    | |- context [visit_expression c ?g0] =>
        destruct (temps_visit_expression c Hc g0) as [Hg1 Ho]
    end.
    { by repeat temps_step. }
    by temps_step.
  - destruct (temps_visit_expression v Hn g Hg) as [Hg1 Ho].
    unfold visit_return_statement. rewrite run_bind. by temps_step.
  - destruct (temps_visit_expression v Hn g Hg) as [Hg1 Ho].
    unfold visit_print_statement. rewrite run_bind. by temps_step.
  - destruct (temps_visit_expression (FunctionCallNode cl cc cn ca) Hn g Hg) as [Hg1 _].
    unfold visit_function_call_statement. rewrite run_bind. exact Hg1.
  - exact Hg.
Qed.

Lemma temps_ok_generate p :
  temp_free str_float p = true →
  temps_ok (snd (visit_program str_float p CodeGenerator_init)).
Proof.
  intros Hfree. apply temps_block; [| |apply temps_ok_init].
  - apply Forall_forall. intros s _. apply temps_visit_statement.
  - unfold temp_free in Hfree. rewrite forallb_forall in Hfree.
    apply Forall_forall. intros s Hs%list_elem_of_In. apply not_temp_name.
    specialize (Hfree s Hs). by destruct (is_temp_name s).
Qed.

(** X29: when no identifier, function name or float rendering of the
    program is the name of a temporary, every temporary that occurs in
    the generated code is the result of exactly one instruction, and
    that instruction comes before every instruction that has the
    temporary as an argument. *)
Theorem temporaries_defined_once_before_use (p : ProgramNode) :
  temp_free str_float p = true →
  let code := generate str_float p in
  ∀ n, (∃ i, i ∈ code ∧ (uses i (temp_name n) ∨ defines i (temp_name n))) →
    ∃ k d, code !! k = Some d ∧ defines d (temp_name n)
      ∧ (∀ k' d', code !! k' = Some d' → defines d' (temp_name n) → k' = k)
      ∧ (∀ j i, code !! j = Some i → uses i (temp_name n) → (k < j)%nat).
Proof.
  intros Hfree code n (i & Hi & Hocc).
  destruct (temps_ok_generate p Hfree) as [_ Hs Ho]. fold (generate str_float p) in Hs, Ho.
  fold code in Hs, Ho.
  assert (Hdef : ∃ k d, code !! k = Some d ∧ defines d (temp_name n)).
  { apply list_elem_of_lookup in Hi as [j Hj]. destruct Hocc as [Hu|Hd]; [|eauto].
    destruct (Ho j i n Hj Hu) as (k & d & _ & Hk & Hd). eauto. }
  destruct Hdef as (k & d & Hk & Hd). exists k, d. repeat split; try done.
  - intros k' d' Hk' Hd'. by apply (Hs k' k d' d n).
  - intros j i' Hj Hu. destruct (Ho j i' n Hj Hu) as (k' & d' & Hlt & Hk' & Hd').
    by rewrite <- (Hs k' k d' d n).
Qed.
(** *** What lowering costs *)

(** [m] allocates [t] temporaries and [l] labels and emits [n]
    instructions, from every state. *)
Definition costs {A} (m : G A) (t l n : nat) : Prop :=
  ∀ g, temp_counter (snd (m g)) = (temp_counter g + t)%nat
       ∧ label_counter (snd (m g)) = (label_counter g + l)%nat
       ∧ length (instructions (snd (m g))) = (length (instructions g) + n)%nat.

Lemma costs_ret {A} (x : A) : costs (ret x) 0 0 0.
Proof. intros g. simpl. lia. Qed.

Lemma costs_bind {A B} (m : G A) (k : A → G B) t1 l1 n1 t2 l2 n2 :
  costs m t1 l1 n1 → (∀ x, costs (k x) t2 l2 n2) →
  costs (bind m k) (t1 + t2) (l1 + l2) (n1 + n2).
Proof.
  intros Hm Hk g. rewrite run_bind.
  destruct (Hm g) as (? & ? & ?). destruct (Hk (fst (m g)) (snd (m g))) as (? & ? & ?). lia.
Qed.

Lemma costs_eq {A} (m : G A) t l n t' l' n' :
  costs m t l n → t = t' → l = l' → n = n' → costs m t' l' n'.
Proof. by intros H <- <- <-. Qed.

Lemma costs_emit op a1 a2 r : costs (emit op a1 a2 r) 0 0 1.
Proof. intros g. simpl. rewrite length_app. simpl. lia. Qed.

Lemma costs_new_temp : costs new_temp 1 0 0.
Proof. intros g. simpl. lia. Qed.

Lemma costs_new_label : costs new_label 0 1 0.
Proof. intros g. simpl. lia. Qed.

Lemma costs_get_current_function : costs get_current_function 0 0 0.
Proof. intros g. simpl. lia. Qed.

Lemma costs_set_current_function f : costs (set_current_function f) 0 0 0.
Proof. intros g. simpl. lia. Qed.

Lemma costs_for_each {A} (f : A → G unit) (t l n : A → nat) (xs : list A) :
  Forall (λ x, costs (f x) (t x) (l x) (n x)) xs →
  costs (for_each f xs) (list_sum (map t xs)) (list_sum (map l xs)) (list_sum (map n xs)).
Proof.
  induction 1 as [|x xs Hx _ IH]; simpl; [apply costs_ret|].
  apply costs_bind; [exact Hx|]. intros _. exact IH.
Qed.

Lemma list_sum_zero {A} (xs : list A) : list_sum (map (λ _, 0%nat) xs) = 0%nat.
Proof. by induction xs. Qed.

Ltac costs_step :=
  lazymatch goal with
  | |- costs (bind _ _) _ _ _ => eapply costs_bind; [|intros ?]
  | |- costs (ret _) _ _ _ => apply costs_ret
  | |- costs (emit _ _ _ _) _ _ _ => apply costs_emit
  | |- costs new_temp _ _ _ => apply costs_new_temp
  | |- costs new_label _ _ _ => apply costs_new_label
  | |- costs get_current_function _ _ _ => apply costs_get_current_function
  | |- costs (set_current_function _) _ _ _ => apply costs_set_current_function
  end.

Ltac costs_auto tac := eapply costs_eq; [repeat first [costs_step | tac]|try lia..].

Lemma costs_visit_expression e :
  costs (visit_expression e) (expression_temps e) 0 (expression_size e).
Proof.
  induction e as [ln col op l r IHl IHr|ln col op e IHe|ln col v|ln col v|ln col v
                 |ln col nm|ln col nm args IHargs|ln col]
    using ExpressionNode_induction; cbn [codegen.visit_expression expression_temps expression_size].
  - unfold visit_binary_op. costs_auto ltac:(first [exact IHl|exact IHr]).
  - unfold visit_unary_op. costs_auto ltac:(exact IHe).
  - apply costs_ret.
  - apply costs_ret.
  - apply costs_ret.
  - apply costs_ret.
  - unfold visit_function_call.
    assert (Hargs : costs
      (for_each (λ arg, let* arg_temp := visit_expression arg in
                        emit "param" (Some arg_temp) None None) args)
      (list_sum (map expression_temps args)) (list_sum (map (λ _, 0%nat) args))
      (list_sum (map (λ a, expression_size a + 1)%nat args))).
    { apply costs_for_each. eapply Forall_impl; [exact IHargs|]. intros a Ha. cbv beta.
      costs_auto ltac:(exact Ha). }
    rewrite list_sum_zero in Hargs. costs_auto ltac:(exact Hargs).
  - costs_auto fail.
Qed.

Lemma costs_visit_function_call nm args :
  costs (visit_function_call visit_expression nm args)
    (list_sum (map expression_temps args) + 1) 0
    (list_sum (map (λ a, expression_size a + 1)%nat args) + 1).
Proof. apply (costs_visit_expression (FunctionCallNode 0 0 nm args)). Qed.

Lemma costs_block (l : list StatementNode) :
  Forall (λ s, costs (visit_statement s) (statement_temps s) (statement_labels s)
                 (statement_size s)) l →
  costs (for_each visit_statement l) (list_sum (map statement_temps l))
    (list_sum (map statement_labels l)) (list_sum (map statement_size l)).
Proof. apply costs_for_each. Qed.

Lemma costs_visit_statement s :
  costs (visit_statement s) (statement_temps s) (statement_labels s) (statement_size s).
Proof.
  induction s as [ln col x v|ln col x v|ln col nm ps body IH|ln col c th IHth
                 |ln col c th el IHth IHel|ln col c body IH|ln col v|ln col v
                 |ln col cl cc cn ca|ln col]
    using StatementNode_induction;
    cbn [codegen.visit_statement statement_temps statement_labels statement_size].
  - unfold visit_var_declaration. costs_auto ltac:(apply costs_visit_expression).
  - unfold visit_assignment. costs_auto ltac:(apply costs_visit_expression).
  - unfold visit_function_def. apply costs_block in IH. costs_auto ltac:(exact IH).
  - unfold visit_if_statement. apply costs_block in IHth.
    costs_auto ltac:(first [apply costs_visit_expression|exact IHth]).
  - unfold visit_if_statement. apply costs_block in IHth. apply costs_block in IHel.
    destruct el as [|s el].
    + costs_auto ltac:(first [apply costs_visit_expression|exact IHth]).
      all: simpl; lia.
    + costs_auto ltac:(first [apply costs_visit_expression|exact IHth|exact IHel]).
  - unfold visit_while_loop. apply costs_block in IH.
    costs_auto ltac:(first [apply costs_visit_expression|exact IH]).
  - unfold visit_return_statement. costs_auto ltac:(apply costs_visit_expression).
  - unfold visit_print_statement. costs_auto ltac:(apply costs_visit_expression).
  - unfold visit_function_call_statement.
    costs_auto ltac:(apply costs_visit_function_call).
  - apply costs_ret.
Qed.

(** X8: what a generation run costs can be read off the AST.  A program
    uses one temporary for each operation, call and unknown expression
    node, one label for each conditional without (or with an empty) else
    block and two for each conditional with one and for each loop, and
    emits the instructions that [statement_size] counts; the same holds
    for a statement lowered from any state of the generator. *)
Theorem generation_costs (p : ProgramNode) :
  (let g := snd (visit_program str_float p CodeGenerator_init) in
   temp_counter g = list_sum (map statement_temps (statements p))
   ∧ label_counter g = list_sum (map statement_labels (statements p))
   ∧ length (generate str_float p) = list_sum (map statement_size (statements p)))
  ∧ ∀ s g,
      temp_counter (snd (visit_statement s g)) = (temp_counter g + statement_temps s)%nat
      ∧ label_counter (snd (visit_statement s g)) = (label_counter g + statement_labels s)%nat
      ∧ length (instructions (snd (visit_statement s g)))
        = (length (instructions g) + statement_size s)%nat.
Proof.
  split; [|intros s g; apply costs_visit_statement].
  assert (H : costs (visit_program str_float p) (list_sum (map statement_temps (statements p)))
                (list_sum (map statement_labels (statements p)))
                (list_sum (map statement_size (statements p)))).
  { apply costs_block, Forall_forall. intros s _. apply costs_visit_statement. }
  destruct (H CodeGenerator_init) as (Ht & Hl & Hn). unfold generate. simpl in *. lia.
Qed.

(** *** The shape of a lowered loop, conditional and function *)

(** X9: a loop allocates the labels of its head and of its end, in this
    order and before its condition is lowered, and emits the label of the
    head, the code of the condition [C], [if_false C goto L_end], the
    body, [goto L_start] and the label of the end. *)
Theorem while_lowering (ln col : Z) (c : ExpressionNode) (body : list StatementNode)
  (g : CodeGenerator) :
  let L_start := label_name (label_counter g) in
  let L_end := label_name (label_counter g + 1) in
  let g_cond :=
    snd (emit "label" None None (Some L_start) (snd (new_label (snd (new_label g))))) in
  let C := fst (visit_expression c g_cond) in
  let g_body :=
    snd (emit "if_false" (Some C) None (Some L_end) (snd (visit_expression c g_cond))) in
  label_counter g_cond = (label_counter g + 2)%nat
  ∧ temp_counter g_cond = temp_counter g
  ∧ label_counter g_body = (label_counter g + 2)%nat
  ∧ instructions (snd (visit_statement (WhileLoopNode ln col c body) g))
    = (instructions g
       ++ while_code L_start L_end C
            (emitted (visit_expression c) g_cond)
            (emitted (for_each visit_statement body) g_body))%list.
Proof.
  intros L_start L_end g_cond C g_body.
  pose proof (visit_expression_label_counter c g_cond) as HL.
  split; [|split; [|split]].
  - unfold g_cond. simpl. lia.
  - reflexivity.
  - unfold g_body. cbn [emit snd label_counter]. rewrite HL. unfold g_cond. simpl. lia.
  - rewrite emitted_spec by apply growing_visit_statement. f_equal.
    cbn [codegen.visit_statement]. unfold visit_while_loop.
    emitted_steps. rewrite ?run_bind. cbn [fst snd].
    subst L_start L_end g_cond C g_body.
    change (fst (new_label ?x)) with (label_name (label_counter x)).
    cbn [new_label snd label_counter]. unfold while_code.
    by rewrite <- ?app_assoc.
Qed.

Lemma if_shape (ln col : Z) (c : ExpressionNode) (th : list StatementNode)
  (el : option (list StatementNode)) (g : CodeGenerator) :
  el = None ∨ el = Some [] →
  let C := fst (visit_expression c g) in
  let L_end := label_name (label_counter g) in
  let g_then :=
    snd (emit "if_false" (Some C) None (Some L_end)
           (snd (new_label (snd (visit_expression c g))))) in
  label_counter g_then = (label_counter g + 1)%nat
  ∧ instructions (snd (visit_statement (IfStatementNode ln col c th el) g))
    = (instructions g
       ++ emitted (visit_expression c) g
       ++ if_code C L_end (emitted (for_each visit_statement th) g_then))%list.
Proof.
  intros Hel C L_end g_then.
  pose proof (visit_expression_label_counter c g) as HL.
  split.
  - unfold g_then. simpl. lia.
  - rewrite emitted_spec by apply growing_visit_statement. f_equal.
    cbn [codegen.visit_statement]. unfold visit_if_statement.
    destruct Hel as [->| ->]; cbv beta iota;
      emitted_steps; rewrite ?run_bind; cbn [fst snd];
      subst C L_end g_then;
      change (fst (new_label ?x)) with (label_name (label_counter x));
      rewrite HL; reflexivity.
Qed.

(** X10: a conditional that has no else block, or an empty one, lowers
    its condition to [C], allocates one label, and emits
    [if_false C goto L_end], the then-block and the label. *)
Theorem if_without_else_lowering (ln col : Z) (c : ExpressionNode)
  (th : list StatementNode) (g : CodeGenerator) :
  let C := fst (visit_expression c g) in
  let L_end := label_name (label_counter g) in
  let g_then :=
    snd (emit "if_false" (Some C) None (Some L_end)
           (snd (new_label (snd (visit_expression c g))))) in
  let code :=
    (instructions g
     ++ emitted (visit_expression c) g
     ++ if_code C L_end (emitted (for_each visit_statement th) g_then))%list in
  label_counter g_then = (label_counter g + 1)%nat
  ∧ instructions (snd (visit_statement (IfStatementNode ln col c th None) g)) = code
  ∧ instructions (snd (visit_statement (IfStatementNode ln col c th (Some [])) g)) = code.
Proof.
  intros C L_end g_then code.
  destruct (if_shape ln col c th None g (or_introl eq_refl)) as [HL HN].
  destruct (if_shape ln col c th (Some []) g (or_intror eq_refl)) as [_ HS].
  auto.
Qed.

Lemma visit_expression_current_function e g :
  current_function (snd (visit_expression e g)) = current_function g.
Proof.
  revert g.
  induction e as [ln col op l r IHl IHr|ln col op e IHe|ln col v|ln col v|ln col v
                 |ln col nm|ln col nm args IHargs|ln col]
    using ExpressionNode_induction; intros g; simpl; try done.
  - unfold visit_binary_op. rewrite !run_bind. simpl. by rewrite IHr, IHl.
  - unfold visit_unary_op. rewrite !run_bind. simpl. by rewrite IHe.
  - unfold visit_function_call. rewrite !run_bind. simpl.
    revert g. induction IHargs as [|a args Ha _ IH]; intros g; simpl; [done|].
    rewrite !run_bind. simpl. rewrite IH. simpl. apply Ha.
Qed.

Lemma block_current_function (l : list StatementNode) :
  Forall (λ s, ∀ g, current_function (snd (visit_statement s g)) = current_function g) l →
  ∀ g, current_function (snd (for_each visit_statement l g)) = current_function g.
Proof.
  induction 1 as [|s l Hs _ IH]; intros g; simpl; [done|].
  rewrite run_bind. by rewrite IH, Hs.
Qed.

Lemma current_function_emit op a1 a2 r g :
  current_function (snd (emit op a1 a2 r g)) = current_function g.
Proof. reflexivity. Qed.

Lemma current_function_new_label g :
  current_function (snd (new_label g)) = current_function g.
Proof. reflexivity. Qed.

Lemma visit_statement_current_function s g :
  current_function (snd (visit_statement s g)) = current_function g.
Proof.
  revert g.
  induction s as [ln col x v|ln col x v|ln col nm ps body IH|ln col c th IHth
                 |ln col c th el IHth IHel|ln col c body IH|ln col v|ln col v
                 |ln col cl cc cn ca|ln col]
    using StatementNode_induction; intros g; cbn [codegen.visit_statement].
  all: try pose proof (block_current_function _ IH) as Hb.
  all: try pose proof (block_current_function _ IHth) as Hth.
  all: try pose proof (block_current_function _ IHel) as Hel.
  all: unfold visit_var_declaration, visit_assignment, visit_function_def,
         visit_if_statement, visit_while_loop, visit_return_statement,
         visit_print_statement, visit_function_call_statement.
  all: try (destruct el as [|s el]; cbv beta iota).
  all: rewrite ?run_bind; try reflexivity.
  all: repeat first [ rewrite current_function_emit | rewrite current_function_new_label
                    | rewrite Hb | rewrite Hth | rewrite Hel
                    | rewrite visit_expression_current_function ].
  all: try reflexivity.
  apply (visit_expression_current_function (FunctionCallNode cl cc cn ca)).
Qed.

Lemma function_def_shape (ln col : Z) (nm : string) (ps : list string)
  (body : list StatementNode) (g : CodeGenerator) :
  instructions (snd (visit_statement (FunctionDefNode ln col nm ps body) g))
  = (instructions g
     ++ function_code nm
          (emitted (for_each visit_statement body)
             (snd (emit "begin_func" (Some nm) None None
                     (snd (set_current_function (Some nm) g))))))%list.
Proof.
  rewrite emitted_spec by apply growing_visit_statement. f_equal.
  cbn [codegen.visit_statement]. unfold visit_function_def.
  emitted_steps. rewrite ?run_bind. cbn [fst snd]. reflexivity.
Qed.

(** X11: a function definition emits [begin_func name], its body and
    [end_func name]; its parameters leave no trace in the code.  The body
    is lowered with [current_function] set to the name, and every
    statement, a definition with definitions nested in it included,
    leaves [current_function] as it found it. *)
Theorem function_def_lowering (ln col : Z) (nm : string) (ps : list string)
  (body : list StatementNode) (g : CodeGenerator) :
  let g_body :=
    snd (emit "begin_func" (Some nm) None None (snd (set_current_function (Some nm) g))) in
  current_function g_body = Some nm
  ∧ instructions (snd (visit_statement (FunctionDefNode ln col nm ps body) g))
    = (instructions g
       ++ function_code nm (emitted (for_each visit_statement body) g_body))%list
  ∧ ∀ s g', current_function (snd (visit_statement s g')) = current_function g'.
Proof.
  intros g_body. split; [reflexivity|].
  split; [apply function_def_shape|apply visit_statement_current_function].
Qed.

(** *** Operands and calls *)

Lemma visit_expression_temp_counter e g :
  temp_counter (snd (visit_expression e g)) = (temp_counter g + expression_temps e)%nat.
Proof. apply costs_visit_expression. Qed.

Lemma visit_expression_operand (e : ExpressionNode) (g : CodeGenerator) :
  match expression_size e with
  | O => snd (visit_expression e g) = g
  | S _ =>
      fst (visit_expression e g) = temp_name (temp_counter g + expression_temps e - 1)
      ∧ ∃ code op a1 a2,
          emitted (visit_expression e) g
          = (code ++ [mkTAC op a1 a2 (Some (fst (visit_expression e g)))])%list
  end.
Proof.
  destruct e as [ln col op l r|ln col op e|ln col v|ln col v|ln col v
                |ln col nm|ln col nm args|ln col];
    cbn [expression_size expression_temps]; try reflexivity;
    rewrite ?Nat.add_1_r; cbn [codegen.visit_expression].
  - unfold visit_binary_op. split.
    + rewrite !run_bind. cbn [fst snd new_temp emit ret temp_counter].
      rewrite !visit_expression_temp_counter. f_equal. lia.
    + emitted_steps. rewrite !run_bind. cbn [fst snd ret emit].
      eexists (_ ++ _)%list, _, _, _. rewrite app_nil_r, <- app_assoc. reflexivity.
  - unfold visit_unary_op. split.
    + rewrite !run_bind. cbn [fst snd new_temp emit ret temp_counter].
      rewrite !visit_expression_temp_counter. f_equal. lia.
    + emitted_steps. rewrite !run_bind. cbn [fst snd ret emit].
      eexists _, _, _, _. rewrite app_nil_r. reflexivity.
  - pose proof (visit_expression_temp_counter (FunctionCallNode ln col nm args) g) as Ht.
    pose proof (growing_visit_expression (FunctionCallNode ln col nm args)) as Hg.
    cbn [codegen.visit_expression expression_temps] in Ht, Hg.
    unfold visit_function_call in *. split.
    + rewrite !run_bind in *. cbn [fst snd new_temp emit ret temp_counter] in *.
      f_equal. lia.
    + assert (Hfe : growing (for_each (λ arg, let* arg_temp := visit_expression arg in
                                         emit "param" (Some arg_temp) None None) args)).
      { apply growing_for_each, Forall_forall. intros a _. auto with growing. }
      emitted_steps. rewrite !run_bind. cbn [fst snd ret emit].
      eexists _, _, _, _. rewrite app_nil_r. reflexivity.
  - split; [simpl; f_equal; lia|].
    exists [], "=", (Some "0"), None. unfold emitted. simpl.
    by rewrite drop_app_length.
Qed.

(** X12: a literal or an identifier emits nothing and leaves the
    generator as it was; every other expression ends its code with the
    instruction whose result is the operand it returns, which is the
    temporary allocated last. *)
Theorem expression_operand (e : ExpressionNode) (g : CodeGenerator) :
  match expression_size e with
  | O => snd (visit_expression e g) = g ∧ emitted (visit_expression e) g = []
  | S _ =>
      fst (visit_expression e g) = temp_name (temp_counter g + expression_temps e - 1)
      ∧ ∃ code op a1 a2,
          emitted (visit_expression e) g
          = (code ++ [mkTAC op a1 a2 (Some (fst (visit_expression e g)))])%list
  end.
Proof.
  pose proof (visit_expression_operand e g) as H.
  destruct (expression_size e); [|exact H].
  split; [exact H|]. unfold emitted. rewrite H. apply drop_all.
Qed.

Lemma emitted_params args g :
  emitted (for_each (λ arg, let* arg_temp := visit_expression arg in
                            emit "param" (Some arg_temp) None None) args) g
  = params_code visit_expression args g.
Proof.
  revert g. induction args as [|a args IH]; intros g; cbn [for_each params_code].
  - apply emitted_ret.
  - assert (Hfe : ∀ l, growing (for_each (λ arg, let* arg_temp := visit_expression arg in
                                            emit "param" (Some arg_temp) None None) l)).
    { intros l. apply growing_for_each, Forall_forall. intros x _. auto with growing. }
    change (for_each ?f (a :: args)) with (f a >> for_each f args).
    rewrite emitted_bind; [|auto with growing|intros ?; apply Hfe].
    rewrite emitted_bind; [|auto with growing|intros ?; auto with growing].
    rewrite emitted_emit, !run_bind, IH. cbn [fst snd]. by rewrite <- app_assoc.
Qed.

(** X13: a call lowers its arguments in source order, emitting the
    [param] of each right after its code, and then the [call] with the
    callee, the number of arguments and a fresh temporary, which is the
    operand of the call. *)
Theorem call_lowering (ln col : Z) (nm : string) (args : list ExpressionNode)
  (g : CodeGenerator) :
  let t := temp_name (temp_counter g + list_sum (map expression_temps args)) in
  fst (visit_expression (FunctionCallNode ln col nm args) g) = t
  ∧ emitted (visit_expression (FunctionCallNode ln col nm args)) g
    = (params_code visit_expression args g
       ++ [mkTAC "call" (Some nm) (Some (str_nat (length args))) (Some t)])%list.
Proof.
  intros t.
  pose proof (visit_expression_operand (FunctionCallNode ln col nm args) g) as Ho.
  cbn [expression_size expression_temps] in Ho. rewrite !Nat.add_1_r in Ho.
  destruct Ho as [Hfst _].
  assert (Ht : fst (visit_expression (FunctionCallNode ln col nm args) g) = t).
  { rewrite Hfst. unfold t. f_equal. lia. }
  split; [exact Ht|]. rewrite <- Ht, <- emitted_params.
  cbn [codegen.visit_expression]. unfold visit_function_call.
  assert (Hfe : growing (for_each (λ arg, let* arg_temp := visit_expression arg in
                                     emit "param" (Some arg_temp) None None) args)).
  { apply growing_for_each, Forall_forall. intros a _. auto with growing. }
  emitted_steps. rewrite !run_bind. cbn [fst snd ret emit]. by rewrite app_nil_r.
Qed.

(** *** Function markers nest *)

Lemma function_markers_app stack c1 c2 :
  function_markers stack (c1 ++ c2)
  = match function_markers stack c1 with
    | Some stack' => function_markers stack' c2
    | None => None
    end.
Proof.
  revert stack. induction c1 as [|i c1 IH]; intros stack; cbn [app function_markers]; [done|].
  destruct (bool_decide (operation i = "begin_func")).
  - destruct (arg1 i); [apply IH|done].
  - destruct (bool_decide (operation i = "end_func")); [|apply IH].
    destruct stack as [|nm stack]; [done|].
    destruct (bool_decide (arg1 i = Some nm)); [apply IH|done].
Qed.

(** The code [m] emits closes every function it opens, and no other. *)
Definition nested {A} (m : G A) : Prop :=
  ∀ g stack, function_markers stack (emitted m g) = Some stack.

Lemma nested_ret {A} (x : A) : nested (ret x).
Proof. intros g stack. by rewrite emitted_ret. Qed.

Lemma nested_bind {A B} (m : G A) (k : A → G B) :
  growing m → (∀ x, growing (k x)) → nested m → (∀ x, nested (k x)) → nested (bind m k).
Proof.
  intros Gm Gk Hm Hk g stack. rewrite emitted_bind by done.
  by rewrite function_markers_app, Hm, Hk.
Qed.

Lemma nested_emit op a1 a2 r :
  op ≠ "begin_func" → op ≠ "end_func" → nested (emit op a1 a2 r).
Proof.
  intros H1 H2 g stack. rewrite emitted_emit. cbn [function_markers operation].
  by rewrite !bool_decide_eq_false_2.
Qed.

Lemma nested_new_temp : nested new_temp.
Proof. intros g stack. by rewrite emitted_new_temp. Qed.

Lemma nested_new_label : nested new_label.
Proof. intros g stack. by rewrite emitted_new_label. Qed.

Lemma nested_for_each {A} (f : A → G unit) l :
  Forall (λ x, growing (f x)) l → Forall (λ x, nested (f x)) l → nested (for_each f l).
Proof.
  intros Hg. induction 1 as [|x l' Hx Hl IH]; simpl; [apply nested_ret|].
  apply Forall_cons in Hg as [Hgx Hgl].
  apply nested_bind; auto using growing_for_each.
Qed.

Lemma binary_not_marker op :
  op ∈ binary_operators → op ≠ "begin_func" ∧ op ≠ "end_func".
Proof. intros H. split; intros ->; not_in_list. Qed.

Lemma unary_not_marker op :
  op ∈ unary_operators → op ≠ "begin_func" ∧ op ≠ "end_func".
Proof. intros H. split; intros ->; not_in_list. Qed.

Create HintDb nested.
#[local] Hint Resolve nested_ret nested_new_temp nested_new_label : nested.
#[local] Hint Extern 2 (nested (bind _ _)) =>
  apply nested_bind; [auto 12 with growing|intros ?; auto 12 with growing| |intros ?]
  : nested.
#[local] Hint Extern 1 (nested (emit _ _ _ _)) => apply nested_emit; discriminate : nested.

Lemma nested_visit_expression e :
  well_formed_expression e = true → nested (visit_expression e).
Proof.
  induction e as [ln col op l r IHl IHr|ln col op e IHe|ln col v|ln col v|ln col v
                 |ln col nm|ln col nm args IHargs|ln col]
    using ExpressionNode_induction; simpl; intros Hwf.
  - apply andb_true_iff in Hwf as [Hwf Hr]. apply andb_true_iff in Hwf as [Hop Hl].
    apply bool_decide_eq_true in Hop. unfold visit_binary_op.
    destruct (binary_not_marker _ Hop) as [H1 H2].
    pose proof (λ a1 a2 r, nested_emit op a1 a2 r H1 H2).
    specialize (IHl Hl). specialize (IHr Hr).
    auto 12 with nested.
  - apply andb_true_iff in Hwf as [Hop He]. apply bool_decide_eq_true in Hop.
    unfold visit_unary_op.
    destruct (unary_not_marker _ Hop) as [H1 H2].
    pose proof (λ a1 a2 r, nested_emit op a1 a2 r H1 H2).
    specialize (IHe He).
    auto 12 with nested.
  - auto with nested.
  - auto with nested.
  - auto with nested.
  - auto with nested.
  - unfold visit_function_call.
    assert (Hargs : nested (for_each (λ arg, let* arg_temp := visit_expression arg in
                     emit "param" (Some arg_temp) None None) args)).
    { rewrite forallb_forall in Hwf. apply nested_for_each.
      - apply Forall_forall. intros x _. auto with growing.
      - rewrite Forall_forall in IHargs. apply Forall_forall. intros x Hx.
        pose proof (IHargs x Hx (Hwf x (proj1 (list_elem_of_In _ _) Hx))).
        auto with nested. }
    apply nested_bind; auto 12 with growing nested.
    apply growing_for_each, Forall_forall. intros x _. auto with growing.
  - auto 12 with nested.
Qed.

Lemma nested_block l :
  Forall (λ s, well_formed_statement s = true → nested (visit_statement s)) l →
  forallb well_formed_statement l = true →
  nested (for_each visit_statement l).
Proof.
  intros IH Hwf. apply nested_for_each.
  - apply Forall_forall. auto with growing.
  - by apply (forallb_Forall well_formed_statement).
Qed.

Lemma nested_visit_statement s :
  well_formed_statement s = true → nested (visit_statement s).
Proof.
  induction s as [ln col x v|ln col x v|ln col nm ps body IH|ln col c th IHth
                 |ln col c th el IHth IHel|ln col c body IH|ln col v|ln col v
                 |ln col cl cc cn ca|ln col]
    using StatementNode_induction; simpl; intros Hwf.
  - pose proof (nested_visit_expression v Hwf).
    unfold visit_var_declaration. auto with nested.
  - pose proof (nested_visit_expression v Hwf).
    unfold visit_assignment. auto with nested.
  - pose proof (nested_block body IH Hwf) as Hb. intros g stack.
    pose proof (function_def_shape 0 0 nm ps body g) as Hcode.
    unfold emitted. cbn [codegen.visit_statement]. cbn [codegen.visit_statement] in Hcode.
    rewrite Hcode, drop_app_length. unfold function_code.
    cbn [app function_markers operation arg1].
    rewrite bool_decide_eq_true_2 by done.
    rewrite function_markers_app, Hb. cbn [function_markers operation arg1].
    rewrite bool_decide_eq_false_2 by done.
    by rewrite !bool_decide_eq_true_2.
  - apply andb_true_iff in Hwf as [Hwf _]. apply andb_true_iff in Hwf as [Hc Hth].
    pose proof (nested_visit_expression c Hc). pose proof (nested_block th IHth Hth).
    unfold visit_if_statement. auto 12 with nested.
  - apply andb_true_iff in Hwf as [Hwf Hel]. apply andb_true_iff in Hwf as [Hc Hth].
    pose proof (nested_visit_expression c Hc). pose proof (nested_block th IHth Hth).
    pose proof (nested_block el IHel Hel).
    unfold visit_if_statement. destruct el as [|s el]; auto 14 with nested.
  - apply andb_true_iff in Hwf as [Hc Hb].
    pose proof (nested_visit_expression c Hc). pose proof (nested_block body IH Hb).
    unfold visit_while_loop. auto 14 with nested.
  - pose proof (nested_visit_expression v Hwf).
    unfold visit_return_statement. auto with nested.
  - pose proof (nested_visit_expression v Hwf).
    unfold visit_print_statement. auto with nested.
  - pose proof (nested_visit_expression (FunctionCallNode cl cc cn ca) Hwf) as Hcall.
    cbn [codegen.visit_expression] in Hcall.
    unfold visit_function_call_statement. auto with nested.
  - auto with nested.
Qed.

(** X14: in the code of an AST whose operators are operators of the
    language, the markers [begin_func] and [end_func] nest like brackets:
    each [end_func] names the function opened last and not yet closed,
    and at the end of the code, as at the end of every statement, no
    function is left open. *)
Theorem function_markers_nest (p : ProgramNode) :
  well_formed p = true →
  function_markers [] (generate str_float p) = Some []
  ∧ ∀ s g stack, s ∈ statements p →
      function_markers stack (emitted (visit_statement s) g) = Some stack.
Proof.
  intros Hwf. split.
  - rewrite generate_emitted. apply nested_block; [|exact Hwf].
    apply Forall_forall. intros s _. apply nested_visit_statement.
  - intros s g stack Hs. apply nested_visit_statement.
    unfold well_formed in Hwf. rewrite forallb_forall in Hwf.
    by apply Hwf, list_elem_of_In.
Qed.

End codegen_facts.

End codegen_facts.

(** ** The parser *)

Module parser_facts.
Import lexer ast parser.
Local Open Scope parser_scope.

Lemma parser_bind_eq {A B} (m : P A) (k : A → P B) p :
  bind m k p = match m p with
               | (Returns x, p') => k x p'
               | (Raises e, p') => (Raises e, p')
               end.
Proof. reflexivity. Qed.

Lemma matches_eq token_types p :
  matches token_types p
  = match current_token p with
    | Some t => (Returns (bool_decide (type t ∈ token_types)), p)
    | None => (Raises AttributeError, p)
    end.
Proof. unfold matches, bind, current, ret. by destruct (current_token p). Qed.

Lemma recover_from_error_no_ParserError fuel p message token :
  fst (recover_from_error fuel p) ≠ Raises (ParserError message token).
Proof.
  revert p. induction fuel as [|fuel IH]; intros p; simpl; [discriminate|].
  rewrite parser_bind_eq, matches_eq.
  destruct (current_token p) as [t|]; [|discriminate].
  case_bool_decide; [discriminate|]. rewrite parser_bind_eq. apply IH.
Qed.

Lemma statement_list_loop_no_ParserError fuel statements p message token :
  fst (statement_list_loop fuel statements p) ≠ Raises (ParserError message token).
Proof.
  revert statements p. induction fuel as [|fuel IH]; intros statements p; simpl;
    [discriminate|].
  rewrite parser_bind_eq, matches_eq.
  destruct (current_token p) as [t|]; [|discriminate].
  case_bool_decide; [discriminate|].
  rewrite parser_bind_eq. unfold try_except.
  match goal with
  | |- context [bind ?m ?k p] => destruct (bind m k p) as [[stmts|e] p1]
  end.
  - apply IH.
  - destruct e as [m' t'| | |]; try discriminate.
    repeat first [rewrite parser_bind_eq | progress unfold print | progress cbv beta iota].
    pose proof (recover_from_error_no_ParserError fuel) as Hr.
    match goal with
    | |- context [recover_from_error fuel ?p2] =>
        specialize (Hr p2 message token); destruct (recover_from_error fuel p2) as [[[]|e] p3]
    end; simpl in *; [apply IH|congruence].
Qed.

Lemma parse_statement_list_no_ParserError fuel p message token :
  fst (parse_statement_list fuel p) ≠ Raises (ParserError message token).
Proof.
  destruct fuel; simpl; [discriminate|]. apply statement_list_loop_no_ParserError.
Qed.

(** *** The trees the parser builds are well formed *)

Definition inv (p : Parser) : Prop :=
  tokens_ok (tokens p) ∧ ∀ t, current_token p = Some t → token_ok t = true.

Definition sound {A} (m : P A) (Q : A → Prop) : Prop :=
  ∀ p, inv p → inv (snd (m p)) ∧ ∀ x, fst (m p) = Returns x → Q x.

Definition wfe (e : ExpressionNode) : Prop := well_formed_expression e = true.
Definition wfes (l : list ExpressionNode) : Prop := forallb well_formed_expression l = true.
Definition wfcall (c : Z * Z * string * list ExpressionNode) : Prop := wfes (snd c).
Definition wfs (s : StatementNode) : Prop := well_formed_statement s = true.
Definition wfb (l : list StatementNode) : Prop := forallb well_formed_statement l = true.
Definition wfo (o : option StatementNode) : Prop :=
  match o with Some s => wfs s | None => True end.
Definition wfob (o : option (list StatementNode)) : Prop :=
  match o with Some b => wfb b | None => True end.

Lemma sound_ret {A} (x : A) (Q : A → Prop) : Q x → sound (ret x) Q.
Proof. intros HQ p Hp. split; [exact Hp|]. by intros y [= <-]. Qed.

Lemma sound_raise {A} e (Q : A → Prop) : sound (raise e) Q.
Proof. intros p Hp. split; [exact Hp|]. intros y H. discriminate H. Qed.

Lemma sound_bind {A B} (m : P A) (k : A → P B) (Q : A → Prop) (R : B → Prop) :
  sound m Q → (∀ x, Q x → sound (k x) R) → sound (bind m k) R.
Proof.
  intros Hm Hk p Hp. unfold bind. destruct (Hm p Hp) as [Hi Hq].
  destruct (m p) as [[x|e] p1]; simpl in *.
  - apply Hk; auto.
  - split; [exact Hi|]. intros x H. discriminate H.
Qed.

Lemma sound_bind_any {A B} (m : P A) (k : A → P B) (R : B → Prop) :
  sound m anything → (∀ x, sound (k x) R) → sound (bind m k) R.
Proof. intros Hm Hk. eapply sound_bind; [exact Hm|]. intros x _. apply Hk. Qed.

Lemma sound_try_except {A} (m : P A) handler (Q : A → Prop) :
  sound m Q → (∀ message token, sound (handler message token) Q) →
  sound (try_except m handler) Q.
Proof.
  intros Hm Hh p Hp. unfold try_except. destruct (Hm p Hp) as [Hi Hq].
  destruct (m p) as [[x|[message token| | |]] p1]; simpl in *; try (split; [exact Hi|exact Hq]).
  apply Hh, Hi.
Qed.

Lemma sound_print text : sound (print text) anything.
Proof. intros [ts ps ct out] Hp. split; [exact Hp|done]. Qed.

Lemma sound_advance : sound advance anything.
Proof.
  intros p [Hts Hct]. split; [|done]. unfold advance. simpl.
  destruct (tokens p !! (pos p + 1)%nat) as [t|] eqn:E; [|by split].
  split; simpl; [exact Hts|]. intros t' [= <-].
  unfold tokens_ok in Hts. rewrite Forall_lookup in Hts. exact (Hts _ _ E).
Qed.

Lemma sound_peek : sound peek anything.
Proof. intros p Hp. split; [exact Hp|done]. Qed.

Lemma sound_current : sound current (λ t, token_ok t = true).
Proof.
  intros p Hp. unfold current. destruct (current_token p) as [t|] eqn:E; simpl.
  - split; [exact Hp|]. intros x [= <-]. by apply Hp.
  - split; [exact Hp|]. intros x H. discriminate H.
Qed.

Lemma sound_weaken {A} (m : P A) (Q R : A → Prop) :
  sound m Q → (∀ x, Q x → R x) → sound m R.
Proof. intros Hm HQR p Hp. destruct (Hm p Hp). split; auto. Qed.

Lemma sound_current_any : sound current anything.
Proof. eapply sound_weaken; [apply sound_current|done]. Qed.

Create HintDb parser_sound.
#[local] Hint Resolve sound_print sound_advance sound_peek sound_current_any sound_raise
  : parser_sound.
#[local] Hint Extern 1 (anything _) => exact I : parser_sound.

Ltac sound_step :=
  lazymatch goal with
  | |- sound (bind _ _) _ =>
      first [ eapply sound_bind; [solve [eauto with parser_sound]|intros ? ?]
            | eapply sound_bind_any; [|intros ?] ]
  | |- sound (ret _) _ => apply sound_ret
  | |- sound (raise _) _ => apply sound_raise
  | |- sound (if ?b then _ else _) _ => destruct b eqn:?
  | |- sound (match ?c with _ => _ end) _ => destruct c eqn:?
  end.

Ltac sound_auto := repeat first [sound_step | solve [eauto with parser_sound]].

Lemma sound_expect ty : sound (expect ty) anything.
Proof. unfold expect. sound_auto. Qed.

Lemma sound_matches tys : sound (matches tys) anything.
Proof. unfold matches. sound_auto. Qed.

Lemma sound_peek_is ty : sound (peek_is ty) anything.
Proof. unfold peek_is. sound_auto. Qed.

Lemma sound_text_value t : sound (text_value t) anything.
Proof. unfold text_value. sound_auto. Qed.

Lemma sound_int_value t : sound (int_value t) anything.
Proof. unfold int_value. sound_auto. Qed.

Lemma sound_float_value t : sound (float_value t) anything.
Proof. unfold float_value. sound_auto. Qed.

#[local] Hint Resolve sound_expect sound_matches sound_peek_is sound_text_value
  sound_int_value sound_float_value : parser_sound.

(** The token a guard [self.match(types)] lets through is of one of the
    types. *)
Lemma sound_guarded {A} tys (k : Token → P A) (otherwise : P A) (Q : A → Prop) :
  (∀ t, token_ok t = true → type t ∈ tys → sound (k t) Q) →
  sound otherwise Q →
  sound (let* m := matches tys in if m then let* t := current in k t else otherwise) Q.
Proof.
  intros Hk Ho p Hp.
  rewrite parser_bind_eq, matches_eq.
  destruct (current_token p) as [t|] eqn:E.
  - case_bool_decide as Hty; [|by apply Ho].
    rewrite parser_bind_eq. unfold current. rewrite E.
    apply Hk; [by apply Hp|done|done].
  - split; [exact Hp|]. intros x H. discriminate H.
Qed.

Lemma sound_operator_text (t : Token) (s : string) (Q : string → Prop) :
  token_ok t = true → operator_text (type t) = Some s → Q s → sound (text_value t) Q.
Proof.
  unfold text_value. intros Hok Hs HQ. unfold token_ok in Hok. rewrite Hs in Hok.
  destruct (value t) as [| |s'|]; try discriminate Hok.
  apply String.eqb_eq in Hok as <-. by apply sound_ret.
Qed.

Definition operators_of (tys : list TokenType) (ops : list string) : bool :=
  forallb (λ ty, match operator_text ty with
                 | Some s => bool_decide (s ∈ ops)
                 | None => false
                 end) tys.

Lemma operators_of_elem tys ops ty :
  operators_of tys ops = true → ty ∈ tys → ∃ s, operator_text ty = Some s ∧ s ∈ ops.
Proof.
  unfold operators_of. rewrite forallb_forall. intros H Hin%list_elem_of_In.
  specialize (H ty Hin). destruct (operator_text ty) as [s|]; [|discriminate H].
  exists s. split; [done|]. by apply bool_decide_eq_true in H.
Qed.

Lemma wfe_binary ln col op l r :
  op ∈ binary_operators → wfe l → wfe r → wfe (BinaryOpNode ln col op l r).
Proof.
  unfold wfe. intros Hop Hl Hr. cbn [well_formed_expression].
  by rewrite Hl, Hr, bool_decide_eq_true_2.
Qed.

Lemma sound_binary_loop fuel tys fixed parse_operand lhs :
  operators_of tys binary_operators = true →
  (∀ op, fixed = Some op → op ∈ binary_operators) →
  sound parse_operand wfe → wfe lhs →
  sound (binary_loop fuel tys fixed parse_operand lhs) wfe.
Proof.
  intros Htys Hfixed Hoperand. revert lhs.
  induction fuel as [|fuel IH]; intros lhs Hl; simpl; [apply sound_raise|].
  apply sound_guarded; [|by apply sound_ret].
  intros t Hok Hty. destruct (operators_of_elem _ _ _ Htys Hty) as (s & Hs & Hin).
  eapply sound_bind with (Q := λ op, op ∈ binary_operators).
  - destruct fixed as [op|]; [apply sound_ret; auto|].
    by apply sound_operator_text with s.
  - intros op Hop. sound_auto. apply IH. by apply wfe_binary.
Qed.

Section expression_grammar.
Variable parse_expression : P ExpressionNode.
Hypothesis sound_parse_expression : sound parse_expression wfe.

Lemma wfes_snoc args arg : wfes args → wfe arg → wfes (args ++ [arg]).
Proof. unfold wfes, wfe. intros Ha He. rewrite forallb_app. simpl. by rewrite Ha, He. Qed.

Lemma sound_arg_list_loop fuel args :
  wfes args → sound (arg_list_loop parse_expression fuel args) wfes.
Proof.
  revert args. induction fuel as [|fuel IH]; intros args Ha; simpl; sound_auto.
  apply IH. by apply wfes_snoc.
Qed.

Lemma sound_parse_arg_list fuel : sound (parse_arg_list parse_expression fuel) wfes.
Proof.
  unfold parse_arg_list. sound_auto; [done|].
  apply sound_arg_list_loop. unfold wfes. simpl. by rewrite andb_true_r.
Qed.
#[local] Hint Resolve sound_parse_arg_list : parser_sound.

Lemma sound_parse_function_call fuel :
  sound (parse_function_call parse_expression fuel) wfcall.
Proof. unfold parse_function_call. sound_auto. Qed.
#[local] Hint Resolve sound_parse_function_call : parser_sound.

Lemma sound_parse_primary fuel : sound (parse_primary parse_expression fuel) wfe.
Proof.
  unfold parse_primary. sound_auto; done.
Qed.
#[local] Hint Resolve sound_parse_primary : parser_sound.

Lemma sound_parse_unary fuel : sound (parse_unary parse_expression fuel) wfe.
Proof.
  induction fuel as [|fuel IH]; simpl; [apply sound_raise|].
  apply sound_guarded; [|apply sound_parse_primary].
  intros t Hok Hty.
  destruct (operators_of_elem [NOT; MINUS] unary_operators _ eq_refl Hty) as (s & Hs & Hin).
  eapply sound_bind with (Q := λ op, op ∈ unary_operators).
  - by apply sound_operator_text with s.
  - intros op Hop. sound_auto. unfold wfe in *. cbn [well_formed_expression].
    by rewrite bool_decide_eq_true_2.
Qed.
#[local] Hint Resolve sound_parse_unary : parser_sound.

Ltac sound_level :=
  sound_auto; apply sound_binary_loop;
    [reflexivity | first [done | intros ? [= <-]; compute_done]
    | auto with parser_sound | done].

Lemma sound_parse_multiplication fuel :
  sound (parse_multiplication parse_expression fuel) wfe.
Proof. unfold parse_multiplication. sound_level. Qed.
#[local] Hint Resolve sound_parse_multiplication : parser_sound.

Lemma sound_parse_addition fuel : sound (parse_addition parse_expression fuel) wfe.
Proof. unfold parse_addition. sound_level. Qed.
#[local] Hint Resolve sound_parse_addition : parser_sound.

Lemma sound_parse_comparison fuel : sound (parse_comparison parse_expression fuel) wfe.
Proof. unfold parse_comparison. sound_level. Qed.
#[local] Hint Resolve sound_parse_comparison : parser_sound.

Lemma sound_parse_equality fuel : sound (parse_equality parse_expression fuel) wfe.
Proof. unfold parse_equality. sound_level. Qed.
#[local] Hint Resolve sound_parse_equality : parser_sound.

Lemma sound_parse_logical_and fuel : sound (parse_logical_and parse_expression fuel) wfe.
Proof. unfold parse_logical_and. sound_level. Qed.
#[local] Hint Resolve sound_parse_logical_and : parser_sound.

Lemma sound_parse_logical_or fuel : sound (parse_logical_or parse_expression fuel) wfe.
Proof. unfold parse_logical_or. sound_level. Qed.
End expression_grammar.

Lemma sound_parse_expression fuel : sound (parse_expression fuel) wfe.
Proof.
  induction fuel as [|fuel IH]; simpl; [apply sound_raise|].
  by apply sound_parse_logical_or.
Qed.

#[local] Hint Resolve sound_parse_expression : parser_sound.

Lemma sound_param_list_loop fuel params : sound (param_list_loop fuel params) anything.
Proof. revert params. induction fuel; intros params; simpl; sound_auto. Qed.
#[local] Hint Resolve sound_param_list_loop : parser_sound.

Lemma sound_parse_param_list fuel : sound (parse_param_list fuel) anything.
Proof. unfold parse_param_list. sound_auto. Qed.
#[local] Hint Resolve sound_parse_param_list : parser_sound.

Lemma sound_recover_from_error fuel : sound (recover_from_error fuel) anything.
Proof. induction fuel; simpl; sound_auto. Qed.
#[local] Hint Resolve sound_recover_from_error : parser_sound.

Section statement_grammar.
Variable fuel : nat.
Variable parse_statement_list : P (list StatementNode).
Hypothesis sound_parse_statement_list : sound parse_statement_list wfb.

Ltac wf_done :=
  unfold wfs, wfb, wfe, wfes, wfcall, wfo, wfob in *; simpl in *;
  repeat match goal with H : _ = true |- _ => rewrite H end; done.

Lemma sound_parse_var_declaration : sound (parse_var_declaration fuel) wfs.
Proof. unfold parse_var_declaration. sound_auto; wf_done. Qed.

Lemma sound_parse_assignment : sound (parse_assignment fuel) wfs.
Proof. unfold parse_assignment. sound_auto; wf_done. Qed.

Lemma sound_parse_function_def : sound (parse_function_def fuel parse_statement_list) wfs.
Proof. unfold parse_function_def. sound_auto; wf_done. Qed.

Lemma sound_parse_if_statement : sound (parse_if_statement fuel parse_statement_list) wfs.
Proof.
  unfold parse_if_statement. do 8 sound_step.
  eapply sound_bind with (Q := wfob); [sound_auto; wf_done|].
  intros el Hel. sound_auto. destruct el; wf_done.
Qed.

Lemma sound_parse_while_loop : sound (parse_while_loop fuel parse_statement_list) wfs.
Proof. unfold parse_while_loop. sound_auto; wf_done. Qed.

Lemma sound_parse_return_statement : sound (parse_return_statement fuel) wfs.
Proof. unfold parse_return_statement. sound_auto; wf_done. Qed.

Lemma sound_parse_print_statement : sound (parse_print_statement fuel) wfs.
Proof. unfold parse_print_statement. sound_auto; wf_done. Qed.

#[local] Hint Resolve sound_parse_var_declaration sound_parse_assignment
  sound_parse_function_def sound_parse_if_statement sound_parse_while_loop
  sound_parse_return_statement sound_parse_print_statement
  sound_parse_function_call : parser_sound.

Lemma sound_parse_statement : sound (parse_statement fuel parse_statement_list) wfo.
Proof. unfold parse_statement. sound_auto; wf_done. Qed.
End statement_grammar.

Lemma wfb_snoc stmts s : wfb stmts → wfs s → wfb (stmts ++ [s]).
Proof. unfold wfb, wfs. intros Hb Hs. rewrite forallb_app. simpl. by rewrite Hb, Hs. Qed.

Lemma sound_statement_lists fuel :
  sound (parse_statement_list fuel) wfb
  ∧ ∀ stmts, wfb stmts → sound (statement_list_loop fuel stmts) wfb.
Proof.
  induction fuel as [|fuel [IHl IHp]]; simpl.
  { split; [|intros stmts _]; apply sound_raise. }
  split; [by apply IHp|]. intros stmts Hs.
  eapply sound_bind_any; [apply sound_matches|]. intros [|]; [by apply sound_ret|].
  eapply sound_bind with (Q := wfb); [|intros; by apply IHp].
  apply sound_try_except.
  - eapply sound_bind; [by apply sound_parse_statement|].
    intros [s|] Ho; apply sound_ret; [by apply wfb_snoc|done].
  - intros message token. sound_auto.
Qed.

Lemma sound_parse_program fuel : sound (parse_program fuel) (λ p, well_formed p = true).
Proof.
  unfold parse_program. sound_step.
  eapply sound_bind; [apply sound_statement_lists|]. intros stmts Hs. sound_auto.
Qed.

Lemma sound_parse_method fuel : sound (parse_method fuel) (λ p, well_formed p = true).
Proof.
  unfold parse_method. apply sound_try_except; [apply sound_parse_program|].
  intros message token. sound_auto.
Qed.

Lemma parse_well_formed fuel toks tree printed :
  tokens_ok toks → parse fuel toks = (Returns tree, printed) → well_formed tree = true.
Proof.
  intros Hok. unfold parse. intros [= Hr _].
  apply (sound_parse_method fuel (Parser_init toks)); [|exact Hr].
  split; [exact Hok|]. simpl. intros t Ht. destruct toks as [|t' toks]; [done|].
  injection Ht as ->. by inversion Hok.
Qed.

Local Open Scope nat_scope.

(** *** What the parser raises on the tokens of the lexer *)

(** The types of the tokens whose value is a text. *)
Definition textual (ty : TokenType) : bool :=
  match ty with
  | INTEGER | FLOAT | EOF | NEWLINE => false
  | _ => true
  end.

Lemma typed_text t :
  token_typed t = true → textual (type t) = true → ∃ s, value t = VStr s.
Proof.
  destruct t as [ty v ln col]. unfold token_typed. cbn [type value].
  destruct ty; try discriminate; destruct v; try discriminate; eauto.
Qed.

Lemma typed_int t :
  token_typed t = true → type t = INTEGER → ∃ z, value t = VInt z.
Proof.
  destruct t as [ty v ln col]. unfold token_typed. cbn [type value].
  intros H ->. destruct v; try discriminate; eauto.
Qed.

Lemma typed_float t :
  token_typed t = true → type t = FLOAT → ∃ f, value t = VFloat f.
Proof.
  destruct t as [ty v ln col]. unfold token_typed. cbn [type value].
  intros H ->. destruct v; try discriminate; eauto.
Qed.

Section stream.
Variable toks : list Token.
Hypothesis toks_stream : token_stream toks.

Lemma stream_typed i t : toks !! i = Some t → token_typed t = true.
Proof.
  destruct toks_stream as (front & eof & -> & _ & _ & _ & Hall & _).
  intros Hi. rewrite Forall_lookup in Hall. by destruct (Hall i t Hi).
Qed.

Lemma stream_next i t :
  toks !! i = Some t → type t ≠ EOF → ∃ u, toks !! S i = Some u.
Proof.
  destruct toks_stream as (front & eof & -> & Heof & _ & Hfront & _ & _).
  intros Hi Hne. apply lookup_app_Some in Hi as [Hi|[Hlen Hi]].
  - apply lookup_lt_Some in Hi. apply lookup_lt_is_Some_2.
    rewrite length_app. simpl. lia.
  - apply list_lookup_singleton_Some in Hi as [_ <-]. done.
Qed.

Lemma stream_last i t :
  toks !! i = Some t → type t = EOF → S i = length toks.
Proof.
  destruct toks_stream as (front & eof & -> & Heof & _ & Hfront & _ & _).
  intros Hi Hty. rewrite length_app. simpl.
  apply lookup_app_Some in Hi as [Hi|[Hlen Hi]].
  - rewrite Forall_lookup in Hfront. by destruct (Hfront i t Hi).
  - apply list_lookup_singleton_Some in Hi as [Hi _]. lia.
Qed.

(** The parser stands on a token of the list. *)
Definition on_stream (p : Parser) : Prop :=
  tokens p = toks ∧ current_token p = toks !! pos p ∧ pos p < length toks.

(** The tokens from the current one on. *)
Definition left_over (p : Parser) : nat := length toks - pos p.

Definition onward (p p' : Parser) : Prop := on_stream p' ∧ pos p ≤ pos p'.

(** [m], run from [p], returns a result that satisfies [Q] or raises a
    [ParserError] in a state that satisfies [E], without going back in
    the list; it raises nothing else. *)
Definition parses {A} (m : P A) (p : Parser) (Q : A → Parser → Prop)
  (E : Parser → Prop) : Prop :=
  match m p with
  | (Returns x, p') => onward p p' ∧ Q x p'
  | (Raises (ParserError _ _), p') => onward p p' ∧ E p'
  | (Raises _, _) => False
  end.

Definition whatever : Parser → Prop := λ _, True.

Lemma onward_refl p : on_stream p → onward p p.
Proof. by split. Qed.

Lemma onward_trans p1 p2 p3 : onward p1 p2 → onward p2 p3 → onward p1 p3.
Proof. intros [_ H1] [H2 H3]. split; [done|lia]. Qed.

Lemma parses_ret {A} (x : A) p (Q : A → Parser → Prop) E :
  on_stream p → Q x p → parses (ret x) p Q E.
Proof. intros Hs HQ. by split; [apply onward_refl|]. Qed.

Lemma parses_raise {A} message token p (Q : A → Parser → Prop) (E : Parser → Prop) :
  on_stream p → E p → parses (raise (ParserError message token)) p Q E.
Proof. intros Hs HE. by split; [apply onward_refl|]. Qed.

Lemma parses_weaken {A} (m : P A) p (Q1 Q : A → Parser → Prop) (E1 E : Parser → Prop) :
  parses m p Q1 E1 →
  (∀ p', onward p p' → E1 p' → E p') →
  (∀ x p', onward p p' → Q1 x p' → Q x p') →
  parses m p Q E.
Proof.
  unfold parses. intros Hm HE HQ.
  destruct (m p) as [[x|[message token| | |]] p']; try done;
    destruct Hm as [Hon H]; auto.
Qed.

Lemma parses_bind {A B} (m : P A) (k : A → P B) p (Q1 : A → Parser → Prop)
  (Q : B → Parser → Prop) (E1 E : Parser → Prop) :
  parses m p Q1 E1 →
  (∀ p', onward p p' → E1 p' → E p') →
  (∀ x p1, on_stream p1 → pos p ≤ pos p1 → Q1 x p1 → parses (k x) p1 Q E) →
  parses (bind m k) p Q E.
Proof.
  unfold parses, bind. intros Hm HE Hk.
  destruct (m p) as [[x|[message token| | |]] p1]; try done.
  - destruct Hm as [[Hs Hp] H1]. specialize (Hk x p1 Hs Hp H1).
    destruct (k x p1) as [[y|[message token| | |]] p']; try done;
      destruct Hk as [Hon H]; (split; [|done]); by apply (onward_trans p p1 p').
  - destruct Hm as [Hon H]. auto.
Qed.

Lemma parses_try_except {A} (m : P A) handler p (Q : A → Parser → Prop)
  (E1 E : Parser → Prop) :
  parses m p Q E1 →
  (∀ message token p1, on_stream p1 → pos p ≤ pos p1 → E1 p1 →
     parses (handler message token) p1 Q E) →
  parses (try_except m handler) p Q E.
Proof.
  unfold parses, try_except. intros Hm Hh.
  destruct (m p) as [[x|[message token| | |]] p1]; try done.
  destruct Hm as [[Hs Hp] H1]. specialize (Hh message token p1 Hs Hp H1).
  destruct (handler message token p1) as [[y|[message' token'| | |]] p']; try done;
    destruct Hh as [Hon H]; (split; [|done]); by apply (onward_trans p p1 p').
Qed.

(** The methods that leave the parser where it stands. *)

Lemma on_stream_current p : on_stream p → ∃ t, current_token p = Some t ∧ token_typed t = true.
Proof.
  intros (_ & Hc & Hp). destruct (lookup_lt_is_Some_2 _ _ Hp) as [t Ht].
  exists t. rewrite Hc. split; [done|]. by eapply stream_typed.
Qed.

Lemma parses_matches {A} tys (k : bool → P A) p Q E :
  on_stream p →
  (∀ t, current_token p = Some t → token_typed t = true →
        parses (k (bool_decide (type t ∈ tys))) p Q E) →
  parses (bind (matches tys) k) p Q E.
Proof.
  intros Hs Hk. destruct (on_stream_current p Hs) as (t & Ht & Hty).
  specialize (Hk t Ht Hty). unfold parses in *.
  by rewrite parser_bind_eq, matches_eq, Ht.
Qed.

Lemma parses_current {A} (k : Token → P A) p Q E :
  on_stream p →
  (∀ t, current_token p = Some t → token_typed t = true → parses (k t) p Q E) →
  parses (bind current k) p Q E.
Proof.
  intros Hs Hk. destruct (on_stream_current p Hs) as (t & Ht & Hty).
  specialize (Hk t Ht Hty). unfold parses in *.
  rewrite parser_bind_eq. unfold current. by rewrite Ht.
Qed.

Lemma parses_peek_is {A} ty (k : bool → P A) p Q E :
  (∀ b, parses (k b) p Q E) → parses (bind (peek_is ty) k) p Q E.
Proof. intros Hk. unfold parses in *. rewrite parser_bind_eq. apply Hk. Qed.

Lemma parses_print {A} text (k : unit → P A) p (Q : A → Parser → Prop) E :
  (∀ p1, (on_stream p → on_stream p1) → pos p1 = pos p →
         current_token p1 = current_token p → parses (k tt) p1 Q E) →
  on_stream p →
  parses (bind (print text) k) p Q E.
Proof.
  intros Hk Hs. unfold parses in *. rewrite parser_bind_eq. unfold print.
  match goal with |- context [k tt ?p1] => specialize (Hk p1) end.
  cbn [pos current_token] in Hk. specialize (Hk (λ H, H) eq_refl eq_refl).
  match goal with |- context [k tt ?p1] => destruct (k tt p1) as [[y|[message token| | |]] p'] end;
    try done; destruct Hk as [[Hs' Hp'] H]; (split; [|done]); by split.
Qed.

Lemma parses_text_value {A} t (k : string → P A) p Q E :
  token_typed t = true → textual (type t) = true →
  (∀ s, parses (k s) p Q E) → parses (bind (text_value t) k) p Q E.
Proof.
  intros Ht Hty Hk. destruct (typed_text t Ht Hty) as [s Hs].
  unfold parses in *. rewrite parser_bind_eq. unfold text_value. rewrite Hs. apply Hk.
Qed.

Lemma parses_int_value {A} t (k : Z → P A) p Q E :
  token_typed t = true → type t = INTEGER →
  (∀ z, parses (k z) p Q E) → parses (bind (int_value t) k) p Q E.
Proof.
  intros Ht Hty Hk. destruct (typed_int t Ht Hty) as [s Hs].
  unfold parses in *. rewrite parser_bind_eq. unfold int_value. rewrite Hs. apply Hk.
Qed.

Lemma parses_float_value {A} t (k : spec_float → P A) p Q E :
  token_typed t = true → type t = FLOAT →
  (∀ f, parses (k f) p Q E) → parses (bind (float_value t) k) p Q E.
Proof.
  intros Ht Hty Hk. destruct (typed_float t Ht Hty) as [s Hs].
  unfold parses in *. rewrite parser_bind_eq. unfold float_value. rewrite Hs. apply Hk.
Qed.

(** [advance] moves on, unless the parser stands on [EOF]. *)
Lemma advance_on_stream p :
  on_stream p →
  ∃ p1, advance p = (Returns tt, p1) ∧ onward p p1
        ∧ ∀ t, current_token p = Some t → type t ≠ EOF → pos p1 = S (pos p).
Proof.
  intros (Hts & Hc & Hp). unfold advance. rewrite Nat.add_1_r, Hts.
  destruct (toks !! S (pos p)) as [u|] eqn:Hu.
  - eexists. split; [reflexivity|]. split; [|done].
    split; [|simpl; lia]. split; [done|]. simpl. split; [done|].
    by apply lookup_lt_Some in Hu.
  - eexists. split; [reflexivity|]. split; [by apply onward_refl|].
    intros t Ht Hne. rewrite Hc in Ht. destruct (stream_next _ _ Ht Hne) as [u Hu'].
    congruence.
Qed.

Lemma parses_advance {A} (k : unit → P A) p (Q : A → Parser → Prop) E :
  on_stream p →
  (∀ p1, on_stream p1 → pos p ≤ pos p1 →
         (∀ t, current_token p = Some t → type t ≠ EOF → pos p1 = S (pos p)) →
         parses (k tt) p1 Q E) →
  parses (bind advance k) p Q E.
Proof.
  intros Hs Hk. destruct (advance_on_stream p Hs) as (p1 & Hadv & [Hs1 Hp1] & Hmove).
  specialize (Hk p1 Hs1 Hp1 Hmove). unfold parses in *.
  rewrite parser_bind_eq, Hadv.
  destruct (k tt p1) as [[y|[message token| | |]] p']; try done;
    destruct Hk as [Hon H]; (split; [|done]); by apply (onward_trans p p1 p').
Qed.

Lemma parses_expect {A} ty (k : Token → P A) p (Q : A → Parser → Prop) E :
  on_stream p →
  (∀ t, current_token p = Some t → type t ≠ ty → E p) →
  (∀ t p1, current_token p = Some t → type t = ty → token_typed t = true →
           on_stream p1 → pos p ≤ pos p1 → (ty ≠ EOF → pos p1 = S (pos p)) →
           parses (k t) p1 Q E) →
  parses (bind (expect ty) k) p Q E.
Proof.
  intros Hs HE Hk. unfold expect. destruct (on_stream_current p Hs) as (t & Ht & Hty).
  destruct (advance_on_stream p Hs) as (p1 & Hadv & [Hs1 Hp1] & Hmove).
  unfold parses. rewrite !parser_bind_eq. unfold current. rewrite Ht.
  case_bool_decide as Hne.
  - unfold raise. split; [by apply onward_refl|]. by eapply HE.
  - rewrite parser_bind_eq, Hadv. unfold ret.
    assert (Hm : ty ≠ EOF → pos p1 = S (pos p)).
    { intros Hn. apply (Hmove t Ht). congruence. }
    specialize (Hk t p1 Ht Hne Hty Hs1 Hp1 Hm). unfold parses in Hk.
    destruct (k t p1) as [[y|[message token| | |]] p']; try done;
      destruct Hk as [Hon H]; (split; [|done]); by apply (onward_trans p p1 p').
Qed.


Lemma parses_bind_ret {A B} (x : A) (k : A → P B) p Q E :
  parses (k x) p Q E → parses (bind (ret x) k) p Q E.
Proof. done. Qed.

(** The result is returned further on in the list. *)
Definition strictly {A} (p : Parser) : A → Parser → Prop := λ _ p', pos p < pos p'.

Ltac upward := intros ? [? ?] ?; first [exact I | simpl; lia].
Ltac again t :=
  let t' := fresh "t" in let H := fresh "H" in
  intros t' H _; assert (t' = t) as -> by congruence; clear H.

Ltac bound :=
  repeat match goal with H : on_stream _ |- _ => destruct H as (_ & _ & H) end;
  unfold left_over, strictly in *; lia.

Lemma on_stream_left_over p : on_stream p → 0 < left_over p.
Proof. intros (_ & _ & ?). bound. Qed.

Lemma textual_elem tys ty :
  forallb textual tys = true → ty ∈ tys → textual ty = true ∧ ty ≠ EOF.
Proof.
  rewrite forallb_forall. intros H Hin%list_elem_of_In. specialize (H ty Hin).
  split; [done|]. intros ->. discriminate H.
Qed.

(** *** Expressions *)

Lemma parses_binary_loop tys fixed parse_operand bound :
  forallb textual tys = true →
  (∀ p1, on_stream p1 → left_over p1 ≤ bound →
         parses parse_operand p1 (strictly p1) whatever) →
  ∀ fuel lhs p, on_stream p → left_over p ≤ fuel → left_over p ≤ bound →
  parses (binary_loop fuel tys fixed parse_operand lhs) p (λ _ _, True) whatever.
Proof.
  intros Htys Hop. induction fuel as [|fuel IH]; intros lhs p Hs Hf Hb.
  { pose proof (on_stream_left_over p Hs). lia. }
  cbn [binary_loop]. apply parses_matches; [done|]. intros t Ht Hty.
  case_bool_decide as Hin; [|by apply parses_ret].
  destruct (textual_elem _ _ Htys Hin) as [Htext Hne].
  apply parses_current; [done|]. again t.
  assert (Hrest : ∀ op,
    parses (advance >>
            let* right := parse_operand in
            binary_loop fuel tys fixed parse_operand
              (BinaryOpNode (line t) (column t) op lhs right)) p (λ _ _, True) whatever).
  { intros op. apply parses_advance; [done|]. intros p1 Hs1 Hp1 Hmove.
    specialize (Hmove t Ht Hne).
    eapply parses_bind; [apply Hop; [done|bound]|upward|]. intros r p2 Hs2 Hp2 HQ.
    apply IH; [done|bound..]. }
  destruct fixed as [op|]; [apply parses_bind_ret, Hrest|].
  apply parses_text_value; [done..|]. apply Hrest.
Qed.

Section expression_grammar.
Variable parse_expression : P ExpressionNode.
Variable depth : nat.
Hypothesis parses_parse_expression :
  ∀ p, on_stream p → left_over p < depth →
       parses parse_expression p (strictly p) whatever.

Lemma parses_arg_list_loop fuel : ∀ args p,
  on_stream p → left_over p ≤ fuel → left_over p ≤ depth →
  parses (arg_list_loop parse_expression fuel args) p (λ _ _, True) whatever.
Proof.
  induction fuel as [|fuel IH]; intros args p Hs Hf Hd.
  { pose proof (on_stream_left_over p Hs). lia. }
  cbn [arg_list_loop]. apply parses_matches; [done|]. intros t Ht Hty.
  case_bool_decide as Hin; [|by apply parses_ret].
  destruct (textual_elem [COMMA] _ eq_refl Hin) as [_ Hne].
  apply parses_advance; [done|]. intros p1 Hs1 Hp1 Hmove. specialize (Hmove t Ht Hne).
  eapply parses_bind; [apply parses_parse_expression; [done|bound]|upward|].
  intros arg p2 Hs2 Hp2 HQ. apply IH; [done|bound..].
Qed.

Lemma parses_parse_arg_list fuel p :
  on_stream p → left_over p ≤ S fuel → left_over p < depth →
  parses (parse_arg_list parse_expression fuel) p (λ _ _, True) whatever.
Proof.
  intros Hs Hf Hd. unfold parse_arg_list.
  apply parses_matches; [done|]. intros t Ht Hty.
  case_bool_decide as Hin; [by apply parses_ret|].
  eapply parses_bind; [apply parses_parse_expression; [done|bound]|upward|].
  intros arg p2 Hs2 Hp2 HQ. apply parses_arg_list_loop; [done|bound..].
Qed.

Lemma parses_parse_function_call fuel p :
  on_stream p → left_over p ≤ S fuel → left_over p ≤ depth →
  parses (parse_function_call parse_expression fuel) p (strictly p) whatever.
Proof.
  intros Hs Hf Hd. unfold parse_function_call.
  apply parses_expect; [done..|]. intros t p1 Ht Hty Htyped Hs1 Hp1 Hmove.
  specialize (Hmove ltac:(done)).
  apply parses_expect; [done..|]. intros t2 p2 _ _ _ Hs2 Hp2 Hmove2.
  specialize (Hmove2 ltac:(done)).
  eapply parses_bind; [apply parses_parse_arg_list; [done|bound..]|upward|].
  intros arguments p3 Hs3 Hp3 _.
  apply parses_expect; [done..|]. intros t4 p4 _ _ _ Hs4 Hp4 _.
  apply parses_text_value; [done|by rewrite Hty|]. intros nm.
  apply parses_ret; [done|bound].
Qed.

Lemma parses_parse_primary fuel p :
  on_stream p → left_over p ≤ S fuel → left_over p ≤ depth →
  parses (parse_primary parse_expression fuel) p (strictly p) whatever.
Proof.
  intros Hs Hf Hd. unfold parse_primary.
  assert (Hleaf : ∀ ty (value_of : Token → P ExpressionNode) t,
    current_token p = Some t → type t = ty → ty ≠ EOF →
    (∀ p1, on_stream p1 → pos p < pos p1 → parses (value_of t) p1 (strictly p) whatever) →
    parses (let* token := current in advance >> value_of token) p (strictly p) whatever).
  { intros ty value_of t Ht Hty Hne Hv.
    apply parses_current; [done|]. again t.
    apply parses_advance; [done|]. intros p1 Hs1 Hp1 Hmove.
    specialize (Hmove t Ht ltac:(congruence)). apply Hv; [done|lia]. }
  apply parses_matches; [done|]. intros t Ht Htyped.
  case_bool_decide as Hint.
  { apply list_elem_of_singleton in Hint.
    apply (Hleaf INTEGER (λ token, let* v := int_value token in
                                   ret (IntegerNode (line token) (column token) v)) t);
      [done..|]. intros p1 Hs1 Hp1. apply parses_int_value; [done..|]. intros z.
    by apply parses_ret. }
  apply parses_matches; [done|]. again t.
  case_bool_decide as Hfloat.
  { apply list_elem_of_singleton in Hfloat.
    apply (Hleaf FLOAT (λ token, let* v := float_value token in
                                 ret (FloatNode (line token) (column token) v)) t);
      [done..|]. intros p1 Hs1 Hp1. apply parses_float_value; [done..|]. intros z.
    by apply parses_ret. }
  apply parses_matches; [done|]. again t.
  case_bool_decide as Hstring.
  { apply list_elem_of_singleton in Hstring.
    apply (Hleaf STRING (λ token, let* v := text_value token in
                                  ret (StringNode (line token) (column token) v)) t);
      [done..|]. intros p1 Hs1 Hp1.
    apply parses_text_value; [done|by rewrite Hstring|]. intros z.
    by apply parses_ret. }
  apply parses_matches; [done|]. again t.
  case_bool_decide as Hidentifier.
  { apply list_elem_of_singleton in Hidentifier.
    apply parses_peek_is. intros [|].
    - eapply parses_bind; [by apply parses_parse_function_call|upward|].
      intros [[[ln col] nm] arguments] p1 Hs1 Hp1 HQ. apply parses_ret; [done|bound].
    - apply (Hleaf IDENTIFIER (λ token, let* nm := text_value token in
                                 ret (IdentifierNode (line token) (column token) nm)) t);
        [done..|]. intros p1 Hs1 Hp1.
      apply parses_text_value; [done|by rewrite Hidentifier|]. intros z.
      by apply parses_ret. }
  apply parses_matches; [done|]. again t.
  case_bool_decide as Hparen.
  { apply list_elem_of_singleton in Hparen.
    apply parses_advance; [done|]. intros p1 Hs1 Hp1 Hmove.
    specialize (Hmove t Ht ltac:(congruence)).
    eapply parses_bind; [apply parses_parse_expression; [done|bound]|upward|].
    intros expr p2 Hs2 Hp2 HQ.
    apply parses_expect; [done..|]. intros t3 p3 _ _ _ Hs3 Hp3 _.
    apply parses_ret; [done|bound]. }
  apply parses_current; [done|]. intros t' _ _. by apply parses_raise.
Qed.

Lemma parses_parse_unary fuel : ∀ p,
  on_stream p → left_over p ≤ fuel → left_over p ≤ depth →
  parses (parse_unary parse_expression fuel) p (strictly p) whatever.
Proof.
  induction fuel as [|fuel IH]; intros p Hs Hf Hd.
  { pose proof (on_stream_left_over p Hs). lia. }
  cbn [parse_unary]. apply parses_matches; [done|]. intros t Ht Htyped.
  case_bool_decide as Hin; [|apply parses_parse_primary; [done|bound..]].
  destruct (textual_elem [NOT; MINUS] _ eq_refl Hin) as [Htext Hne].
  apply parses_current; [done|]. again t.
  apply parses_text_value; [done..|]. intros op.
  apply parses_advance; [done|]. intros p1 Hs1 Hp1 Hmove. specialize (Hmove t Ht Hne).
  eapply parses_bind; [apply IH; [done|bound..]|upward|].
  intros operand p2 Hs2 Hp2 HQ. apply parses_ret; [done|bound].
Qed.

(** A level of binary operators: its first operand, then its loop. *)
Lemma parses_level tys fixed (parse_operand : nat → P ExpressionNode) fuel p :
  forallb textual tys = true →
  (∀ p1, on_stream p1 → left_over p1 ≤ fuel → left_over p1 ≤ depth →
         parses (parse_operand fuel) p1 (strictly p1) whatever) →
  on_stream p → left_over p ≤ fuel → left_over p ≤ depth →
  parses (let* left := parse_operand fuel in
          binary_loop fuel tys fixed (parse_operand fuel) left) p (strictly p) whatever.
Proof.
  intros Htys Hop Hs Hf Hd.
  eapply parses_bind; [by apply Hop|upward|]. intros lhs p1 Hs1 Hp1 HQ.
  eapply parses_weaken;
    [apply (parses_binary_loop tys fixed (parse_operand fuel) (left_over p1) Htys)|upward|].
  - intros p2 Hs2 Hb. apply Hop; [done|bound..].
  - done.
  - bound.
  - lia.
  - intros x p' [_ Hp'] _. bound.
Qed.

Lemma parses_parse_multiplication fuel p :
  on_stream p → left_over p ≤ fuel → left_over p ≤ depth →
  parses (parse_multiplication parse_expression fuel) p (strictly p) whatever.
Proof.
  apply (parses_level _ None (parse_unary parse_expression)); [done|].
  intros p1. apply parses_parse_unary.
Qed.

Lemma parses_parse_addition fuel p :
  on_stream p → left_over p ≤ fuel → left_over p ≤ depth →
  parses (parse_addition parse_expression fuel) p (strictly p) whatever.
Proof.
  apply (parses_level _ None (parse_multiplication parse_expression)); [done|].
  intros p1. apply parses_parse_multiplication.
Qed.

Lemma parses_parse_comparison fuel p :
  on_stream p → left_over p ≤ fuel → left_over p ≤ depth →
  parses (parse_comparison parse_expression fuel) p (strictly p) whatever.
Proof.
  apply (parses_level _ None (parse_addition parse_expression)); [done|].
  intros p1. apply parses_parse_addition.
Qed.

Lemma parses_parse_equality fuel p :
  on_stream p → left_over p ≤ fuel → left_over p ≤ depth →
  parses (parse_equality parse_expression fuel) p (strictly p) whatever.
Proof.
  apply (parses_level _ None (parse_comparison parse_expression)); [done|].
  intros p1. apply parses_parse_comparison.
Qed.

Lemma parses_parse_logical_and fuel p :
  on_stream p → left_over p ≤ fuel → left_over p ≤ depth →
  parses (parse_logical_and parse_expression fuel) p (strictly p) whatever.
Proof.
  apply (parses_level _ (Some "&&") (parse_equality parse_expression)); [done|].
  intros p1. apply parses_parse_equality.
Qed.

Lemma parses_parse_logical_or fuel p :
  on_stream p → left_over p ≤ fuel → left_over p ≤ depth →
  parses (parse_logical_or parse_expression fuel) p (strictly p) whatever.
Proof.
  apply (parses_level _ (Some "||") (parse_logical_and parse_expression)); [done|].
  intros p1. apply parses_parse_logical_and.
Qed.

End expression_grammar.

Lemma parses_expression fuel : ∀ p,
  on_stream p → left_over p < fuel →
  parses (parse_expression fuel) p (strictly p) whatever.
Proof.
  induction fuel as [|fuel IH]; intros p Hs Hf; [lia|].
  cbn [parse_expression]. apply (parses_parse_logical_or _ fuel IH); [done|lia..].
Qed.


(** *** Statements *)

Lemma parses_param_list_loop fuel : ∀ params p,
  on_stream p → left_over p ≤ fuel →
  parses (param_list_loop fuel params) p (λ _ _, True) whatever.
Proof.
  induction fuel as [|fuel IH]; intros params p Hs Hf.
  { pose proof (on_stream_left_over p Hs). lia. }
  cbn [param_list_loop]. apply parses_matches; [done|]. intros t Ht Hty.
  case_bool_decide as Hin; [|by apply parses_ret].
  destruct (textual_elem [COMMA] _ eq_refl Hin) as [_ Hne].
  apply parses_advance; [done|]. intros p1 Hs1 Hp1 Hmove. specialize (Hmove t Ht Hne).
  apply parses_expect; [done..|]. intros t2 p2 _ Hty2 Htyped2 Hs2 Hp2 _.
  apply parses_text_value; [done|by rewrite Hty2|]. intros param.
  apply IH; [done|bound].
Qed.

Lemma parses_parse_param_list fuel p :
  on_stream p → left_over p ≤ fuel →
  parses (parse_param_list fuel) p (λ _ _, True) whatever.
Proof.
  intros Hs Hf. unfold parse_param_list.
  apply parses_matches; [done|]. intros t Ht Hty.
  case_bool_decide as Hin; [|by apply parses_ret].
  destruct (textual_elem [IDENTIFIER] _ eq_refl Hin) as [Htext Hne].
  apply parses_current; [done|]. again t.
  apply parses_text_value; [done..|]. intros param.
  apply parses_advance; [done|]. intros p1 Hs1 Hp1 Hmove.
  apply parses_param_list_loop; [done|bound].
Qed.

Lemma parses_recover_from_error fuel : ∀ p,
  on_stream p → left_over p ≤ fuel →
  parses (recover_from_error fuel) p
    (λ _ p', ∀ t, current_token p = Some t → type t ∉ sync_tokens → pos p < pos p')
    (λ _, False).
Proof.
  induction fuel as [|fuel IH]; intros p Hs Hf.
  { pose proof (on_stream_left_over p Hs). lia. }
  cbn [recover_from_error]. apply parses_matches; [done|]. intros t Ht Hty.
  case_bool_decide as Hin.
  { apply parses_ret; [done|]. intros t' Ht' Hout. congruence. }
  assert (Hne : type t ≠ EOF).
  { intros E. apply Hin. rewrite E. compute_done. }
  apply parses_advance; [done|]. intros p1 Hs1 Hp1 Hmove. specialize (Hmove t Ht Hne).
  eapply parses_weaken; [apply IH; [done|bound]|done|].
  intros x p' [_ Hp'] _ t' _ _. lia.
Qed.

(** The types a statement starts with, and [EOF]. *)
Definition starters : list TokenType := [BOX; HUNT; PURR; CHASE; BRING; MEOW; EOF].

Ltac by_cases ty :=
  destruct ty; intros;
  first [ compute_done
        | exfalso; match goal with H : _ ∉ _ |- _ => apply H; compute_done end ].

Lemma not_sync ty : ty ∉ starters → ty ∉ [SLEEP; RBRACE; EOF] → ty ∉ sync_tokens.
Proof. by_cases ty. Qed.

Lemma not_starter ty :
  ty ∉ [BOX] → ty ∉ [HUNT] → ty ∉ [PURR] → ty ∉ [CHASE] → ty ∉ [BRING] → ty ∉ [MEOW] →
  ty ∉ [EOF] → ty ∉ starters.
Proof. by_cases ty. Qed.

Section statement_grammar.
Variable fuel : nat.
Variable parse_statement_list : P (list StatementNode).
Hypothesis parses_nested :
  ∀ p, on_stream p → left_over p + 2 ≤ fuel →
       parses parse_statement_list p (λ _ _, True) whatever.

(** A statement that its first token has chosen: when it raises, the
    parser has moved on. *)
Definition moved (p : Parser) : Parser → Prop := λ p', pos p < pos p'.

Ltac fails := intros; first [exact I | unfold moved; bound | congruence].
Ltac upward' := intros ? [? ?] ?; first [exact I | unfold moved; bound].
Ltac expects t p1 Hty Htyped Hs Hp Hmove :=
  apply parses_expect; [done|fails|]; intros t p1 _ Hty Htyped Hs Hp Hmove;
  specialize (Hmove ltac:(done)).

Lemma parses_parse_var_declaration p t :
  on_stream p → left_over p ≤ fuel → current_token p = Some t → type t = BOX →
  parses (parse_var_declaration fuel) p (strictly p) (moved p).
Proof.
  intros Hs Hf Ht Hty. unfold parse_var_declaration.
  expects t1 p1 Hty1 Htyped1 Hs1 Hp1 Hmove1.
  expects t2 p2 Hty2 Htyped2 Hs2 Hp2 Hmove2.
  expects t3 p3 Hty3 Htyped3 Hs3 Hp3 Hmove3.
  eapply parses_bind; [apply parses_expression; [done|bound]|upward'|].
  intros v p4 Hs4 Hp4 _.
  apply parses_text_value; [done|by rewrite Hty2|]. intros identifier.
  apply parses_ret; [done|bound].
Qed.

Lemma parses_parse_assignment p :
  on_stream p → left_over p ≤ fuel →
  parses (parse_assignment fuel) p (strictly p) whatever.
Proof.
  intros Hs Hf. unfold parse_assignment.
  expects t1 p1 Hty1 Htyped1 Hs1 Hp1 Hmove1.
  expects t2 p2 Hty2 Htyped2 Hs2 Hp2 Hmove2.
  eapply parses_bind; [apply parses_expression; [done|bound]|upward'|].
  intros v p4 Hs4 Hp4 _.
  apply parses_text_value; [done|by rewrite Hty1|]. intros identifier.
  apply parses_ret; [done|bound].
Qed.

Lemma parses_parse_function_def p t :
  on_stream p → left_over p ≤ fuel → current_token p = Some t → type t = HUNT →
  parses (parse_function_def fuel parse_statement_list) p (strictly p) (moved p).
Proof.
  intros Hs Hf Ht Hty. unfold parse_function_def.
  expects t1 p1 Hty1 Htyped1 Hs1 Hp1 Hmove1.
  expects t2 p2 Hty2 Htyped2 Hs2 Hp2 Hmove2.
  expects t3 p3 Hty3 Htyped3 Hs3 Hp3 Hmove3.
  eapply parses_bind; [apply parses_parse_param_list; [done|bound]|upward'|].
  intros parameters p4 Hs4 Hp4 _.
  expects t5 p5 Hty5 Htyped5 Hs5 Hp5 Hmove5.
  expects t6 p6 Hty6 Htyped6 Hs6 Hp6 Hmove6.
  eapply parses_bind; [apply parses_nested; [done|bound]|upward'|].
  intros body p7 Hs7 Hp7 _.
  expects t8 p8 Hty8 Htyped8 Hs8 Hp8 Hmove8.
  apply parses_text_value; [done|by rewrite Hty2|]. intros nm.
  apply parses_ret; [done|bound].
Qed.

Lemma parses_parse_if_statement p t :
  on_stream p → left_over p ≤ fuel → current_token p = Some t → type t = PURR →
  parses (parse_if_statement fuel parse_statement_list) p (strictly p) (moved p).
Proof.
  intros Hs Hf Ht Hty. unfold parse_if_statement.
  expects t1 p1 Hty1 Htyped1 Hs1 Hp1 Hmove1.
  expects t2 p2 Hty2 Htyped2 Hs2 Hp2 Hmove2.
  eapply parses_bind; [apply parses_expression; [done|bound]|upward'|].
  intros condition p3 Hs3 Hp3 _.
  expects t4 p4 Hty4 Htyped4 Hs4 Hp4 Hmove4.
  expects t5 p5 Hty5 Htyped5 Hs5 Hp5 Hmove5.
  eapply parses_bind; [apply parses_nested; [done|bound]|upward'|].
  intros then_block p6 Hs6 Hp6 _.
  expects t7 p7 Hty7 Htyped7 Hs7 Hp7 Hmove7.
  apply parses_matches; [done|]. intros t8 Ht8 Htyped8.
  eapply parses_bind with (Q1 := λ _ _, True) (E1 := whatever); [|upward'|].
  - case_bool_decide as Hin; [|by apply parses_ret].
    destruct (textual_elem [HISS] _ eq_refl Hin) as [_ Hne].
    apply parses_advance; [done|]. intros p8 Hs8 Hp8 Hmove8.
    specialize (Hmove8 t8 Ht8 Hne).
    apply parses_expect; [done..|]. intros t9 p9 _ _ _ Hs9 Hp9 Hmove9.
    specialize (Hmove9 ltac:(done)).
    eapply parses_bind; [apply parses_nested; [done|bound]|upward|].
    intros block p10 Hs10 Hp10 _.
    apply parses_expect; [done..|]. intros t11 p11 _ _ _ Hs11 Hp11 _.
    by apply parses_ret.
  - intros else_block p12 Hs12 Hp12 _. apply parses_ret; [done|bound].
Qed.

Lemma parses_parse_while_loop p t :
  on_stream p → left_over p ≤ fuel → current_token p = Some t → type t = CHASE →
  parses (parse_while_loop fuel parse_statement_list) p (strictly p) (moved p).
Proof.
  intros Hs Hf Ht Hty. unfold parse_while_loop.
  expects t1 p1 Hty1 Htyped1 Hs1 Hp1 Hmove1.
  expects t2 p2 Hty2 Htyped2 Hs2 Hp2 Hmove2.
  eapply parses_bind; [apply parses_expression; [done|bound]|upward'|].
  intros condition p3 Hs3 Hp3 _.
  expects t4 p4 Hty4 Htyped4 Hs4 Hp4 Hmove4.
  expects t5 p5 Hty5 Htyped5 Hs5 Hp5 Hmove5.
  eapply parses_bind; [apply parses_nested; [done|bound]|upward'|].
  intros body p6 Hs6 Hp6 _.
  expects t7 p7 Hty7 Htyped7 Hs7 Hp7 Hmove7.
  apply parses_ret; [done|bound].
Qed.

Lemma parses_parse_return_statement p t :
  on_stream p → left_over p ≤ fuel → current_token p = Some t → type t = BRING →
  parses (parse_return_statement fuel) p (strictly p) (moved p).
Proof.
  intros Hs Hf Ht Hty. unfold parse_return_statement.
  expects t1 p1 Hty1 Htyped1 Hs1 Hp1 Hmove1.
  eapply parses_bind; [apply parses_expression; [done|bound]|upward'|].
  intros v p3 Hs3 Hp3 _.
  apply parses_ret; [done|bound].
Qed.

Lemma parses_parse_print_statement p t :
  on_stream p → left_over p ≤ fuel → current_token p = Some t → type t = MEOW →
  parses (parse_print_statement fuel) p (strictly p) (moved p).
Proof.
  intros Hs Hf Ht Hty. unfold parse_print_statement.
  expects t1 p1 Hty1 Htyped1 Hs1 Hp1 Hmove1.
  expects t2 p2 Hty2 Htyped2 Hs2 Hp2 Hmove2.
  eapply parses_bind; [apply parses_expression; [done|bound]|upward'|].
  intros v p3 Hs3 Hp3 _.
  expects t4 p4 Hty4 Htyped4 Hs4 Hp4 Hmove4.
  apply parses_ret; [done|bound].
Qed.


(** A statement: when it raises where it started, it started on a token
    that starts no statement. *)
Lemma parses_parse_statement p :
  on_stream p → left_over p ≤ fuel →
  parses (parse_statement fuel parse_statement_list) p
    (λ o p', match o with
             | Some _ => pos p < pos p'
             | None => ∃ t, current_token p = Some t ∧ type t = EOF
             end)
    (λ p', pos p < pos p' ∨ ∃ t, current_token p = Some t ∧ type t ∉ starters).
Proof.
  intros Hs Hf. unfold parse_statement.
  assert (Hchosen : ∀ (m : P StatementNode),
    parses m p (strictly p) (moved p) →
    parses (let* s := m in ret (Some s)) p
      (λ o p', match o with
               | Some _ => pos p < pos p'
               | None => ∃ t, current_token p = Some t ∧ type t = EOF
               end)
      (λ p', pos p < pos p' ∨ ∃ t, current_token p = Some t ∧ type t ∉ starters)).
  { intros m Hm. eapply parses_bind; [exact Hm|by intros p' _ H; left|].
    intros s p1 Hs1 Hp1 HQ. by apply parses_ret. }
  apply parses_matches; [done|]. intros t Ht Htyped.
  case_bool_decide as Hbox.
  { apply list_elem_of_singleton in Hbox. by eapply Hchosen, parses_parse_var_declaration. }
  apply parses_matches; [done|]. again t.
  case_bool_decide as Hhunt.
  { apply list_elem_of_singleton in Hhunt. by eapply Hchosen, parses_parse_function_def. }
  apply parses_matches; [done|]. again t.
  case_bool_decide as Hpurr.
  { apply list_elem_of_singleton in Hpurr. by eapply Hchosen, parses_parse_if_statement. }
  apply parses_matches; [done|]. again t.
  case_bool_decide as Hchase.
  { apply list_elem_of_singleton in Hchase. by eapply Hchosen, parses_parse_while_loop. }
  apply parses_matches; [done|]. again t.
  case_bool_decide as Hbring.
  { apply list_elem_of_singleton in Hbring.
    by eapply Hchosen, parses_parse_return_statement. }
  apply parses_matches; [done|]. again t.
  case_bool_decide as Hmeow.
  { apply list_elem_of_singleton in Hmeow.
    by eapply Hchosen, parses_parse_print_statement. }
  apply parses_matches; [done|]. again t.
  apply parses_current; [done|]. again t.
  case_bool_decide as Hidentifier.
  - apply list_elem_of_singleton in Hidentifier.
    assert (HE : ∃ t, current_token p = Some t ∧ type t ∉ starters).
    { exists t. split; [done|]. rewrite Hidentifier. compute_done. }
    apply parses_peek_is. intros [|].
    + eapply parses_bind; [by apply parses_parse_assignment|by right|].
      intros s p1 Hs1 Hp1 HQ. by apply parses_ret.
    + apply parses_peek_is. intros [|].
      * eapply parses_bind;
          [apply (parses_parse_function_call (parse_expression fuel) fuel);
             [intros p1 Hs1 Hf1; by apply parses_expression|done|lia|lia]
          |by right|].
        intros [[[ln col] nm] arguments] p1 Hs1 Hp1 HQ. by apply parses_ret.
      * apply parses_text_value; [done|by rewrite Hidentifier|]. intros identifier.
        apply parses_raise; [done|by right].
  - apply parses_matches; [done|]. again t.
    case_bool_decide as Heof.
    + apply list_elem_of_singleton in Heof. apply parses_ret; [done|]. eauto.
    + apply parses_raise; [done|]. right. exists t. split; [done|].
      by apply not_starter.
Qed.

End statement_grammar.

Lemma parses_statement_lists fuel :
  (∀ p, on_stream p → left_over p + 2 ≤ fuel →
        parses (parse_statement_list fuel) p (λ _ _, True) whatever)
  ∧ (∀ statements p, on_stream p → left_over p < fuel →
        parses (statement_list_loop fuel statements) p (λ _ _, True) whatever).
Proof.
  induction fuel as [|fuel [IH1 IH2]]; [split; intros; lia|]. split.
  { intros p Hs Hf. cbn [parse_statement_list]. apply IH2; [done|lia]. }
  intros statements p Hs Hf. cbn [statement_list_loop].
  apply parses_matches; [done|]. intros t Ht Htyped.
  case_bool_decide as Hend; [by apply parses_ret|].
  eapply parses_bind with (Q1 := λ _ p', pos p < pos p') (E1 := whatever); [|upward|].
  2: { intros stmts p2 Hs2 Hp2 HQ. apply IH2; [done|bound]. }
  eapply parses_try_except.
  - eapply parses_bind;
      [apply (parses_parse_statement fuel (parse_statement_list fuel) IH1); [done|lia]
      |intros p' _ H; exact H|].
    intros [stmt|] p1 Hs1 Hp1 HQ; [by apply parses_ret|].
    destruct HQ as (t' & Ht' & Heof). exfalso. apply Hend.
    assert (t' = t) as -> by congruence. rewrite Heof. compute_done.
  - intros message token p1 Hs1 Hp1 HE.
    apply parses_print; [|done]. intros p1a Hs1a Hpos1a Hcur1a.
    apply parses_print; [|by apply Hs1a]. intros p1b Hs1b Hpos1b Hcur1b.
    specialize (Hs1b (Hs1a Hs1)).
    eapply parses_bind; [apply parses_recover_from_error; [done|bound]|by intros ? ? []|].
    intros [] p2 Hs2 Hp2 HQ. apply parses_ret; [done|].
    destruct HE as [HE|(t' & Ht' & Hstart)]; [lia|].
    assert (t' = t) as -> by congruence.
    destruct (decide (pos p1 = pos p)) as [Heq|]; [|lia].
    assert (Hcur : current_token p1b = Some t).
    { rewrite Hcur1b, Hcur1a. destruct Hs1 as (_ & -> & _). destruct Hs as (_ & Hc & _).
      by rewrite Heq, <- Hc. }
    specialize (HQ t Hcur (not_sync _ Hstart Hend)). lia.
Qed.

(** What [parse_program] has read when it returns: [Wake] where it
    started and, further on, [Sleep] with [EOF] next to it. *)
Definition wake_to_sleep (p : Parser) (tree : ProgramNode) : Prop :=
  ∃ wake i sleep eof,
    current_token p = Some wake ∧ type wake = WAKE
    ∧ program_line tree = line wake ∧ program_column tree = column wake
    ∧ pos p < i ∧ toks !! i = Some sleep ∧ type sleep = SLEEP
    ∧ toks !! S i = Some eof ∧ type eof = EOF.

Lemma parses_parse_program fuel p :
  on_stream p → left_over p < fuel →
  parses (parse_program fuel) p (λ tree _, wake_to_sleep p tree) whatever.
Proof.
  intros Hs Hf. unfold parse_program.
  apply parses_expect; [done..|]. intros t1 p1 Ht1 Hty1 _ Hs1 Hp1 Hmove1.
  specialize (Hmove1 ltac:(done)).
  eapply parses_bind; [apply parses_statement_lists; [done|bound]|upward|].
  intros stmts p2 Hs2 Hp2 _.
  apply parses_expect; [done..|]. intros t3 p3 Ht3 Hty3 _ Hs3 Hp3 Hmove3.
  specialize (Hmove3 ltac:(done)).
  apply parses_expect; [done..|]. intros t4 p4 Ht4 Hty4 _ Hs4 Hp4 _.
  apply parses_ret; [done|]. exists t1, (pos p2), t3, t4.
  destruct Hs2 as (_ & Hc2 & _). destruct Hs3 as (_ & Hc3 & _).
  rewrite Hc2 in Ht3. rewrite Hc3, Hmove3 in Ht4.
  repeat split; try done. lia.
Qed.

Lemma parses_parse_method fuel p :
  on_stream p → left_over p < fuel →
  parses (parse_method fuel) p (λ tree _, wake_to_sleep p tree) whatever.
Proof.
  intros Hs Hf. unfold parse_method.
  eapply parses_try_except; [by apply parses_parse_program|].
  intros message token p1 Hs1 Hp1 _.
  apply parses_print; [|done]. intros p2 Hs2 _ _. specialize (Hs2 Hs1).
  apply parses_print; [|done]. intros p3 Hs3 _ _. specialize (Hs3 Hs2).
  apply parses_print; [|done]. intros p4 Hs4 _ _. specialize (Hs4 Hs3).
  apply parses_print; [|done]. intros p5 Hs5 _ _. specialize (Hs5 Hs4).
  apply parses_print; [|done]. intros p6 Hs6 _ _. specialize (Hs6 Hs5).
  by apply parses_raise.
Qed.

Lemma on_stream_Parser_init : on_stream (Parser_init toks).
Proof.
  destruct toks_stream as (front & eof & E & _).
  split; [done|]. split; [simpl; by rewrite head_lookup|]. simpl. rewrite E, length_app. simpl. lia.
Qed.

End stream.

Lemma parse_runs fuel toks :
  token_stream toks → length toks < fuel →
  match fst (parse fuel toks) with
  | Returns tree => wake_to_sleep toks (Parser_init toks) tree
  | Raises (ParserError _ _) => True
  | Raises _ => False
  end.
Proof.
  intros Hstream Hfuel. unfold parse. cbn [fst].
  pose proof (parses_parse_method toks Hstream fuel (Parser_init toks)
                (on_stream_Parser_init toks Hstream)) as H.
  unfold parses in H.
  destruct (parse_method fuel (Parser_init toks)) as [[tree|[message token| | |]] p'];
    try done; apply H; unfold left_over; simpl; lia.
Qed.

(** A list with [Wake] first and [Sleep], [EOF] last. *)
Lemma wake_to_sleep_list toks tree :
  token_stream toks → wake_to_sleep toks (Parser_init toks) tree →
  ∃ wake middle sleep eof,
    toks = wake :: (middle ++ [sleep; eof])%list
    ∧ type wake = WAKE ∧ type sleep = SLEEP ∧ type eof = EOF
    ∧ program_line tree = line wake ∧ program_column tree = column wake.
Proof.
  intros Hstream (wake & i & sleep & eof & Hw & Htw & Hl & Hc & Hi & Hs & Hts & He & Hte).
  pose proof (stream_last toks Hstream _ _ He Hte) as Hlen.
  destruct toks as [|t rest]; [done|]. simpl in Hw. injection Hw as ->.
  destruct i as [|i]; [simpl in Hi; lia|]. simpl in Hs, He, Hlen.
  exists wake, (take i rest), sleep, eof. repeat split; try done. f_equal.
  rewrite <- (take_drop i rest) at 1. f_equal.
  rewrite (drop_S _ _ _ Hs), (drop_S _ _ _ He). rewrite drop_ge by lia. done.
Qed.


(** *** The errors that end the parse *)

Lemma expect_raises ty p message token p' :
  expect ty p = (Raises (ParserError message token), p') →
  current_token p = Some token ∧ type token ≠ ty
  ∧ message = ("Expected " ++ TokenType_name ty ++ ", got "
               ++ TokenType_name (type token))%string
  ∧ p' = p.
Proof.
  unfold expect. rewrite parser_bind_eq. unfold current.
  destruct (current_token p) as [t|]; [|discriminate].
  case_bool_decide as Hne.
  - unfold raise. intros [= <- <- <-]. done.
  - rewrite parser_bind_eq. unfold advance, ret. discriminate.
Qed.

Lemma statement_list_loop_returns fuel : ∀ statements p stmts p',
  statement_list_loop fuel statements p = (Returns stmts, p') →
  ∃ t, current_token p' = Some t ∧ type t ∈ [SLEEP; RBRACE; EOF].
Proof.
  induction fuel as [|fuel IH]; intros statements p stmts p' H; simpl in H;
    [discriminate|].
  rewrite parser_bind_eq, matches_eq in H.
  destruct (current_token p) as [t|] eqn:Ht; [|discriminate].
  case_bool_decide as Hend.
  - injection H as <- <-. eauto.
  - rewrite parser_bind_eq in H.
    match type of H with
    | context [try_except ?m ?h p] => destruct (try_except m h p) as [[x|e] p1]
    end; [by eapply IH|discriminate].
Qed.

Lemma parse_statement_list_returns fuel p stmts p' :
  parse_statement_list fuel p = (Returns stmts, p') →
  ∃ t, current_token p' = Some t ∧ type t ∈ [SLEEP; RBRACE; EOF].
Proof. destruct fuel; simpl; [discriminate|]. apply statement_list_loop_returns. Qed.

(** The banner [Parser.parse] prints around the error it passes on. *)
Definition banner (message : string) (token : Token) : list string :=
  [String newline rule; "SYNTAX ERROR"; rule; ParserError_str message token;
   (rule ++ String newline EmptyString)%string].

Lemma parse_program_raises fuel p message token p' :
  parse_program fuel p = (Raises (ParserError message token), p') →
  ∃ expected,
    expected ∈ [WAKE; SLEEP; EOF] ∧ type token ≠ expected
    ∧ message = ("Expected " ++ TokenType_name expected ++ ", got "
                 ++ TokenType_name (type token))%string
    ∧ (expected = SLEEP → type token ∈ [RBRACE; EOF]).
Proof.
  unfold parse_program. rewrite parser_bind_eq.
  destruct (expect WAKE p) as [[wake|e1] p1] eqn:E1.
  2: { intros [= -> ->]. apply expect_raises in E1 as (_ & Hne & -> & _).
       exists WAKE. split; [compute_done|]. done. }
  rewrite parser_bind_eq.
  destruct (parse_statement_list fuel p1) as [[stmts|e2] p2] eqn:E2.
  2: { intros [= -> ->]. exfalso.
       by apply (parse_statement_list_no_ParserError fuel p1 message token); rewrite E2. }
  apply parse_statement_list_returns in E2 as (t & Ht & Hend).
  rewrite parser_bind_eq.
  destruct (expect SLEEP p2) as [[sleep|e3] p3] eqn:E3.
  2: { intros [= -> ->]. apply expect_raises in E3 as (Ht' & Hne & -> & _).
       exists SLEEP. split; [compute_done|]. split; [done|]. split; [done|].
       intros _. assert (t = token) as -> by congruence.
       apply elem_of_cons in Hend as [Hend|Hend]; [done|exact Hend]. }
  rewrite parser_bind_eq.
  destruct (expect EOF p3) as [[eof|e4] p4] eqn:E4; [discriminate|].
  intros [= -> ->]. apply expect_raises in E4 as (_ & Hne & -> & _).
  exists EOF. split; [compute_done|]. done.
Qed.

(** *** [recover_from_error] *)

Lemma recover_from_error_skipping n : ∀ toks i t u printed fuel,
  toks !! i = Some t → toks !! (i + n) = Some u → type u ∈ sync_tokens →
  (∀ k v, i ≤ k < i + n → toks !! k = Some v → type v ∉ sync_tokens) →
  n < fuel →
  recover_from_error fuel (mkParser toks i (Some t) printed)
  = (Returns tt, mkParser toks (i + n) (Some u) printed).
Proof.
  induction n as [|n IH]; intros toks i t u printed [|fuel] Ht Hu Hsync Hskip Hfuel;
    try lia; cbn [recover_from_error]; rewrite parser_bind_eq, matches_eq;
    cbn [current_token].
  - rewrite Nat.add_0_r in *. assert (u = t) as -> by congruence.
    by rewrite bool_decide_eq_true_2.
  - rewrite bool_decide_eq_false_2 by (apply (Hskip i t); [lia|done]).
    rewrite parser_bind_eq. unfold advance. cbn [tokens pos].
    destruct (lookup_lt_is_Some_2 toks (i + 1)) as [v Hv].
    { apply lookup_lt_Some in Hu. lia. }
    rewrite Hv. cbn [output].
    replace (i + S n) with (i + 1 + n) in * by lia.
    apply IH; [done..| |lia]. intros k w Hk. apply Hskip. lia.
Qed.

Lemma recover_from_error_no_sync fuel : ∀ toks i t printed,
  toks !! i = Some t →
  (∀ k v, i ≤ k → toks !! k = Some v → type v ∉ sync_tokens) →
  fst (recover_from_error fuel (mkParser toks i (Some t) printed)) = Raises OutOfFuel.
Proof.
  induction fuel as [|fuel IH]; intros toks i t printed Ht Hnone; [done|].
  cbn [recover_from_error]. rewrite parser_bind_eq, matches_eq. cbn [current_token].
  rewrite bool_decide_eq_false_2 by (apply (Hnone i t); [lia|done]).
  rewrite parser_bind_eq. unfold advance. cbn [tokens pos].
  destruct (toks !! (i + 1)) as [v|] eqn:Hv.
  - cbn [output]. apply IH; [done|]. intros k w Hk. apply Hnone. lia.
  - by apply IH.
Qed.


(** *** The parser on the tokens of the lexer *)

(** X20: on a token list of the lexer (typed tokens, [EOF] last and
    only there), and with [fuel], which stands for the recursion limit
    of the interpreter, above the number of tokens, [parse] returns a
    tree or raises [ParserError].  The parser raises nothing else of
    its own: [current_token] is never [None], every value read is of
    the kind of its token, and no loop or recursion of the parser goes
    on longer than there are tokens.  What remains is the
    [RecursionError] of an interpreter whose limit the nesting of the
    text exceeds. *)
Theorem parse_raises_only_ParserError fuel toks :
  token_stream toks → length toks < fuel →
  (∃ tree, fst (parse fuel toks) = Returns tree)
  ∨ (∃ message token, fst (parse fuel toks) = Raises (ParserError message token)).
Proof.
  intros Hstream Hfuel. pose proof (parse_runs fuel toks Hstream Hfuel) as H.
  destruct (fst (parse fuel toks)) as [tree|[message token| | |]];
    [left; eauto|right; eauto|done..].
Qed.

(** X21: when [parse] returns a tree for a token list of the lexer, the
    list is a [Wake] token, the tokens of the statements, a [Sleep]
    token and [EOF]; the tree has the line and the column of [Wake]. *)
Theorem parse_returns_wake_to_sleep fuel toks tree printed :
  token_stream toks → length toks < fuel →
  parse fuel toks = (Returns tree, printed) →
  ∃ wake middle sleep eof,
    toks = wake :: (middle ++ [sleep; eof])%list
    ∧ type wake = WAKE ∧ type sleep = SLEEP ∧ type eof = EOF
    ∧ program_line tree = line wake ∧ program_column tree = column wake.
Proof.
  intros Hstream Hfuel Hparse. pose proof (parse_runs fuel toks Hstream Hfuel) as H.
  rewrite Hparse in H. by apply wake_to_sleep_list.
Qed.

(** X22: the [ParserError] that [parse] raises comes from one of the
    three [expect] calls of [parse_program], since the statement list
    keeps its errors: the message is [Expected WAKE], [Expected SLEEP]
    or [Expected EOF] with the type of the token found, and where
    [Sleep] is missing the token found is [RBRACE] or [EOF].  The
    banner with the error is the last thing printed. *)
Theorem parse_fatal_errors fuel toks message token printed :
  parse fuel toks = (Raises (ParserError message token), printed) →
  (∃ expected,
     expected ∈ [WAKE; SLEEP; EOF] ∧ type token ≠ expected
     ∧ message = ("Expected " ++ TokenType_name expected ++ ", got "
                  ++ TokenType_name (type token))%string
     ∧ (expected = SLEEP → type token ∈ [RBRACE; EOF]))
  ∧ ∃ earlier, printed = (earlier ++ banner message token)%list.
Proof.
  unfold parse, parse_method, try_except.
  destruct (parse_program fuel (Parser_init toks)) as [[tree|[m t| | |]] p1] eqn:Hprog;
    cbn [fst snd]; try discriminate.
  repeat first [rewrite parser_bind_eq | progress unfold print | progress cbv beta iota].
  unfold raise. cbn [fst snd output]. intros [= -> -> <-].
  split; [by eapply parse_program_raises|].
  exists (output p1). unfold banner. by rewrite <- !app_assoc.
Qed.

(** X23: [recover_from_error] moves the parser to the first token, from
    the current one on, whose type is in the synchronization set, and
    leaves everything else as it is. *)
Theorem recover_from_error_stops toks i j t u printed fuel :
  toks !! i = Some t → i ≤ j → toks !! j = Some u → type u ∈ sync_tokens →
  (∀ k v, i ≤ k < j → toks !! k = Some v → type v ∉ sync_tokens) →
  j - i < fuel →
  recover_from_error fuel (mkParser toks i (Some t) printed)
  = (Returns tt, mkParser toks j (Some u) printed).
Proof.
  intros Ht Hij Hu Hsync Hskip Hfuel.
  replace j with (i + (j - i)) in Hu, Hskip |- * by lia.
  by apply recover_from_error_skipping.
Qed.

(** X24: when no token from the current one on is in the
    synchronization set, [recover_from_error] does not return: at the
    last token [advance] stays where it is, and the loop goes on. *)
Theorem recover_from_error_never_returns toks i t printed :
  toks !! i = Some t →
  (∀ k v, i ≤ k → toks !! k = Some v → type v ∉ sync_tokens) →
  ∀ fuel,
    fst (recover_from_error fuel (mkParser toks i (Some t) printed)) = Raises OutOfFuel.
Proof. intros Ht Hnone fuel. by apply recover_from_error_no_sync. Qed.

(** The tokens of [Wake Meow(1) Sleep], of [Sleep] and of [+ 1 Box]. *)
Definition meow_tokens : list Token :=
  [mkToken WAKE (VStr "Wake") 1 1; mkToken MEOW (VStr "Meow") 1 6;
   mkToken LPAREN (VStr "(") 1 10; mkToken INTEGER (VInt 1) 1 11;
   mkToken RPAREN (VStr ")") 1 12; mkToken SLEEP (VStr "Sleep") 1 14;
   mkToken EOF VNone 1 19].

Definition sleep_tokens : list Token :=
  [mkToken SLEEP (VStr "Sleep") 1 1; mkToken EOF VNone 1 6].

Definition stray_tokens : list Token :=
  [mkToken PLUS (VStr "+") 1 1; mkToken INTEGER (VInt 1) 1 3;
   mkToken BOX (VStr "Box") 1 5; mkToken EOF VNone 1 8].

Lemma meow_tokens_stream : token_stream meow_tokens.
Proof.
  pose proof (lexer_facts.tokenize_runs True main.no_float_of_string "Wake Meow(1) Sleep"
                (λ _, I)) as H.
  vm_compute (tokenize _ _) in H. exact (proj1 H).
Defined.

Lemma parse_raises_only_ParserError_witness :
  (∃ tree, fst (parse 8 meow_tokens) = Returns tree)
  ∨ (∃ message token, fst (parse 8 meow_tokens) = Raises (ParserError message token)).
Proof.
  apply (parse_raises_only_ParserError 8 meow_tokens);
    [exact meow_tokens_stream|simpl; lia].
Defined.

Lemma parse_returns_wake_to_sleep_witness :
  ∃ wake middle sleep eof,
    meow_tokens = wake :: (middle ++ [sleep; eof])%list
    ∧ type wake = WAKE ∧ type sleep = SLEEP ∧ type eof = EOF
    ∧ program_line (mkProgramNode 1 1 [PrintStatementNode 1 6 (IntegerNode 1 11 1)])
      = line wake
    ∧ program_column (mkProgramNode 1 1 [PrintStatementNode 1 6 (IntegerNode 1 11 1)])
      = column wake.
Proof.
  apply (parse_returns_wake_to_sleep 8 meow_tokens _ []);
    [exact meow_tokens_stream|simpl; lia|vm_compute; reflexivity].
Defined.

Lemma parse_fatal_errors_witness :
  (∃ expected,
     expected ∈ [WAKE; SLEEP; EOF] ∧ SLEEP ≠ expected
     ∧ "Expected WAKE, got SLEEP"
       = ("Expected " ++ TokenType_name expected ++ ", got SLEEP")%string
     ∧ (expected = SLEEP → SLEEP ∈ [RBRACE; EOF]))
  ∧ ∃ earlier,
      banner "Expected WAKE, got SLEEP" (mkToken SLEEP (VStr "Sleep") 1 1)
      = (earlier ++ banner "Expected WAKE, got SLEEP" (mkToken SLEEP (VStr "Sleep") 1 1))%list.
Proof.
  apply (parse_fatal_errors 8 sleep_tokens "Expected WAKE, got SLEEP"
           (mkToken SLEEP (VStr "Sleep") 1 1)).
  vm_compute. reflexivity.
Defined.

Lemma recover_from_error_stops_witness :
  recover_from_error 3 (mkParser stray_tokens 0 (Some (mkToken PLUS (VStr "+") 1 1)) [])
  = (Returns tt, mkParser stray_tokens 2 (Some (mkToken BOX (VStr "Box") 1 5)) []).
Proof.
  apply (recover_from_error_stops stray_tokens 0 2); try reflexivity; try lia.
  - compute_done.
  - intros [|[|k]] v Hk; [intros [= <-]; compute_done..|lia].
Defined.

Lemma recover_from_error_never_returns_witness :
  fst (recover_from_error 5
         (mkParser [mkToken PLUS (VStr "+") 1 1] 0 (Some (mkToken PLUS (VStr "+") 1 1)) []))
  = Raises OutOfFuel.
Proof.
  apply (recover_from_error_never_returns [mkToken PLUS (VStr "+") 1 1] 0); [reflexivity|].
  intros [|k] v _; [intros [= <-]; compute_done|discriminate].
Defined.

(** *** Expressions written out and parsed back *)

Import ast_facts.

(** The token type of an operator. *)
Definition binary_table : list (string * TokenType) :=
  [("+", PLUS); ("-", MINUS); ("*", MULTIPLY); ("/", DIVIDE); ("%", MODULO);
   ("==", EQUAL); ("!=", NOT_EQUAL); ("<", LESS); (">", GREATER);
   ("<=", LESS_EQUAL); (">=", GREATER_EQUAL); ("&&", AND); ("||", OR)].

Definition binary_type (op : string) : TokenType :=
  match List.find (λ x, String.eqb (fst x) op) binary_table with
  | Some x => snd x
  | None => PLUS
  end.

Definition unary_type (op : string) : TokenType :=
  if String.eqb op "!" then NOT else MINUS.

(** A parenthesis or a comma; the parser does not read where it stands. *)
Definition punctuation (ty : TokenType) (text : string) : Token :=
  mkToken ty (VStr text) 0 0.

Fixpoint separated (parts : list (list Token)) : list Token :=
  match parts with
  | [] => []
  | [part] => part
  | part :: parts => part ++ punctuation COMMA "," :: separated parts
  end.

(** How tightly an operator binds, from 0 for [||] to 5 for [*], [/]
    and [%]; what is not a binary operation binds tightest. *)
Definition precedence (op : string) : nat :=
  match binary_type op with
  | OR => 0
  | AND => 1
  | EQUAL | NOT_EQUAL => 2
  | LESS | GREATER | LESS_EQUAL | GREATER_EQUAL => 3
  | PLUS | MINUS => 4
  | _ => 5
  end.

Definition tightness (e : ExpressionNode) : nat :=
  match e with
  | BinaryOpNode _ _ op _ _ => precedence op
  | _ => 6
  end.

(** The tokens of an expression, with the parentheses that are needed
    and no other: around the left operand of a binary operation when it
    binds less tightly than the operation, around the right operand when
    it does not bind more tightly, and around a binary operation under a
    unary operator.  Every node gives the token that carries its line
    and column. *)
Fixpoint tokens_of (e : ExpressionNode) : list Token :=
  let within (k : nat) (x : ExpressionNode) :=
    if tightness x <? k
    then punctuation LPAREN "(" :: tokens_of x ++ [punctuation RPAREN ")"]
    else tokens_of x in
  match e with
  | BinaryOpNode ln col op l r =>
      within (precedence op) l
      ++ mkToken (binary_type op) (VStr op) ln col :: within (S (precedence op)) r
  | UnaryOpNode ln col op x => mkToken (unary_type op) (VStr op) ln col :: within 6 x
  | IntegerNode ln col v => [mkToken INTEGER (VInt v) ln col]
  | FloatNode ln col v => [mkToken FLOAT (VFloat v) ln col]
  | StringNode ln col v => [mkToken STRING (VStr v) ln col]
  | IdentifierNode ln col nm => [mkToken IDENTIFIER (VStr nm) ln col]
  | FunctionCallNode ln col nm args =>
      mkToken IDENTIFIER (VStr nm) ln col :: punctuation LPAREN "("
      :: separated (map tokens_of args) ++ [punctuation RPAREN ")"]
  | OtherExpression _ _ => []
  end.

(** The tokens of an operand where level [k] or tighter is asked for. *)
Definition tokens_within (k : nat) (x : ExpressionNode) : list Token :=
  if tightness x <? k
  then punctuation LPAREN "(" :: tokens_of x ++ [punctuation RPAREN ")"]
  else tokens_of x.

(** The expressions the parser can build: operators of the language, and
    no node of the base class. *)
Fixpoint expressible (e : ExpressionNode) : bool :=
  match e with
  | BinaryOpNode _ _ op l r =>
      bool_decide (op ∈ binary_operators) && expressible l && expressible r
  | UnaryOpNode _ _ op x => bool_decide (op ∈ unary_operators) && expressible x
  | FunctionCallNode _ _ _ args => forallb expressible args
  | OtherExpression _ _ => false
  | _ => true
  end.

(** A token after which no expression goes on: no binary operator and
    no opening parenthesis. *)
Definition closes (t : Token) : Prop :=
  type t ∉ [OR; AND; EQUAL; NOT_EQUAL; LESS; GREATER; LESS_EQUAL; GREATER_EQUAL;
            PLUS; MINUS; MULTIPLY; DIVIDE; MODULO; LPAREN].

(** The parser that has read [pre] and has [rest] before it. *)
Definition standing (pre rest : list Token) (printed : list string) : Parser :=
  mkParser (pre ++ rest) (length pre) (head rest) printed.

(** [m] reads the tokens [ts] and returns [x], when the token after
    them satisfies [next]. *)
Definition consumes {A} (m : P A) (ts : list Token) (x : A) (next : Token → Prop) : Prop :=
  ∀ pre h rest printed, next h →
    m (standing pre (ts ++ h :: rest) printed)
    = (Returns x, standing (pre ++ ts) (h :: rest) printed).

Lemma consumes_ret {A} (x : A) next : consumes (ret x) [] x next.
Proof. intros pre h rest printed _. unfold ret. by rewrite app_nil_r. Qed.

Lemma consumes_app {A B} (m : P A) (k : A → P B) ts1 ts2 x y (next1 next : Token → Prop) :
  consumes m ts1 x next1 → consumes (k x) ts2 y next →
  (∀ h, next h → next1 (hd h ts2)) →
  consumes (bind m k) (ts1 ++ ts2) y next.
Proof.
  intros Hm Hk Hnext pre h rest printed Hh. rewrite parser_bind_eq, <- app_assoc.
  specialize (Hk (pre ++ ts1)%list h rest printed Hh). specialize (Hnext h Hh).
  destruct ts2 as [|t ts2]; simpl in *.
  - rewrite (Hm pre h rest printed Hnext), Hk. by rewrite !app_nil_r.
  - rewrite (Hm pre t (ts2 ++ h :: rest)%list printed Hnext), Hk. by rewrite <- app_assoc.
Qed.

Lemma consumes_pure {A B} (m : P A) (k : A → P B) ts x y (next1 next : Token → Prop) :
  consumes m [] x next1 → consumes (k x) ts y next →
  (∀ h, next h → next1 (hd h ts)) →
  consumes (bind m k) ts y next.
Proof. apply (consumes_app m k [] ts). Qed.

Lemma consumes_cons {A B} (m : P A) (k : A → P B) t ts x y (next : Token → Prop) :
  consumes m [t] x (λ _, True) → consumes (k x) ts y next →
  consumes (bind m k) (t :: ts) y next.
Proof. intros Hm Hk. by apply (consumes_app m k [t] ts x y (λ _, True)). Qed.

Lemma consumes_weaken {A} (m : P A) ts x (next1 next : Token → Prop) :
  consumes m ts x next1 → (∀ h, next h → next1 h) → consumes m ts x next.
Proof. intros Hm H pre h rest printed Hh. apply Hm, H, Hh. Qed.

Lemma consumes_matches tys b :
  consumes (matches tys) [] b (λ h, bool_decide (type h ∈ tys) = b).
Proof.
  intros pre h rest printed Hh. rewrite matches_eq. simpl. by rewrite Hh, app_nil_r.
Qed.

Lemma consumes_current t : consumes current [] t (λ h, h = t).
Proof. intros pre h rest printed ->. unfold current. simpl. by rewrite app_nil_r. Qed.

Lemma consumes_text_value t s next :
  value t = VStr s → consumes (text_value t) [] s next.
Proof. intros Ht. unfold text_value. rewrite Ht. apply consumes_ret. Qed.

Lemma consumes_int_value t z next :
  value t = VInt z → consumes (int_value t) [] z next.
Proof. intros Ht. unfold int_value. rewrite Ht. apply consumes_ret. Qed.

Lemma consumes_float_value t f next :
  value t = VFloat f → consumes (float_value t) [] f next.
Proof. intros Ht. unfold float_value. rewrite Ht. apply consumes_ret. Qed.

Lemma lookup_standing (pre : list Token) t rest :
  (pre ++ t :: rest)%list !! (length pre + 1) = head rest.
Proof.
  rewrite lookup_app_r by lia. replace (length pre + 1 - length pre) with 1 by lia.
  by destruct rest.
Qed.

Lemma consumes_advance t : consumes advance [t] tt (λ _, True).
Proof.
  intros pre h rest printed _. unfold advance, standing. cbn [tokens pos app].
  rewrite lookup_standing. cbn [head output]. rewrite <- app_assoc, length_app. done.
Qed.

Lemma consumes_expect ty t : type t = ty → consumes (expect ty) [t] t (λ _, True).
Proof.
  intros Hty. unfold expect.
  eapply consumes_pure with (x := t); [apply consumes_current| |done].
  rewrite bool_decide_eq_false_2 by (intros H; by apply H).
  eapply consumes_cons; [apply consumes_advance|apply consumes_ret].
Qed.

Lemma peek_is_standing ty pre t h rest printed :
  peek_is ty (standing pre (t :: h :: rest) printed)
  = (Returns (bool_decide (type h = ty)), standing pre (t :: h :: rest) printed).
Proof.
  unfold peek_is. rewrite parser_bind_eq. unfold peek, standing. cbn [tokens pos].
  by rewrite lookup_standing.
Qed.


Lemma consumes_then {A B} (m : P A) (k : A → P B) ts x y (next1 next : Token → Prop) :
  consumes m ts x next1 → consumes (k x) [] y next →
  (∀ h, next h → next1 h) →
  consumes (bind m k) ts y next.
Proof.
  intros Hm Hk Hnext. rewrite <- (app_nil_r ts). by eapply consumes_app.
Qed.

Lemma consumes_peek_is_not {A} ty (k : bool → P A) t y (next : Token → Prop) :
  consumes (k false) [t] y next → (∀ h, next h → type h ≠ ty) →
  consumes (bind (peek_is ty) k) [t] y next.
Proof.
  intros Hk Hnext pre h rest printed Hh. rewrite parser_bind_eq.
  change ([t] ++ h :: rest)%list with (t :: h :: rest).
  rewrite peek_is_standing, bool_decide_eq_false_2 by by apply Hnext.
  by apply Hk.
Qed.

Lemma consumes_peek_is {A} ty (k : bool → P A) t u ts y (next : Token → Prop) :
  type u = ty → consumes (k true) (t :: u :: ts) y next →
  consumes (bind (peek_is ty) k) (t :: u :: ts) y next.
Proof.
  intros Hu Hk pre h rest printed Hh. rewrite parser_bind_eq.
  change ((t :: u :: ts) ++ h :: rest)%list with (t :: u :: (ts ++ h :: rest))%list.
  rewrite peek_is_standing, bool_decide_eq_true_2 by done.
  by apply Hk.
Qed.

(** The guard [self.match(types)] at a token whose type is known. *)
Lemma consumes_guard {A} tys (k : bool → P A) t ts y (next : Token → Prop) :
  consumes (k (bool_decide (type t ∈ tys))) (t :: ts) y next →
  consumes (bind (matches tys) k) (t :: ts) y next.
Proof. intros Hk. eapply consumes_pure; [apply consumes_matches|exact Hk|done]. Qed.

Lemma consumes_token {A} (k : Token → P A) t ts y (next : Token → Prop) :
  consumes (k t) (t :: ts) y next → consumes (bind current k) (t :: ts) y next.
Proof. intros Hk. eapply consumes_pure; [apply consumes_current|exact Hk|done]. Qed.

(** *** The loops *)

Lemma consumes_binary_loop_stop fuel tys fixed parse_operand lhs :
  consumes (binary_loop (S fuel) tys fixed parse_operand lhs) [] lhs (λ h, type h ∉ tys).
Proof.
  cbn [binary_loop]. eapply consumes_pure with (x := false);
    [apply consumes_matches|apply consumes_ret|].
  intros h Hh. simpl. by apply bool_decide_eq_false_2.
Qed.

Lemma consumes_binary_loop_step fuel tys fixed parse_operand lhs token op ts r ts' y
  (next1 next : Token → Prop) :
  type token ∈ tys →
  match fixed with Some s => s = op | None => value token = VStr op end →
  consumes parse_operand ts r next1 →
  consumes (binary_loop fuel tys fixed parse_operand
              (BinaryOpNode (line token) (column token) op lhs r)) ts' y next →
  (∀ h, next h → next1 (hd h ts')) →
  consumes (binary_loop (S fuel) tys fixed parse_operand lhs) (token :: ts ++ ts') y next.
Proof.
  intros Hty Hop Hr Hloop Hnext. cbn [binary_loop]. apply consumes_guard.
  rewrite bool_decide_eq_true_2 by done.
  apply consumes_token.
  eapply consumes_pure with (x := op) (next1 := λ _, True); [| |done].
  { destruct fixed as [s|]; [subst s; apply consumes_ret|by apply consumes_text_value]. }
  eapply consumes_cons; [apply consumes_advance|].
  by eapply consumes_app.
Qed.

(** The six levels of binary operators, from the loosest to the tightest. *)
Definition levels : list (list TokenType * option string) :=
  [([OR], Some "||"); ([AND], Some "&&"); ([EQUAL; NOT_EQUAL], None);
   ([LESS; GREATER; LESS_EQUAL; GREATER_EQUAL], None); ([PLUS; MINUS], None);
   ([MULTIPLY; DIVIDE; MODULO], None)].

Fixpoint parse_level (parse_expression : P ExpressionNode) (fuel : nat)
  (ls : list (list TokenType * option string)) : P ExpressionNode :=
  match ls with
  | [] => parse_unary parse_expression fuel
  | (tys, fixed) :: ls =>
      let* left := parse_level parse_expression fuel ls in
      binary_loop fuel tys fixed (parse_level parse_expression fuel ls) left
  end.

Lemma parse_logical_or_levels parse_expression fuel :
  parse_logical_or parse_expression fuel = parse_level parse_expression fuel levels.
Proof. reflexivity. Qed.

Definition beyond (ls : list (list TokenType * option string)) (h : Token) : Prop :=
  Forall (λ l, type h ∉ fst l) ls.

(** *** The operators *)

Lemma binary_operator_level op :
  op ∈ binary_operators →
  ∃ tys fixed,
    levels !! precedence op = Some (tys, fixed)
    ∧ binary_type op ∈ tys ∧ binary_type op ≠ LPAREN
    ∧ beyond (drop (S (precedence op)) levels) (mkToken (binary_type op) (VStr op) 0 0)
    ∧ match fixed with Some s => s = op | None => True end.
Proof.
  intros Hin%list_elem_of_In. unfold binary_operators in Hin. simpl in Hin.
  repeat destruct Hin as [<-|Hin]; [..|done];
    (eexists _, _; split; [reflexivity|]; repeat split; compute_done).
Qed.

Lemma unary_operator_type op :
  op ∈ unary_operators → unary_type op ∈ [NOT; MINUS].
Proof.
  intros Hin%list_elem_of_In. unfold unary_operators in Hin. simpl in Hin.
  repeat destruct Hin as [<-|Hin]; [..|done]; compute_done.
Qed.

(** What may follow an operand of level [k]: no opening parenthesis
    and no operator of level [k] or tighter. *)
Definition follows (k : nat) (h : Token) : Prop :=
  type h ≠ LPAREN ∧ beyond (drop k levels) h.

Lemma closes_follows h : closes h → follows 0 h.
Proof.
  unfold closes, follows, beyond. destruct (type h); intros H;
    try (exfalso; apply H; compute_done);
    (split; [done|]); unfold levels; repeat constructor; compute_done.
Qed.

Lemma follows_S k h : follows k h → follows (S k) h.
Proof.
  intros [Hp Hb]. split; [done|]. unfold beyond in *.
  destruct (levels !! k) as [l|] eqn:E.
  - rewrite (drop_S _ _ _ E) in Hb. by apply Forall_cons in Hb as [_ Hb].
  - apply lookup_ge_None in E. rewrite drop_ge by lia. constructor.
Qed.

Lemma follows_punctuation k ty text :
  ty ∈ [RPAREN; COMMA] → follows k (punctuation ty text).
Proof.
  intros Hty. assert (H0 : follows 0 (punctuation ty text)).
  { apply closes_follows. unfold closes. cbn [punctuation type].
    apply elem_of_cons in Hty as [->|Hty%list_elem_of_singleton]; [|subst ty]; compute_done. }
  induction k as [|k IH]; [done|by apply follows_S].
Qed.


(** *** Operands *)

Ltac at_guard :=
  apply consumes_guard; cbn [type];
  match goal with
  | |- context [bool_decide ?P] =>
      first [ rewrite (bool_decide_eq_true_2 P) by compute_done
            | rewrite (bool_decide_eq_false_2 P) by compute_done ]
  end.

Section operands.
Variable parse_expression : P ExpressionNode.

Lemma consumes_unary_integer fuel ln col v next :
  consumes (parse_unary parse_expression (S fuel)) [mkToken INTEGER (VInt v) ln col]
    (IntegerNode ln col v) next.
Proof.
  cbn [parse_unary]. at_guard. unfold parse_primary. at_guard.
  apply consumes_token.
  eapply consumes_cons; [apply consumes_advance|].
  eapply consumes_pure with (next1 := λ _, True);
    [by apply consumes_int_value|apply consumes_ret|done].
Qed.

Lemma consumes_unary_float fuel ln col v next :
  consumes (parse_unary parse_expression (S fuel)) [mkToken FLOAT (VFloat v) ln col]
    (FloatNode ln col v) next.
Proof.
  cbn [parse_unary]. at_guard. unfold parse_primary. do 2 at_guard.
  apply consumes_token.
  eapply consumes_cons; [apply consumes_advance|].
  eapply consumes_pure with (next1 := λ _, True);
    [by apply consumes_float_value|apply consumes_ret|done].
Qed.

Lemma consumes_unary_string fuel ln col v next :
  consumes (parse_unary parse_expression (S fuel)) [mkToken STRING (VStr v) ln col]
    (StringNode ln col v) next.
Proof.
  cbn [parse_unary]. at_guard. unfold parse_primary. do 3 at_guard.
  apply consumes_token.
  eapply consumes_cons; [apply consumes_advance|].
  eapply consumes_pure with (next1 := λ _, True);
    [by apply consumes_text_value|apply consumes_ret|done].
Qed.

Lemma consumes_unary_identifier fuel ln col nm :
  consumes (parse_unary parse_expression (S fuel)) [mkToken IDENTIFIER (VStr nm) ln col]
    (IdentifierNode ln col nm) (λ h, type h ≠ LPAREN).
Proof.
  cbn [parse_unary]. at_guard. unfold parse_primary. do 4 at_guard.
  apply consumes_peek_is_not; [|done].
  apply consumes_token.
  eapply consumes_cons; [apply consumes_advance|].
  eapply consumes_pure with (next1 := λ _, True);
    [by apply consumes_text_value|apply consumes_ret|done].
Qed.

Lemma consumes_unary_parenthesized fuel ts x (inside next : Token → Prop) :
  consumes parse_expression ts x inside →
  inside (punctuation RPAREN ")") →
  consumes (parse_unary parse_expression (S fuel))
    (punctuation LPAREN "(" :: ts ++ [punctuation RPAREN ")"]) x next.
Proof.
  intros Hx Hinside. cbn [parse_unary]. at_guard. unfold parse_primary. do 5 at_guard.
  eapply consumes_cons; [apply consumes_advance|].
  eapply consumes_app; [exact Hx| |by intros h _].
  eapply consumes_cons; [by apply consumes_expect|apply consumes_ret].
Qed.

Lemma consumes_unary_operator fuel token op ts x (next : Token → Prop) :
  type token ∈ [NOT; MINUS] → value token = VStr op →
  consumes (parse_unary parse_expression fuel) ts x next →
  consumes (parse_unary parse_expression (S fuel)) (token :: ts)
    (UnaryOpNode (line token) (column token) op x) next.
Proof.
  intros Hty Hop Hx. cbn [parse_unary]. apply consumes_guard.
  rewrite bool_decide_eq_true_2 by done.
  apply consumes_token.
  eapply consumes_pure with (next1 := λ _, True);
    [by apply consumes_text_value| |done].
  eapply consumes_cons; [apply consumes_advance|].
  eapply consumes_then; [exact Hx|apply consumes_ret|done].
Qed.

(** The arguments of a call. *)
Definition more_arguments (args : list ExpressionNode) : list Token :=
  concat (map (λ a, punctuation COMMA "," :: tokens_of a) args).

Lemma consumes_arg_list_loop more : ∀ fuel args,
  length more < fuel →
  Forall (λ a, consumes parse_expression (tokens_of a) a closes) more →
  consumes (arg_list_loop parse_expression fuel args) (more_arguments more)
    (args ++ more)%list (λ h, type h = RPAREN).
Proof.
  induction more as [|a more IH]; intros [|fuel] args Hfuel Hmore;
    try (simpl in Hfuel; lia); cbn [arg_list_loop].
  - eapply consumes_pure with (x := false); [apply consumes_matches| |].
    + rewrite app_nil_r. apply consumes_ret.
    + intros h Hh. simpl. rewrite Hh. compute_done.
  - apply Forall_cons in Hmore as [Ha Hmore].
    unfold more_arguments. cbn [map concat]. fold (more_arguments more).
    change ((punctuation COMMA "," :: tokens_of a) ++ more_arguments more)%list
      with (punctuation COMMA "," :: (tokens_of a ++ more_arguments more))%list.
    at_guard. eapply consumes_cons; [apply consumes_advance|].
    eapply consumes_app; [exact Ha| |].
    + rewrite (cons_middle a args more), app_assoc. apply IH; [simpl in Hfuel; lia|done].
    + intros h Hh. destruct more; simpl; [|compute_done].
      unfold closes. rewrite Hh. compute_done.
Qed.


Lemma separated_cons (a : ExpressionNode) more :
  separated (map tokens_of (a :: more)) = (tokens_of a ++ more_arguments more)%list.
Proof.
  revert a. induction more as [|b more IH]; intros a; [by rewrite app_nil_r|].
  change (separated (map tokens_of (a :: b :: more)))
    with (tokens_of a ++ punctuation COMMA "," :: separated (map tokens_of (b :: more)))%list.
  rewrite IH. reflexivity.
Qed.

Lemma consumes_parse_arg_list fuel args :
  length args ≤ fuel →
  Forall (λ a, consumes parse_expression (tokens_of a) a closes
               ∧ ∃ t ts, tokens_of a = t :: ts ∧ type t ≠ RPAREN) args →
  consumes (parse_arg_list parse_expression fuel) (separated (map tokens_of args))
    args (λ h, type h = RPAREN).
Proof.
  intros Hfuel Hargs. unfold parse_arg_list. destruct args as [|a more].
  - eapply consumes_pure with (x := true); [apply consumes_matches|apply consumes_ret|].
    intros h Hh. simpl. rewrite Hh. compute_done.
  - apply Forall_cons in Hargs as [[Ha (t & ts & Ht & Hne)] Hmore].
    rewrite separated_cons.
    eapply consumes_pure with (x := false); [apply consumes_matches| |].
    2: { intros h _. rewrite Ht. simpl. apply bool_decide_eq_false_2.
         by intros ?%list_elem_of_singleton. }
    eapply consumes_app; [exact Ha| |].
    + apply (consumes_arg_list_loop more fuel [a]); [simpl in Hfuel; lia|].
      eapply Forall_impl; [exact Hmore|]. by intros b [Hb _].
    + intros h Hh. destruct more; simpl; [|compute_done].
      unfold closes. rewrite Hh. compute_done.
Qed.

Lemma consumes_unary_call fuel ln col nm args :
  length args ≤ fuel →
  Forall (λ a, consumes parse_expression (tokens_of a) a closes
               ∧ ∃ t ts, tokens_of a = t :: ts ∧ type t ≠ RPAREN) args →
  consumes (parse_unary parse_expression (S fuel))
    (tokens_of (FunctionCallNode ln col nm args)) (FunctionCallNode ln col nm args)
    (λ _, True).
Proof.
  intros Hfuel Hargs. cbn [tokens_of parse_unary]. at_guard.
  unfold parse_primary. do 4 at_guard.
  apply consumes_peek_is; [done|].
  eapply consumes_then with (x := (ln, col, nm, args)) (next1 := λ _, True);
    [|apply consumes_ret|done].
  unfold parse_function_call.
  eapply consumes_cons; [by apply consumes_expect|].
  eapply consumes_cons; [by apply consumes_expect|].
  eapply consumes_app; [by apply consumes_parse_arg_list| |by intros h _].
  eapply consumes_cons; [by apply consumes_expect|].
  eapply consumes_pure with (next1 := λ _, True);
    [by apply consumes_text_value|apply consumes_ret|done].
Qed.

End operands.

(** *** Every expression *)

Lemma tokens_of_binary ln col op l r :
  tokens_of (BinaryOpNode ln col op l r)
  = (tokens_within (precedence op) l
     ++ mkToken (binary_type op) (VStr op) ln col :: tokens_within (S (precedence op)) r)%list.
Proof. reflexivity. Qed.

Lemma tokens_of_unary ln col op x :
  tokens_of (UnaryOpNode ln col op x)
  = mkToken (unary_type op) (VStr op) ln col :: tokens_within 6 x.
Proof. reflexivity. Qed.

Lemma tokens_within_first k e :
  (∃ t ts, tokens_of e = t :: ts ∧ type t ≠ RPAREN) →
  ∃ t ts, tokens_within k e = t :: ts ∧ type t ≠ RPAREN.
Proof.
  intros H. unfold tokens_within. destruct (tightness e <? k); [|done].
  eexists _, _. split; [reflexivity|done].
Qed.

Lemma tokens_of_first e :
  expressible e = true → ∃ t ts, tokens_of e = t :: ts ∧ type t ≠ RPAREN.
Proof.
  induction e as [ln col op l r IHl IHr|ln col op x IH|ln col v|ln col v|ln col v
                 |ln col nm|ln col nm args IH|ln col]
    using ExpressionNode_induction; intros He; try discriminate He;
    try (eexists _, _; split; [reflexivity|done]).
  - rewrite tokens_of_binary. cbn [expressible] in He.
    apply andb_true_iff in He as [[_ Hl]%andb_true_iff _].
    destruct (tokens_within_first (precedence op) l (IHl Hl)) as (t & ts & -> & Hne).
    eexists _, _. split; [reflexivity|done].
  - rewrite tokens_of_unary. cbn [expressible] in He.
    apply andb_true_iff in He as [Hop%bool_decide_eq_true _].
    apply unary_operator_type in Hop.
    eexists _, _. split; [reflexivity|]. cbn [type]. intros E. rewrite E in Hop.
    revert Hop. compute_done.
Qed.

(** The operations of level [j] on the left spine of an expression. *)
Fixpoint spine (j : nat) (e : ExpressionNode) : nat :=
  match e with
  | BinaryOpNode _ _ op l _ => if precedence op =? j then S (spine j l) else 0
  | _ => 0
  end.

Lemma spine_other j e : tightness e ≠ j → spine j e = 0.
Proof.
  destruct e; try done. cbn [tightness spine]. intros H.
  by apply Nat.eqb_neq in H as ->.
Qed.

Lemma tokens_within_other j e : tightness e ≠ j → tokens_within j e = tokens_within (S j) e.
Proof.
  intros H. unfold tokens_within.
  destruct (tightness e <? j) eqn:E1, (tightness e <? S j) eqn:E2; try done;
    [apply Nat.ltb_lt in E1; apply Nat.ltb_ge in E2|apply Nat.ltb_ge in E1;
     apply Nat.ltb_lt in E2]; lia.
Qed.

Lemma tokens_within_length k e : length (tokens_of e) ≤ length (tokens_within k e).
Proof.
  unfold tokens_within. destruct (tightness e <? k); [|done].
  cbn [length]. rewrite length_app. lia.
Qed.

Lemma spine_length j e :
  expressible e = true → spine j e < length (tokens_within j e).
Proof.
  revert j. induction e as [ln col op l r IHl IHr|ln col op x IH|ln col v|ln col v|ln col v
                 |ln col nm|ln col nm args IH|ln col]
    using ExpressionNode_induction; intros j He; try discriminate He;
    try (eapply Nat.lt_le_trans; [|apply tokens_within_length]; simpl; lia).
  destruct (tokens_of_first _ He) as (t & ts & Ht & _).
  cbn [expressible] in He. apply andb_true_iff in He as [[_ Hl]%andb_true_iff _].
  cbn [spine]. destruct (precedence op =? j) eqn:E.
  - apply Nat.eqb_eq in E as <-. specialize (IHl (precedence op) Hl).
    eapply Nat.lt_le_trans; [|apply tokens_within_length].
    rewrite tokens_of_binary, length_app. simpl. lia.
  - eapply Nat.lt_le_trans; [|apply tokens_within_length]. rewrite Ht. simpl. lia.
Qed.

(** An operand read at level [k], and an operand read as the left end
    of a chain of operations of level [j], with the loop of the level
    going on after it. *)
Definition operand_parsed (e : ExpressionNode) (k : nat) : Prop :=
  ∀ fuel depth,
    length (tokens_within k e) ≤ fuel → length (tokens_within k e) ≤ depth →
    consumes (parse_level (parse_expression depth) fuel (drop k levels))
      (tokens_within k e) e (follows k).

Definition operand_continued (e : ExpressionNode) (j : nat) : Prop :=
  ∀ tys fixed fuel depth c n ts' (y : ExpressionNode) (next : Token → Prop),
    levels !! j = Some (tys, fixed) → n = c + spine j e →
    length (tokens_within j e) ≤ fuel → length (tokens_within j e) ≤ depth →
    consumes (binary_loop c tys fixed
                (parse_level (parse_expression depth) fuel (drop (S j) levels)) e)
      ts' y next →
    (∀ h, next h → follows (S j) (hd h ts')) →
    consumes (let* left := parse_level (parse_expression depth) fuel (drop (S j) levels) in
              binary_loop n tys fixed
                (parse_level (parse_expression depth) fuel (drop (S j) levels)) left)
      (tokens_within j e ++ ts') y next.

Lemma continued_of_parsed e j :
  tightness e ≠ j → operand_parsed e (S j) → operand_continued e j.
Proof.
  intros Hne HC tys fixed fuel depth c n ts' y next Hlv -> Hf Hd Hloop Hnext.
  rewrite (spine_other j e Hne), Nat.add_0_r.
  rewrite (tokens_within_other j e Hne) in *.
  eapply consumes_app; [by apply HC|exact Hloop|exact Hnext].
Qed.

Lemma parsed_of_continued e k tys fixed :
  levels !! k = Some (tys, fixed) → spine k e < length (tokens_within k e) →
  operand_continued e k → operand_parsed e k.
Proof.
  intros Hlv Hspine HG fuel depth Hf Hd.
  rewrite (drop_S _ _ _ Hlv). cbn [parse_level].
  rewrite <- (app_nil_r (tokens_within k e)).
  destruct (fuel - spine k e) as [|c] eqn:Ec; [lia|].
  eapply (HG tys fixed fuel depth (S c)); [done|lia|done|done| |].
  - eapply consumes_weaken; [apply consumes_binary_loop_stop|].
    intros h [_ Hb]. unfold beyond in Hb. rewrite (drop_S _ _ _ Hlv) in Hb.
    by apply Forall_cons in Hb as [Hb _].
  - intros h Hh. by apply follows_S.
Qed.

Lemma parsed_down e k0 :
  expressible e = true → k0 ≤ 6 → operand_parsed e k0 →
  ∀ n k, k + n = k0 → (∀ k', k ≤ k' < k0 → tightness e ≠ k') → operand_parsed e k.
Proof.
  intros He Hk0 H0. induction n as [|n IH]; intros k Hk Hne.
  { by replace k with k0 by lia. }
  destruct (lookup_lt_is_Some_2 levels k) as [[tys fixed] Hlv]; [simpl; lia|].
  apply (parsed_of_continued e k tys fixed Hlv); [by apply spine_length|].
  apply continued_of_parsed; [apply Hne; lia|].
  apply IH; [lia|]. intros k' Hk'. apply Hne. lia.
Qed.

Lemma parsed_top e fuel :
  operand_parsed e 0 → length (tokens_of e) < fuel →
  consumes (parse_expression fuel) (tokens_of e) e closes.
Proof.
  intros H Hf. destruct fuel as [|fuel]; [lia|]. cbn [parse_expression].
  rewrite parse_logical_or_levels.
  eapply consumes_weaken; [apply (H fuel fuel); unfold tokens_within; simpl; lia|].
  apply closes_follows.
Qed.

Lemma separated_length (parts : list (list Token)) :
  Forall (λ part, 0 < length part) parts → length parts ≤ length (separated parts).
Proof.
  induction 1 as [|part parts Hpart Hparts IH]; [done|].
  destruct parts as [|part' parts]; [simpl; lia|].
  change (separated (part :: part' :: parts))
    with (part ++ punctuation COMMA "," :: separated (part' :: parts))%list.
  rewrite length_app. simpl in *. lia.
Qed.

Lemma separated_part (parts : list (list Token)) part :
  part ∈ parts → length part ≤ length (separated parts).
Proof.
  induction parts as [|part0 parts IH]; [by intros ?%elem_of_nil|].
  intros Hin. destruct parts as [|part' parts].
  { apply list_elem_of_singleton in Hin as ->. done. }
  change (separated (part0 :: part' :: parts))
    with (part0 ++ punctuation COMMA "," :: separated (part' :: parts))%list.
  rewrite length_app. apply elem_of_cons in Hin as [->|Hin]; [lia|].
  specialize (IH Hin). simpl in *. lia.
Qed.

Lemma operand_levels e :
  expressible e = true → tightness e = 6 → operand_parsed e 6 →
  (∀ k, k ≤ 6 → operand_parsed e k) ∧ (∀ j, j < 6 → operand_continued e j).
Proof.
  intros He Ht H6.
  assert (HC : ∀ k, k ≤ 6 → operand_parsed e k).
  { intros k Hk. apply (parsed_down e 6 He (le_n _) H6 (6 - k) k); [lia|].
    intros k' Hk'. lia. }
  split; [done|]. intros j Hj. apply continued_of_parsed; [lia|apply HC; lia].
Qed.

Lemma every_expression e :
  expressible e = true →
  (∀ k, k ≤ 6 → operand_parsed e k) ∧ (∀ j, j < 6 → operand_continued e j).
Proof.
  induction e as [ln col op l r IHl IHr|ln col op x IH|ln col v|ln col v|ln col v
                 |ln col nm|ln col nm args IH|ln col]
    using ExpressionNode_induction; intros He; try discriminate He.
  - (* a binary operation *)
    pose proof He as He0. cbn [expressible] in He.
    apply andb_true_iff in He as [[Hop%bool_decide_eq_true Hl]%andb_true_iff Hr].
    destruct (IHl Hl) as [_ Gl]. destruct (IHr Hr) as [Cr _]. clear IHl IHr.
    destruct (binary_operator_level op Hop) as (tys & fixed & Hlv & Hin & Hparen & Hb & Hfixed).
    set (e := BinaryOpNode ln col op l r) in *.
    set (j0 := precedence op) in *.
    assert (Hj0 : j0 < 6) by (apply lookup_lt_Some in Hlv; simpl in Hlv; lia).
    assert (Hwithin : tokens_within j0 e
                      = (tokens_within j0 l
                         ++ mkToken (binary_type op) (VStr op) ln col
                            :: tokens_within (S j0) r)%list).
    { unfold tokens_within at 1. cbn [tightness e]. fold j0. by rewrite Nat.ltb_irrefl. }
    assert (G0 : operand_continued e j0).
    { intros tys' fixed' fuel depth c n ts' y next Hlv' -> Hf Hd Hloop Hnext.
      assert (tys' = tys ∧ fixed' = fixed) as [-> ->] by (split; congruence).
      rewrite Hwithin in *. rewrite length_app in Hf, Hd. cbn [length] in Hf, Hd.
      rewrite <- app_assoc. cbn [app].
      eapply (Gl j0 Hj0 tys fixed fuel depth (S c)); [done| |lia|lia| |].
      - cbn [spine e]. fold j0. rewrite Nat.eqb_refl. lia.
      - eapply (consumes_binary_loop_step c tys fixed _ l
                  (mkToken (binary_type op) (VStr op) ln col) op);
          [done| |apply (Cr (S j0)); lia|exact Hloop|exact Hnext].
        destruct fixed; [done|reflexivity].
      - intros h _. exact (conj Hparen Hb). }
    assert (C0 : ∀ k, k ≤ j0 → operand_parsed e k).
    { intros k Hk. apply (parsed_down e j0 He0 ltac:(lia)) with (n := j0 - k); [|lia|].
      - apply (parsed_of_continued e j0 tys fixed Hlv); [by apply spine_length|done].
      - intros k' Hk'. cbn [tightness e]. fold j0. lia. }
    assert (C6 : operand_parsed e 6).
    { intros fuel depth Hf Hd.
      change (drop 6 levels) with (@nil (list TokenType * option string)).
      cbn [parse_level]. unfold tokens_within in *. cbn [tightness e] in *. fold j0 in Hf, Hd |- *.
      assert (E : (j0 <? 6) = true) by (apply Nat.ltb_lt; lia). rewrite E in *.
      cbn [length] in Hf, Hd. rewrite length_app in Hf, Hd. cbn [length] in Hf, Hd.
      destruct fuel as [|fuel]; [lia|].
      apply (consumes_unary_parenthesized _ fuel _ _ closes).
      - apply parsed_top; [apply C0; lia|lia].
      - unfold closes. compute_done. }
    assert (C : ∀ k, k ≤ 6 → operand_parsed e k).
    { intros k Hk. destruct (decide (k ≤ j0)); [by apply C0|].
      apply (parsed_down e 6 He0 (le_n _) C6 (6 - k) k); [lia|].
      intros k' Hk'. cbn [tightness e]. fold j0. lia. }
    split; [exact C|]. intros j Hj. destruct (decide (j = j0)) as [->|Hne]; [exact G0|].
    apply continued_of_parsed; [cbn [tightness e]; fold j0; lia|apply C; lia].
  - (* a unary operation *)
    pose proof He as He0. cbn [expressible] in He.
    apply andb_true_iff in He as [Hop%bool_decide_eq_true Hx].
    destruct (IH Hx) as [Cx _]. apply operand_levels; [done..|].
    intros fuel depth Hf Hd.
    change (drop 6 levels) with (@nil (list TokenType * option string)).
    cbn [parse_level].
    change (tokens_within 6 (UnaryOpNode ln col op x))
      with (mkToken (unary_type op) (VStr op) ln col :: tokens_within 6 x) in *.
    cbn [length] in Hf, Hd. destruct fuel as [|fuel]; [lia|].
    apply (consumes_unary_operator _ fuel (mkToken (unary_type op) (VStr op) ln col) op);
      [by apply unary_operator_type|done|].
    apply (Cx 6 (le_n _) fuel depth); lia.
  - apply operand_levels; [done..|]. intros [|fuel] depth Hf Hd; [simpl in Hf; lia|].
    apply consumes_unary_integer.
  - apply operand_levels; [done..|]. intros [|fuel] depth Hf Hd; [simpl in Hf; lia|].
    apply consumes_unary_float.
  - apply operand_levels; [done..|]. intros [|fuel] depth Hf Hd; [simpl in Hf; lia|].
    apply consumes_unary_string.
  - apply operand_levels; [done..|]. intros [|fuel] depth Hf Hd; [simpl in Hf; lia|].
    eapply consumes_weaken; [apply consumes_unary_identifier|by intros h [? _]].
  - (* a call *)
    pose proof He as He0. cbn [expressible] in He. rewrite forallb_forall in He.
    apply operand_levels; [done..|]. intros fuel depth Hf Hd.
    change (drop 6 levels) with (@nil (list TokenType * option string)).
    cbn [parse_level].
    change (tokens_within 6 (FunctionCallNode ln col nm args))
      with (tokens_of (FunctionCallNode ln col nm args)) in *.
    cbn [tokens_of length] in Hf, Hd. rewrite length_app in Hf, Hd. cbn [length] in Hf, Hd.
    assert (Hargs : Forall (λ a, consumes (parse_expression depth) (tokens_of a) a closes
                                 ∧ ∃ t ts, tokens_of a = t :: ts ∧ type t ≠ RPAREN) args).
    { rewrite Forall_forall in IH. apply Forall_forall. intros a Ha.
      pose proof (He a (proj1 (list_elem_of_In _ _) Ha)) as Hea.
      split; [|by apply tokens_of_first].
      apply parsed_top; [apply (proj1 (IH a Ha Hea)); lia|].
      pose proof (separated_part (map tokens_of args) (tokens_of a)
                    (list_elem_of_fmap_2 tokens_of _ _ Ha)). lia. }
    destruct fuel as [|fuel]; [lia|].
    eapply consumes_weaken; [apply consumes_unary_call; [|exact Hargs]|done].
    pose proof (separated_length (map tokens_of args)) as Hlen.
    rewrite length_map in Hlen. etrans; [apply Hlen|lia].
    apply Forall_fmap, Forall_forall. intros a Ha. simpl.
    destruct (tokens_of_first a (He a (proj1 (list_elem_of_In _ _) Ha))) as (t & ts & -> & _).
    simpl. lia.
Qed.

(** X27: written out with the parentheses that precedence and left
    association require, every expression of the language is parsed
    back to itself: the six levels of binary operators bind in the order
    of the grammar and to the left, unary operators bind tightest, and
    the parser stops before the token that follows. *)
Theorem parse_expression_tokens_of e fuel pre h rest printed :
  expressible e = true → length (tokens_of e) < fuel → closes h →
  parse_expression fuel (standing pre (tokens_of e ++ h :: rest) printed)
  = (Returns e, standing (pre ++ tokens_of e) (h :: rest) printed).
Proof.
  intros He Hf Hh.
  destruct (every_expression e He) as [H _].
  exact (parsed_top e fuel (H 0 (Nat.le_0_l 6)) Hf pre h rest printed Hh).
Qed.

(** [1 + 2 * 3 - 4]: its tokens, without a parenthesis, and its tree. *)
Definition sum_tokens : list Token :=
  [mkToken INTEGER (VInt 1) 1 1; mkToken PLUS (VStr "+") 1 3;
   mkToken INTEGER (VInt 2) 1 5; mkToken MULTIPLY (VStr "*") 1 7;
   mkToken INTEGER (VInt 3) 1 9; mkToken MINUS (VStr "-") 1 11;
   mkToken INTEGER (VInt 4) 1 13].

Definition sum_tree : ExpressionNode :=
  BinaryOpNode 1 11 "-"
    (BinaryOpNode 1 3 "+" (IntegerNode 1 1 1)
       (BinaryOpNode 1 7 "*" (IntegerNode 1 5 2) (IntegerNode 1 9 3)))
    (IntegerNode 1 13 4).

Lemma parse_expression_tokens_of_witness :
  parse_expression 8 (standing [] (sum_tokens ++ [mkToken EOF VNone 1 14]) [])
  = (Returns sum_tree, standing sum_tokens [mkToken EOF VNone 1 14] []).
Proof.
  apply (parse_expression_tokens_of sum_tree 8 [] (mkToken EOF VNone 1 14) [] []);
    [reflexivity|simpl; lia|unfold closes; compute_done].
Defined.

(** *** Programs written out and parsed back *)

Definition name_token (nm : string) : Token := mkToken IDENTIFIER (VStr nm) 0 0.

(** The tokens of a statement: its first token carries its line and
    column. *)
Fixpoint tokens_of_statement (s : StatementNode) : list Token :=
  match s with
  | VarDeclarationNode ln col x v =>
      mkToken BOX (VStr "Box") ln col :: name_token x :: punctuation PAWS "paws"
      :: tokens_of v
  | AssignmentNode ln col x v =>
      mkToken IDENTIFIER (VStr x) ln col :: punctuation PAWS "paws" :: tokens_of v
  | FunctionDefNode ln col nm ps body =>
      mkToken HUNT (VStr "Hunt") ln col :: name_token nm :: punctuation LPAREN "("
      :: separated (map (λ p, [name_token p]) ps)
      ++ punctuation RPAREN ")" :: punctuation LBRACE "{"
      :: concat (map tokens_of_statement body) ++ [punctuation RBRACE "}"]
  | IfStatementNode ln col c th el =>
      mkToken PURR (VStr "Purr") ln col :: punctuation LPAREN "("
      :: tokens_of c
      ++ punctuation RPAREN ")" :: punctuation LBRACE "{"
      :: concat (map tokens_of_statement th)
      ++ punctuation RBRACE "}"
      :: match el with
         | Some el =>
             punctuation HISS "Hiss" :: punctuation LBRACE "{"
             :: concat (map tokens_of_statement el) ++ [punctuation RBRACE "}"]
         | None => []
         end
  | WhileLoopNode ln col c body =>
      mkToken CHASE (VStr "Chase") ln col :: punctuation LPAREN "("
      :: tokens_of c
      ++ punctuation RPAREN ")" :: punctuation LBRACE "{"
      :: concat (map tokens_of_statement body) ++ [punctuation RBRACE "}"]
  | ReturnStatementNode ln col v => mkToken BRING (VStr "Bring") ln col :: tokens_of v
  | PrintStatementNode ln col v =>
      mkToken MEOW (VStr "Meow") ln col :: punctuation LPAREN "("
      :: tokens_of v ++ [punctuation RPAREN ")"]
  | FunctionCallStatementNode _ _ cl cc nm args =>
      tokens_of (FunctionCallNode cl cc nm args)
  | OtherStatement _ _ => []
  end.

Definition tokens_of_block (stmts : list StatementNode) : list Token :=
  concat (map tokens_of_statement stmts).

Definition tokens_of_program (p : ProgramNode) : list Token :=
  mkToken WAKE (VStr "Wake") (program_line p) (program_column p)
  :: tokens_of_block (statements p)
  ++ [punctuation SLEEP "Sleep"; mkToken EOF VNone 0 0].

(** The statements the parser can build: a call statement stands where
    its call stands. *)
Fixpoint statement_expressible (s : StatementNode) : bool :=
  match s with
  | VarDeclarationNode _ _ _ v | AssignmentNode _ _ _ v
  | ReturnStatementNode _ _ v | PrintStatementNode _ _ v => expressible v
  | FunctionDefNode _ _ _ _ body => forallb statement_expressible body
  | IfStatementNode _ _ c th el =>
      expressible c && forallb statement_expressible th
      && match el with
         | Some el => forallb statement_expressible el
         | None => true
         end
  | WhileLoopNode _ _ c body => expressible c && forallb statement_expressible body
  | FunctionCallStatementNode ln col cl cc _ args =>
      bool_decide (ln = cl) && bool_decide (col = cc) && forallb expressible args
  | OtherStatement _ _ => false
  end.

(** What may follow a statement: the first token of a statement, or the
    end of the block. *)
Definition after_statement (h : Token) : Prop :=
  type h ∈ [BOX; HUNT; PURR; CHASE; BRING; MEOW; IDENTIFIER; SLEEP; RBRACE].

Definition block_end (h : Token) : Prop := type h ∈ [SLEEP; RBRACE].

Lemma after_statement_closes h : after_statement h → closes h.
Proof.
  unfold after_statement, closes. destruct (type h); intros H Hc;
    first [revert H; compute_done|revert Hc; compute_done].
Qed.

Lemma block_end_after h : block_end h → after_statement h.
Proof.
  unfold after_statement, block_end. destruct (type h); intros H;
    first [compute_done|revert H; compute_done].
Qed.

Lemma consumes_try_except {A} (m : P A) handler ts x next :
  consumes m ts x next → consumes (try_except m handler) ts x next.
Proof. intros Hm pre h rest printed Hh. unfold try_except. by rewrite Hm. Qed.

Lemma consumes_peek_is_other {A} ty (k : bool → P A) t u ts y (next : Token → Prop) :
  type u ≠ ty → consumes (k false) (t :: u :: ts) y next →
  consumes (bind (peek_is ty) k) (t :: u :: ts) y next.
Proof.
  intros Hu Hk pre h rest printed Hh. rewrite parser_bind_eq.
  change ((t :: u :: ts) ++ h :: rest)%list with (t :: u :: (ts ++ h :: rest))%list.
  rewrite peek_is_standing, bool_decide_eq_false_2 by done.
  by apply Hk.
Qed.

(** *** Parameters *)

Definition more_parameters (ps : list string) : list Token :=
  concat (map (λ p, [punctuation COMMA ","; name_token p]) ps).

Lemma consumes_param_list_loop more : ∀ fuel params,
  length more < fuel →
  consumes (param_list_loop fuel params) (more_parameters more)
    (params ++ more)%list (λ h, type h = RPAREN).
Proof.
  induction more as [|p more IH]; intros [|fuel] params Hfuel;
    try (simpl in Hfuel; lia); cbn [param_list_loop].
  - eapply consumes_pure with (x := false); [apply consumes_matches| |].
    + rewrite app_nil_r. apply consumes_ret.
    + intros h Hh. simpl. rewrite Hh. compute_done.
  - change (more_parameters (p :: more))
      with (punctuation COMMA "," :: name_token p :: more_parameters more).
    at_guard. eapply consumes_cons; [apply consumes_advance|].
    eapply consumes_cons; [by apply consumes_expect|].
    eapply consumes_pure with (next1 := λ _, True);
      [by apply consumes_text_value| |done].
    rewrite (cons_middle p params more), app_assoc. apply IH. simpl in Hfuel. lia.
Qed.

Lemma separated_names p more :
  separated (map (λ p, [name_token p]) (p :: more))
  = name_token p :: more_parameters more.
Proof.
  revert p. induction more as [|q more IH]; intros p; [done|].
  change (separated (map (λ p, [name_token p]) (p :: q :: more)))
    with ([name_token p] ++ punctuation COMMA ","
          :: separated (map (λ p, [name_token p]) (q :: more)))%list.
  rewrite IH. reflexivity.
Qed.

Lemma consumes_parse_param_list fuel ps :
  length ps ≤ fuel →
  consumes (parse_param_list fuel) (separated (map (λ p, [name_token p]) ps)) ps
    (λ h, type h = RPAREN).
Proof.
  intros Hfuel. unfold parse_param_list. destruct ps as [|p more].
  - eapply consumes_pure with (x := false); [apply consumes_matches|apply consumes_ret|].
    intros h Hh. simpl. rewrite Hh. compute_done.
  - rewrite separated_names. at_guard. apply consumes_token.
    eapply consumes_pure with (next1 := λ _, True);
      [by apply consumes_text_value| |done].
    eapply consumes_cons; [apply consumes_advance|].
    apply (consumes_param_list_loop more fuel [p]). simpl in Hfuel. lia.
Qed.

(** *** Statements *)

Lemma consumes_expression e fuel :
  expressible e = true → length (tokens_of e) < fuel →
  consumes (parse_expression fuel) (tokens_of e) e closes.
Proof.
  intros He Hf. destruct (every_expression e He) as [H _].
  apply parsed_top; [apply H; lia|done].
Qed.

Lemma consumes_call fuel ln col nm args :
  forallb expressible args = true →
  length (tokens_of (FunctionCallNode ln col nm args)) ≤ fuel →
  consumes (parse_function_call (parse_expression fuel) fuel)
    (tokens_of (FunctionCallNode ln col nm args)) (ln, col, nm, args) (λ _, True).
Proof.
  intros He Hf. rewrite forallb_forall in He.
  cbn [tokens_of length] in Hf. rewrite length_app in Hf. cbn [length] in Hf.
  assert (Hargs : Forall (λ a, consumes (parse_expression fuel) (tokens_of a) a closes
                               ∧ ∃ t ts, tokens_of a = t :: ts ∧ type t ≠ RPAREN) args).
  { apply Forall_forall. intros a Ha.
    pose proof (He a (proj1 (list_elem_of_In _ _) Ha)) as Hea.
    split; [|by apply tokens_of_first].
    apply consumes_expression; [done|].
    pose proof (separated_part (map tokens_of args) (tokens_of a)
                  (list_elem_of_fmap_2 tokens_of _ _ Ha)). lia. }
  assert (Hlen : length args ≤ fuel).
  { pose proof (separated_length (map tokens_of args)) as Hlen.
    rewrite length_map in Hlen. etrans; [apply Hlen|lia].
    apply Forall_fmap, Forall_forall. intros a Ha. simpl.
    destruct (tokens_of_first a (He a (proj1 (list_elem_of_In _ _) Ha))) as (t & ts & -> & _).
    simpl. lia. }
  cbn [tokens_of]. unfold parse_function_call.
  eapply consumes_cons; [by apply consumes_expect|].
  eapply consumes_cons; [by apply consumes_expect|].
  eapply consumes_app; [by apply consumes_parse_arg_list| |by intros h _].
  eapply consumes_cons; [by apply consumes_expect|].
  eapply consumes_pure with (next1 := λ _, True);
    [by apply consumes_text_value|apply consumes_ret|done].
Qed.

Section statement_parsers.
Variable fuel : nat.
Variable parse_statement_list : P (list StatementNode).

Ltac expects := eapply consumes_cons; [by apply consumes_expect|].
Ltac expression :=
  eapply consumes_app;
    [apply consumes_expression; [done|simpl in *; rewrite ?length_app in *; simpl in *; lia]
    | |first [by intros h Hh; apply after_statement_closes
             |intros h _; unfold closes; compute_done]].
Ltac finally := first [apply consumes_ret | eapply consumes_pure with (next1 := λ _, True);
                         [by apply consumes_text_value|apply consumes_ret|done]].

Lemma consumes_var_declaration ln col x v :
  expressible v = true → length (tokens_of v) < fuel →
  consumes (parse_var_declaration fuel)
    (tokens_of_statement (VarDeclarationNode ln col x v))
    (VarDeclarationNode ln col x v) after_statement.
Proof.
  intros He Hf. cbn [tokens_of_statement]. unfold parse_var_declaration.
  do 3 expects. rewrite <- (app_nil_r (tokens_of v)). expression. finally.
Qed.

Lemma consumes_assignment ln col x v :
  expressible v = true → length (tokens_of v) < fuel →
  consumes (parse_assignment fuel)
    (tokens_of_statement (AssignmentNode ln col x v))
    (AssignmentNode ln col x v) after_statement.
Proof.
  intros He Hf. cbn [tokens_of_statement]. unfold parse_assignment.
  do 2 expects. rewrite <- (app_nil_r (tokens_of v)). expression. finally.
Qed.

Lemma consumes_return_statement ln col v :
  expressible v = true → length (tokens_of v) < fuel →
  consumes (parse_return_statement fuel)
    (tokens_of_statement (ReturnStatementNode ln col v))
    (ReturnStatementNode ln col v) after_statement.
Proof.
  intros He Hf. cbn [tokens_of_statement]. unfold parse_return_statement.
  expects. rewrite <- (app_nil_r (tokens_of v)). expression. finally.
Qed.

Lemma consumes_print_statement ln col v :
  expressible v = true → length (tokens_of v) < fuel →
  consumes (parse_print_statement fuel)
    (tokens_of_statement (PrintStatementNode ln col v))
    (PrintStatementNode ln col v) after_statement.
Proof.
  intros He Hf. cbn [tokens_of_statement]. unfold parse_print_statement.
  do 2 expects. expression. expects. finally.
Qed.

Ltac block H :=
  eapply consumes_app; [exact H| |intros h _; unfold block_end; compute_done].

Lemma consumes_while_loop ln col c body :
  expressible c = true → length (tokens_of c) < fuel →
  consumes parse_statement_list (tokens_of_block body) body block_end →
  consumes (parse_while_loop fuel parse_statement_list)
    (tokens_of_statement (WhileLoopNode ln col c body))
    (WhileLoopNode ln col c body) after_statement.
Proof.
  intros He Hf Hbody. cbn [tokens_of_statement]. unfold parse_while_loop.
  do 2 expects. expression. do 2 expects. block Hbody. expects. finally.
Qed.

Lemma consumes_function_def ln col nm ps body :
  length ps ≤ fuel →
  consumes parse_statement_list (tokens_of_block body) body block_end →
  consumes (parse_function_def fuel parse_statement_list)
    (tokens_of_statement (FunctionDefNode ln col nm ps body))
    (FunctionDefNode ln col nm ps body) after_statement.
Proof.
  intros Hps Hbody. cbn [tokens_of_statement]. unfold parse_function_def.
  do 3 expects.
  eapply consumes_app; [by apply consumes_parse_param_list| |by intros h _].
  do 2 expects. block Hbody. expects. finally.
Qed.

Lemma consumes_if_statement ln col c th el :
  expressible c = true → length (tokens_of c) < fuel →
  consumes parse_statement_list (tokens_of_block th) th block_end →
  match el with
  | Some el => consumes parse_statement_list (tokens_of_block el) el block_end
  | None => True
  end →
  consumes (parse_if_statement fuel parse_statement_list)
    (tokens_of_statement (IfStatementNode ln col c th el))
    (IfStatementNode ln col c th el) after_statement.
Proof.
  intros He Hf Hth Hel. cbn [tokens_of_statement]. unfold parse_if_statement.
  do 2 expects. expression. do 2 expects.
  eapply consumes_app; [exact Hth| |intros h _; unfold block_end; compute_done].
  expects. destruct el as [el|].
  - at_guard.
    eapply consumes_then with (x := Some el) (next1 := λ _, True);
      [|apply consumes_ret|done].
    eapply consumes_cons; [apply consumes_advance|]. expects.
    block Hel. expects. apply consumes_ret.
  - eapply consumes_pure with (x := false); [apply consumes_matches| |].
    + eapply consumes_pure with (x := None) (next1 := λ _, True);
        [apply consumes_ret|apply consumes_ret|done].
    + intros h Hh. simpl. apply bool_decide_eq_false_2.
      unfold after_statement in Hh. destruct (type h); revert Hh; compute_done.
Qed.

End statement_parsers.
(** *** Blocks and programs *)

Definition statement_parsed (s : StatementNode) : Prop :=
  ∀ fuel, length (tokens_of_statement s) ≤ fuel →
    consumes (parse_statement fuel (parse_statement_list fuel))
      (tokens_of_statement s) (Some s) after_statement.

Lemma statement_first s :
  statement_expressible s = true →
  ∃ t ts, tokens_of_statement s = t :: ts
          ∧ type t ∈ [BOX; HUNT; PURR; CHASE; BRING; MEOW; IDENTIFIER].
Proof.
  destruct s; intros He; try discriminate He;
    eexists _, _; (split; [reflexivity|compute_done]).
Qed.

Lemma consumes_statement_list_loop stmts :
  Forall (λ s, statement_expressible s = true ∧ statement_parsed s) stmts →
  ∀ fuel acc, length (tokens_of_block stmts) < fuel →
    consumes (statement_list_loop fuel acc) (tokens_of_block stmts)
      (acc ++ stmts)%list block_end.
Proof.
  induction 1 as [|s stmts [He Hs] Hall IH]; intros [|fuel] acc Hf;
    try (simpl in Hf; lia); cbn [statement_list_loop].
  - eapply consumes_pure with (x := true); [apply consumes_matches| |].
    + rewrite app_nil_r. apply consumes_ret.
    + intros h Hh. simpl. apply bool_decide_eq_true_2.
      unfold block_end in Hh. destruct (type h); revert Hh; compute_done.
  - change (tokens_of_block (s :: stmts))
      with (tokens_of_statement s ++ tokens_of_block stmts)%list in *.
    rewrite length_app in Hf.
    destruct (statement_first s He) as (t & ts & Hts & Ht).
    assert (Hlen : 0 < length (tokens_of_statement s)) by (rewrite Hts; simpl; lia).
    eapply consumes_pure with (x := false); [apply consumes_matches| |].
    + eapply consumes_app.
      * apply consumes_try_except.
        eapply consumes_then with (x := Some s) (next1 := after_statement);
          [apply Hs; lia|apply consumes_ret|done].
      * rewrite (cons_middle s acc stmts), app_assoc. apply IH. lia.
      * intros h Hh. destruct stmts as [|s' stmts]; [by apply block_end_after|].
        pose proof (Forall_inv Hall) as [He' _].
        destruct (statement_first s' He') as (t' & ts' & Hts' & Ht').
        change (tokens_of_block (s' :: stmts))
          with (tokens_of_statement s' ++ tokens_of_block stmts)%list.
        rewrite Hts'. simpl. unfold after_statement.
        destruct (type t'); revert Ht'; compute_done.
    + intros h _. rewrite Hts. simpl. apply bool_decide_eq_false_2.
      destruct (type t); revert Ht; compute_done.
Qed.

Lemma consumes_parse_statement_list stmts fuel :
  forallb statement_expressible stmts = true → Forall statement_parsed stmts →
  length (tokens_of_block stmts) + 1 < fuel →
  consumes (parse_statement_list fuel) (tokens_of_block stmts) stmts block_end.
Proof.
  intros He Hs Hf. destruct fuel as [|fuel]; [lia|]. cbn [parse_statement_list].
  apply (consumes_statement_list_loop stmts); [|lia].
  rewrite forallb_forall in He. rewrite Forall_forall in Hs. apply Forall_forall.
  intros s Hin. split; [apply He, list_elem_of_In, Hin|by apply Hs].
Qed.

Ltac sizes Hf :=
  cbn [tokens_of_statement length] in Hf;
  repeat (rewrite length_app in Hf; cbn [length] in Hf);
  unfold tokens_of_block; lia.

Ltac dispatch :=
  repeat (at_guard; cbv beta iota).

Lemma every_statement s : statement_expressible s = true → statement_parsed s.
Proof.
  induction s as [ln col x v|ln col x v|ln col nm ps body IH|ln col c th IHth
                 |ln col c th el IHth IHel|ln col c body IH|ln col v|ln col v
                 |ln col cl cc nm args|ln col]
    using StatementNode_induction; intros He fuel Hf; cbn [statement_expressible] in He;
    try discriminate He; unfold parse_statement.
  - cbn [tokens_of_statement] in *. dispatch.
    eapply consumes_then with (next1 := after_statement);
      [apply (consumes_var_declaration fuel); [done|simpl in Hf; lia]
      |apply consumes_ret|done].
  - cbn [tokens_of_statement] in *. dispatch. apply consumes_token. cbv beta iota.
    apply consumes_peek_is; [done|].
    eapply consumes_then with (next1 := after_statement);
      [apply (consumes_assignment fuel); [done|simpl in Hf; lia]
      |apply consumes_ret|done].
  - assert (Hbody : consumes (parse_statement_list fuel) (tokens_of_block body) body
                      block_end).
    { apply consumes_parse_statement_list; [done| |sizes Hf].
      apply Forall_forall. intros s Hin. rewrite Forall_forall in IH.
      rewrite forallb_forall in He. apply IH; [done|]. apply He, list_elem_of_In, Hin. }
    assert (Hps : length ps ≤ fuel).
    { pose proof (separated_length (map (λ p, [name_token p]) ps)) as Hlen.
      rewrite length_map in Hlen.
      etrans; [apply Hlen; apply Forall_fmap, Forall_forall; intros; simpl; lia|].
      sizes Hf. }
    cbn [tokens_of_statement]. dispatch.
    eapply consumes_then with (next1 := after_statement);
      [exact (consumes_function_def fuel (parse_statement_list fuel) ln col nm ps body
               Hps Hbody)|apply consumes_ret|done].
  - apply andb_prop in He as [He _]. apply andb_prop in He as [Hc Hth].
    assert (Hthen : consumes (parse_statement_list fuel) (tokens_of_block th) th
                      block_end).
    { apply consumes_parse_statement_list; [done| |sizes Hf].
      apply Forall_forall. intros s Hin. rewrite Forall_forall in IHth.
      rewrite forallb_forall in Hth. apply IHth; [done|]. apply Hth, list_elem_of_In, Hin. }
    assert (Hcf : length (tokens_of c) < fuel) by sizes Hf.
    cbn [tokens_of_statement]. dispatch.
    eapply consumes_then with (next1 := after_statement);
      [exact (consumes_if_statement fuel (parse_statement_list fuel) ln col c th None
               Hc Hcf Hthen I)|apply consumes_ret|done].
  - apply andb_prop in He as [He Hel]. apply andb_prop in He as [Hc Hth].
    assert (Hthen : consumes (parse_statement_list fuel) (tokens_of_block th) th
                      block_end).
    { apply consumes_parse_statement_list; [done| |sizes Hf].
      apply Forall_forall. intros s Hin. rewrite Forall_forall in IHth.
      rewrite forallb_forall in Hth. apply IHth; [done|]. apply Hth, list_elem_of_In, Hin. }
    assert (Helse : consumes (parse_statement_list fuel) (tokens_of_block el) el
                      block_end).
    { apply consumes_parse_statement_list; [done| |sizes Hf].
      apply Forall_forall. intros s Hin. rewrite Forall_forall in IHel.
      rewrite forallb_forall in Hel. apply IHel; [done|]. apply Hel, list_elem_of_In, Hin. }
    assert (Hcf : length (tokens_of c) < fuel) by sizes Hf.
    cbn [tokens_of_statement]. dispatch.
    eapply consumes_then with (next1 := after_statement);
      [exact (consumes_if_statement fuel (parse_statement_list fuel) ln col c th
               (Some el) Hc Hcf Hthen Helse)|apply consumes_ret|done].
  - apply andb_prop in He as [Hc Hb].
    assert (Hbody : consumes (parse_statement_list fuel) (tokens_of_block body) body
                      block_end).
    { apply consumes_parse_statement_list; [done| |sizes Hf].
      apply Forall_forall. intros s Hin. rewrite Forall_forall in IH.
      rewrite forallb_forall in Hb. apply IH; [done|]. apply Hb, list_elem_of_In, Hin. }
    assert (Hcf : length (tokens_of c) < fuel) by sizes Hf.
    cbn [tokens_of_statement]. dispatch.
    eapply consumes_then with (next1 := after_statement);
      [exact (consumes_while_loop fuel (parse_statement_list fuel) ln col c body
               Hc Hcf Hbody)|apply consumes_ret|done].
  - cbn [tokens_of_statement] in *. dispatch.
    eapply consumes_then with (next1 := after_statement);
      [apply (consumes_return_statement fuel); [done|simpl in Hf; lia]
      |apply consumes_ret|done].
  - assert (Hcf : length (tokens_of v) < fuel) by sizes Hf.
    cbn [tokens_of_statement] in *. dispatch.
    eapply consumes_then with (next1 := after_statement);
      [by apply (consumes_print_statement fuel)|apply consumes_ret|done].
  - apply andb_prop in He as [He Hargs]. apply andb_prop in He as [Hl Hc].
    apply bool_decide_eq_true_1 in Hl as ->. apply bool_decide_eq_true_1 in Hc as ->.
    pose proof (consumes_call fuel cl cc nm args Hargs Hf) as Hcall.
    cbn [tokens_of_statement tokens_of] in *. dispatch. apply consumes_token.
    cbv beta iota.
    apply consumes_peek_is_other; [done|]. apply consumes_peek_is; [done|].
    eapply consumes_then with (x := (cl, cc, nm, args)) (next1 := λ _, True);
      [exact Hcall|apply consumes_ret|done].
Qed.

Lemma expect_last ty t pre printed :
  type t = ty →
  expect ty (standing pre [t] printed) = (Returns t, standing pre [t] printed).
Proof.
  intros Hty. unfold expect. rewrite parser_bind_eq. unfold current, standing.
  cbn [current_token head]. rewrite bool_decide_eq_false_2 by (intros H; by apply H).
  rewrite parser_bind_eq. unfold advance. cbn [tokens pos].
  rewrite lookup_ge_None_2 by (rewrite length_app; simpl; lia). reflexivity.
Qed.

Lemma parse_program_tokens_of_program fuel p printed :
  forallb statement_expressible (statements p) = true →
  length (tokens_of_program p) ≤ fuel →
  parse_program fuel (standing [] (tokens_of_program p) printed)
  = (Returns p,
     standing (mkToken WAKE (VStr "Wake") (program_line p) (program_column p)
               :: tokens_of_block (statements p) ++ [punctuation SLEEP "Sleep"])
       [mkToken EOF VNone 0 0] printed).
Proof.
  intros He Hf. destruct p as [ln col stmts]. unfold tokens_of_program in *.
  cbn [program_line program_column statements] in *.
  cbn [length] in Hf. rewrite length_app in Hf. cbn [length] in Hf.
  assert (Hblock : consumes (parse_statement_list fuel) (tokens_of_block stmts) stmts
                     block_end).
  { apply consumes_parse_statement_list; [done| |lia].
    apply Forall_forall. intros s Hin. apply every_statement.
    rewrite forallb_forall in He. apply He, list_elem_of_In, Hin. }
  set (wake := mkToken WAKE (VStr "Wake") ln col).
  set (sleep := punctuation SLEEP "Sleep"). set (eof := mkToken EOF VNone 0 0).
  assert (Hprefix : consumes
            (let* wake_token := expect WAKE in
             let* stmts := parse_statement_list fuel in
             expect SLEEP >> ret (wake_token, stmts))
            (wake :: tokens_of_block stmts ++ [sleep]) (wake, stmts) (λ _, True)).
  { eapply consumes_cons; [by apply consumes_expect|].
    eapply consumes_app; [exact Hblock| |intros h _; unfold block_end; compute_done].
    eapply consumes_cons; [by apply consumes_expect|apply consumes_ret]. }
  specialize (Hprefix [] eof [] printed I).
  replace ((wake :: tokens_of_block stmts ++ [sleep]) ++ [eof])%list
    with (wake :: tokens_of_block stmts ++ [sleep; eof])%list in Hprefix
    by (simpl; by rewrite <- app_assoc).
  change ([] ++ wake :: tokens_of_block stmts ++ [sleep])%list
    with (wake :: tokens_of_block stmts ++ [sleep])%list in Hprefix.
  unfold parse_program. rewrite !parser_bind_eq in *.
  destruct (expect WAKE _) as [[w|e] p1]; [|discriminate Hprefix].
  rewrite !parser_bind_eq in *.
  destruct (parse_statement_list fuel p1) as [[ss|e] p2]; [|discriminate Hprefix].
  rewrite !parser_bind_eq in *.
  destruct (expect SLEEP p2) as [[u|e] p3]; [|discriminate Hprefix].
  unfold ret in Hprefix. injection Hprefix as -> -> ->.
  rewrite parser_bind_eq, expect_last by done. reflexivity.
Qed.

(** X28: [parse] undoes [tokens_of_program].  A program whose statements
    the parser can build, written out as [Wake], its statements, [Sleep]
    and the end-of-file token, is parsed back to the same tree: no
    statement is dropped or recovered from, and nothing is printed.
    [fuel] need only reach the number of tokens. *)
Theorem parse_tokens_of_program fuel p :
  forallb statement_expressible (statements p) = true →
  length (tokens_of_program p) ≤ fuel →
  parse fuel (tokens_of_program p) = (Returns p, []).
Proof.
  intros He Hf. unfold parse, parse_method, try_except.
  change (Parser_init (tokens_of_program p))
    with (standing [] (tokens_of_program p) []).
  by rewrite (parse_program_tokens_of_program fuel p [] He Hf).
Qed.


(** [Wake  Box x paws 3  Hunt twice(n) { Bring n * 2 }
     Purr (x > 1) { Meow(twice(x)) } Hiss { x paws 0 }
     Chase (x < 5) { x paws x + 1  twice(x) }  Sleep] *)
Definition cat_program : ProgramNode :=
  mkProgramNode 1 1
    [ VarDeclarationNode 2 1 "x" (IntegerNode 0 0 3);
      FunctionDefNode 3 1 "twice" ["n"]
        [ReturnStatementNode 3 17 (BinaryOpNode 0 0 "*" (IdentifierNode 0 0 "n")
                                     (IntegerNode 0 0 2))];
      IfStatementNode 4 1 (BinaryOpNode 0 0 ">" (IdentifierNode 0 0 "x")
                             (IntegerNode 0 0 1))
        [PrintStatementNode 4 14 (FunctionCallNode 0 0 "twice" [IdentifierNode 0 0 "x"])]
        (Some [AssignmentNode 4 39 "x" (IntegerNode 0 0 0)]);
      WhileLoopNode 5 1 (BinaryOpNode 0 0 "<" (IdentifierNode 0 0 "x")
                           (IntegerNode 0 0 5))
        [ AssignmentNode 5 17 "x" (BinaryOpNode 0 0 "+" (IdentifierNode 0 0 "x")
                                     (IntegerNode 0 0 1));
          FunctionCallStatementNode 5 31 5 31 "twice" [IdentifierNode 0 0 "x"] ] ].

Lemma parse_tokens_of_program_witness :
  parse 64 (tokens_of_program cat_program) = (Returns cat_program, []).
Proof. apply parse_tokens_of_program; [reflexivity|vm_compute; lia]. Defined.

End parser_facts.

(** ** The pipeline *)

Module main_facts.
Import ast codegen main.

Section pipeline.
Variable float_of_string : string → spec_float.
Variable str_float : spec_float → string.
#[local] Abbreviation compile := (main.compile float_of_string str_float).

(** C1 (the code does not do it): [parse_statement_list] never lets a
    [ParserError] out, and nothing records the ones it catches.  The
    sources [Wake + Sleep] and [Wake x Box y paws 1 Sleep] each hold a
    syntax error in the statement list; the parser prints it and
    recovers, [compile] returns [True] and the exit status is 0. *)
Theorem recovered_parse_error_is_dropped :
  (∀ fuel p message token,
     fst (parser.parse_statement_list fuel p) ≠ Raises (parser.ParserError message token))
  ∧ printed_by_parser (compile 40 stray_plus_source)
  = Some ["Error: Syntax Error at line 1, column 6: Unexpected token: PLUS";
          "Attempting to recover..."]
  ∧ tree_of (compile 40 stray_plus_source) = Some (mkProgramNode 1 1 [])
  ∧ exit_status (compile 40 stray_plus_source) = Some 0%Z
  ∧ printed_by_parser (compile 40 stray_identifier_source)
    = Some ["Error: Syntax Error at line 1, column 6: Unexpected identifier 'x'. Expected 'paws' or '('";
            "Attempting to recover..."]
  ∧ code_of (compile 40 stray_identifier_source) = Some ["    y = 1"]
  ∧ exit_status (compile 40 stray_identifier_source) = Some 0%Z.
Proof.
  split; [apply parser_facts.parse_statement_list_no_ParserError|].
  repeat split; vm_compute; reflexivity.
Qed.

(** A compilation that went through ran the four phases in order. *)
Lemma compile_Compiled fuel source_code tokens tree tac printed :
  compile fuel source_code = Compiled tokens tree tac printed →
  lexer.tokenize float_of_string source_code = Returns tokens
  ∧ parser.parse fuel tokens = (Returns tree, printed)
  ∧ tac = generate str_float tree.
Proof.
  unfold main.compile.
  destruct (lexer.tokenize float_of_string source_code) as [toks|[]] eqn:Hlex;
    try discriminate.
  destruct (parser.parse fuel toks) as [[tree'|[]] printed'] eqn:Hparse; try discriminate.
  destruct (semantic.analyze tree' _) as [?|[]]; try discriminate.
  by intros [= <- <- <- <-].
Qed.

(** The tree of a compilation that went through is well formed: its
    operators are the texts the lexer attached to the operator tokens. *)
Lemma compiled_tree_well_formed fuel source_code tokens tree tac printed :
  compile fuel source_code = Compiled tokens tree tac printed →
  well_formed tree = true.
Proof.
  intros (Hlex & Hparse & _)%compile_Compiled.
  eapply parser_facts.parse_well_formed; [|exact Hparse].
  by eapply lexer_facts.tokenize_tokens_ok.
Qed.

(** C6: in the code generated for an AST whose operators are operators
    of the language (the AST of the data model; semantic analysis is not
    needed), there are as many [label] instructions as distinct targets
    of [goto] and [if_false], and every label name that is defined or
    jumped to is defined by exactly one [label] instruction.  Every tree
    the parser builds from the tokens of the lexer is such an AST, so the
    code of every compilation that goes through has the property. *)
Theorem labels_match_targets :
  (∀ p, well_formed p = true → labels_consistent (generate str_float p))
  ∧ (∀ fuel source_code tokens tree tac printed,
       compile fuel source_code = Compiled tokens tree tac printed →
       labels_consistent tac).
Proof.
  split; [apply codegen_facts.labels_consistent_generate|].
  intros fuel source_code tokens tree tac printed Hc.
  pose proof (compiled_tree_well_formed _ _ _ _ _ _ Hc) as Hwf.
  apply compile_Compiled in Hc as (_ & _ & ->).
  by apply codegen_facts.labels_consistent_generate.
Qed.

Lemma if_else_source_compiles :
  tree_of (compile 40 if_else_source) = Some if_else_program
  ∧ code_of (compile 40 if_else_source)
    = Some ["    if_false 1 goto L0"; "    print 1"; "    goto L1"; "L0:";
            "    print 2"; "L1:"].
Proof. split; vm_compute; reflexivity. Qed.

(** C7, amended: a conditional whose else block holds at least one
    statement is lowered to the code of its condition [C], followed by
    [if_false C goto L_else], the then-block lowered, [goto L_end],
    [label L_else], the else-block lowered and [label L_end], where
    [L_else] and [L_end] are the next two labels, allocated in this order
    after the condition is lowered.  The source of the spec's scenario
    compiles to the six instructions it lists. *)
Theorem if_else_lowering (ln col : Z) (c : ExpressionNode)
  (th : list StatementNode) (s : StatementNode) (el : list StatementNode)
  (g : CodeGenerator) :
  let C := fst (visit_expression str_float c g) in
  let g1 := snd (visit_expression str_float c g) in
  let L_else := label_name (label_counter g) in
  let L_end := label_name (label_counter g + 1) in
  let g_then :=
    snd (emit "if_false" (Some C) None (Some L_else) (snd (new_label (snd (new_label g1))))) in
  let g_else :=
    snd (emit "label" None None (Some L_else)
           (snd (emit "goto" None None (Some L_end)
                   (snd (for_each (visit_statement str_float) th g_then))))) in
  (label_counter g_then = (label_counter g + 2)%nat
   ∧ temp_counter g_then = temp_counter g1
   ∧ instructions (snd (visit_statement str_float
                          (IfStatementNode ln col c th (Some (s :: el))) g))
     = (instructions g
        ++ emitted (visit_expression str_float c) g
        ++ if_else_code C L_else L_end
             (emitted (for_each (visit_statement str_float) th) g_then)
             (emitted (for_each (visit_statement str_float) (s :: el)) g_else))%list)
  ∧ generate str_float if_else_program
    = if_else_code "1" "L0" "L1"
        [mkTAC "print" (Some "1") None None] [mkTAC "print" (Some "2") None None]
  ∧ code_of (compile 40 if_else_source)
    = Some ["    if_false 1 goto L0"; "    print 1"; "    goto L1"; "L0:";
            "    print 2"; "L1:"].
Proof.
  intros. split; [apply codegen_facts.if_else_shape|].
  split; vm_compute; reflexivity.
Qed.

(** X26: on ASCII source text with no more than
    [lexer.int_max_str_digits] (4300) digits in a row, and with fuel,
    which stands for the recursion limit of the interpreter, above the
    number of characters plus one, [compile] ends with its artefacts or
    fails in the lexical, the syntax or the semantic phase.  The
    [ValueError] of the lexer, the [AttributeError] of the parser and
    the [IndexError] of the analyzer, which its catch-all handler would
    take, do not occur, and no loop or recursion of the lexer or the
    parser outlasts the text. *)
Theorem compile_ends_in_a_phase (fuel : nat) (source_code : string) :
  lexer.ascii_text source_code = true →
  (lexer.longest_digits source_code ≤ lexer.int_max_str_digits)%nat →
  S (String.length source_code) < fuel →
  (∃ tokens tree tac printed, compile fuel source_code = Compiled tokens tree tac printed)
  ∨ compile fuel source_code = Failed Lexical
  ∨ compile fuel source_code = Failed Syntax
  ∨ compile fuel source_code = Failed Semantic.
Proof.
  intros _ Hshort Hfuel. unfold main.compile.
  pose proof (lexer_facts.tokenize_runs False float_of_string source_code ltac:(lia))
    as Hlex.
  destruct (lexer.tokenize float_of_string source_code) as [toks|[message ln col| |]];
    [|by right; left|done..].
  destruct Hlex as [Hstream Hlen].
  pose proof (parser_facts.parse_runs fuel toks Hstream ltac:(lia)) as Hparse.
  destruct (parser.parse fuel toks) as [[tree|[message token| | |]] printed];
    cbn [fst] in Hparse; [|by right; right; left|done..].
  pose proof (semantic_facts.analyze_outcome tree) as Hsem.
  destruct (semantic.analyze tree semantic.SemanticAnalyzer_init) as [r|[e|]];
    [left; eauto|by right; right; right|done].
Qed.

End pipeline.

(** C7, as stated, fails: with an empty else block [Hiss { }] the
    generator takes the branch for a conditional without else, and the
    code is not the six-part sequence, whatever the labels. *)
Lemma empty_else_is_lowered_without_else :
  tree_of (main.compile no_float_of_string no_str_float 40 empty_else_source) = Some empty_else_program
  ∧ generate no_str_float empty_else_program
    = [ mkTAC "if_false" (Some "1") None (Some "L0");
        mkTAC "print" (Some "1") None None;
        mkTAC "label" None None (Some "L0") ]
  ∧ ∀ C L_else L_end,
      generate no_str_float empty_else_program
      ≠ if_else_code C L_else L_end [mkTAC "print" (Some "1") None None] [].
Proof.
  split; [vm_compute; reflexivity|]. split; [vm_compute; reflexivity|].
  intros C L_else L_end H. apply (f_equal length) in H. vm_compute in H. discriminate H.
Qed.

(** C5 (the code does not do it): [new_temp] counts up from [t0] and
    does not look at the names of the program.  The source
    [Wake Box t0 paws 5 Box x paws 1 + 2 Sleep] compiles with exit
    status 0, and the temporary of [1 + 2] is the variable [t0] of the
    program: [t0] is the result of two instructions, no single
    instruction defines it, and the second overwrites the 5 stored in
    the variable. *)
Lemma user_variable_t0_is_written_twice :
  tree_of (main.compile no_float_of_string no_str_float 40 user_t0_source) = Some user_t0_program
  ∧ exit_status (main.compile no_float_of_string no_str_float 40 user_t0_source) = Some 0%Z
  ∧ generate no_str_float user_t0_program
    = [ mkTAC "=" (Some "5") None (Some (temp_name 0));
        mkTAC "+" (Some "1") (Some "2") (Some (temp_name 0));
        mkTAC "=" (Some (temp_name 0)) None (Some "x") ]
  ∧ ¬ (∃ k, ∀ k' d, generate no_str_float user_t0_program !! k' = Some d →
              defines d (temp_name 0) → k' = k).
Proof.
  split; [vm_compute; reflexivity|]. split; [vm_compute; reflexivity|].
  split; [vm_compute; reflexivity|].
  intros [k Hk].
  pose proof (Hk 0%nat (mkTAC "=" (Some "5") None (Some (temp_name 0))) eq_refl eq_refl).
  pose proof (Hk 1%nat (mkTAC "+" (Some "1") (Some "2") (Some (temp_name 0))) eq_refl eq_refl).
  congruence.
Qed.

(** X29 on the program with a function, a call and a loop, at the
    temporary [t2] of the loop condition. *)
Lemma temporaries_defined_once_before_use_witness :
  ∃ k d, generate no_str_float loop_program !! k = Some d
    ∧ defines d (temp_name 2)
    ∧ (∀ k' d', generate no_str_float loop_program !! k' = Some d' →
         defines d' (temp_name 2) → k' = k)
    ∧ (∀ j i, generate no_str_float loop_program !! j = Some i →
         uses i (temp_name 2) → (k < j)%nat).
Proof.
  apply (codegen_facts.temporaries_defined_once_before_use no_str_float loop_program).
  - vm_compute. reflexivity.
  - exists (mkTAC "if_false" (Some (temp_name 2)) None (Some (label_name 1))).
    split; [|left; left; reflexivity].
    apply list_elem_of_lookup. exists 11%nat. vm_compute. reflexivity.
Defined.

(** C6 on the source with a function, a call and a loop: it compiles,
    and the labels of its code agree with its jumps. *)
Lemma labels_match_targets_witness :
  tree_of (main.compile no_float_of_string no_str_float 60 loop_source) = Some loop_program
  ∧ labels_consistent (generate no_str_float loop_program).
Proof.
  split; [vm_compute; reflexivity|].
  eapply (proj2 (labels_match_targets no_float_of_string no_str_float)
            60%nat loop_source _ loop_program _ _).
  vm_compute. reflexivity.
Defined.

(** X14 on the program with a function, a call and a loop. *)
Lemma function_markers_nest_witness :
  function_markers [] (generate no_str_float loop_program) = Some [].
Proof.
  apply (proj1 (codegen_facts.function_markers_nest no_str_float loop_program eq_refl)).
Defined.

Lemma compile_ends_in_a_phase_witness :
  (∃ tokens tree tac printed,
     main.compile no_float_of_string no_str_float 60 "Wake Meow(1) Sleep"
     = Compiled tokens tree tac printed)
  ∨ main.compile no_float_of_string no_str_float 60 "Wake Meow(1) Sleep" = Failed Lexical
  ∨ main.compile no_float_of_string no_str_float 60 "Wake Meow(1) Sleep" = Failed Syntax
  ∨ main.compile no_float_of_string no_str_float 60 "Wake Meow(1) Sleep" = Failed Semantic.
Proof.
  apply (compile_ends_in_a_phase no_float_of_string no_str_float 60 "Wake Meow(1) Sleep");
    [reflexivity|apply Nat.leb_le; reflexivity|simpl; lia].
Defined.

End main_facts.
